(** * PolarSSL multi-precision integers (user/polarssl_sgx/bignum.c)

    A shallow embedding of the MPI library and the proofs of its
    specification.  An MPI is the C struct [{ int s; size_t n; t_uint *p; }]:
    a sign and a little-endian array of limbs.  The limb type [t_uint], the
    limit [POLARSSL_MPI_MAX_LIMBS] and the window size
    [POLARSSL_MPI_WINDOW_SIZE] come from bignum.h and are parameters here:
    [ciL] is [sizeof(t_uint)], so a limb has [biL = ciL << 3] bits.

    Conventions of the embedding:
    - a limb is a [Z] in [0, 2^biL); every C operation on [t_uint] is written
      with its wrap-around ([trunc]);
    - [size_t] values are [nat];
    - the limb buffer [p] is a [list Z] and [n] is its length; [p == NULL]
      is the empty list (the library only allocates non-empty buffers);
    - the allocator always answers: [sgx_mpi_grow] fails only on the
      [POLARSSL_MPI_MAX_LIMBS] test;
    - reading outside a buffer is undefined in C; [limb] reads 0 there and
      [set_nth] writes nothing.  Theorems assume what keeps the code inside
      its buffers;
    - where the C code compares pointers ([X == A]), the function takes the
      answer as a boolean; the names [xa], [xb] say which pointers are equal;
    - a function returning [int] and updating [X] in place returns the new
      [X] and the status; [MPI_CHK] turns this into the error monad [res];
    - unbounded [while] loops take fuel and answer [OutOfFuel] when it is
      used up. *)

From Stdlib Require Import ZArith List Lia Bool Arith.
Import ListNotations.
Local Open Scope Z_scope.

(** ** Return codes *)

Inductive mpi_err : Type :=
| FILE_IO_ERROR
| BAD_INPUT_DATA
| INVALID_CHARACTER
| BUFFER_TOO_SMALL
| NEGATIVE_VALUE
| DIVISION_BY_ZERO
| NOT_ACCEPTABLE
| MALLOC_FAILED
| RNG_FAILED (code : Z).

(** [None] is the return value 0. *)
Definition status : Type := option mpi_err.

Inductive res (A : Type) : Type :=
| Ok (a : A)
| Err (e : mpi_err)
| OutOfFuel.

Arguments Ok {A} a.
Arguments Err {A} e.
Arguments OutOfFuel {A}.

Definition bind {A B : Type} (c : res A) (k : A -> res B) : res B :=
  match c with
  | Ok a => k a
  | Err e => Err e
  | OutOfFuel => OutOfFuel
  end.

Notation "x <- c ;; k" := (bind c (fun x => k))
  (at level 61, c at next level, right associativity).
Notation "' pat <- c ;; k" := (bind c (fun x => match x with pat => k end))
  (at level 61, pat pattern, c at next level, right associativity).

(** [MPI_CHK( f )]: leave through [cleanup] when [f] does not return 0. *)
Definition MPI_CHK {A : Type} (r : A * status) : res A :=
  match r with
  | (a, None) => Ok a
  | (_, Some e) => Err e
  end.

(** The C view of a monadic result: the status alone. *)
Definition status_of {A : Type} (r : res A) : option status :=
  match r with
  | Ok _ => Some None
  | Err e => Some (Some e)
  | OutOfFuel => None
  end.

(** ** The MPI structure *)

Record mpi : Type := mk_mpi { s : Z; p : list Z }.

Definition n (X : mpi) : nat := length (p X).

Definition limb (l : list Z) (i : nat) : Z := nth i l 0.

Fixpoint set_nth {A : Type} (i : nat) (v : A) (l : list A) : list A :=
  match l, i with
  | [], _ => []
  | _ :: t, O => v :: t
  | h :: t, S i' => h :: set_nth i' v t
  end.

(** [for (i = lo + k; i > lo; i--) body(i)] *)
Fixpoint for_down {St : Type} (k lo : nat) (body : nat -> St -> St) (st : St) : St :=
  match k with
  | O => st
  | S k' => for_down k' lo body (body (lo + k)%nat st)
  end.

(** [for (i = lo; i < lo + k; i++) body(i)] *)
Fixpoint for_up {St : Type} (k lo : nat) (body : nat -> St -> St) (st : St) : St :=
  match k with
  | O => st
  | S k' => for_up k' (S lo) body (body lo st)
  end.

(** [for (i = start; i > 0; i--) if (p[i - 1] != 0) break;] gives [i]. *)
Fixpoint top_scan (l : list Z) (i : nat) : nat :=
  match i with
  | O => O
  | S i' => if limb l i' =? 0 then top_scan l i' else i
  end.

(** [for (i = start; i > 0; i--) if (p[i] != 0) break;] gives [i]. *)
Fixpoint top_scan1 (l : list Z) (i : nat) : nat :=
  match i with
  | O => O
  | S i' => if limb l i =? 0 then top_scan1 l i' else i
  end.

Section Model.

(** [sizeof(t_uint)], [POLARSSL_MPI_MAX_LIMBS], [POLARSSL_MPI_WINDOW_SIZE]
    and [POLARSSL_MPI_MAX_SIZE] of bignum.h. *)
Variable ciL : nat.
Variable MAX_LIMBS : nat.
Variable WINDOW_SIZE : nat.
Variable MAX_SIZE : nat.

Definition biL : nat := ciL * 8.
Definition biH : nat := ciL * 4.

Definition base : Z := 2 ^ Z.of_nat biL.

(** Conversion to [t_uint]. *)
Definition trunc (x : Z) : Z := x mod base.

Definition BITS_TO_LIMBS (i : nat) : nat := ((i + biL - 1) / biL)%nat.
Definition CHARS_TO_LIMBS (i : nat) : nat := ((i + ciL - 1) / ciL)%nat.

(** [x << k] and [x >> k] on [t_uint]. *)
Definition shl (x : Z) (k : nat) : Z := trunc (Z.shiftl x (Z.of_nat k)).
Definition shr (x : Z) (k : nat) : Z := Z.shiftr x (Z.of_nat k).

(** [( x >> j ) & 1] *)
Definition bit (x : Z) (j : nat) : Z := Z.land (shr x j) 1.

(** [( z < 0 ) ? -z : z] stored in a [t_uint]. *)
Definition abs_limb (z : Z) : Z := trunc (if z <? 0 then - z else z).
Definition sign_of (z : Z) : Z := if z <? 0 then -1 else 1.

(** ** Lifecycle *)

Definition sgx_mpi_init : mpi := mk_mpi 1 [].

Definition sgx_mpi_free (X : mpi) : mpi := mk_mpi 1 [].

Definition sgx_mpi_grow (X : mpi) (nblimbs : nat) : mpi * status :=
  if (MAX_LIMBS <? nblimbs)%nat then (X, Some MALLOC_FAILED)
  else if (n X <? nblimbs)%nat
       then (mk_mpi (s X) (p X ++ repeat 0 (nblimbs - n X)), None)
       else (X, None).

(** [same] is [X == Y]. *)
Definition sgx_mpi_copy (X Y : mpi) (same : bool) : mpi * status :=
  if same then (X, None)
  else match p Y with
       | [] => (sgx_mpi_free X, None)
       | _ :: _ =>
           let i := S (top_scan1 (p Y) (n Y - 1)) in
           let X1 := mk_mpi (s Y) (p X) in
           match sgx_mpi_grow X1 i with
           | (X2, Some e) => (X2, Some e)
           | (X2, None) =>
               (mk_mpi (s X2) (firstn i (p Y) ++ repeat 0 (n X2 - i)), None)
           end
       end.

Definition sgx_mpi_swap (X Y : mpi) : mpi * mpi := (Y, X).

Definition sgx_mpi_lset (X : mpi) (z : Z) : mpi * status :=
  match sgx_mpi_grow X 1 with
  | (X1, Some e) => (X1, Some e)
  | (X1, None) =>
      (mk_mpi (sign_of z) (set_nth 0 (abs_limb z) (repeat 0 (n X1))), None)
  end.

(** The one-limb view [{ s, 1, p }] the [_int] functions build on the stack. *)
Definition int_view (z : Z) : mpi := mk_mpi (sign_of z) [abs_limb z].

(** ** Bit counts *)

(** The inner loop of [sgx_mpi_lsb] on limb [x], from bit [biL - k]. *)
Fixpoint lsb_limb (x : Z) (k : nat) (count : nat) : option nat :=
  match k with
  | O => None
  | S k' => if negb (bit x (biL - k) =? 0) then Some count
            else lsb_limb x k' (S count)
  end.

Fixpoint lsb_limbs (l : list Z) (count : nat) : nat :=
  match l with
  | [] => O
  | x :: l' => match lsb_limb x biL count with
               | Some c => c
               | None => lsb_limbs l' (count + biL)%nat
               end
  end.

Definition sgx_mpi_lsb (X : mpi) : nat := lsb_limbs (p X) 0.

(** [for (j = biL; j > 0; j--) if (((x >> (j - 1)) & 1) != 0) break;] *)
Fixpoint bit_scan (x : Z) (j : nat) : nat :=
  match j with
  | O => O
  | S j' => if negb (bit x j' =? 0) then j else bit_scan x j'
  end.

Definition sgx_mpi_msb (X : mpi) : nat :=
  let i := top_scan1 (p X) (n X - 1) in
  let j := bit_scan (limb (p X) i) biL in
  (i * biL + j)%nat.

Definition sgx_mpi_size (X : mpi) : nat := Nat.shiftr (sgx_mpi_msb X + 7) 3.

(** ** Comparison *)

(** [for (; i > 0; i--)] comparing limb [i - 1]; [sx] is returned when X wins. *)
Fixpoint cmp_limbs (i : nat) (x y : list Z) (sx : Z) : Z :=
  match i with
  | O => 0
  | S i' => if limb x i' >? limb y i' then sx
            else if limb x i' <? limb y i' then - sx
            else cmp_limbs i' x y sx
  end.

Definition sgx_mpi_cmp_abs (X Y : mpi) : Z :=
  let i := top_scan (p X) (n X) in
  let j := top_scan (p Y) (n Y) in
  if (i =? 0)%nat && (j =? 0)%nat then 0
  else if (j <? i)%nat then 1
  else if (i <? j)%nat then -1
  else cmp_limbs i (p X) (p Y) 1.

Definition sgx_mpi_cmp_mpi (X Y : mpi) : Z :=
  let i := top_scan (p X) (n X) in
  let j := top_scan (p Y) (n Y) in
  if (i =? 0)%nat && (j =? 0)%nat then 0
  else if (j <? i)%nat then s X
  else if (i <? j)%nat then - s Y
  else if (s X >? 0) && (s Y <? 0) then 1
  else if (s Y >? 0) && (s X <? 0) then -1
  else cmp_limbs i (p X) (p Y) (s X).

Definition sgx_mpi_cmp_int (X : mpi) (z : Z) : Z :=
  sgx_mpi_cmp_mpi X (int_view z).

(** Sequencing of calls that update the same destination: on a non-zero
    status the destination is left as the failing call left it. *)
Definition and_then (r : mpi * status) (k : mpi -> mpi * status) : mpi * status :=
  match r with
  | (X, None) => k X
  | (X, Some e) => (X, Some e)
  end.

Notation "x <~ c ;; k" := (and_then c (fun x => k))
  (at level 61, c at next level, right associativity).

(** ** Shifts *)

Definition sgx_mpi_shift_l (X : mpi) (count : nat) : mpi * status :=
  let v0 := (count / biL)%nat in
  let t1 := Nat.land count (biL - 1) in
  let i := (sgx_mpi_msb X + count)%nat in
  X1 <~ (if (n X * biL <? i)%nat then sgx_mpi_grow X (BITS_TO_LIMBS i)
         else (X, None)) ;;
  (* shift by count / limb_size *)
  let p1 :=
    if (0 <? v0)%nat then
      let l1 := for_down (n X1 - v0) v0
                  (fun i l => set_nth (i - 1) (limb l (i - v0 - 1)) l) (p X1) in
      for_down (Nat.min v0 (n X1)) 0 (fun i l => set_nth (i - 1) 0 l) l1
    else p X1 in
  (* shift by count % limb_size *)
  let p2 :=
    if (0 <? t1)%nat then
      fst (for_up (n X1 - v0) v0
             (fun i '(l, r0) =>
                let r1 := shr (limb l i) (biL - t1) in
                (set_nth i (Z.lor (shl (limb l i) t1) r0) l, r1))
             (p1, 0))
    else p1 in
  (mk_mpi (s X1) p2, None).

Definition sgx_mpi_shift_r (X : mpi) (count : nat) : mpi * status :=
  let v0 := (count / biL)%nat in
  let v1 := Nat.land count (biL - 1) in
  if (n X <? v0)%nat || ((v0 =? n X)%nat && (0 <? v1)%nat)
  then sgx_mpi_lset X 0
  else
    let p1 :=
      if (0 <? v0)%nat then
        let l1 := for_up (n X - v0) 0
                    (fun i l => set_nth i (limb l (i + v0)) l) (p X) in
        for_up v0 (n X - v0) (fun i l => set_nth i 0 l) l1
      else p X in
    let p2 :=
      if (0 <? v1)%nat then
        fst (for_down (n X) 0
               (fun i '(l, r0) =>
                  let r1 := shl (limb l (i - 1)) (biL - v1) in
                  (set_nth (i - 1) (Z.lor (shr (limb l (i - 1)) v1) r0) l, r1))
               (p1, 0))
      else p1 in
    (mk_mpi (s X) p2, None).

(** ** Addition and subtraction *)

(** One round of the main loop of [sgx_mpi_add_abs].  [alias] says that [o]
    and [p] point into the same buffer (X == A == B), so [*o] is read from
    the buffer being written. *)
Definition add_abs_step (alias : bool) (o : list Z) (i : nat)
    (st : list Z * Z) : list Z * Z :=
  let '(l, c) := st in
  let x1 := trunc (limb l i + c) in
  let c1 := if x1 <? c then 1 else 0 in
  let l1 := set_nth i x1 l in
  let x2 := trunc (x1 + limb (if alias then l1 else o) i) in
  let l2 := set_nth i x2 l1 in
  (l2, c1 + (if x2 <? limb (if alias then l2 else o) i then 1 else 0)).

(** [while( c != 0 )] of [sgx_mpi_add_abs]; it leaves at the latest on the
    limb it has just allocated, hence within [S (n X)] rounds. *)
Fixpoint add_abs_carry (k : nat) (X : mpi) (i : nat) (c : Z) : mpi * status :=
  if c =? 0 then (X, None)
  else match k with
       | O => (X, None)
       | S k' =>
           X1 <~ (if (n X <=? i)%nat then sgx_mpi_grow X (i + 1)
                  else (X, None)) ;;
           let x := trunc (limb (p X1) i + c) in
           add_abs_carry k' (mk_mpi (s X1) (set_nth i x (p X1))) (S i)
             (if x <? c then 1 else 0)
       end.

Definition sgx_mpi_add_abs (X A B : mpi) (xa xb : bool) : mpi * status :=
  (* if( X == B ) { T = A; A = X; B = T; } *)
  let A1 := if xb then X else A in
  let B1 := if xb then A else B in
  let xa1 := if xb then true else xa in
  let xb1 := if xb then xa else false in
  X1 <~ (if negb xa1 then sgx_mpi_copy X A1 false else (X, None)) ;;
  let X2 := mk_mpi 1 (p X1) in
  let Bp := if xb1 then p X2 else p B1 in
  let j := top_scan Bp (length Bp) in
  X3 <~ sgx_mpi_grow X2 j ;;
  let '(l, c) := for_up j 0 (add_abs_step xb1 (p B1)) (p X3, 0) in
  add_abs_carry (S (length l)) (mk_mpi (s X3) l) j c.

Definition sub_hlp_step (sl : list Z) (i : nat) (st : list Z * Z) : list Z * Z :=
  let '(d, c) := st in
  let z := if limb d i <? c then 1 else 0 in
  let x1 := trunc (limb d i - c) in
  let c1 := (if x1 <? limb sl i then 1 else 0) + z in
  (set_nth i (trunc (x1 - limb sl i)) d, c1).

(** [while( c != 0 )] of [sgx_mpi_sub_hlp], as far as the buffer goes. *)
Fixpoint sub_hlp_borrow (k : nat) (d : list Z) (i : nat) (c : Z) : list Z :=
  if c =? 0 then d
  else match k with
       | O => d
       | S k' =>
           let z := if limb d i <? c then 1 else 0 in
           sub_hlp_borrow k' (set_nth i (trunc (limb d i - c)) d) (S i) z
       end.

Definition sgx_mpi_sub_hlp (cnt : nat) (sl d : list Z) : list Z :=
  let '(d1, c) := for_up cnt 0 (sub_hlp_step sl) (d, 0) in
  sub_hlp_borrow (length d1 - cnt) d1 cnt c.

Definition sgx_mpi_sub_abs (X A B : mpi) (xa xb : bool) : mpi * status :=
  if sgx_mpi_cmp_abs A B <? 0 then (X, Some NEGATIVE_VALUE)
  else
    (* if( X == B ) { copy( &TB, B ); B = &TB; } *)
    match (if xb then sgx_mpi_copy sgx_mpi_init B false else (B, None)) with
    | (_, Some e) => (X, Some e)
    | (B1, None) =>
        X1 <~ (if negb xa then sgx_mpi_copy X A false else (X, None)) ;;
        let X2 := mk_mpi 1 (p X1) in
        let k := top_scan (p B1) (n B1) in
        (mk_mpi (s X2) (sgx_mpi_sub_hlp k (p B1) (p X2)), None)
    end.

Definition set_sign (v : Z) (X : mpi) : mpi := mk_mpi v (p X).

Definition sgx_mpi_add_mpi (X A B : mpi) (xa xb : bool) : mpi * status :=
  let s0 := s A in
  if s A * s B <? 0 then
    if sgx_mpi_cmp_abs A B >=? 0 then
      X1 <~ sgx_mpi_sub_abs X A B xa xb ;; (set_sign s0 X1, None)
    else
      X1 <~ sgx_mpi_sub_abs X B A xb xa ;; (set_sign (- s0) X1, None)
  else
    X1 <~ sgx_mpi_add_abs X A B xa xb ;; (set_sign s0 X1, None).

Definition sgx_mpi_sub_mpi (X A B : mpi) (xa xb : bool) : mpi * status :=
  let s0 := s A in
  if s A * s B >? 0 then
    if sgx_mpi_cmp_abs A B >=? 0 then
      X1 <~ sgx_mpi_sub_abs X A B xa xb ;; (set_sign s0 X1, None)
    else
      X1 <~ sgx_mpi_sub_abs X B A xb xa ;; (set_sign (- s0) X1, None)
  else
    X1 <~ sgx_mpi_add_abs X A B xa xb ;; (set_sign s0 X1, None).

Definition sgx_mpi_add_int (X A : mpi) (b : Z) (xa : bool) : mpi * status :=
  sgx_mpi_add_mpi X A (int_view b) xa false.

Definition sgx_mpi_sub_int (X A : mpi) (b : Z) (xa : bool) : mpi * status :=
  sgx_mpi_sub_mpi X A (int_view b) xa false.

(** ** Multiplication *)

(** Modelled from the spec: the macros [MULADDC_INIT], [MULADDC_CORE] and
    [MULADDC_STOP] of bn_mul.h are missing; one core step is
    [tmp = a[i]*b + d[i] + carry; d[i] = low(tmp); carry = high(tmp)]. *)
Definition MULADDC_CORE (b : Z) (sl : list Z) (off : nat) (k : nat)
    (st : list Z * Z) : list Z * Z :=
  let '(d, c) := st in
  let tmp := limb sl k * b + limb d (off + k) + c in
  (set_nth (off + k)%nat (tmp mod base) d, tmp / base).

(** [do { *d += c; c = ( *d < c ); d++; } while( c != 0 );] as far as the
    buffer goes. *)
Fixpoint mul_hlp_carry (k : nat) (d : list Z) (i : nat) (c : Z) : list Z :=
  match k with
  | O => d
  | S k' =>
      let x := trunc (limb d i + c) in
      let c' := if x <? c then 1 else 0 in
      let d' := set_nth i x d in
      if c' =? 0 then d' else mul_hlp_carry k' d' (S i) c'
  end.

(** [sgx_mpi_mul_hlp( i, s, d, b )] where [d] points at limb [off] of the
    buffer [dl]; the unrolled loops run [MULADDC_CORE] [i] times in all. *)
Definition sgx_mpi_mul_hlp (i : nat) (sl dl : list Z) (off : nat) (b : Z) : list Z :=
  let '(d1, c) := for_up i 0 (MULADDC_CORE b sl off) (dl, 0) in
  mul_hlp_carry (length d1 - (off + i)) d1 (off + i) c.

Definition sgx_mpi_mul_mpi (X A B : mpi) (xa xb : bool) : mpi * status :=
  match (if xa then sgx_mpi_copy sgx_mpi_init A false else (A, None)) with
  | (_, Some e) => (X, Some e)
  | (A1, None) =>
      match (if xb then sgx_mpi_copy sgx_mpi_init B false else (B, None)) with
      | (_, Some e) => (X, Some e)
      | (B1, None) =>
          let i := top_scan (p A1) (n A1) in
          let j := top_scan (p B1) (n B1) in
          X1 <~ sgx_mpi_grow X (i + j) ;;
          X2 <~ sgx_mpi_lset X1 0 ;;
          let l := for_down j 0
                     (fun j d => sgx_mpi_mul_hlp i (p A1) d (j - 1)
                                   (limb (p B1) (j - 1)))
                     (p X2) in
          (mk_mpi (s A1 * s B1) l, None)
      end
  end.

(** [p[0] = b] converts the [t_sint] argument to [t_uint]. *)
Definition sgx_mpi_mul_int (X A : mpi) (b : Z) (xa : bool) : mpi * status :=
  sgx_mpi_mul_mpi X A (mk_mpi 1 [trunc b]) xa false.

(** ** Division *)

Fixpoint for_down_res {St : Type} (k lo : nat) (body : nat -> St -> res St)
    (st : St) : res St :=
  match k with
  | O => Ok st
  | S k' => st' <- body (lo + k)%nat st ;; for_down_res k' lo body st'
  end.

Definition set_limb (X : mpi) (i : nat) (v : Z) : mpi :=
  mk_mpi (s X) (set_nth i v (p X)).

(** [while( r >= d && r < m ) q--, r += d;] *)
Fixpoint qrnnd_fix (fuel : nat) (d m q r : Z) : res (Z * Z) :=
  if (r >=? d) && (r <? m) then
    match fuel with
    | O => OutOfFuel
    | S f => qrnnd_fix f d m (trunc (q - 1)) (trunc (r + d))
    end
  else Ok (q, r).

(** One half of the [__udiv_qrnnd_c] block: the quotient digit of [num]
    (followed by the half limb [lo]) by [d], and the remainder. *)
Definition qrnnd_half (fuel : nat) (d d0 d1 num lo : Z) : res (Z * Z) :=
  let q := num / d1 in
  let r := trunc (num - trunc (d1 * q)) in
  let r := shl r biH in
  let r := Z.lor r lo in
  let m := trunc (q * d0) in
  '(q, r) <- (if r <? m
              then qrnnd_fix fuel d m (trunc (q - 1)) (trunc (r + d))
              else Ok (q, r)) ;;
  Ok (q, trunc (r - m)).

(** The block from gmp/longlong.h that estimates [Z.p[i - t - 1]]; it is the
    code compiled when [POLARSSL_HAVE_UDBL] is defined, the double-limb
    division being disabled by [#if 0]. *)
Definition udiv_qrnnd (fuel : nat) (x1 x0 d : Z) : res Z :=
  let d0 := shr (shl d biH) biH in
  let d1 := shr d biH in
  '(q1, r1) <- qrnnd_half fuel d d0 d1 x1 (shr x0 biH) ;;
  '(q0, r0) <- qrnnd_half fuel d d0 d1 r1 (shr (shl x0 biH) biH) ;;
  Ok (Z.lor (shl q1 biH) q0).

(** [while( cmp_mpi( &X, &Y ) >= 0 ) { Z.p[n - t]++; X -= Y; }] *)
Fixpoint div_first (fuel : nat) (Y : mpi) (k : nat) (X Z : mpi) : res (mpi * mpi) :=
  if sgx_mpi_cmp_mpi X Y >=? 0 then
    match fuel with
    | O => OutOfFuel
    | S f =>
        let Z1 := set_limb Z k (trunc (limb (p Z) k + 1)) in
        X1 <- MPI_CHK (sgx_mpi_sub_mpi X X Y true false) ;;
        div_first f Y k X1 Z1
    end
  else Ok (X, Z).

(** The [do ... while( cmp_mpi( &T1, &T2 ) > 0 )] that corrects the estimate;
    [k] is [i - t - 1]. *)
Fixpoint div_correct (fuel : nat) (X Y : mpi) (t i k : nat) (Z T1 T2 : mpi)
    : res (mpi * mpi * mpi) :=
  match fuel with
  | O => OutOfFuel
  | S f =>
      let Z1 := set_limb Z k (trunc (limb (p Z) k - 1)) in
      T1a <- MPI_CHK (sgx_mpi_lset T1 0) ;;
      let T1b := set_limb T1a 0 (if (t <? 1)%nat then 0 else limb (p Y) (t - 1)) in
      let T1c := set_limb T1b 1 (limb (p Y) t) in
      T1d <- MPI_CHK (sgx_mpi_mul_int T1c T1c (limb (p Z1) k) true) ;;
      T2a <- MPI_CHK (sgx_mpi_lset T2 0) ;;
      let T2b := set_limb T2a 0 (if (i <? 2)%nat then 0 else limb (p X) (i - 2)) in
      let T2c := set_limb T2b 1 (if (i <? 1)%nat then 0 else limb (p X) (i - 1)) in
      let T2d := set_limb T2c 2 (limb (p X) i) in
      if sgx_mpi_cmp_mpi T1d T2d >? 0
      then div_correct f X Y t i k Z1 T1d T2d
      else Ok (Z1, T1d, T2d)
  end.

(** One round of [for( i = n; i > t; i-- )]. *)
Definition div_step (fuel : nat) (Y : mpi) (t : nat) (i : nat)
    (st : mpi * mpi * mpi * mpi) : res (mpi * mpi * mpi * mpi) :=
  let '(X, Z, T1, T2) := st in
  let k := (i - t - 1)%nat in
  q <- (if limb (p X) i >=? limb (p Y) t then Ok (trunc (Z.lnot 0))
        else udiv_qrnnd fuel (limb (p X) i) (limb (p X) (i - 1)) (limb (p Y) t)) ;;
  let Z1 := set_limb Z k q in
  let Z2 := set_limb Z1 k (trunc (limb (p Z1) k + 1)) in
  '(Z3, T1a, T2a) <- div_correct fuel X Y t i k Z2 T1 T2 ;;
  T1b <- MPI_CHK (sgx_mpi_mul_int T1a Y (limb (p Z3) k) false) ;;
  T1c <- MPI_CHK (sgx_mpi_shift_l T1b (biL * k)) ;;
  X1 <- MPI_CHK (sgx_mpi_sub_mpi X X T1c true false) ;;
  if sgx_mpi_cmp_int X1 0 <? 0 then
    T1d <- MPI_CHK (sgx_mpi_copy T1c Y false) ;;
    T1e <- MPI_CHK (sgx_mpi_shift_l T1d (biL * k)) ;;
    X2 <- MPI_CHK (sgx_mpi_add_mpi X1 X1 T1e true false) ;;
    Ok (X2, set_limb Z3 k (trunc (limb (p Z3) k - 1)), T1e, T2a)
  else Ok (X1, Z3, T1c, T2a).

(** [qnull] and [rnull] say that [Q], [R] are NULL; [ra] is [R == A].
    [Q] and [R] are otherwise distinct from [A] and [B] and from each other. *)
Definition sgx_mpi_div_mpi (fuel : nat) (Q R A B : mpi) (qnull rnull ra : bool)
    : res (mpi * mpi) :=
  if sgx_mpi_cmp_int B 0 =? 0 then Err DIVISION_BY_ZERO
  else if sgx_mpi_cmp_abs A B <? 0 then
    Q1 <- (if qnull then Ok Q else MPI_CHK (sgx_mpi_lset Q 0)) ;;
    R1 <- (if rnull then Ok R else MPI_CHK (sgx_mpi_copy R A ra)) ;;
    Ok (Q1, R1)
  else
    X <- MPI_CHK (sgx_mpi_copy sgx_mpi_init A false) ;;
    Y <- MPI_CHK (sgx_mpi_copy sgx_mpi_init B false) ;;
    let X := set_sign 1 X in
    let Y := set_sign 1 Y in
    Z <- MPI_CHK (sgx_mpi_grow sgx_mpi_init (n A + 2)) ;;
    Z <- MPI_CHK (sgx_mpi_lset Z 0) ;;
    T1 <- MPI_CHK (sgx_mpi_grow sgx_mpi_init 2) ;;
    T2 <- MPI_CHK (sgx_mpi_grow sgx_mpi_init 3) ;;
    let k := (sgx_mpi_msb Y mod biL)%nat in
    '(k, X, Y) <- (if (k <? biL - 1)%nat then
                     let k := (biL - 1 - k)%nat in
                     X <- MPI_CHK (sgx_mpi_shift_l X k) ;;
                     Y <- MPI_CHK (sgx_mpi_shift_l Y k) ;;
                     Ok (k, X, Y)
                   else Ok (O, X, Y)) ;;
    let nn := (n X - 1)%nat in
    let t := (n Y - 1)%nat in
    Y <- MPI_CHK (sgx_mpi_shift_l Y (biL * (nn - t))) ;;
    '(X, Z) <- div_first fuel Y (nn - t) X Z ;;
    Y <- MPI_CHK (sgx_mpi_shift_r Y (biL * (nn - t))) ;;
    '(X, Z, T1, T2) <- for_down_res (nn - t) t (div_step fuel Y t) (X, Z, T1, T2) ;;
    Q1 <- (if qnull then Ok Q
           else Q1 <- MPI_CHK (sgx_mpi_copy Q Z false) ;;
                Ok (set_sign (s A * s B) Q1)) ;;
    R1 <- (if rnull then Ok R
           else X <- MPI_CHK (sgx_mpi_shift_r X k) ;;
                let X := set_sign (s A) X in
                R1 <- MPI_CHK (sgx_mpi_copy R X false) ;;
                Ok (if sgx_mpi_cmp_int R1 0 =? 0 then set_sign 1 R1 else R1)) ;;
    Ok (Q1, R1).

Definition sgx_mpi_div_int (fuel : nat) (Q R A : mpi) (b : Z)
    (qnull rnull ra : bool) : res (mpi * mpi) :=
  sgx_mpi_div_mpi fuel Q R A (int_view b) qnull rnull ra.

(** [while( cmp_int( R, 0 ) < 0 ) R += B;] *)
Fixpoint mod_add_back (fuel : nat) (B R : mpi) : res mpi :=
  if sgx_mpi_cmp_int R 0 <? 0 then
    match fuel with
    | O => OutOfFuel
    | S f => R1 <- MPI_CHK (sgx_mpi_add_mpi R R B true false) ;; mod_add_back f B R1
    end
  else Ok R.

(** [while( cmp_mpi( R, B ) >= 0 ) R -= B;] *)
Fixpoint mod_sub_down (fuel : nat) (B R : mpi) : res mpi :=
  if sgx_mpi_cmp_mpi R B >=? 0 then
    match fuel with
    | O => OutOfFuel
    | S f => R1 <- MPI_CHK (sgx_mpi_sub_mpi R R B true false) ;; mod_sub_down f B R1
    end
  else Ok R.

(** [ra] is [R == A]; [R] and [B] are distinct. *)
Definition sgx_mpi_mod_mpi (fuel : nat) (R A B : mpi) (ra : bool) : res mpi :=
  if sgx_mpi_cmp_int B 0 <? 0 then Err NEGATIVE_VALUE
  else
    '(_, R1) <- sgx_mpi_div_mpi fuel sgx_mpi_init R A B true false ra ;;
    R2 <- mod_add_back fuel B R1 ;;
    mod_sub_down fuel B R2.

Definition sgx_mpi_mod_int (A : mpi) (b : Z) : res Z :=
  if b =? 0 then Err DIVISION_BY_ZERO
  else if b <? 0 then Err NEGATIVE_VALUE
  else if b =? 1 then Ok 0
  else if b =? 2 then Ok (Z.land (limb (p A) 0) 1)
  else
    let y := for_down (n A) 0
               (fun i y =>
                  let x := limb (p A) (i - 1) in
                  let y := Z.lor (shl y biH) (shr x biH) in
                  let z := y / b in
                  let y := trunc (y - trunc (z * b)) in
                  let x := shl x biH in
                  let y := Z.lor (shl y biH) (shr x biH) in
                  let z := y / b in
                  trunc (y - trunc (z * b)))
               0 in
    Ok (if (s A <? 0) && negb (y =? 0) then trunc (b - y) else y).

(** ** Montgomery multiplication *)

(** [for( i = biL; i >= 8; i /= 2 ) x *= ( 2 - ( m0 * x ) );]  The counter
    halves, so [biL] rounds are more than the loop can make. *)
Fixpoint montg_loop (k i : nat) (m0 x : Z) : Z :=
  match k with
  | O => x
  | S k' => if (8 <=? i)%nat
            then montg_loop k' (i / 2)%nat m0 (trunc (x * (2 - trunc (m0 * x))))
            else x
  end.

Definition sgx_mpi_montg_init (N : mpi) : Z :=
  let m0 := limb (p N) 0 in
  let x := m0 in
  let x := trunc (x + shl (Z.land (trunc (m0 + 2)) 4) 1) in
  let x := montg_loop biL biL m0 x in
  trunc (trunc (Z.lnot x) + 1).

(** [memcpy( dst, src, cnt * ciL )] on limb buffers. *)
Definition memcpy_limbs (dst src : list Z) (cnt : nat) : list Z :=
  for_up cnt 0 (fun k l => set_nth k (limb src k) l) dst.

(** One round of the loop of [sgx_mpi_montmul]; [d] is [T->p + i]. *)
Definition montmul_step (A B N : mpi) (mm : Z) (m : nat) (i : nat)
    (tl : list Z) : list Z :=
  let u0 := limb (p A) i in
  let u1 := trunc (trunc (limb tl i + trunc (u0 * limb (p B) 0)) * mm) in
  let tl1 := sgx_mpi_mul_hlp m (p B) tl i u0 in
  let tl2 := sgx_mpi_mul_hlp (n N) (p N) tl1 i u1 in
  let tl3 := set_nth i u0 tl2 in
  set_nth (i + 1 + (n N + 1)) 0 tl3.

(** Returns the new [A] and the scratch buffer [T] as it is left. *)
Definition sgx_mpi_montmul (A B N : mpi) (mm : Z) (T : mpi) : mpi * mpi :=
  let tl := repeat 0 (n T) in
  let nn := n N in
  let m := if (n B <? nn)%nat then n B else nn in
  let tl1 := for_up nn 0 (montmul_step A B N mm m) tl in
  let A1 := mk_mpi (s A) (memcpy_limbs (p A) (skipn nn tl1) (nn + 1)) in
  if sgx_mpi_cmp_abs A1 N >=? 0
  then (mk_mpi (s A1) (sgx_mpi_sub_hlp nn (p N) (p A1)), mk_mpi (s T) tl1)
  else (A1, mk_mpi (s T) (sgx_mpi_sub_hlp nn (p A1) tl1)).

Definition sgx_mpi_montred (A N : mpi) (mm : Z) (T : mpi) : mpi * mpi :=
  sgx_mpi_montmul A (mk_mpi 1 [1]) N mm T.

(** ** Sliding-window exponentiation *)

(** [memset( W, 0, sizeof( W ) )] leaves every entry with [s = 0], [p = NULL]. *)
Definition W_zero : mpi := mk_mpi 0 [].

Definition W_get (W : list mpi) (i : nat) : mpi := nth i W W_zero.

(** [k] successive [sgx_mpi_montmul( X, X, N, mm, &T )]. *)
Fixpoint montsqr_times (k : nat) (N : mpi) (mm : Z) (XT : mpi * mpi) : mpi * mpi :=
  match k with
  | O => XT
  | S k' => montsqr_times k' N mm (sgx_mpi_montmul (fst XT) (fst XT) N mm (snd XT))
  end.

(** The table [W[j + 1 .. (1 << wsize) - 1]]: [W[i] = W[i - 1] * W[1]]. *)
Fixpoint exp_table (k i : nat) (N : mpi) (mm : Z) (WT : list mpi * mpi)
    : res (list mpi * mpi) :=
  match k with
  | O => Ok WT
  | S k' =>
      let '(W, T) := WT in
      Wi <- MPI_CHK (sgx_mpi_grow (W_get W i) (n N + 1)) ;;
      Wi <- MPI_CHK (sgx_mpi_copy Wi (W_get W (i - 1)) false) ;;
      let '(Wi, T) := sgx_mpi_montmul Wi (W_get W 1) N mm T in
      exp_table k' (S i) N mm (set_nth i Wi W, T)
  end.

Record exp_state : Type := mk_exp_state {
  e_nblimbs : nat; e_bufsize : nat; e_nbits : nat; e_wbits : nat;
  e_state : Z; e_X : mpi; e_T : mpi
}.

(** The [while( 1 )] scanning the exponent; it reads each bit of [E] once. *)
Fixpoint exp_scan (fuel : nat) (E N : mpi) (mm : Z) (W : list mpi) (wsize : nat)
    (st : exp_state) : res exp_state :=
  match fuel with
  | O => OutOfFuel
  | S f =>
      if (e_bufsize st =? 0)%nat && (e_nblimbs st =? 0)%nat then Ok st
      else
        let nblimbs := if (e_bufsize st =? 0)%nat then (e_nblimbs st - 1)%nat
                       else e_nblimbs st in
        let bufsize := if (e_bufsize st =? 0)%nat then biL else e_bufsize st in
        let bufsize := (bufsize - 1)%nat in
        let ei := Z.land (shr (limb (p E) nblimbs) bufsize) 1 in
        if (ei =? 0) && (e_state st =? 0) then
          exp_scan f E N mm W wsize
            (mk_exp_state nblimbs bufsize (e_nbits st) (e_wbits st)
               (e_state st) (e_X st) (e_T st))
        else if (ei =? 0) && (e_state st =? 1) then
          let '(X, T) := sgx_mpi_montmul (e_X st) (e_X st) N mm (e_T st) in
          exp_scan f E N mm W wsize
            (mk_exp_state nblimbs bufsize (e_nbits st) (e_wbits st)
               (e_state st) X T)
        else
          let nbits := S (e_nbits st) in
          let wbits := Nat.lor (e_wbits st)
                         (Nat.shiftl (Z.to_nat ei) (wsize - nbits)) in
          if (nbits =? wsize)%nat then
            let '(X, T) := montsqr_times wsize N mm (e_X st, e_T st) in
            let '(X, T) := sgx_mpi_montmul X (W_get W wbits) N mm T in
            exp_scan f E N mm W wsize
              (mk_exp_state nblimbs bufsize 0 0 (2 - 1) X T)
          else
            exp_scan f E N mm W wsize
              (mk_exp_state nblimbs bufsize nbits wbits 2 (e_X st) (e_T st))
  end.

(** [for( i = 0; i < nbits; i++ )]: the bits left in the last window. *)
Fixpoint exp_tail (k : nat) (N : mpi) (mm : Z) (W : list mpi) (wsize : nat)
    (wbits : nat) (XT : mpi * mpi) : mpi * mpi :=
  match k with
  | O => XT
  | S k' =>
      let '(X, T) := sgx_mpi_montmul (fst XT) (fst XT) N mm (snd XT) in
      let wbits := Nat.shiftl wbits 1 in
      let XT1 := if negb (Nat.land wbits (Nat.shiftl 1 wsize) =? 0)%nat
                 then sgx_mpi_montmul X (W_get W 1) N mm T
                 else (X, T) in
      exp_tail k' N mm W wsize wbits XT1
  end.

(** [RR] is the cache slot [_RR] ([None] for a NULL pointer); [xa] is
    [X == A].  The result is the new [X] and the slot. *)
Definition sgx_mpi_exp_mod (fuel : nat) (X A E N : mpi) (RR : option mpi)
    (xa : bool) : res (mpi * option mpi) :=
  if (sgx_mpi_cmp_int N 0 <? 0) || (Z.land (limb (p N) 0) 1 =? 0)
  then Err BAD_INPUT_DATA
  else if sgx_mpi_cmp_int E 0 <? 0 then Err BAD_INPUT_DATA
  else
    let mm := sgx_mpi_montg_init N in
    let W := repeat W_zero (Nat.shiftl 2 WINDOW_SIZE) in
    let i := sgx_mpi_msb E in
    let wsize := if (671 <? i)%nat then 6%nat else if (239 <? i)%nat then 5%nat
                 else if (79 <? i)%nat then 4%nat else if (23 <? i)%nat then 3%nat
                 else 1%nat in
    let wsize := if (WINDOW_SIZE <? wsize)%nat then WINDOW_SIZE else wsize in
    let j := (n N + 1)%nat in
    X <- MPI_CHK (sgx_mpi_grow X j) ;;
    W1 <- MPI_CHK (sgx_mpi_grow (W_get W 1) j) ;;
    T <- MPI_CHK (sgx_mpi_grow sgx_mpi_init (j * 2)) ;;
    (* compensate for negative A (and correct at the end) *)
    let A := if xa then X else A in
    let neg := s A =? -1 in
    A <- (if neg then Apos <- MPI_CHK (sgx_mpi_copy sgx_mpi_init A false) ;;
                      Ok (set_sign 1 Apos)
          else Ok A) ;;
    (* if 1st call, pre-compute R^2 mod N *)
    let first := match RR with None => true | Some c => (n c =? 0)%nat end in
    '(RR1, slot) <-
       (if first then
          R0 <- MPI_CHK (sgx_mpi_lset sgx_mpi_init 1) ;;
          R0 <- MPI_CHK (sgx_mpi_shift_l R0 (n N * 2 * biL)) ;;
          R0 <- sgx_mpi_mod_mpi fuel R0 R0 N true ;;
          Ok (R0, match RR with None => None | Some _ => Some R0 end)
        else Ok (match RR with Some c => c | None => sgx_mpi_init end, RR)) ;;
    (* W[1] = A * R^2 * R^-1 mod N = A * R mod N *)
    W1 <- (if sgx_mpi_cmp_mpi A N >=? 0 then sgx_mpi_mod_mpi fuel W1 A N false
           else MPI_CHK (sgx_mpi_copy W1 A false)) ;;
    let '(W1, T) := sgx_mpi_montmul W1 RR1 N mm T in
    let W := set_nth 1 W1 W in
    (* X = R^2 * R^-1 mod N = R mod N *)
    X <- MPI_CHK (sgx_mpi_copy X RR1 false) ;;
    let '(X, T) := sgx_mpi_montred X N mm T in
    '(W, T) <-
       (if (1 <? wsize)%nat then
          let j := Nat.shiftl 1 (wsize - 1) in
          Wj <- MPI_CHK (sgx_mpi_grow (W_get W j) (n N + 1)) ;;
          Wj <- MPI_CHK (sgx_mpi_copy Wj (W_get W 1) false) ;;
          let '(Wj, T) := montsqr_times (wsize - 1) N mm (Wj, T) in
          exp_table (Nat.shiftl 1 wsize - (j + 1)) (j + 1) N mm (set_nth j Wj W, T)
        else Ok (W, T)) ;;
    st <- exp_scan fuel E N mm W wsize (mk_exp_state (n E) 0 0 0 0 X T) ;;
    (* process the remaining bits *)
    let '(X, T) := exp_tail (e_nbits st) N mm W wsize (e_wbits st)
                     (e_X st, e_T st) in
    (* X = A^E * R * R^-1 mod N = A^E mod N *)
    let '(X, T) := sgx_mpi_montred X N mm T in
    X <- (if neg then MPI_CHK (sgx_mpi_add_mpi (set_sign (-1) X) N (set_sign (-1) X)
                                 false true)
          else Ok X) ;;
    Ok (X, slot).

(** ** Greatest common divisor and modular inverse *)

(** [while( cmp_int( &TA, 0 ) != 0 )] of [sgx_mpi_gcd]. *)
Fixpoint gcd_loop (fuel : nat) (TA TB : mpi) : res (mpi * mpi) :=
  if negb (sgx_mpi_cmp_int TA 0 =? 0) then
    match fuel with
    | O => OutOfFuel
    | S f =>
        TA <- MPI_CHK (sgx_mpi_shift_r TA (sgx_mpi_lsb TA)) ;;
        TB <- MPI_CHK (sgx_mpi_shift_r TB (sgx_mpi_lsb TB)) ;;
        if sgx_mpi_cmp_mpi TA TB >=? 0 then
          TA <- MPI_CHK (sgx_mpi_sub_abs TA TA TB true false) ;;
          TA <- MPI_CHK (sgx_mpi_shift_r TA 1) ;;
          gcd_loop f TA TB
        else
          TB <- MPI_CHK (sgx_mpi_sub_abs TB TB TA true false) ;;
          TB <- MPI_CHK (sgx_mpi_shift_r TB 1) ;;
          gcd_loop f TA TB
    end
  else Ok (TA, TB).

Definition sgx_mpi_gcd (fuel : nat) (G A B : mpi) : res mpi :=
  TA <- MPI_CHK (sgx_mpi_copy sgx_mpi_init A false) ;;
  TB <- MPI_CHK (sgx_mpi_copy sgx_mpi_init B false) ;;
  let lz := sgx_mpi_lsb TA in
  let lzt := sgx_mpi_lsb TB in
  let lz := if (lzt <? lz)%nat then lzt else lz in
  TA <- MPI_CHK (sgx_mpi_shift_r TA lz) ;;
  TB <- MPI_CHK (sgx_mpi_shift_r TB lz) ;;
  let TA := set_sign 1 TA in
  let TB := set_sign 1 TB in
  '(TA, TB) <- gcd_loop fuel TA TB ;;
  TB <- MPI_CHK (sgx_mpi_shift_l TB lz) ;;
  MPI_CHK (sgx_mpi_copy G TB false).

(** [while( ( TU.p[0] & 1 ) == 0 )] of [sgx_mpi_inv_mod], and the same loop
    on [TV], [V1], [V2]. *)
Fixpoint inv_halve (fuel : nat) (TA TB : mpi) (st : mpi * mpi * mpi)
    : res (mpi * mpi * mpi) :=
  let '(TU, U1, U2) := st in
  if Z.land (limb (p TU) 0) 1 =? 0 then
    match fuel with
    | O => OutOfFuel
    | S f =>
        TU <- MPI_CHK (sgx_mpi_shift_r TU 1) ;;
        '(U1, U2) <-
           (if negb (Z.land (limb (p U1) 0) 1 =? 0)
               || negb (Z.land (limb (p U2) 0) 1 =? 0)
            then U1 <- MPI_CHK (sgx_mpi_add_mpi U1 U1 TB true false) ;;
                 U2 <- MPI_CHK (sgx_mpi_sub_mpi U2 U2 TA true false) ;;
                 Ok (U1, U2)
            else Ok (U1, U2)) ;;
        U1 <- MPI_CHK (sgx_mpi_shift_r U1 1) ;;
        U2 <- MPI_CHK (sgx_mpi_shift_r U2 1) ;;
        inv_halve f TA TB (TU, U1, U2)
    end
  else Ok st.

(** The [do ... while( cmp_int( &TU, 0 ) != 0 )] of [sgx_mpi_inv_mod]. *)
Fixpoint inv_loop (fuel : nat) (TA TB : mpi)
    (st : (mpi * mpi * mpi) * (mpi * mpi * mpi))
    : res ((mpi * mpi * mpi) * (mpi * mpi * mpi)) :=
  match fuel with
  | O => OutOfFuel
  | S f =>
      '(TU, U1, U2) <- inv_halve fuel TA TB (fst st) ;;
      '(TV, V1, V2) <- inv_halve fuel TA TB (snd st) ;;
      st' <- (if sgx_mpi_cmp_mpi TU TV >=? 0 then
                TU <- MPI_CHK (sgx_mpi_sub_mpi TU TU TV true false) ;;
                U1 <- MPI_CHK (sgx_mpi_sub_mpi U1 U1 V1 true false) ;;
                U2 <- MPI_CHK (sgx_mpi_sub_mpi U2 U2 V2 true false) ;;
                Ok ((TU, U1, U2), (TV, V1, V2))
              else
                TV <- MPI_CHK (sgx_mpi_sub_mpi TV TV TU true false) ;;
                V1 <- MPI_CHK (sgx_mpi_sub_mpi V1 V1 U1 true false) ;;
                V2 <- MPI_CHK (sgx_mpi_sub_mpi V2 V2 U2 true false) ;;
                Ok ((TU, U1, U2), (TV, V1, V2))) ;;
      if negb (sgx_mpi_cmp_int (fst (fst (fst st'))) 0 =? 0)
      then inv_loop f TA TB st'
      else Ok st'
  end.

Definition sgx_mpi_inv_mod (fuel : nat) (X A N : mpi) : res mpi :=
  if sgx_mpi_cmp_int N 0 <=? 0 then Err BAD_INPUT_DATA
  else
    G <- sgx_mpi_gcd fuel sgx_mpi_init A N ;;
    if negb (sgx_mpi_cmp_int G 1 =? 0) then Err NOT_ACCEPTABLE
    else
      TA <- sgx_mpi_mod_mpi fuel sgx_mpi_init A N false ;;
      TU <- MPI_CHK (sgx_mpi_copy sgx_mpi_init TA false) ;;
      TB <- MPI_CHK (sgx_mpi_copy sgx_mpi_init N false) ;;
      TV <- MPI_CHK (sgx_mpi_copy sgx_mpi_init N false) ;;
      U1 <- MPI_CHK (sgx_mpi_lset sgx_mpi_init 1) ;;
      U2 <- MPI_CHK (sgx_mpi_lset sgx_mpi_init 0) ;;
      V1 <- MPI_CHK (sgx_mpi_lset sgx_mpi_init 0) ;;
      V2 <- MPI_CHK (sgx_mpi_lset sgx_mpi_init 1) ;;
      '(_, (_, V1, _)) <- inv_loop fuel TA TB ((TU, U1, U2), (TV, V1, V2)) ;;
      V1 <- mod_add_back fuel N V1 ;;
      V1 <- mod_sub_down fuel N V1 ;;
      MPI_CHK (sgx_mpi_copy X V1 false).

(** ** Binary import and export *)

(** [for( n = 0; n < buflen; n++ ) if( buf[n] != 0 ) break;] with [k] bytes
    left to look at from index [i]. *)
Fixpoint skip_zeros (buf : list Z) (k i : nat) : nat :=
  match k with
  | O => i
  | S k' => if negb (limb buf i =? 0) then i else skip_zeros buf k' (S i)
  end.

Definition sgx_mpi_read_binary (X : mpi) (buf : list Z) (buflen : nat)
    : mpi * status :=
  let n0 := skip_zeros buf buflen 0 in
  X1 <~ sgx_mpi_grow X (CHARS_TO_LIMBS (buflen - n0)) ;;
  X2 <~ sgx_mpi_lset X1 0 ;;
  let l := for_down (buflen - n0) n0
             (fun i l =>
                let j := (buflen - i)%nat in
                set_nth (j / ciL)
                  (Z.lor (limb l (j / ciL))
                         (shl (limb buf (i - 1)) ((j mod ciL) * 8)))
                  l)
             (p X2) in
  (mk_mpi (s X2) l, None).

(** [(unsigned char) x] *)
Definition to_uchar (x : Z) : Z := x mod 256.

(** The result is the buffer [buf] after the call. *)
Definition sgx_mpi_write_binary (X : mpi) (buf : list Z) (buflen : nat)
    : list Z * status :=
  let n0 := sgx_mpi_size X in
  if (buflen <? n0)%nat then (buf, Some BUFFER_TOO_SMALL)
  else
    let b0 := repeat 0 buflen ++ skipn buflen buf in
    (for_up n0 0
       (fun j b =>
          set_nth (buflen - 1 - j)
            (to_uchar (shr (limb (p X) (j / ciL)) ((j mod ciL) * 8))) b)
       b0, None).

(** ** Primality *)

(** The random source [sgx_ctr_drbg_random( p_rng, buf, size )] is an
    external collaborator: from the generator state it gives the next
    state, the bytes written to [buf] and its return code. *)
Variable rng_state : Type.
Variable sgx_ctr_drbg_random : rng_state -> nat -> rng_state * list Z * Z.

Definition sgx_mpi_fill_random (X : mpi) (size : nat) (g : rng_state)
    : res (mpi * rng_state) :=
  if (MAX_SIZE <? size)%nat then Err BAD_INPUT_DATA
  else
    let '(g1, buf, rc) := sgx_ctr_drbg_random g size in
    if negb (rc =? 0) then Err (RNG_FAILED rc)
    else X1 <- MPI_CHK (sgx_mpi_read_binary X buf size) ;; Ok (X1, g1).

Definition small_prime : list Z :=
  [   3;    5;    7;   11;   13;   17;   19;   23;
     29;   31;   37;   41;   43;   47;   53;   59;
     61;   67;   71;   73;   79;   83;   89;   97;
    101;  103;  107;  109;  113;  127;  131;  137;
    139;  149;  151;  157;  163;  167;  173;  179;
    181;  191;  193;  197;  199;  211;  223;  227;
    229;  233;  239;  241;  251;  257;  263;  269;
    271;  277;  281;  283;  293;  307;  311;  313;
    317;  331;  337;  347;  349;  353;  359;  367;
    373;  379;  383;  389;  397;  401;  409;  419;
    421;  431;  433;  439;  443;  449;  457;  461;
    463;  467;  479;  487;  491;  499;  503;  509;
    521;  523;  541;  547;  557;  563;  569;  571;
    577;  587;  593;  599;  601;  607;  613;  617;
    619;  631;  641;  643;  647;  653;  659;  661;
    673;  677;  683;  691;  701;  709;  719;  727;
    733;  739;  743;  751;  757;  761;  769;  773;
    787;  797;  809;  811;  821;  823;  827;  829;
    839;  853;  857;  859;  863;  877;  881;  883;
    887;  907;  911;  919;  929;  937;  941;  947;
    953;  967;  971;  977;  983;  991;  997; -103 ].

(** [for( i = 0; small_prime[i] > 0; i++ )]; [Ok 0]: no small factor,
    [Ok 1]: certainly prime. *)
Fixpoint small_factors_loop (X : mpi) (l : list Z) : res Z :=
  match l with
  | [] => Ok 0
  | q :: l' =>
      if q >? 0 then
        if sgx_mpi_cmp_int X q <=? 0 then Ok 1
        else r <- sgx_mpi_mod_int X q ;;
             if r =? 0 then Err NOT_ACCEPTABLE else small_factors_loop X l'
      else Ok 0
  end.

Definition sgx_mpi_check_small_factors (X : mpi) : res Z :=
  if Z.land (limb (p X) 0) 1 =? 0 then Err NOT_ACCEPTABLE
  else small_factors_loop X small_prime.

(** [j = 1; while( j < s && cmp_mpi( &A, &W ) != 0 )] with [k = s - j]. *)
Fixpoint mr_square (k : nat) (fuel : nat) (X W : mpi) (AT : mpi * mpi)
    : res (mpi * mpi) :=
  match k with
  | O => Ok AT
  | S k' =>
      let '(A, T) := AT in
      if negb (sgx_mpi_cmp_mpi A W =? 0) then
        T <- MPI_CHK (sgx_mpi_mul_mpi T A A false false) ;;
        A <- sgx_mpi_mod_mpi fuel A T X false ;;
        if sgx_mpi_cmp_int A 1 =? 0 then Ok (A, T)
        else mr_square k' fuel X W (A, T)
      else Ok AT
  end.

(** [for( i = 0; i < n; i++ )] of [sgx_mpi_miller_rabin], [k] rounds left. *)
Fixpoint mr_rounds (k : nat) (fuel : nat) (X W R : mpi) (s0 : nat)
    (st : mpi * mpi * mpi * rng_state) : res rng_state :=
  match k with
  | O => Ok (snd st)
  | S k' =>
      let '(A, T, RR, g) := st in
      (* pick a random A, 1 < A < |X| - 1 *)
      '(A, g) <- sgx_mpi_fill_random A (n X * ciL) g ;;
      A <- (if sgx_mpi_cmp_mpi A W >=? 0 then
              let j := (sgx_mpi_msb A - sgx_mpi_msb W)%nat in
              MPI_CHK (sgx_mpi_shift_r A (j + 1))
            else Ok A) ;;
      let A := set_limb A 0 (Z.lor (limb (p A) 0) 3) in
      (* A = A^R mod |X| *)
      '(A, slot) <- sgx_mpi_exp_mod fuel A A R X (Some RR) true ;;
      let RR := match slot with Some c => c | None => RR end in
      if (sgx_mpi_cmp_mpi A W =? 0) || (sgx_mpi_cmp_int A 1 =? 0)
      then mr_rounds k' fuel X W R s0 (A, T, RR, g)
      else
        '(A, T) <- mr_square (s0 - 1) fuel X W (A, T) ;;
        (* not prime if A != |X| - 1 or A == 1 *)
        if negb (sgx_mpi_cmp_mpi A W =? 0) || (sgx_mpi_cmp_int A 1 =? 0)
        then Err NOT_ACCEPTABLE
        else mr_rounds k' fuel X W R s0 (A, T, RR, g)
  end.

Definition sgx_mpi_miller_rabin (fuel : nat) (X : mpi) (g : rng_state)
    : res rng_state :=
  W <- MPI_CHK (sgx_mpi_sub_int sgx_mpi_init X 1 false) ;;
  let s0 := sgx_mpi_lsb W in
  R <- MPI_CHK (sgx_mpi_copy sgx_mpi_init W false) ;;
  R <- MPI_CHK (sgx_mpi_shift_r R s0) ;;
  let i := sgx_mpi_msb X in
  (* HAC, table 4.4 *)
  let rounds := if (1300 <=? i)%nat then 2%nat else if (850 <=? i)%nat then 3%nat
                else if (650 <=? i)%nat then 4%nat else if (350 <=? i)%nat then 8%nat
                else if (250 <=? i)%nat then 12%nat else if (150 <=? i)%nat then 18%nat
                else 27%nat in
  mr_rounds rounds fuel X W R s0 (sgx_mpi_init, sgx_mpi_init, sgx_mpi_init, g).

(** The result is the generator state after the call; [Ok] is the return
    value 0 ("prime"). *)
Definition sgx_mpi_is_prime (fuel : nat) (X : mpi) (g : rng_state)
    : res rng_state :=
  let XX := mk_mpi 1 (p X) in   (* Abs(X) *)
  if (sgx_mpi_cmp_int XX 0 =? 0) || (sgx_mpi_cmp_int XX 1 =? 0)
  then Err NOT_ACCEPTABLE
  else if sgx_mpi_cmp_int XX 2 =? 0 then Ok g
  else
    ret <- sgx_mpi_check_small_factors XX ;;
    if negb (ret =? 0) then Ok g
    else sgx_mpi_miller_rabin fuel XX g.

End Model.

(** * The numbers behind the limbs *)

(** The magnitude held by a limb buffer, little-endian in base [2^biL]. *)
Fixpoint mag (ciL : nat) (l : list Z) : Z :=
  match l with
  | [] => 0
  | x :: l' => x + base ciL * mag ciL l'
  end.

(** [base ^ k], the weight of limb [k]. *)
Definition Bpow (ciL : nat) (k : nat) : Z := base ciL ^ Z.of_nat k.

(** [2 ^ e], kept apart from linear arithmetic. *)
Definition pow2 (e : nat) : Z := 2 ^ Z.of_nat e.

(** The integer an MPI stands for. *)
Definition value (ciL : nat) (X : mpi) : Z := s X * mag ciL (p X).

Definition limbs_ok (ciL : nat) (l : list Z) : Prop :=
  Forall (fun x => 0 <= x < base ciL) l.

(** A well-formed MPI: a sign of +1 or -1 and limbs that fit [t_uint]. *)
Definition wf (ciL : nat) (X : mpi) : Prop :=
  (s X = 1 \/ s X = -1) /\ limbs_ok ciL (p X).

(** The bytes of a buffer read as a big-endian number. *)
Fixpoint be_value (buf : list Z) : Z :=
  match buf with
  | [] => 0
  | b :: buf' => b * 256 ^ Z.of_nat (length buf') + be_value buf'
  end.

(** The [k] low bytes of [m], most significant first. *)
Fixpoint be_bytes (k : nat) (m : Z) : list Z :=
  match k with
  | O => []
  | S k' => (m / pow2 (8 * k')) mod 256 :: be_bytes k' m
  end.

(** The limbs [copy] takes over: up to the top non-zero limb, at least one. *)
Definition copy_len (Y : mpi) : nat := Nat.max 1 (top_scan (p Y) (n Y)).

(** * Errors *)

(** The errors of the arithmetic layers: allocation, a negative operand,
    a zero divisor.  [BAD_INPUT_DATA] is not among them. *)
Definition benign (e : mpi_err) : Prop :=
  e = MALLOC_FAILED \/ e = NEGATIVE_VALUE \/ e = DIVISION_BY_ZERO.

Definition st_benign (r : status) : Prop := forall e, r = Some e -> benign e.

Definition res_benign {A : Type} (r : res A) : Prop :=
  forall e, r = Err e -> benign e.

(** * Calls through pointers *)

(** MPIs live in a store indexed by their address; two arguments alias when
    they are the same address. *)
Definition store : Type := nat -> mpi.

Definition upd (st : store) (x : nat) (v : mpi) : store :=
  fun y => if (y =? x)%nat then v else st y.

Definition sub_abs_at (MAX_LIMBS : nat) (ciL : nat) (st : store) (x a b : nat)
    : store * status :=
  let '(X, r) := sgx_mpi_sub_abs ciL MAX_LIMBS (st x) (st a) (st b)
                   (x =? a)%nat (x =? b)%nat in
  (upd st x X, r).

Definition add_mpi_at (MAX_LIMBS : nat) (ciL : nat) (st : store) (x a b : nat)
    : store * status :=
  let '(X, r) := sgx_mpi_add_mpi ciL MAX_LIMBS (st x) (st a) (st b)
                   (x =? a)%nat (x =? b)%nat in
  (upd st x X, r).

Definition sub_mpi_at (MAX_LIMBS : nat) (ciL : nat) (st : store) (x a b : nat)
    : store * status :=
  let '(X, r) := sgx_mpi_sub_mpi ciL MAX_LIMBS (st x) (st a) (st b)
                   (x =? a)%nat (x =? b)%nat in
  (upd st x X, r).

(** A store with [-5] in cells 1 and 2 and a fresh MPI elsewhere. *)
Definition minus_fives : store :=
  fun y => match y with
           | 1%nat | 2%nat => mk_mpi (-1) [5]
           | _ => mk_mpi 1 []
           end.

(** The state of the digit loop of [sgx_mpi_div_mpi] at index [i]: [X] is the
    running remainder, [Z] the quotient whose digits below [i - t] are still
    clear, [V] the magnitude of the normalised divisor and [Aq] that of the
    normalised dividend. *)
Definition div_inv (ciL L t nZ : nat) (V Aq : Z) (i : nat)
    (st : mpi * mpi * mpi * mpi) : Prop :=
  let '(X, Zq, T1, T2) := st in
  wf ciL X /\ 0 <= value ciL X /\ (n X <= L)%nat /\
  limbs_ok ciL (p Zq) /\ n Zq = nZ /\
  (forall j, (j < i - t)%nat -> limb (p Zq) j = 0) /\
  value ciL X + mag ciL (p Zq) * V = Aq /\
  (2 <= n T1 <= L)%nat /\ (3 <= n T2 <= L)%nat.

(** * Facts *)

(** Equal terms up to linear arithmetic in their arguments. *)
Ltac arith_eq := repeat (lia || f_equal).

Lemma bind_Ok {A B : Type} (c : res A) (k : A -> res B) (b : B) :
  bind c k = Ok b -> exists a, c = Ok a /\ k a = Ok b.
Proof. destruct c; simpl; intros H; try discriminate. eauto. Qed.

Lemma MPI_CHK_Ok {A : Type} (r : A * status) (a : A) :
  MPI_CHK r = Ok a -> r = (a, None).
Proof. destruct r as [x [e|]]; simpl; intros H; inversion H; reflexivity. Qed.

Lemma length_set_nth {A : Type} (i : nat) (v : A) (l : list A) :
  length (set_nth i v l) = length l.
Proof.
  revert i; induction l as [|h t IH]; intros [|i]; simpl; auto.
Qed.

Lemma limb_set_nth_eq (i : nat) (v : Z) (l : list Z) :
  (i < length l)%nat -> limb (set_nth i v l) i = v.
Proof.
  unfold limb. revert i; induction l as [|h t IH]; intros [|i]; simpl; intros H;
    try lia; auto. apply IH; lia.
Qed.

Lemma limb_set_nth_neq (i j : nat) (v : Z) (l : list Z) :
  i <> j -> limb (set_nth i v l) j = limb l j.
Proof.
  unfold limb. revert i j; induction l as [|h t IH]; intros [|i] [|j]; simpl;
    intros H; try lia; auto.
Qed.

Lemma limb_overflow (l : list Z) (i : nat) :
  (length l <= i)%nat -> limb l i = 0.
Proof. intros H. unfold limb. apply nth_overflow. exact H. Qed.

Lemma set_nth_overflow {A : Type} (i : nat) (v : A) (l : list A) :
  (length l <= i)%nat -> set_nth i v l = l.
Proof.
  revert i; induction l as [|h t IH]; intros [|i]; simpl; intros H;
    try lia; auto. f_equal. apply IH. lia.
Qed.

Lemma limb_app_l (l1 l2 : list Z) (i : nat) :
  (i < length l1)%nat -> limb (l1 ++ l2) i = limb l1 i.
Proof. intros H. unfold limb. apply app_nth1. exact H. Qed.

Lemma limb_app_r (l1 l2 : list Z) (i : nat) :
  (length l1 <= i)%nat -> limb (l1 ++ l2) i = limb l2 (i - length l1).
Proof. intros H. unfold limb. apply app_nth2. lia. Qed.

Lemma limb_repeat0 (k i : nat) : limb (repeat 0 k) i = 0.
Proof.
  unfold limb. revert i; induction k as [|k IH]; intros [|i]; simpl; auto.
Qed.

Lemma limb_firstn (l : list Z) (k i : nat) :
  (i < k)%nat -> limb (firstn k l) i = limb l i.
Proof.
  unfold limb. revert k i; induction l as [|h t IH]; intros [|k] [|i] H; simpl;
    try lia; auto. apply IH. lia.
Qed.

Lemma limb_skipn (l : list Z) (k i : nat) :
  limb (skipn k l) i = limb l (k + i).
Proof.
  unfold limb. revert k; induction l as [|h t IH]; intros [|k]; simpl; auto.
  destruct i; reflexivity.
Qed.

Lemma list_eq_limb (l1 l2 : list Z) :
  length l1 = length l2 ->
  (forall i, (i < length l1)%nat -> limb l1 i = limb l2 i) -> l1 = l2.
Proof.
  revert l2; induction l1 as [|h t IH]; intros [|h2 t2] HL H; simpl in *;
    try discriminate; auto.
  f_equal.
  - apply (H 0%nat). lia.
  - apply IH; [lia|]. intros i Hi. apply (H (S i)). lia.
Qed.

Section Numbers.

Variable ciL : nat.

Local Abbreviation B := (base ciL).
Local Abbreviation Bp := (Bpow ciL).
Local Abbreviation tr := (trunc ciL).
Local Abbreviation mg := (mag ciL).
Local Abbreviation lok := (limbs_ok ciL).

Lemma base_pos : 0 < B.
Proof. unfold base. apply Z.pow_pos_nonneg; lia. Qed.

Lemma Bpow_0 : Bp 0 = 1.
Proof. unfold Bpow. change (Z.of_nat 0) with 0. apply Z.pow_0_r. Qed.

Lemma Bpow_S (k : nat) : Bp (S k) = B * Bp k.
Proof. unfold Bpow. rewrite Nat2Z.inj_succ, Z.pow_succ_r by lia. reflexivity. Qed.

Lemma Bpow_add (j k : nat) : Bp (j + k) = Bp j * Bp k.
Proof. unfold Bpow. rewrite Nat2Z.inj_add, Z.pow_add_r by lia. reflexivity. Qed.

Lemma base_pow (k : nat) : 0 < Bp k.
Proof. unfold Bpow. apply Z.pow_pos_nonneg; [apply base_pos | lia]. Qed.

Lemma Bpow_mono (j k : nat) : (j <= k)%nat -> Bp j <= Bp k.
Proof.
  intros H. unfold Bpow. apply Z.pow_le_mono_r; [apply base_pos | lia].
Qed.

Lemma Bpow_1 : Bp 1 = B.
Proof. rewrite Bpow_S, Bpow_0. lia. Qed.

Lemma trunc_range (x : Z) : 0 <= tr x < B.
Proof. unfold trunc. apply Z.mod_pos_bound. apply base_pos. Qed.

Lemma trunc_small (x : Z) : 0 <= x < B -> tr x = x.
Proof. intros H. unfold trunc. apply Z.mod_small. exact H. Qed.

Lemma limbs_ok_limb (l : list Z) (i : nat) :
  lok l -> 0 <= limb l i < B.
Proof.
  intros H. unfold limb. revert i. induction H as [|x l Hx Hl IH]; intros [|i];
    simpl; auto; pose proof base_pos; lia.
Qed.

Lemma limbs_ok_set_nth (l : list Z) (i : nat) (v : Z) :
  lok l -> 0 <= v < B -> lok (set_nth i v l).
Proof.
  intros H Hv. revert i. induction H as [|x l Hx Hl IH]; intros [|i]; simpl;
    try constructor; auto. apply IH.
Qed.

Lemma limbs_ok_repeat0 (k : nat) : lok (repeat 0 k).
Proof.
  induction k; simpl; constructor; auto. pose proof base_pos; lia.
Qed.

Lemma limbs_ok_app (l1 l2 : list Z) :
  lok l1 -> lok l2 -> lok (l1 ++ l2).
Proof. intros H1 H2. apply Forall_app. split; assumption. Qed.

Lemma limbs_ok_firstn (l : list Z) (k : nat) :
  lok l -> lok (firstn k l).
Proof.
  intros H. revert k. induction H as [|x l Hx Hl IH]; intros [|k]; simpl;
    try constructor; auto. apply IH.
Qed.

Lemma limbs_ok_skipn (l : list Z) (k : nat) :
  lok l -> lok (skipn k l).
Proof.
  intros H. revert k. induction H as [|x l Hx Hl IH]; intros [|k]; simpl;
    try (constructor; auto; fail); auto.
Qed.

Lemma mag_app (l1 l2 : list Z) :
  mg (l1 ++ l2) = mg l1 + Bp (length l1) * mg l2.
Proof.
  induction l1 as [|h t IH]; simpl length; simpl app; simpl mag.
  - rewrite Bpow_0. lia.
  - rewrite IH. rewrite Bpow_S. ring.
Qed.

Lemma mag_repeat0 (k : nat) : mg (repeat 0 k) = 0.
Proof. induction k; simpl; auto. rewrite IHk. lia. Qed.

Lemma mag_bound (l : list Z) :
  lok l -> 0 <= mg l < Bp (length l).
Proof.
  intros H. induction H as [|x l Hx Hl IH]; simpl length; simpl mag.
  - rewrite Bpow_0. lia.
  - rewrite Bpow_S. pose proof base_pos. nia.
Qed.

Lemma mag_firstn_skipn (l : list Z) (k : nat) :
  mg l = mg (firstn k l) + Bp (Nat.min k (length l)) * mg (skipn k l).
Proof.
  rewrite <- (firstn_skipn k l) at 1. rewrite mag_app, length_firstn. reflexivity.
Qed.

Lemma mag_set_nth (l : list Z) (i : nat) (v : Z) :
  (i < length l)%nat ->
  mg (set_nth i v l) = mg l + (v - limb l i) * Bp i.
Proof.
  unfold limb. revert i; induction l as [|h t IH]; intros [|i] H; simpl in H;
    try lia.
  - cbn [set_nth mag nth]. rewrite Bpow_0. lia.
  - cbn [set_nth mag nth]. rewrite IH by lia. rewrite Bpow_S. ring.
Qed.

Lemma mag_zero_limbs (l : list Z) :
  lok l -> mg l = 0 -> forall i, limb l i = 0.
Proof.
  intros H. induction H as [|x l Hx Hl IH]; intros Hm i.
  - destruct i; reflexivity.
  - simpl in Hm. pose proof (mag_bound l Hl) as Hb. pose proof base_pos.
    assert (x = 0 /\ mg l = 0) as [Hx0 Hl0] by nia.
    destruct i; simpl; auto. apply IH. exact Hl0.
Qed.

(** What [top_scan] finds: everything above is zero, the limb below is not. *)
Lemma top_scan_le (l : list Z) (i : nat) : (top_scan l i <= i)%nat.
Proof.
  induction i as [|i IH]; simpl; auto. destruct (limb l i =? 0); lia.
Qed.

Lemma top_scan_zero_above (l : list Z) (i j : nat) :
  (top_scan l i <= j < i)%nat -> limb l j = 0.
Proof.
  induction i as [|i IH]; simpl; intros H; [lia|].
  destruct (limb l i =? 0) eqn:E.
  - apply Z.eqb_eq in E. destruct (Nat.eq_dec j i) as [->|N]; auto. apply IH. lia.
  - lia.
Qed.

Lemma top_scan_nonzero (l : list Z) (i : nat) :
  (0 < top_scan l i)%nat -> limb l (top_scan l i - 1) <> 0.
Proof.
  induction i as [|i IH]; simpl; intros H; [lia|].
  destruct (limb l i =? 0) eqn:E.
  - apply IH. exact H.
  - apply Z.eqb_neq in E. simpl. rewrite Nat.sub_0_r. exact E.
Qed.

Lemma mag_all_zero (l : list Z) :
  (forall i, (i < length l)%nat -> limb l i = 0) -> mg l = 0.
Proof.
  induction l as [|h t IH]; intros H; simpl; auto.
  rewrite IH.
  - pose proof (H 0%nat) as H0. simpl in H0. unfold limb in H0. simpl in H0.
    rewrite H0 by lia. lia.
  - intros i Hi. apply (H (S i)). simpl. lia.
Qed.

Lemma mag_firstn_top (l : list Z) (k : nat) :
  (forall j, (k <= j < length l)%nat -> limb l j = 0) ->
  mg (firstn k l) = mg l.
Proof.
  intros H. rewrite (mag_firstn_skipn l k).
  rewrite (mag_all_zero (skipn k l)); [lia|].
  intros i Hi. rewrite limb_skipn. rewrite length_skipn in Hi. apply H. lia.
Qed.

Lemma mag_top_scan (l : list Z) :
  mg (firstn (top_scan l (length l)) l) = mg l.
Proof.
  apply mag_firstn_top. intros j Hj. apply (top_scan_zero_above l (length l)). lia.
Qed.

Lemma mag_ge_top (l : list Z) (k : nat) :
  lok l -> (0 < k)%nat -> limb l (k - 1) <> 0 ->
  Bp (k - 1) <= mg (firstn k l).
Proof.
  intros H Hk Hn.
  assert (Hlen : (k <= length l)%nat).
  { destruct (Nat.le_gt_cases k (length l)); auto.
    exfalso. apply Hn. apply limb_overflow. lia. }
  replace k with (S (k - 1)) at 2 by lia.
  rewrite (mag_firstn_skipn (firstn (S (k - 1)) l) (k - 1)).
  rewrite firstn_firstn, Nat.min_l by lia.
  rewrite length_firstn.
  replace (Nat.min (k - 1) (Nat.min (S (k - 1)) (length l))) with (k - 1)%nat by lia.
  pose proof (mag_bound _ (limbs_ok_firstn l (k - 1) H)) as Hb.
  assert (Hs : mg (skipn (k - 1) (firstn (S (k - 1)) l)) = limb l (k - 1)).
  { rewrite skipn_firstn_comm. replace (S (k - 1) - (k - 1))%nat with 1%nat by lia.
    pose proof (limb_skipn l (k - 1) 0) as Hq. rewrite Nat.add_0_r in Hq.
    rewrite <- Hq. unfold limb.
    destruct (skipn (k - 1) l) as [|x r]; simpl; lia. }
  rewrite Hs. pose proof (limbs_ok_limb l (k - 1) H). pose proof (base_pow (k - 1)).
  nia.
Qed.

End Numbers.
Section Compare.

Variable ciL : nat.

Local Abbreviation B := (base ciL).
Local Abbreviation Bp := (Bpow ciL).
Local Abbreviation mg := (mag ciL).
Local Abbreviation lok := (limbs_ok ciL).
Local Abbreviation val := (value ciL).

Lemma mag_firstn_S (l : list Z) (i : nat) :
  mg (firstn (S i) l) = mg (firstn i l) + Bp i * limb l i.
Proof.
  revert i. induction l as [|h t IH]; intros i.
  - rewrite !firstn_nil. unfold limb. destruct i; cbn [mag nth]; lia.
  - destruct i as [|i].
    + cbn [firstn mag]. unfold limb. cbn [nth]. rewrite Bpow_0. lia.
    + change (firstn (S (S i)) (h :: t)) with (h :: firstn (S i) t).
      change (firstn (S i) (h :: t)) with (h :: firstn i t).
      cbn [mag]. rewrite IH. unfold limb. cbn [nth].
      rewrite Bpow_S. ring.
Qed.

Lemma mag_firstn_bound (l : list Z) (i : nat) :
  lok l -> 0 <= mg (firstn i l) < Bp i.
Proof.
  intros H. pose proof (mag_bound ciL _ (limbs_ok_firstn ciL l i H)) as Hb.
  rewrite length_firstn in Hb.
  assert (Bp (Nat.min i (length l)) <= Bp i) by (apply Bpow_mono; lia).
  lia.
Qed.

Lemma cmp_limbs_spec (i : nat) (x y : list Z) (sx : Z) :
  lok x -> lok y ->
  cmp_limbs i x y sx = sx * Z.sgn (mg (firstn i x) - mg (firstn i y)).
Proof.
  intros Hx Hy. induction i as [|i IH].
  - simpl. lia.
  - simpl cmp_limbs. rewrite !mag_firstn_S.
    pose proof (mag_firstn_bound x i Hx). pose proof (mag_firstn_bound y i Hy).
    pose proof (limbs_ok_limb ciL x i Hx). pose proof (limbs_ok_limb ciL y i Hy).
    pose proof (base_pow ciL i).
    destruct (limb x i >? limb y i) eqn:E1.
    + apply Z.gtb_lt in E1.
      replace (Z.sgn _) with 1; [lia|]. symmetry. apply Z.sgn_pos. nia.
    + destruct (limb x i <? limb y i) eqn:E2.
      * apply Z.ltb_lt in E2.
        replace (Z.sgn _) with (-1); [lia|]. symmetry. apply Z.sgn_neg. nia.
      * assert (limb x i = limb y i).
        { apply Z.ltb_ge in E2. rewrite Z.gtb_ltb in E1. apply Z.ltb_ge in E1. lia. }
        rewrite IH. f_equal. f_equal. rewrite H4. ring.
Qed.

(** The magnitude seen through the effective length. *)
Lemma mag_eff (l : list Z) :
  lok l ->
  let i := top_scan l (length l) in
  mg l = mg (firstn i l) /\ mg l < Bp i /\
  ((0 < i)%nat -> Bp (i - 1) <= mg l) /\ (i = 0%nat -> mg l = 0).
Proof.
  intros H i. pose proof (mag_top_scan ciL l) as E. fold i in E.
  pose proof (mag_firstn_bound l i H) as Hb. rewrite E in Hb.
  repeat split; auto; try lia.
  - intros Hi. rewrite <- E. apply mag_ge_top; auto.
    apply top_scan_nonzero. exact Hi.
  - intros Hi. rewrite Hi, Bpow_0 in Hb. lia.
Qed.

Lemma cmp_abs_spec (X Y : mpi) :
  lok (p X) -> lok (p Y) ->
  sgx_mpi_cmp_abs X Y = Z.sgn (mg (p X) - mg (p Y)).
Proof.
  intros Hx Hy. unfold sgx_mpi_cmp_abs, n.
  destruct (mag_eff (p X) Hx) as (Ex & Ux & Lx & Zx).
  destruct (mag_eff (p Y) Hy) as (Ey & Uy & Ly & Zy).
  cbv zeta in *.
  generalize dependent (top_scan (p X) (length (p X))). intros i Ex Ux Lx Zx.
  generalize dependent (top_scan (p Y) (length (p Y))). intros j Ey Uy Ly Zy.
  pose proof (mag_bound ciL _ Hx). pose proof (mag_bound ciL _ Hy).
  destruct (Nat.eqb_spec i 0) as [Hi|Hi]; destruct (Nat.eqb_spec j 0) as [Hj|Hj];
    simpl andb; cbv iota.
  - rewrite Zx, Zy by assumption. reflexivity.
  - rewrite Hi. destruct (Nat.ltb_spec j 0); [lia|].
    destruct (Nat.ltb_spec 0 j); [|lia].
    rewrite Zx by assumption. symmetry. apply Z.sgn_neg.
    pose proof (base_pow ciL (j - 1)). specialize (Ly ltac:(lia)). lia.
  - rewrite Hj. destruct (Nat.ltb_spec 0 i); [|lia].
    rewrite Zy by assumption. symmetry. apply Z.sgn_pos.
    pose proof (base_pow ciL (i - 1)). specialize (Lx ltac:(lia)). lia.
  - destruct (Nat.ltb_spec j i) as [Hji|Hji].
    + symmetry. apply Z.sgn_pos. specialize (Lx ltac:(lia)).
      assert (Bp j <= Bp (i - 1)) by (apply Bpow_mono; lia).
      lia.
    + destruct (Nat.ltb_spec i j) as [Hij|Hij].
      * symmetry. apply Z.sgn_neg. specialize (Ly ltac:(lia)).
        assert (Bp i <= Bp (j - 1)) by (apply Bpow_mono; lia).
        lia.
      * assert (Hij' : i = j) by lia. rewrite cmp_limbs_spec by assumption.
        rewrite Ex, Ey. subst j. lia.
Qed.

Lemma cmp_mpi_spec (X Y : mpi) :
  wf ciL X -> wf ciL Y ->
  sgx_mpi_cmp_mpi X Y = Z.sgn (val X - val Y).
Proof.
  intros [Sx Hx] [Sy Hy]. unfold sgx_mpi_cmp_mpi, value, n.
  destruct (mag_eff (p X) Hx) as (Ex & Ux & Lx & Zx).
  destruct (mag_eff (p Y) Hy) as (Ey & Uy & Ly & Zy).
  cbv zeta in *.
  generalize dependent (top_scan (p X) (length (p X))). intros i Ex Ux Lx Zx.
  generalize dependent (top_scan (p Y) (length (p Y))). intros j Ey Uy Ly Zy.
  pose proof (mag_bound ciL _ Hx). pose proof (mag_bound ciL _ Hy).
  destruct (Nat.eqb_spec i 0) as [Hi|Hi]; destruct (Nat.eqb_spec j 0) as [Hj|Hj];
    simpl andb; cbv iota.
  - rewrite Zx, Zy by assumption. rewrite !Z.mul_0_r. reflexivity.
  - rewrite Hi. destruct (Nat.ltb_spec j 0); [lia|].
    destruct (Nat.ltb_spec 0 j); [|lia].
    rewrite Zx by assumption. specialize (Ly ltac:(lia)).
    pose proof (base_pow ciL (j - 1)).
    destruct Sy as [-> | ->]; [rewrite (proj2 (Z.sgn_neg_iff _)) | rewrite (proj2 (Z.sgn_pos_iff _))]; lia.
  - rewrite Hj. destruct (Nat.ltb_spec 0 i); [|lia].
    rewrite Zy by assumption. specialize (Lx ltac:(lia)).
    pose proof (base_pow ciL (i - 1)).
    destruct Sx as [-> | ->]; [rewrite (proj2 (Z.sgn_pos_iff _)) | rewrite (proj2 (Z.sgn_neg_iff _))]; lia.
  - destruct (Nat.ltb_spec j i) as [Hji|Hji].
    + specialize (Lx ltac:(lia)).
      assert (Bp j <= Bp (i - 1)) by (apply Bpow_mono; lia).
      destruct Sx as [-> | ->]; destruct Sy as [-> | ->];
        [rewrite (proj2 (Z.sgn_pos_iff _)) | rewrite (proj2 (Z.sgn_pos_iff _))
        | rewrite (proj2 (Z.sgn_neg_iff _)) | rewrite (proj2 (Z.sgn_neg_iff _))]; lia.
    + destruct (Nat.ltb_spec i j) as [Hij|Hij].
      * specialize (Ly ltac:(lia)).
        assert (Bp i <= Bp (j - 1)) by (apply Bpow_mono; lia).
        destruct Sx as [-> | ->]; destruct Sy as [-> | ->];
          [rewrite (proj2 (Z.sgn_neg_iff _)) | rewrite (proj2 (Z.sgn_pos_iff _))
          | rewrite (proj2 (Z.sgn_neg_iff _)) | rewrite (proj2 (Z.sgn_pos_iff _))]; lia.
      * assert (Hij' : i = j) by lia.
        specialize (Lx ltac:(lia)). specialize (Ly ltac:(lia)).
        pose proof (base_pow ciL (i - 1)). pose proof (base_pow ciL (j - 1)).
        rewrite cmp_limbs_spec by assumption. rewrite <- Hij' in Ey. rewrite <- Ex, <- Ey.
        destruct Sx as [-> | ->]; destruct Sy as [-> | ->];
          cbn [andb Z.gtb Z.ltb Z.compare].
        -- rewrite Z.mul_1_l. f_equal. lia.
        -- rewrite (proj2 (Z.sgn_pos_iff _)); lia.
        -- rewrite (proj2 (Z.sgn_neg_iff _)); lia.
        -- replace (-1 * mg (p X) - -1 * mg (p Y)) with (- (mg (p X) - mg (p Y))) by ring.
           rewrite Z.sgn_opp. ring.
Qed.

End Compare.
Section CompareInt.

Variable ciL : nat.

Local Abbreviation B := (base ciL).
Local Abbreviation mg := (mag ciL).
Local Abbreviation lok := (limbs_ok ciL).
Local Abbreviation val := (value ciL).

Lemma int_view_wf (z : Z) : wf ciL (int_view ciL z).
Proof.
  unfold wf, int_view, sign_of, abs_limb. cbn [s p]. split.
  - destruct (z <? 0); auto.
  - constructor; [apply trunc_range | constructor].
Qed.

Lemma int_view_value (z : Z) : - B < z < B -> val (int_view ciL z) = z.
Proof.
  intros H. unfold value, int_view, sign_of, abs_limb. cbn [s p mag].
  destruct (Z.ltb_spec z 0); rewrite trunc_small by lia; lia.
Qed.

Lemma cmp_int_spec (X : mpi) (z : Z) :
  wf ciL X -> - B < z < B -> sgx_mpi_cmp_int ciL X z = Z.sgn (val X - z).
Proof.
  intros HX Hz. unfold sgx_mpi_cmp_int.
  rewrite (cmp_mpi_spec ciL) by (auto using int_view_wf).
  rewrite int_view_value by exact Hz. reflexivity.
Qed.

Lemma cmp_int_0 (X : mpi) : wf ciL X -> sgx_mpi_cmp_int ciL X 0 = Z.sgn (val X).
Proof.
  intros HX. rewrite cmp_int_spec by (auto; pose proof (base_pos ciL); lia).
  f_equal. lia.
Qed.

End CompareInt.

(** ** Unsigned subtraction with the operands swapped *)

(** C9: for every store and every three addresses [x], [a], [b] (equal or
    not), when |A| < |B| the call [sub_abs(X, A, B)] returns
    [NEGATIVE_VALUE] and the store is what it was: X keeps its sign, its
    limb count and its limbs. *)
Theorem sub_abs_negative_leaves_store
    (ciL MAX_LIMBS : nat) (st : store) (x a b : nat) :
  limbs_ok ciL (p (st a)) -> limbs_ok ciL (p (st b)) ->
  mag ciL (p (st a)) < mag ciL (p (st b)) ->
  snd (sub_abs_at MAX_LIMBS ciL st x a b) = Some NEGATIVE_VALUE /\
  (forall y, fst (sub_abs_at MAX_LIMBS ciL st x a b) y = st y).
Proof.
  intros Ha Hb Hlt. unfold sub_abs_at, sgx_mpi_sub_abs.
  rewrite (cmp_abs_spec ciL) by assumption.
  rewrite (proj2 (Z.sgn_neg_iff _)) by lia.
  change (- (1) <? 0) with true. cbn [fst snd]. split; [reflexivity|].
  intros y. unfold upd. destruct (Nat.eqb_spec y x) as [->|]; reflexivity.
Qed.

Lemma sub_abs_negative_leaves_store_witness :
  let st : store := fun k => if (k =? 0)%nat then mk_mpi (-1) [3; 0]
                             else mk_mpi 1 [5] in
  (limbs_ok 8 (p (st 0%nat)) /\ limbs_ok 8 (p (st 1%nat)) /\
   mag 8 (p (st 0%nat)) < mag 8 (p (st 1%nat))) /\
  snd (sub_abs_at 10000 8 st 0 0 1) = Some NEGATIVE_VALUE /\
  (forall y, fst (sub_abs_at 10000 8 st 0 0 1) y = st y).
Proof.
  intros st.
  assert (H1 : limbs_ok 8 (p (st 0%nat))).
  { repeat constructor; vm_compute; congruence. }
  assert (H2 : limbs_ok 8 (p (st 1%nat))).
  { repeat constructor; vm_compute; congruence. }
  assert (H3 : mag 8 (p (st 0%nat)) < mag 8 (p (st 1%nat))).
  { vm_compute. reflexivity. }
  split; [auto|].
  apply (sub_abs_negative_leaves_store 8 10000 st 0 0 1 H1 H2 H3).
Defined.

(** ** Primality of negative numbers *)


(** The negation of the prime 7 is reported prime, whatever the generator. *)
Example is_prime_minus_7
    (rng_state : Type) (rng : rng_state -> nat -> rng_state * list Z * Z)
    (g : rng_state) :
  sgx_mpi_is_prime 8 10000 6 1024 rng_state rng 64 (mk_mpi (-1) [7]) g = Ok g.
Proof. vm_compute. reflexivity. Qed.

(** ** Exponentiation of a negative base *)

(** C1: with 64-bit limbs, [exp_mod] on A = -2, E = 2, N = 5 succeeds with
    X = 1, although (-2)^2 mod 5 = |A|^E mod N = 4: the fix-up X := N - X is
    applied whenever A is negative, also for an even exponent.  On A = -3,
    E = 1, N = 3 the same fix-up leaves X = N, outside [0, N). *)
Theorem exp_mod_negative_base_even_exponent :
  (exists X slot,
     sgx_mpi_exp_mod 8 10000 6 100 sgx_mpi_init
       (mk_mpi (-1) [2]) (mk_mpi 1 [2]) (mk_mpi 1 [5]) None false = Ok (X, slot) /\
     value 8 X = 1 /\ (-2) ^ 2 mod 5 = 4 /\ Z.abs (-2) ^ 2 mod 5 = 4) /\
  (exists X slot,
     sgx_mpi_exp_mod 8 10000 6 100 sgx_mpi_init
       (mk_mpi (-1) [3]) (mk_mpi 1 [1]) (mk_mpi 1 [3]) None false = Ok (X, slot) /\
     value 8 X = 3 /\ (-3) ^ 1 mod 3 = 0).
Proof.
  split; eexists; eexists; (split; [vm_compute; reflexivity | repeat split]).
Qed.

(** ** Montgomery initialisation *)

Lemma land_4 (y : Z) : Z.land y 4 = 4 * ((y / 4) mod 2).
Proof.
  change 4 with (2 ^ 2) at 2 3. rewrite <- Z.testbit_spec' by lia.
  apply Z.bits_inj'. intros k Hk. rewrite Z.land_spec.
  change 4 with (2 ^ 2) at 1. rewrite Z.pow2_bits_eqb by lia.
  destruct (Z.testbit y 2) eqn:E; cbn [Z.b2z].
  - change (2 ^ 2 * 1) with (2 ^ 2). rewrite Z.pow2_bits_eqb by lia.
    destruct (Z.eqb_spec 2 k) as [<-|]; [rewrite E|rewrite andb_false_r]; reflexivity.
  - rewrite Z.mul_0_r, Z.bits_0.
    destruct (Z.eqb_spec 2 k) as [<-|]; [rewrite E|rewrite andb_false_r]; reflexivity.
Qed.

Lemma pow2_pos (e : nat) : 0 < pow2 e.
Proof. unfold pow2. apply Z.pow_pos_nonneg; lia. Qed.

Lemma pow2_add (d e : nat) : pow2 (d + e) = pow2 d * pow2 e.
Proof. unfold pow2. rewrite Nat2Z.inj_add, Z.pow_add_r by lia. reflexivity. Qed.

Lemma base_pow2 (ciL : nat) : base ciL = pow2 (biL ciL).
Proof. reflexivity. Qed.

Lemma pow2_divide (d e : nat) : (d <= e)%nat -> (pow2 d | pow2 e).
Proof.
  intros H. exists (pow2 (e - d)). rewrite <- pow2_add. f_equal. lia.
Qed.

Lemma mod_trunc (ciL : nat) (e : nat) (a : Z) :
  (e <= biL ciL)%nat -> trunc ciL a mod pow2 e = a mod pow2 e.
Proof.
  intros H. unfold trunc. rewrite base_pow2.
  apply Z.mod_mod_divide. apply pow2_divide. exact H.
Qed.

Section MontgInit.

Variable ciL : nat.
Variable m0 : Z.

Hypothesis m0_odd : Z.odd m0 = true.
Hypothesis width : (8 <= biL ciL)%nat.


Local Abbreviation tr := (trunc ciL).

(** The seed is an inverse of [m0] modulo 2^4. *)
Lemma montg_seed :
  (m0 * tr (m0 + shl ciL (Z.land (tr (m0 + 2)) 4) 1)) mod pow2 4 = 1.
Proof.
  rewrite <- Zmult_mod_idemp_r. rewrite mod_trunc by lia.
  unfold shl. rewrite <- Zplus_mod_idemp_r. rewrite mod_trunc by lia.
  rewrite Z.shiftl_mul_pow2 by lia. rewrite land_4.
  assert (E8 : tr (m0 + 2) mod pow2 3 = (m0 + 2) mod pow2 3) by (apply mod_trunc; lia).
  change (pow2 3) with 8 in E8. change (pow2 4) with 16. change (2 ^ Z.of_nat 1) with 2.
  assert (Eq : (tr (m0 + 2) / 4) mod 2 = ((m0 + 2) mod 8) / 4).
  { rewrite <- E8. pose proof (trunc_range ciL (m0 + 2)) as R.
    generalize dependent (tr (m0 + 2)). intros t _ R.
    rewrite (Z.div_mod t 8) at 1 by lia.
    replace (8 * (t / 8) + t mod 8) with (t mod 8 + (2 * (t / 8)) * 4) by ring.
    rewrite Z.div_add by lia.
    pose proof (Z.mod_pos_bound t 8 ltac:(lia)).
    assert (0 <= (t mod 8) / 4 < 2).
    { split; [apply Z.div_pos; lia | apply Z.div_lt_upper_bound; lia]. }
    replace (t mod 8 / 4 + 2 * (t / 8)) with (t mod 8 / 4 + (t / 8) * 2) by ring.
    rewrite Z_mod_plus_full. apply Z.mod_small. lia. }
  rewrite Eq. clear Eq E8.
  rewrite Zplus_mod_idemp_r.
  rewrite <- Zmult_mod_idemp_l.
  assert (Hodd : m0 mod 2 = 1).
  { rewrite Zmod_odd, m0_odd. reflexivity. }
  assert (H16 : m0 mod 16 = 1 \/ m0 mod 16 = 3 \/ m0 mod 16 = 5 \/ m0 mod 16 = 7 \/
                m0 mod 16 = 9 \/ m0 mod 16 = 11 \/ m0 mod 16 = 13 \/ m0 mod 16 = 15).
  { pose proof (Z.mod_pos_bound m0 16 ltac:(lia)).
    assert ((m0 mod 16) mod 2 = 1).
    { rewrite (Z.mod_mod_divide m0 16 2) by (exists 8; lia). exact Hodd. }
    generalize dependent (m0 mod 16). intros r Hr H2.
    assert (r = 0 \/ r = 1 \/ r = 2 \/ r = 3 \/ r = 4 \/ r = 5 \/ r = 6 \/ r = 7 \/
            r = 8 \/ r = 9 \/ r = 10 \/ r = 11 \/ r = 12 \/ r = 13 \/ r = 14 \/ r = 15)
      as C by lia.
    repeat (destruct C as [-> | C]; [try (cbv in H2; discriminate); tauto|]).
    subst r. tauto. }
  assert (E8 : (m0 + 2) mod 8 = (m0 mod 16 + 2) mod 8).
  { rewrite <- (Z.mod_mod_divide (m0 mod 16 + 2) 16 8) by (exists 2; lia).
    rewrite Zplus_mod_idemp_l. rewrite Z.mod_mod_divide by (exists 2; lia).
    reflexivity. }
  rewrite E8.
  rewrite <- (Zplus_mod_idemp_l m0).
  destruct H16 as [H|[H|[H|[H|[H|[H|[H|H]]]]]]]; rewrite H; reflexivity.
Qed.

(** One Newton round doubles the number of correct low bits. *)
Lemma montg_newton (e : nat) (x : Z) :
  (2 * e <= biL ciL)%nat ->
  (m0 * x) mod pow2 e = 1 ->
  (m0 * tr (x * (2 - tr (m0 * x)))) mod pow2 (2 * e) = 1.
Proof.
  intros He H.
  rewrite <- Zmult_mod_idemp_r. rewrite mod_trunc by lia.
  rewrite <- (Zmult_mod_idemp_r (2 - tr (m0 * x))).
  rewrite <- (Zminus_mod_idemp_r 2). rewrite mod_trunc by lia.
  rewrite Zminus_mod_idemp_r. rewrite (Zmult_mod_idemp_r (2 - m0 * x) x).
  rewrite Zmult_mod_idemp_r.
  pose proof (pow2_pos e) as Pe.
  assert (D : exists t, m0 * x = 1 + t * pow2 e).
  { exists ((m0 * x) / pow2 e). rewrite (Z.div_mod (m0 * x) (pow2 e)) at 1 by lia.
    rewrite H. ring. }
  destruct D as [t D].
  replace (m0 * (x * (2 - m0 * x))) with ((m0 * x) * (2 - m0 * x)) by ring.
  rewrite D.
  replace ((1 + t * pow2 e) * (2 - (1 + t * pow2 e)))
    with (1 + (- t * t) * (pow2 e * pow2 e)) by ring.
  rewrite <- pow2_add. replace (e + e)%nat with (2 * e)%nat by lia.
  rewrite Z_mod_plus_full. apply Z.mod_small.
  pose proof (pow2_pos (2 * e)).
  assert (pow2 (2 * e) <> 1).
  { unfold pow2. intros F.
    assert (2 ^ 1 <= 2 ^ Z.of_nat (2 * e)).
    { apply Z.pow_le_mono_r; try lia. destruct e; [|lia].
      change (pow2 0) with 1 in H. rewrite Z.mod_1_r in H. lia. }
    lia. }
  lia.
Qed.

(** The loop started at [i = 2^r * 8] makes [r + 1] rounds. *)
Lemma montg_loop_spec (r : nat) :
  forall (fuel e : nat) (x : Z),
    (r < fuel)%nat ->
    (e * 2 ^ (r + 1) <= biL ciL)%nat ->
    (m0 * x) mod pow2 e = 1 ->
    (m0 * montg_loop ciL fuel (2 ^ r * 8) m0 x) mod pow2 (e * 2 ^ (r + 1)) = 1.
Proof.
  induction r as [|r IH]; intros fuel e x Hf He Hx.
  - destruct fuel as [|f]; [lia|]. cbn [montg_loop].
    change (2 ^ 0 * 8)%nat with 8%nat. cbn [Nat.leb].
    change (8 / 2)%nat with 4%nat.
    replace (e * 2 ^ (0 + 1))%nat with (2 * e)%nat in * by (cbn; lia).
    assert (E : forall y, montg_loop ciL f 4 m0 y = y).
    { intros y. destruct f; reflexivity. }
    rewrite E. apply montg_newton; auto.
  - destruct fuel as [|f]; [lia|]. cbn [montg_loop].
    assert (L : (8 <=? 2 ^ S r * 8)%nat = true).
    { apply Nat.leb_le. pose proof (Nat.pow_nonzero 2 (S r)). lia. }
    rewrite L.
    assert (D : (2 ^ S r * 8 / 2 = 2 ^ r * 8)%nat).
    { rewrite Nat.pow_succ_r'. replace (2 * 2 ^ r * 8)%nat with ((2 ^ r * 8) * 2)%nat by lia.
      apply Nat.div_mul. lia. }
    rewrite D.
    assert (P : (e * 2 ^ (S r + 1) = (2 * e) * 2 ^ (r + 1))%nat).
    { replace (S r + 1)%nat with (S (r + 1)) by lia. rewrite Nat.pow_succ_r'. lia. }
    rewrite P in *.
    apply IH; try lia.
    apply montg_newton; auto.
    assert (1 <= 2 ^ (r + 1))%nat.
    { pose proof (Nat.pow_nonzero 2 (r + 1)). lia. }
    nia.
Qed.

End MontgInit.




(** ** Which errors a call can return *)

Lemma None_benign : st_benign None.
Proof. intros e H. discriminate. Qed.

Lemma Some_benign (e : mpi_err) : benign e -> st_benign (Some e).
Proof. intros H e' E. inversion E. subst. exact H. Qed.

Lemma Ok_benign {A : Type} (a : A) : res_benign (Ok a).
Proof. intros e H. discriminate. Qed.

Lemma OutOfFuel_benign {A : Type} : res_benign (@OutOfFuel A).
Proof. intros e H. discriminate. Qed.

Lemma Err_benign {A : Type} (e : mpi_err) : benign e -> res_benign (@Err A e).
Proof. intros H e' E. inversion E. subst. exact H. Qed.

Lemma bind_benign {A C : Type} (c : res A) (k : A -> res C) :
  res_benign c -> (forall a, res_benign (k a)) -> res_benign (bind c k).
Proof.
  intros Hc Hk e. destruct c as [a|e'|]; simpl; intros H.
  - apply (Hk a). exact H.
  - apply (Hc e). inversion H. reflexivity.
  - discriminate.
Qed.

Lemma MPI_CHK_benign {A : Type} (r : A * status) :
  st_benign (snd r) -> res_benign (MPI_CHK r).
Proof.
  destruct r as [a [e|]]; simpl; intros H e' E; [|discriminate].
  inversion E. subst. apply H. reflexivity.
Qed.

Lemma and_then_benign (c : mpi * status) (k : mpi -> mpi * status) :
  st_benign (snd c) -> (forall X, st_benign (snd (k X))) ->
  st_benign (snd (and_then c k)).
Proof.
  destruct c as [X [e|]]; simpl; intros Hc Hk; [exact Hc | apply Hk].
Qed.

Create HintDb benign.

#[export] Hint Resolve None_benign Ok_benign OutOfFuel_benign : benign.
#[export] Hint Extern 1 (benign _) =>
  (left; reflexivity) || (right; left; reflexivity) || (right; right; reflexivity)
  : benign.

(** One step through the control structure of a function body.  A call
    whose result is inspected is first given its own verdict. *)
Ltac benign_step :=
  match goal with
  | |- res_benign (bind _ _) => apply bind_benign; [| intros ?]
  | |- res_benign (MPI_CHK _) => apply MPI_CHK_benign
  | |- res_benign (Err _) => apply Err_benign
  | |- st_benign (snd (and_then _ _)) => apply and_then_benign; [| intros ?]
  | |- st_benign (snd (_, _)) => cbn [snd]
  | |- st_benign (Some _) => apply Some_benign
  | |- res_benign (if ?c then _ else _) => destruct c
  | |- st_benign (snd (if ?c then _ else _)) => destruct c
  | |- res_benign (match ?x with _ => _ end) => benign_case x
  | |- st_benign (snd (match ?x with _ => _ end)) => benign_case x
  | |- st_benign (match ?x with _ => _ end) => benign_case x
  end
with benign_case x :=
  let T := type of x in
  lazymatch T with
  | (mpi * status)%type =>
      let H := fresh "Hb" in
      assert (H : st_benign (snd x)) by benign_tac;
      destruct x as [? [?|]]; cbn [snd] in H
  | res _ =>
      let H := fresh "Hb" in
      assert (H : res_benign x) by benign_tac;
      destruct x
  | _ => destruct x
  end
with benign_tac := repeat (benign_step || (progress auto with benign)).

Section Errors.

Variables ciL MAX_LIMBS WINDOW_SIZE : nat.

Local Abbreviation grow := (sgx_mpi_grow MAX_LIMBS).
Local Abbreviation copy := (sgx_mpi_copy MAX_LIMBS).
Local Abbreviation lset := (sgx_mpi_lset ciL MAX_LIMBS).
Local Abbreviation shift_l := (sgx_mpi_shift_l ciL MAX_LIMBS).
Local Abbreviation shift_r := (sgx_mpi_shift_r ciL MAX_LIMBS).
Local Abbreviation add_abs := (sgx_mpi_add_abs ciL MAX_LIMBS).
Local Abbreviation sub_abs := (sgx_mpi_sub_abs ciL MAX_LIMBS).
Local Abbreviation add_mpi := (sgx_mpi_add_mpi ciL MAX_LIMBS).
Local Abbreviation sub_mpi := (sgx_mpi_sub_mpi ciL MAX_LIMBS).
Local Abbreviation mul_mpi := (sgx_mpi_mul_mpi ciL MAX_LIMBS).
Local Abbreviation mul_int := (sgx_mpi_mul_int ciL MAX_LIMBS).
Local Abbreviation div_mpi := (sgx_mpi_div_mpi ciL MAX_LIMBS).
Local Abbreviation mod_mpi := (sgx_mpi_mod_mpi ciL MAX_LIMBS).

Lemma grow_benign (X : mpi) (k : nat) : st_benign (snd (grow X k)).
Proof. unfold sgx_mpi_grow. benign_tac. Qed.
Hint Resolve grow_benign : benign.

Lemma copy_benign (X Y : mpi) (same : bool) : st_benign (snd (copy X Y same)).
Proof.
  unfold sgx_mpi_copy. benign_tac.
Qed.
Hint Resolve copy_benign : benign.

Lemma lset_benign (X : mpi) (z : Z) : st_benign (snd (lset X z)).
Proof.
  unfold sgx_mpi_lset. benign_tac.
Qed.
Hint Resolve lset_benign : benign.

Lemma shift_l_benign (X : mpi) (k : nat) : st_benign (snd (shift_l X k)).
Proof. unfold sgx_mpi_shift_l. benign_tac. Qed.
Hint Resolve shift_l_benign : benign.

Lemma shift_r_benign (X : mpi) (k : nat) : st_benign (snd (shift_r X k)).
Proof. unfold sgx_mpi_shift_r. benign_tac. Qed.
Hint Resolve shift_r_benign : benign.

Lemma add_abs_carry_benign (k : nat) :
  forall (X : mpi) (i : nat) (c : Z),
    st_benign (snd (add_abs_carry ciL MAX_LIMBS k X i c)).
Proof.
  induction k as [|k IH]; intros X i c; cbn [add_abs_carry]; benign_tac.
Qed.
Hint Resolve add_abs_carry_benign : benign.

Lemma add_abs_benign (X A B : mpi) (xa xb : bool) :
  st_benign (snd (add_abs X A B xa xb)).
Proof. unfold sgx_mpi_add_abs. benign_tac. Qed.
Hint Resolve add_abs_benign : benign.

Lemma sub_abs_benign (X A B : mpi) (xa xb : bool) :
  st_benign (snd (sub_abs X A B xa xb)).
Proof.
  unfold sgx_mpi_sub_abs. benign_tac.
Qed.
Hint Resolve sub_abs_benign : benign.

Lemma add_mpi_benign (X A B : mpi) (xa xb : bool) :
  st_benign (snd (add_mpi X A B xa xb)).
Proof. unfold sgx_mpi_add_mpi. benign_tac. Qed.
Hint Resolve add_mpi_benign : benign.

Lemma sub_mpi_benign (X A B : mpi) (xa xb : bool) :
  st_benign (snd (sub_mpi X A B xa xb)).
Proof. unfold sgx_mpi_sub_mpi. benign_tac. Qed.
Hint Resolve sub_mpi_benign : benign.

Lemma mul_mpi_benign (X A B : mpi) (xa xb : bool) :
  st_benign (snd (mul_mpi X A B xa xb)).
Proof.
  unfold sgx_mpi_mul_mpi. benign_tac.
Qed.
Hint Resolve mul_mpi_benign : benign.

Lemma mul_int_benign (X A : mpi) (b : Z) (xa : bool) :
  st_benign (snd (mul_int X A b xa)).
Proof. unfold sgx_mpi_mul_int. benign_tac. Qed.
Hint Resolve mul_int_benign : benign.

Lemma qrnnd_fix_benign (fuel : nat) :
  forall d m q r, res_benign (qrnnd_fix ciL fuel d m q r).
Proof.
  induction fuel as [|f IH]; intros d m q r; cbn [qrnnd_fix]; benign_tac.
Qed.
Hint Resolve qrnnd_fix_benign : benign.

Lemma udiv_qrnnd_benign (fuel : nat) (x1 x0 d : Z) :
  res_benign (udiv_qrnnd ciL fuel x1 x0 d).
Proof. unfold udiv_qrnnd, qrnnd_half. benign_tac. Qed.
Hint Resolve udiv_qrnnd_benign : benign.

Lemma div_first_benign (fuel : nat) :
  forall Y k X Z, res_benign (div_first ciL MAX_LIMBS fuel Y k X Z).
Proof.
  induction fuel as [|f IH]; intros Y k X Z; cbn [div_first]; benign_tac.
Qed.
Hint Resolve div_first_benign : benign.

Lemma div_correct_benign (fuel : nat) :
  forall X Y t i k Z T1 T2,
    res_benign (div_correct ciL MAX_LIMBS fuel X Y t i k Z T1 T2).
Proof.
  induction fuel as [|f IH]; intros X Y t i k Z T1 T2; cbn [div_correct];
    benign_tac.
Qed.
Hint Resolve div_correct_benign : benign.

Lemma div_step_benign (fuel : nat) (Y : mpi) (t i : nat) (st : mpi * mpi * mpi * mpi) :
  res_benign (div_step ciL MAX_LIMBS fuel Y t i st).
Proof. unfold div_step. benign_tac. Qed.
Hint Resolve div_step_benign : benign.

Lemma for_down_res_benign {St : Type} (body : nat -> St -> res St) (k : nat) :
  (forall i st, res_benign (body i st)) ->
  forall lo st, res_benign (for_down_res k lo body st).
Proof.
  intros Hb. induction k as [|k IH]; intros lo st; cbn [for_down_res]; benign_tac.
Qed.

Lemma div_mpi_benign (fuel : nat) (Q R A B : mpi) (qnull rnull ra : bool) :
  res_benign (div_mpi fuel Q R A B qnull rnull ra).
Proof.
  unfold sgx_mpi_div_mpi. benign_tac.
  apply for_down_res_benign. intros. benign_tac.
Qed.
Hint Resolve div_mpi_benign : benign.

Lemma mod_add_back_benign (fuel : nat) :
  forall B R, res_benign (mod_add_back ciL MAX_LIMBS fuel B R).
Proof.
  induction fuel as [|f IH]; intros B R; cbn [mod_add_back]; benign_tac.
Qed.
Hint Resolve mod_add_back_benign : benign.

Lemma mod_sub_down_benign (fuel : nat) :
  forall B R, res_benign (mod_sub_down ciL MAX_LIMBS fuel B R).
Proof.
  induction fuel as [|f IH]; intros B R; cbn [mod_sub_down]; benign_tac.
Qed.
Hint Resolve mod_sub_down_benign : benign.

Lemma mod_mpi_benign (fuel : nat) (R A B : mpi) (ra : bool) :
  res_benign (mod_mpi fuel R A B ra).
Proof. unfold sgx_mpi_mod_mpi. benign_tac. Qed.
Hint Resolve mod_mpi_benign : benign.

Lemma exp_table_benign (k : nat) :
  forall i N mm WT, res_benign (exp_table ciL MAX_LIMBS k i N mm WT).
Proof.
  induction k as [|k IH]; intros i N mm WT; cbn [exp_table]; benign_tac.
Qed.
Hint Resolve exp_table_benign : benign.

Lemma exp_scan_benign (fuel : nat) :
  forall E N mm W wsize st, res_benign (exp_scan ciL fuel E N mm W wsize st).
Proof.
  induction fuel as [|f IH]; intros E N mm W wsize st; cbn [exp_scan]; benign_tac.
Qed.
Hint Resolve exp_scan_benign : benign.

End Errors.

#[export] Hint Resolve grow_benign copy_benign lset_benign shift_l_benign
  shift_r_benign add_abs_carry_benign add_abs_benign sub_abs_benign
  add_mpi_benign sub_mpi_benign mul_mpi_benign mul_int_benign
  qrnnd_fix_benign udiv_qrnnd_benign div_first_benign div_correct_benign
  div_step_benign div_mpi_benign mod_add_back_benign mod_sub_down_benign
  mod_mpi_benign exp_table_benign exp_scan_benign : benign.
Lemma land_1 (x : Z) : Z.land x 1 = x mod 2.
Proof. change 1 with (Z.ones 1). rewrite Z.land_ones by lia. reflexivity. Qed.

Section ExpModInput.

Variables ciL MAX_LIMBS WINDOW_SIZE : nat.
Hypothesis ciL_pos : (0 < ciL)%nat.

Lemma base_even : Z.even (base ciL) = true.
Proof.
  unfold base. rewrite Z.even_pow; [reflexivity|]. unfold biL. lia.
Qed.

(** The low bit of limb 0 is the parity of the number. *)
Lemma value_parity (X : mpi) :
  wf ciL X -> (0 < n X)%nat ->
  (Z.land (limb (p X) 0) 1 =? 0) = Z.even (value ciL X).
Proof.
  intros [Hs Hl] Hn. unfold value, n in *.
  destruct (p X) as [|x l]; [simpl in Hn; lia|].
  cbn [mag]. unfold limb. cbn [nth].
  rewrite land_1, Zmod_even.
  rewrite Z.even_mul, Z.even_add, Z.even_mul, base_even. cbn [orb].
  destruct Hs as [-> | ->]; cbn [Z.even orb];
    destruct (Z.even x); reflexivity.
Qed.


End ExpModInput.


(** ** Powers of two, shifts and bit counts *)

Lemma pow2_0 : pow2 0 = 1.
Proof. reflexivity. Qed.

Lemma pow2_S (e : nat) : pow2 (S e) = 2 * pow2 e.
Proof. unfold pow2. rewrite Nat2Z.inj_succ, Z.pow_succ_r by lia. reflexivity. Qed.

Lemma pow2_mono (d e : nat) : (d <= e)%nat -> pow2 d <= pow2 e.
Proof. intros H. unfold pow2. apply Z.pow_le_mono_r; lia. Qed.

Lemma pow2_lt (d e : nat) : (d < e)%nat -> pow2 d < pow2 e.
Proof. intros H. unfold pow2. apply Z.pow_lt_mono_r; lia. Qed.

Lemma pow2_split (d e : nat) : (d <= e)%nat -> pow2 e = pow2 d * pow2 (e - d).
Proof. intros H. rewrite <- pow2_add. f_equal. lia. Qed.

Lemma pow2_8 : pow2 8 = 256.
Proof. reflexivity. Qed.

Lemma div_pow2_pow2 (a : Z) (d e : nat) :
  a / pow2 d / pow2 e = a / pow2 (d + e).
Proof.
  pose proof (pow2_pos d). pose proof (pow2_pos e).
  rewrite Z.div_div by lia. rewrite pow2_add. reflexivity.
Qed.

Lemma mod_pow2_div (a : Z) (e d : nat) :
  (d <= e)%nat -> (a mod pow2 e) / pow2 d = (a / pow2 d) mod pow2 (e - d).
Proof.
  intros H. pose proof (pow2_pos d). pose proof (pow2_pos (e - d)).
  rewrite (pow2_split d e H).
  rewrite Z.rem_mul_r by lia.
  rewrite (Z.mul_comm (pow2 d)), Z.div_add by lia.
  rewrite (Z.div_small (a mod pow2 d)) by (apply Z.mod_pos_bound; lia).
  reflexivity.
Qed.

Lemma mod_mod_pow2 (a : Z) (d e : nat) :
  (d <= e)%nat -> (a mod pow2 e) mod pow2 d = a mod pow2 d.
Proof. intros H. apply Z.mod_mod_divide. apply pow2_divide. exact H. Qed.

(** The digit of [a mod 2^e] at [d], [w] bits wide, is the digit of [a]. *)
Lemma digit_of_mod (a : Z) (e d w : nat) :
  (d + w <= e)%nat ->
  ((a mod pow2 e) / pow2 d) mod pow2 w = (a / pow2 d) mod pow2 w.
Proof.
  intros H. rewrite mod_pow2_div by lia. apply mod_mod_pow2. lia.
Qed.

Lemma land_disjoint (a b : Z) (e : nat) :
  0 <= a < pow2 e -> Z.land a (b * pow2 e) = 0.
Proof.
  intros H. unfold pow2 in *. apply Z.bits_inj'. intros k Hk.
  rewrite Z.land_spec, Z.bits_0.
  destruct (Z.ltb_spec k (Z.of_nat e)).
  - rewrite Z.mul_pow2_bits_low by lia. apply andb_false_r.
  - rewrite <- (Z.mod_small a (2 ^ Z.of_nat e)) by lia.
    rewrite Z.mod_pow2_bits_high by lia. reflexivity.
Qed.

Lemma lor_disjoint (a b : Z) (e : nat) :
  0 <= a < pow2 e -> Z.lor a (b * pow2 e) = a + b * pow2 e.
Proof.
  intros H. pose proof (land_disjoint a b e H) as L.
  rewrite Z.add_nocarry_lxor by exact L. symmetry. apply Z.lxor_lor. exact L.
Qed.

Section Bits.

Variable ciL : nat.

Local Abbreviation B := (base ciL).
Local Abbreviation Bp := (Bpow ciL).
Local Abbreviation W := (biL ciL).
Local Abbreviation tr := (trunc ciL).
Local Abbreviation mg := (mag ciL).
Local Abbreviation lok := (limbs_ok ciL).

Lemma Bpow_pow2 (k : nat) : Bp k = pow2 (k * W).
Proof.
  unfold Bpow, base, pow2. rewrite <- Z.pow_mul_r by lia. f_equal. lia.
Qed.

Lemma base_is_pow2 : B = pow2 W.
Proof. reflexivity. Qed.

Lemma shr_spec (x : Z) (k : nat) : shr x k = x / pow2 k.
Proof. unfold shr, pow2. apply Z.shiftr_div_pow2. lia. Qed.

Lemma shl_spec (x : Z) (k : nat) : shl ciL x k = tr (x * pow2 k).
Proof. unfold shl, pow2. rewrite Z.shiftl_mul_pow2 by lia. reflexivity. Qed.

Lemma bit_spec (x : Z) (j : nat) : bit x j = (x / pow2 j) mod 2.
Proof. unfold bit. rewrite land_1, shr_spec. reflexivity. Qed.

(** [bit_scan] is the bit length. *)
Lemma bit_scan_spec (x : Z) (w : nat) :
  0 <= x < pow2 w ->
  (bit_scan x w <= w)%nat /\
  x < pow2 (bit_scan x w) /\
  ((0 < bit_scan x w)%nat -> pow2 (bit_scan x w - 1) <= x).
Proof.
  induction w as [|w IH]; intros Hx.
  - cbn [bit_scan]. rewrite pow2_0 in *. repeat split; try lia.
  - cbn [bit_scan]. rewrite bit_spec.
    pose proof (pow2_pos w) as Pw. rewrite pow2_S in Hx.
    assert (Hq : 0 <= x / pow2 w < 2).
    { split; [apply Z.div_pos; lia | apply Z.div_lt_upper_bound; lia]. }
    destruct (Z.eqb_spec ((x / pow2 w) mod 2) 0) as [E|E]; cbn [negb].
    + assert (x / pow2 w = 0).
      { rewrite Z.mod_small in E by lia. exact E. }
      assert (x < pow2 w).
      { apply Z.div_small_iff in H; lia. }
      destruct (IH ltac:(lia)) as (I1 & I2 & I3). repeat split; auto.
    + assert (x / pow2 w = 1).
      { rewrite Z.mod_small in E by lia. lia. }
      repeat split; try lia.
      * rewrite pow2_S. lia.
      * intros _. replace (S w - 1)%nat with w by lia.
        pose proof (Z.mul_div_le x (pow2 w) Pw). lia.
Qed.

Lemma top_scan1_top_scan (l : list Z) (i : nat) :
  top_scan1 l i = (top_scan l (S i) - 1)%nat.
Proof.
  induction i as [|i IH].
  - cbn [top_scan1 top_scan]. destruct (limb l 0 =? 0); reflexivity.
  - cbn [top_scan1]. rewrite IH. cbn [top_scan].
    destruct (limb l (S i) =? 0); [|lia].
    destruct (limb l i =? 0); reflexivity.
Qed.

(** The limbs are the digits of the magnitude. *)
Lemma limb_of_mag (l : list Z) (k : nat) :
  lok l -> limb l k = (mg l / Bp k) mod B.
Proof.
  intros H. pose proof (base_pos ciL) as HB. pose proof (base_pow ciL k) as Hk.
  destruct (Nat.le_gt_cases (length l) k) as [Hlen|Hlen].
  - rewrite limb_overflow by exact Hlen.
    pose proof (mag_bound ciL l H). pose proof (Bpow_mono ciL _ _ Hlen).
    rewrite Z.div_small by lia. reflexivity.
  - rewrite (mag_firstn_skipn ciL l k). rewrite Nat.min_l by lia.
    pose proof (mag_bound ciL _ (limbs_ok_firstn ciL l k H)) as Hf.
    rewrite length_firstn, Nat.min_l in Hf by lia.
    rewrite (Z.mul_comm (Bp k)), Z.div_add by lia.
    rewrite (Z.div_small (mg (firstn k l))) by lia.
    pose proof (limb_skipn l k 0) as Hs. rewrite Nat.add_0_r in Hs. unfold limb in *.
    pose proof (limbs_ok_skipn ciL l k H) as Hok.
    destruct (skipn k l) as [|x r] eqn:E.
    + apply (f_equal (@length Z)) in E. rewrite length_skipn in E. simpl in E. lia.
    + cbn [nth] in Hs. cbn [mag]. pose proof (Forall_inv Hok) as Hx0.
      cbn beta in Hx0. rewrite Z.add_0_l.
      replace (x + base ciL * mag ciL r) with (x + mag ciL r * base ciL) by ring.
      rewrite Z_mod_plus_full, <- Hs. symmetry. apply Z.mod_small. assumption.
Qed.

Lemma msb_empty (X : mpi) : p X = [] -> sgx_mpi_msb ciL X = 0%nat.
Proof.
  intros H. unfold sgx_mpi_msb, n. rewrite H. cbn [length Nat.sub top_scan1 limb nth].
  assert (E : forall w, bit_scan 0 w = 0%nat).
  { induction w; cbn [bit_scan]; auto. rewrite bit_spec, Z.div_0_l, Z.mod_0_l. 
    - exact IHw.
    - lia.
    - pose proof (pow2_pos w). lia. }
  rewrite E. lia.
Qed.

(** [sgx_mpi_msb] is the bit length of the magnitude. *)
Lemma msb_spec (X : mpi) :
  lok (p X) ->
  mg (p X) < pow2 (sgx_mpi_msb ciL X) /\
  ((0 < sgx_mpi_msb ciL X)%nat -> pow2 (sgx_mpi_msb ciL X - 1) <= mg (p X)) /\
  (sgx_mpi_msb ciL X <= n X * W)%nat.
Proof.
  intros H. destruct (p X) as [|x0 l0] eqn:EP.
  { rewrite (msb_empty X EP). cbn [mag]. rewrite pow2_0. repeat split; lia. }
  rewrite <- EP in *.
  assert (Hn : (0 < n X)%nat) by (unfold n; rewrite EP; simpl; lia).
  unfold sgx_mpi_msb. rewrite top_scan1_top_scan.
  replace (S (n X - 1)) with (n X) by lia. unfold n in *.
  destruct (mag_eff ciL (p X) H) as (Ex & Ux & Lx & Zx). cbv zeta in *.
  pose proof (top_scan_le (p X) (length (p X))) as Hle.
  pose proof (top_scan_nonzero (p X) (length (p X))) as Hnz.
  generalize dependent (top_scan (p X) (length (p X))). intros e Ex Ux Lx Zx Hle Hnz.
  set (i := (e - 1)%nat).
  pose proof (limbs_ok_limb ciL (p X) i H) as Hli. rewrite base_is_pow2 in Hli.
  destruct (bit_scan_spec (limb (p X) i) W Hli) as (J1 & J2 & J3).
  generalize dependent (bit_scan (limb (p X) i) W). intros j J1 J2 J3.
  destruct (Nat.eq_dec e 0) as [He|He].
  - (* all limbs are zero *)
    rewrite (Zx He). subst i. rewrite He in *. cbn [Nat.sub] in *.
    assert (limb (p X) 0 = 0).
    { apply (mag_zero_limbs ciL); auto. }
    assert (j = 0%nat).
    { destruct j; auto. specialize (J3 ltac:(lia)). pose proof (pow2_pos (S j - 1)). lia. }
    subst j. replace (0 * biL ciL + 0)%nat with 0%nat by lia.
    rewrite pow2_0. repeat split; lia.
  - specialize (Hnz ltac:(lia)). fold i in Hnz.
    assert (Hj : (0 < j)%nat).
    { destruct j; [|lia]. rewrite pow2_0 in J2. lia. }
    specialize (J3 Hj).
    assert (Em : mg (p X) = mg (firstn i (p X)) + Bp i * limb (p X) i).
    { rewrite Ex. replace e with (S i) by (subst i; lia). apply mag_firstn_S. }
    pose proof (mag_firstn_bound ciL (p X) i H) as Hfb.
    rewrite Bpow_pow2 in *.
    pose proof (pow2_pos (i * W)).
    repeat split.
    + rewrite pow2_add. nia.
    + intros _. replace (i * W + j - 1)%nat with (i * W + (j - 1))%nat by lia.
      rewrite pow2_add. nia.
    + subst i. nia.
Qed.

End Bits.

(** ** Growing, setting and copying *)

Lemma mpi_eta (X : mpi) : mk_mpi (s X) (p X) = X.
Proof. destruct X; reflexivity. Qed.

Section Lifecycle.

Variables ciL MAX_LIMBS : nat.

Local Abbreviation B := (base ciL).
Local Abbreviation mg := (mag ciL).
Local Abbreviation lok := (limbs_ok ciL).
Local Abbreviation grow := (sgx_mpi_grow MAX_LIMBS).
Local Abbreviation copy := (sgx_mpi_copy MAX_LIMBS).
Local Abbreviation lset := (sgx_mpi_lset ciL MAX_LIMBS).

Lemma grow_ok (X : mpi) (k : nat) :
  (k <= MAX_LIMBS)%nat ->
  grow X k = (mk_mpi (s X) (p X ++ repeat 0 (k - n X)), None).
Proof.
  intros H. unfold sgx_mpi_grow.
  destruct (Nat.ltb_spec MAX_LIMBS k); [lia|].
  destruct (Nat.ltb_spec (n X) k); [reflexivity|].
  replace (k - n X)%nat with 0%nat by lia. cbn [repeat].
  rewrite app_nil_r, mpi_eta. reflexivity.
Qed.

Lemma grow_fail (X : mpi) (k : nat) :
  (MAX_LIMBS < k)%nat -> grow X k = (X, Some MALLOC_FAILED).
Proof.
  intros H. unfold sgx_mpi_grow. destruct (Nat.ltb_spec MAX_LIMBS k); [reflexivity|lia].
Qed.

(** Whatever [grow] answers, sign and magnitude stay. *)
Lemma grow_inv (X X' : mpi) (k : nat) (r : status) :
  grow X k = (X', r) ->
  s X' = s X /\ mg (p X') = mg (p X) /\ (lok (p X) -> lok (p X')) /\
  (n X <= n X')%nat /\ (r = None -> (k <= n X')%nat /\ n X' = Nat.max (n X) k).
Proof.
  unfold sgx_mpi_grow. intros H.
  destruct (Nat.ltb_spec MAX_LIMBS k).
  { inversion H; subst. repeat split; auto; intros; try discriminate; lia. }
  destruct (Nat.ltb_spec (n X) k); inversion H; subst; cbn [s p n].
  - unfold n. cbn [p]. rewrite length_app, repeat_length, mag_app, mag_repeat0.
    repeat split; try lia.
    intros Hl. apply limbs_ok_app; auto. apply limbs_ok_repeat0.
  - repeat split; auto; intros; lia.
Qed.

Lemma abs_limb_0 : abs_limb ciL 0 = 0.
Proof.
  unfold abs_limb, trunc. cbn [Z.ltb Z.compare].
  apply Z.mod_0_l. pose proof (base_pos ciL). lia.
Qed.

Lemma lset_ok (X : mpi) (z : Z) :
  (1 <= MAX_LIMBS)%nat ->
  lset X z = (mk_mpi (sign_of z)
                (abs_limb ciL z :: repeat 0 (Nat.max 1 (n X) - 1)), None).
Proof.
  intros H. unfold sgx_mpi_lset. rewrite grow_ok by exact H.
  unfold n at 1. cbn [p]. rewrite length_app, repeat_length.
  fold (n X). replace (n X + (1 - n X))%nat with (S (Nat.max 1 (n X) - 1)) by lia.
  reflexivity.
Qed.

Lemma lset_inv (X X' : mpi) (z : Z) :
  lset X z = (X', None) ->
  X' = mk_mpi (sign_of z) (abs_limb ciL z :: repeat 0 (Nat.max 1 (n X) - 1)).
Proof.
  intros H. destruct (Nat.le_gt_cases 1 MAX_LIMBS) as [L|L].
  - rewrite lset_ok in H by exact L. inversion H. reflexivity.
  - unfold sgx_mpi_lset in H. rewrite grow_fail in H by lia. discriminate.
Qed.

Lemma lset_value (X X' : mpi) (z : Z) :
  lset X z = (X', None) -> - B < z < B ->
  value ciL X' = z /\ wf ciL X' /\ n X' = Nat.max 1 (n X).
Proof.
  intros H Hz. rewrite (lset_inv X X' z H). unfold value, wf, n. cbn [s p mag length].
  rewrite mag_repeat0, repeat_length. unfold sign_of, abs_limb.
  pose proof (base_pos ciL).
  repeat split.
  - destruct (Z.ltb_spec z 0); rewrite trunc_small by lia; lia.
  - destruct (z <? 0); auto.
  - constructor; [apply trunc_range | apply limbs_ok_repeat0].
  - lia.
Qed.

Lemma copy_len_scan (Y : mpi) :
  (0 < n Y)%nat -> S (top_scan1 (p Y) (n Y - 1)) = copy_len Y.
Proof.
  intros H. unfold copy_len. rewrite top_scan1_top_scan.
  replace (S (n Y - 1)) with (n Y) by lia. lia.
Qed.

Lemma copy_len_le (Y : mpi) : (0 < n Y)%nat -> (copy_len Y <= n Y)%nat.
Proof.
  intros H. unfold copy_len. pose proof (top_scan_le (p Y) (n Y)). lia.
Qed.

Lemma mag_copy_len (Y : mpi) : mg (firstn (copy_len Y) (p Y)) = mg (p Y).
Proof.
  apply mag_firstn_top. intros j Hj. unfold copy_len in Hj.
  apply (top_scan_zero_above (p Y) (n Y)). unfold n in *. lia.
Qed.

(** A successful [copy] of distinct MPIs. *)
Lemma copy_inv (X Y X' : mpi) :
  copy X Y false = (X', None) ->
  mg (p X') = mg (p Y) /\ (lok (p Y) -> lok (p X')) /\
  (p Y <> [] -> s X' = s Y /\ n X' = Nat.max (n X) (copy_len Y) /\
                p X' = firstn (copy_len Y) (p Y)
                         ++ repeat 0 (Nat.max (n X) (copy_len Y) - copy_len Y)) /\
  (p Y = [] -> X' = sgx_mpi_init).
Proof.
  unfold sgx_mpi_copy. destruct (p Y) as [|y l] eqn:EY.
  { intros H. inversion H. cbn [sgx_mpi_free s p mag].
    split; [reflexivity|]. split; [intros _; constructor|].
    split; [intros F; exfalso; apply F; reflexivity | reflexivity]. }
  rewrite <- EY.
  assert (HnY : (0 < n Y)%nat) by (unfold n; rewrite EY; simpl; lia).
  rewrite (copy_len_scan Y HnY).
  destruct (grow _ _) as [X2 r] eqn:G.
  destruct (grow_inv _ _ _ _ G) as (G1 & G2 & G3 & G4 & G5).
  destruct r as [e|]; intros H; inversion H; subst X'. cbn [s p] in *.
  destruct (G5 eq_refl) as [G6 G7]. unfold n in G4, G6, G7. cbn [p] in G4, G6, G7.
  fold (n X) in G4, G7. fold (n X2) in *.
  pose proof (copy_len_le Y HnY) as Hcl.
  assert (Hlen : length (firstn (copy_len Y) (p Y)) = copy_len Y).
  { rewrite length_firstn. unfold n in Hcl. lia. }
  repeat split.
  - rewrite mag_app, mag_repeat0, mag_copy_len. lia.
  - intros Hl. apply limbs_ok_app; [apply limbs_ok_firstn; auto | apply limbs_ok_repeat0].
  - exact G1.
  - unfold n at 1. cbn [p]. rewrite length_app, repeat_length, Hlen. lia.
  - rewrite G7. reflexivity.
  - intros F. rewrite F in EY. discriminate.
Qed.

Lemma copy_same (X Y : mpi) : copy X Y true = (X, None).
Proof. reflexivity. Qed.

(** [copy] fails only for want of room. *)
Lemma copy_ok (X Y : mpi) :
  (n Y <= MAX_LIMBS)%nat -> exists X', copy X Y false = (X', None).
Proof.
  intros H. unfold sgx_mpi_copy. destruct (p Y) as [|y l] eqn:EY; [eauto|].
  rewrite <- EY.
  assert (HnY : (0 < n Y)%nat) by (unfold n; rewrite EY; simpl; lia).
  rewrite (copy_len_scan Y HnY). pose proof (copy_len_le Y HnY).
  rewrite grow_ok by lia. eauto.
Qed.

End Lifecycle.
(** ** Binary export and import *)

Lemma length_be_bytes (k : nat) (m : Z) : length (be_bytes k m) = k.
Proof. induction k; cbn [be_bytes length]; auto. Qed.

Lemma limb_be_bytes (k : nat) (m : Z) (j : nat) :
  (j < k)%nat -> limb (be_bytes k m) j = (m / pow2 (8 * (k - 1 - j))) mod 256.
Proof.
  revert j. induction k as [|k IH]; intros j Hj; [lia|].
  cbn [be_bytes]. unfold limb. destruct j as [|j]; cbn [nth].
  - arith_eq.
  - fold (limb (be_bytes k m) j). rewrite IH by lia. arith_eq.
Qed.

Lemma be_value_zeros (a : nat) (l : list Z) :
  be_value (repeat 0 a ++ l) = be_value l.
Proof.
  induction a; cbn [repeat app be_value]; auto; try (rewrite IHa; lia).
Qed.

Lemma be_value_be_bytes (k : nat) (m : Z) :
  be_value (be_bytes k m) = m mod pow2 (8 * k).
Proof.
  induction k as [|k IH].
  - cbn [be_bytes be_value]. change (pow2 (8 * 0)) with 1. rewrite Z.mod_1_r. reflexivity.
  - cbn [be_bytes be_value]. rewrite IH, length_be_bytes.
    replace (8 * S k)%nat with (8 * k + 8)%nat by lia.
    rewrite pow2_add, pow2_8.
    pose proof (pow2_pos (8 * k)).
    rewrite Z.rem_mul_r by lia.
    replace (256 ^ Z.of_nat k) with (pow2 (8 * k)).
    + ring.
    + unfold pow2. rewrite Nat2Z.inj_mul, Z.pow_mul_r by lia. reflexivity.
Qed.

Section Binary.

Variables ciL MAX_LIMBS : nat.
Hypothesis ciL_pos : (0 < ciL)%nat.

Local Abbreviation B := (base ciL).
Local Abbreviation Bp := (Bpow ciL).
Local Abbreviation W := (biL ciL).
Local Abbreviation tr := (trunc ciL).
Local Abbreviation mg := (mag ciL).
Local Abbreviation lok := (limbs_ok ciL).
Local Abbreviation size := (sgx_mpi_size ciL).
Local Abbreviation write_binary := (sgx_mpi_write_binary ciL).
Local Abbreviation read_binary := (sgx_mpi_read_binary ciL MAX_LIMBS).

(** [sgx_mpi_size] is the length in bytes. *)
Lemma size_spec (X : mpi) :
  lok (p X) ->
  mg (p X) < pow2 (8 * size X) /\
  ((0 < size X)%nat -> pow2 (8 * (size X - 1)) <= mg (p X)) /\
  (size X <= n X * ciL)%nat.
Proof.
  intros H. destruct (msb_spec ciL X H) as (M1 & M2 & M3).
  unfold sgx_mpi_size. rewrite Nat.shiftr_div_pow2.
  change (2 ^ 3)%nat with 8%nat.
  generalize dependent (sgx_mpi_msb ciL X). intros m M1 M2 M3.
  pose proof (Nat.div_mod_eq (m + 7) 8) as D.
  pose proof (Nat.mod_upper_bound (m + 7) 8 ltac:(lia)) as U.
  set (k := ((m + 7) / 8)%nat) in *.
  repeat split.
  - apply Z.lt_le_trans with (pow2 m); auto. apply pow2_mono. lia.
  - intros Hk. apply Z.le_trans with (pow2 (m - 1)).
    + apply pow2_mono. lia.
    + apply M2. lia.
  - unfold biL in M3. lia.
Qed.

(** Byte [j] of the export is byte [j] of the magnitude. *)
Lemma export_byte (X : mpi) (j : nat) :
  lok (p X) ->
  to_uchar (shr (limb (p X) (j / ciL)) (j mod ciL * 8))
  = (mg (p X) / pow2 (8 * j)) mod 256.
Proof.
  intros H. unfold to_uchar. rewrite shr_spec, (limb_of_mag ciL) by exact H.
  rewrite (base_is_pow2 ciL), Bpow_pow2. rewrite <- pow2_8.
  pose proof (Nat.mod_upper_bound j ciL ltac:(lia)) as U.
  rewrite digit_of_mod by (unfold biL; lia).
  rewrite div_pow2_pow2.
  pose proof (Nat.div_mod_eq j ciL). unfold biL. arith_eq.
Qed.

(** The loop of [sgx_mpi_write_binary]: it fills the [k] bytes before
    [buflen - lo], last byte first. *)
Lemma export_loop_limb (X : mpi) (buflen : nat) (k : nat) :
  forall (lo : nat) (b : list Z) (i : nat),
    (lo + k <= buflen)%nat -> (buflen <= length b)%nat ->
    limb (for_up k lo
            (fun j b =>
               set_nth (buflen - 1 - j)
                 (to_uchar (shr (limb (p X) (j / ciL)) (j mod ciL * 8))) b) b) i
    = if ((buflen - (lo + k) <=? i) && (i <? buflen - lo))%nat
      then to_uchar (shr (limb (p X) ((buflen - 1 - i) / ciL))
                         ((buflen - 1 - i) mod ciL * 8))
      else limb b i.
Proof.
  induction k as [|k IH]; intros lo b i Hk Hb.
  - cbn [for_up].
    destruct (Nat.leb_spec (buflen - (lo + 0)) i); destruct (Nat.ltb_spec i (buflen - lo));
      cbn [andb]; try reflexivity; lia.
  - cbn [for_up]. rewrite IH by (rewrite ?length_set_nth; lia).
    destruct (Nat.leb_spec (buflen - (S lo + k)) i);
      destruct (Nat.ltb_spec i (buflen - S lo));
      destruct (Nat.leb_spec (buflen - (lo + S k)) i);
      destruct (Nat.ltb_spec i (buflen - lo)); cbn [andb]; try reflexivity; try lia.
    + assert (i = buflen - 1 - lo)%nat by lia. subst i.
      rewrite limb_set_nth_eq by lia. arith_eq.
    + rewrite limb_set_nth_neq by lia. reflexivity.
    + rewrite limb_set_nth_neq by lia. reflexivity.
Qed.

Lemma export_loop_length (X : mpi) (buflen : nat) (k : nat) :
  forall (lo : nat) (b : list Z),
    length (for_up k lo
              (fun j b =>
                 set_nth (buflen - 1 - j)
                   (to_uchar (shr (limb (p X) (j / ciL)) (j mod ciL * 8))) b) b)
    = length b.
Proof.
  induction k as [|k IH]; intros lo b; cbn [for_up]; auto.
  rewrite IH, length_set_nth. reflexivity.
Qed.

(** What [sgx_mpi_write_binary] leaves in the buffer. *)
Lemma write_binary_ok (X : mpi) (buf : list Z) (buflen : nat) :
  lok (p X) -> (buflen <= length buf)%nat -> (size X <= buflen)%nat ->
  write_binary X buf buflen
  = (repeat 0 (buflen - size X) ++ be_bytes (size X) (mg (p X))
       ++ skipn buflen buf, None).
Proof.
  intros H Hb Hs. unfold sgx_mpi_write_binary.
  destruct (Nat.ltb_spec buflen (size X)); [lia|]. f_equal.
  set (k := size X) in *.
  assert (L0 : length (repeat 0 buflen ++ skipn buflen buf) = length buf).
  { rewrite length_app, repeat_length, length_skipn. lia. }
  apply list_eq_limb.
  - rewrite export_loop_length, L0.
    rewrite !length_app, repeat_length, length_be_bytes, length_skipn. lia.
  - intros i Hi. rewrite export_loop_length, L0 in Hi.
    rewrite export_loop_limb by lia.
    replace (buflen - (0 + k))%nat with (buflen - k)%nat by lia.
    rewrite Nat.sub_0_r.
    destruct (Nat.leb_spec (buflen - k) i); destruct (Nat.ltb_spec i buflen);
      cbn [andb].
    + rewrite limb_app_r by (rewrite repeat_length; lia). rewrite repeat_length.
      rewrite limb_app_l by (rewrite length_be_bytes; lia).
      rewrite limb_be_bytes by lia. rewrite export_byte by exact H.
      arith_eq.
    + rewrite limb_app_r by (rewrite repeat_length; lia). rewrite repeat_length.
      rewrite limb_app_r by (rewrite repeat_length; lia). rewrite repeat_length.
      rewrite limb_app_r by (rewrite length_be_bytes; lia). rewrite length_be_bytes.
      f_equal. lia.
    + rewrite limb_app_l by (rewrite repeat_length; lia).
      rewrite limb_app_l by (rewrite repeat_length; lia).
      rewrite !limb_repeat0. reflexivity.
    + lia.
Qed.

(** The scan for the first non-zero byte. *)
Lemma skip_zeros_spec (buf : list Z) (a : nat) :
  forall (cnt i : nat),
    (forall j, (i <= j < i + a)%nat -> limb buf j = 0) ->
    (a <= cnt)%nat -> (cnt = a \/ limb buf (i + a) <> 0) ->
    skip_zeros buf cnt i = (i + a)%nat.
Proof.
  induction a as [|a IH]; intros cnt i Hz Hc Hn.
  - destruct cnt as [|cnt]; cbn [skip_zeros]; [lia|].
    destruct Hn as [Hn|Hn]; [lia|]. rewrite Nat.add_0_r in Hn.
    destruct (Z.eqb_spec (limb buf i) 0); [contradiction|]. cbn [negb]. lia.
  - destruct cnt as [|cnt]; [lia|]. cbn [skip_zeros].
    rewrite (Hz i) by lia. cbn [Z.eqb negb].
    rewrite (IH cnt (S i)); try lia.
    + intros j Hj. apply Hz. lia.
    + destruct Hn as [Hn|Hn]; [left; lia | right].
      replace (S i + a)%nat with (i + S a)%nat by lia. exact Hn.
Qed.

(** One round of the loop of [sgx_mpi_read_binary]: byte [j] of [m] joins
    the [j] low bytes already in place. *)
Lemma import_step_spec (l : list Z) (j : nat) (byte m : Z) (len : nat) :
  lok l -> length l = len -> (j < len * ciL)%nat ->
  mg l = m mod pow2 (8 * j) -> byte = (m / pow2 (8 * j)) mod 256 ->
  let l' := set_nth (j / ciL)
              (Z.lor (limb l (j / ciL)) (shl ciL byte (j mod ciL * 8))) l in
  lok l' /\ length l' = len /\ mg l' = m mod pow2 (8 * S j).
Proof.
  intros Hok Hl Hj Hm Hb l'.
  pose proof (Nat.div_mod_eq j ciL) as D.
  pose proof (Nat.mod_upper_bound j ciL ltac:(lia)) as U.
  assert (Hq : (j / ciL < len)%nat).
  { apply Nat.Div0.div_lt_upper_bound. lia. }
  set (q := (j / ciL)%nat) in *. set (r := (j mod ciL)%nat) in *.
  pose proof (pow2_pos (8 * j)) as P8j. pose proof (pow2_pos (r * 8)) as Pr.
  pose proof (pow2_pos (q * W)) as Pq.
  assert (Hbyte : 0 <= byte < 256).
  { rewrite Hb. apply Z.mod_pos_bound. lia. }
  assert (Hmb : 0 <= mg l < pow2 (8 * j)).
  { rewrite Hm. apply Z.mod_pos_bound. lia. }
  assert (Ej : pow2 (8 * j) = pow2 (q * W) * pow2 (r * 8)).
  { rewrite <- pow2_add. f_equal. unfold biL. lia. }
  assert (Er : pow2 (r * 8) * 256 <= B).
  { rewrite <- pow2_8, <- pow2_add, (base_is_pow2 ciL). apply pow2_mono.
    unfold biL. lia. }
  assert (Hlq : limb l q = mg l / pow2 (q * W) /\ 0 <= limb l q < pow2 (r * 8)).
  { rewrite (limb_of_mag ciL l q Hok), Bpow_pow2.
    assert (0 <= mg l / pow2 (q * W) < pow2 (r * 8)).
    { split; [apply Z.div_pos; lia|]. apply Z.div_lt_upper_bound; lia. }
    rewrite Z.mod_small by lia. split; [reflexivity | lia]. }
  destruct Hlq as [Elq Hlq].
  assert (Es : shl ciL byte (r * 8) = byte * pow2 (r * 8)).
  { rewrite shl_spec. apply trunc_small. nia. }
  assert (Ev : Z.lor (limb l q) (shl ciL byte (r * 8))
               = limb l q + byte * pow2 (r * 8)).
  { rewrite Es. apply lor_disjoint. exact Hlq. }
  unfold l'. rewrite Ev. repeat split.
  - apply limbs_ok_set_nth; auto. nia.
  - rewrite length_set_nth. exact Hl.
  - rewrite mag_set_nth by lia. rewrite Bpow_pow2.
    replace (8 * S j)%nat with (8 * j + 8)%nat by lia.
    rewrite pow2_add, pow2_8. rewrite Z.rem_mul_r by lia.
    rewrite <- Hm, <- Hb, Ej. ring.
Qed.

(** The loop of [sgx_mpi_read_binary] on an exported buffer. *)
Lemma import_loop (m : Z) (a k : nat) (buf : list Z) (len : nat) :
  (forall j, (j < k)%nat ->
             limb buf (a + k - 1 - j) = (m / pow2 (8 * j)) mod 256) ->
  (k <= len * ciL)%nat ->
  forall (k' : nat) (l : list Z),
    (k' <= k)%nat ->
    lok l -> length l = len -> mg l = m mod pow2 (8 * (k - k')) ->
    let l' := for_down k' a
                (fun i l =>
                   let j := (a + k - i)%nat in
                   set_nth (j / ciL)
                     (Z.lor (limb l (j / ciL))
                        (shl ciL (limb buf (i - 1)) (j mod ciL * 8))) l) l in
    lok l' /\ length l' = len /\ mg l' = m mod pow2 (8 * k).
Proof.
  intros Hbuf Hlen. induction k' as [|k' IH]; intros l Hk Hok Hl Hm.
  - cbn [for_down]. rewrite Nat.sub_0_r in Hm. auto.
  - cbn [for_down]. cbv zeta.
    replace (a + k - (a + S k'))%nat with (k - S k')%nat by lia.
    destruct (import_step_spec l (k - S k') (limb buf (a + S k' - 1)) m len)
      as (S1 & S2 & S3); auto; try lia.
    { replace (a + S k' - 1)%nat with (a + k - 1 - (k - S k'))%nat by lia.
      apply Hbuf. lia. }
    apply IH; auto; try lia.
    rewrite S3. arith_eq.
Qed.


End Binary.

(** ** Loops *)

Lemma for_up_inv {St : Type} (P : nat -> St -> Prop) (body : nat -> St -> St)
    (k : nat) :
  forall (lo : nat) (st : St),
    P lo st ->
    (forall i st, (lo <= i < lo + k)%nat -> P i st -> P (S i) (body i st)) ->
    P (lo + k)%nat (for_up k lo body st).
Proof.
  induction k as [|k IH]; intros lo st H0 Hstep; cbn [for_up].
  - rewrite Nat.add_0_r. exact H0.
  - replace (lo + S k)%nat with (S lo + k)%nat by lia. apply IH.
    + apply Hstep; [lia | exact H0].
    + intros i st' Hi. apply Hstep. lia.
Qed.

Lemma for_down_inv {St : Type} (P : nat -> St -> Prop) (body : nat -> St -> St)
    (k : nat) :
  forall (lo : nat) (st : St),
    P (lo + k)%nat st ->
    (forall i st, (lo < i <= lo + k)%nat -> P i st -> P (i - 1)%nat (body i st)) ->
    P lo (for_down k lo body st).
Proof.
  induction k as [|k IH]; intros lo st H0 Hstep; cbn [for_down].
  - rewrite Nat.add_0_r in H0. exact H0.
  - apply IH.
    + replace (lo + k)%nat with (lo + S k - 1)%nat by lia.
      apply Hstep; [lia | exact H0].
    + intros i st' Hi. apply Hstep. lia.
Qed.

Lemma set_nth_twice {A : Type} (i : nat) (v w : A) (m : list A) :
  set_nth i v (set_nth i w m) = set_nth i v m.
Proof.
  revert i. induction m as [|h t IH]; intros [|i]; cbn [set_nth]; auto.
  f_equal. apply IH.
Qed.

Section AddSub.

Variables ciL MAX_LIMBS : nat.
Hypothesis ciL_pos : (0 < ciL)%nat.

Local Abbreviation B := (base ciL).
Local Abbreviation Bp := (Bpow ciL).
Local Abbreviation tr := (trunc ciL).
Local Abbreviation mg := (mag ciL).
Local Abbreviation lok := (limbs_ok ciL).
Local Abbreviation grow := (sgx_mpi_grow MAX_LIMBS).
Local Abbreviation copy := (sgx_mpi_copy MAX_LIMBS).

Lemma base_gt_1 : 1 < B.
Proof. unfold base. apply Z.pow_gt_1; unfold biL; lia. Qed.

Local Abbreviation add_abs := (sgx_mpi_add_abs ciL MAX_LIMBS).
Local Abbreviation sub_abs := (sgx_mpi_sub_abs ciL MAX_LIMBS).
Local Abbreviation add_mpi := (sgx_mpi_add_mpi ciL MAX_LIMBS).
Local Abbreviation sub_mpi := (sgx_mpi_sub_mpi ciL MAX_LIMBS).

Lemma trunc_cases (a : Z) :
  - B <= a < 2 * B ->
  (a < 0 /\ tr a = a + B) \/ (0 <= a < B /\ tr a = a) \/ (B <= a /\ tr a = a - B).
Proof.
  intros H. pose proof (base_pos ciL) as HB. unfold trunc.
  destruct (Z.ltb_spec a 0); [left; split; auto|right].
  - replace a with ((a + B) + (-1) * B) at 1 by ring.
    rewrite Z_mod_plus_full. apply Z.mod_small. lia.
  - destruct (Z.ltb_spec a B); [left; split; auto; apply Z.mod_small; lia|right].
    split; auto. replace a with ((a - B) + 1 * B) at 1 by ring.
    rewrite Z_mod_plus_full. apply Z.mod_small. lia.
Qed.

(** One limb of an addition with carry. *)
Lemma add_limb (x o c : Z) :
  0 <= x < B -> 0 <= o < B -> 0 <= c <= 1 ->
  let x1 := tr (x + c) in
  let c1 := if x1 <? c then 1 else 0 in
  let x2 := tr (x1 + o) in
  let c2 := c1 + (if x2 <? o then 1 else 0) in
  0 <= x2 < B /\ 0 <= c2 <= 1 /\ x2 + B * c2 = x + o + c.
Proof.
  intros Hx Ho Hc x1 c1 x2 c2.
  pose proof (trunc_cases (x + c) ltac:(lia)) as [[? E1]|[[? E1]|[? E1]]];
    pose proof (trunc_range ciL (x1 + o)) as R2; fold x2 in R2;
    fold x1 in E1;
    (assert (R1 : 0 <= x1 < B) by (unfold x1; apply trunc_range));
    pose proof (trunc_cases (x1 + o) ltac:(lia)) as [[? E2]|[[? E2]|[? E2]]];
    fold x2 in E2; unfold c2, c1;
    destruct (Z.ltb_spec x1 c); destruct (Z.ltb_spec x2 o); lia.
Qed.

(** One limb of a subtraction with borrow. *)
Lemma sub_limb (d o c : Z) :
  0 <= d < B -> 0 <= o < B -> 0 <= c <= 1 ->
  let z := if d <? c then 1 else 0 in
  let x1 := tr (d - c) in
  let c1 := (if x1 <? o then 1 else 0) + z in
  let x2 := tr (x1 - o) in
  0 <= x2 < B /\ 0 <= c1 <= 1 /\ x2 - B * c1 = d - o - c.
Proof.
  intros Hd Ho Hc z x1 c1 x2.
  pose proof (trunc_cases (d - c) ltac:(lia)) as [[? E1]|[[? E1]|[? E1]]];
    pose proof (trunc_range ciL (x1 - o)) as R2; fold x2 in R2;
    fold x1 in E1;
    (assert (R1 : 0 <= x1 < B) by (unfold x1; apply trunc_range));
    pose proof (trunc_cases (x1 - o) ltac:(lia)) as [[? E2]|[[? E2]|[? E2]]];
    fold x2 in E2; unfold c1, z;
    destruct (Z.ltb_spec d c); destruct (Z.ltb_spec x1 o); lia.
Qed.

(** The main loop of [sgx_mpi_add_abs] on distinct buffers. *)
Lemma add_abs_loop (o l : list Z) (j : nat) :
  lok o -> lok l -> (j <= length l)%nat ->
  let r := for_up j 0 (add_abs_step ciL false o) (l, 0) in
  lok (fst r) /\ length (fst r) = length l /\ 0 <= snd r <= 1 /\
  mg (fst r) + snd r * Bp j = mg l + mg (firstn j o).
Proof.
  intros Ho Hl Hj.
  pose proof (for_up_inv
    (fun i (st : list Z * Z) =>
       lok (fst st) /\ length (fst st) = length l /\ 0 <= snd st <= 1 /\
       mg (fst st) + snd st * Bp i = mg l + mg (firstn i o))
    (add_abs_step ciL false o) j 0 (l, 0)) as H.
  cbn [Nat.add] in H. apply H; clear H.
  - cbn [fst snd firstn mag]. repeat split; auto; lia.
  - intros i [l' c] Hi (I1 & I2 & I3 & I4). cbn [fst snd] in *.
    unfold add_abs_step. cbv zeta. cbv iota.
    pose proof (add_limb (limb l' i) (limb o i) c
                  (limbs_ok_limb ciL l' i I1) (limbs_ok_limb ciL o i Ho) I3)
      as HA. cbv zeta in HA. destruct HA as (A1 & A2 & A3).
    cbn [fst snd]. rewrite !length_set_nth.
    rewrite set_nth_twice. split; [|split; [|split]]; auto.
    + apply limbs_ok_set_nth; auto.
    + rewrite mag_set_nth by lia. rewrite mag_firstn_S, Bpow_S.
      pose proof (base_pow ciL i). nia.
Qed.

Lemma add_abs_carry_0 (k : nat) (X : mpi) (i : nat) :
  add_abs_carry ciL MAX_LIMBS k X i 0 = (X, None).
Proof. destruct k; reflexivity. Qed.

(** The carry left by the main loop runs up the buffer, which grows by one
    limb if it must. *)
Lemma add_abs_carry_spec (k : nat) :
  forall (X : mpi) (i : nat) (c : Z) (X' : mpi) (r : status),
    lok (p X) -> (i <= n X)%nat -> 0 <= c <= 1 -> (n X - i < k)%nat ->
    add_abs_carry ciL MAX_LIMBS k X i c = (X', r) ->
    s X' = s X /\
    (n X <= n X' <= S (n X))%nat /\
    ((n X < MAX_LIMBS)%nat -> r = None) /\
    (r = None -> lok (p X') /\ mg (p X') = mg (p X) + c * Bp i).
Proof.
  pose proof base_gt_1 as HB1.
  induction k as [|k IH]; intros X i c X' r Hl Hi Hc Hk; [lia|].
  cbn [add_abs_carry]. destruct (Z.eqb_spec c 0) as [->|Hc0].
  { intros H. inversion H; subst. repeat split; auto; lia. }
  assert (c = 1) by lia. subst c.
  destruct (Nat.leb_spec (n X) i) as [Hle|Hlt].
  - (* the carry leaves the buffer: one more limb *)
    assert (i = n X) by lia. subst i.
    destruct (Nat.le_gt_cases (n X + 1) MAX_LIMBS) as [Hm|Hm].
    + rewrite (grow_ok MAX_LIMBS) by exact Hm. cbn [and_then s p].
      replace (n X + 1 - n X)%nat with 1%nat by lia. cbn [repeat].
      assert (E0 : limb (p X ++ [0]) (n X) = 0).
      { rewrite limb_app_r by (unfold n; lia). unfold n. rewrite Nat.sub_diag.
        reflexivity. }
      rewrite E0, Z.add_0_l.
      rewrite (trunc_small ciL 1) by lia. change (1 <? 1) with false. cbv iota.
      rewrite add_abs_carry_0. intros H. inversion H; subst. cbn [s p].
      assert (E : set_nth (n X) 1 (p X ++ [0]) = p X ++ [1]).
      { unfold n. clear. induction (p X) as [|h t IH]; cbn; auto. f_equal. exact IH. }
      rewrite E. unfold n at 2 3. cbn [p]. rewrite length_app. cbn [length].
      fold (n X). split; [|split; [|split]]; auto; try lia.
      intros _. split.
      * apply limbs_ok_app; auto. repeat constructor; lia.
      * rewrite mag_app. cbn [mag]. fold (n X). lia.
    + rewrite (grow_fail MAX_LIMBS) by lia. cbn [and_then].
      intros H. inversion H; subst.
      split; [|split; [|split]]; auto; try lia; intros; try lia; discriminate.
  - cbn [and_then].
    pose proof (limbs_ok_limb ciL (p X) i Hl) as Hli.
    destruct (trunc_cases (limb (p X) i + 1) ltac:(lia)) as [[? E]|[[? E]|[? E]]];
      [lia| |]; rewrite E.
    + (* no carry out of this limb *)
      destruct (Z.ltb_spec (limb (p X) i + 1) 1); [lia|].
      rewrite add_abs_carry_0. intros Hrun. inversion Hrun; subst. cbn [s p].
      unfold n at 2 3. cbn [p]. rewrite length_set_nth. fold (n X).
      split; [|split; [|split]]; auto; try lia.
      intros _. split.
      * apply limbs_ok_set_nth; auto; lia.
      * rewrite mag_set_nth by (unfold n in *; lia). ring.
    + (* the limb wraps to zero *)
      destruct (Z.ltb_spec (limb (p X) i + 1 - B) 1); [|lia].
      assert (En : n {| s := s X; p := set_nth i (limb (p X) i + 1 - B) (p X) |}
                   = n X).
      { unfold n. cbn [p]. apply length_set_nth. }
      intros Hrun. apply IH in Hrun; rewrite ?En; cbn [s p] in *; try lia.
      * rewrite En in Hrun. destruct Hrun as (H1 & H2 & H3 & H4).
        split; [|split; [|split]]; auto.
        intros Hr. destruct (H4 Hr) as [H5 H6]. split; auto.
        rewrite H6.
        rewrite mag_set_nth by (unfold n in *; lia). rewrite Bpow_S. ring.
      * apply limbs_ok_set_nth; auto; lia.
Qed.

(** The loops of [sgx_mpi_sub_hlp]: [d - s] over [cnt] limbs, the borrow
    running up as far as the buffer goes; [c] is the borrow that is left. *)
Lemma sub_hlp_spec (cnt : nat) (sl d : list Z) :
  lok sl -> lok d -> (cnt <= length d)%nat ->
  let d' := sgx_mpi_sub_hlp ciL cnt sl d in
  lok d' /\ length d' = length d /\
  exists c, 0 <= c <= 1 /\
            mg d' - c * Bp (length d) = mg d - mg (firstn cnt sl).
Proof.
  intros Hs Hd Hc. unfold sgx_mpi_sub_hlp.
  pose proof (for_up_inv
    (fun i (st : list Z * Z) =>
       lok (fst st) /\ length (fst st) = length d /\ 0 <= snd st <= 1 /\
       mg (fst st) - snd st * Bp i = mg d - mg (firstn i sl))
    (sub_hlp_step ciL sl) cnt 0 (d, 0)) as H.
  cbn [Nat.add] in H.
  destruct H as (I1 & I2 & I3 & I4).
  - cbn [fst snd firstn mag]. repeat split; auto; lia.
  - intros i [l' c] Hi (I1 & I2 & I3 & I4). cbn [fst snd] in *.
    unfold sub_hlp_step. cbv zeta.
    pose proof (sub_limb (limb l' i) (limb sl i) c
                  (limbs_ok_limb ciL l' i I1) (limbs_ok_limb ciL sl i Hs) I3)
      as HA. cbv zeta in HA. destruct HA as (A1 & A2 & A3).
    cbn [fst snd]. rewrite length_set_nth. split; [|split; [|split]]; auto.
    + apply limbs_ok_set_nth; auto.
    + rewrite mag_set_nth by lia. rewrite mag_firstn_S, Bpow_S.
      pose proof (base_pow ciL i). nia.
  - destruct (for_up cnt 0 (sub_hlp_step ciL sl) (d, 0)) as [d1 c1].
    cbn [fst snd] in *. rewrite I2.
    (* the borrow loop *)
    assert (Hb : forall k l i c,
               lok l -> length l = length d -> 0 <= c <= 1 ->
               (i + k = length d)%nat ->
               let l' := sub_hlp_borrow ciL k l i c in
               lok l' /\ length l' = length d /\
               exists c', 0 <= c' <= 1 /\
                          mg l' - c' * Bp (length d) = mg l - c * Bp i).
    { induction k as [|k IH]; intros l i c Hl Hlen Hcc Hik; cbn [sub_hlp_borrow].
      - destruct (Z.eqb_spec c 0) as [->|]; cbv zeta.
        + repeat split; auto. exists 0. lia.
        + repeat split; auto. exists c. replace i with (length d) by lia. lia.
      - destruct (Z.eqb_spec c 0) as [->|Hc0]; cbv zeta.
        + repeat split; auto. exists 0. lia.
        + assert (c = 1) by lia. subst c.
          pose proof (limbs_ok_limb ciL l i Hl) as Hli.
          pose proof (trunc_range ciL (limb l i - 1)) as Ht.
          destruct (IH (set_nth i (tr (limb l i - 1)) l) (S i)
                      (if limb l i <? 1 then 1 else 0)) as (J1 & J2 & c' & J3 & J4).
          * apply limbs_ok_set_nth; auto; lia.
          * rewrite length_set_nth. exact Hlen.
          * destruct (limb l i <? 1); lia.
          * lia.
          * repeat split; auto. exists c'. split; auto.
            rewrite J4. rewrite mag_set_nth by lia. rewrite Bpow_S.
            pose proof (base_pow ciL i).
            destruct (trunc_cases (limb l i - 1) ltac:(lia)) as [[? E]|[[? E]|[? E]]];
              rewrite E; destruct (Z.ltb_spec (limb l i) 1); nia. }
    destruct (Hb (length d - cnt)%nat d1 cnt c1 I1 I2 I3 ltac:(lia))
      as (J1 & J2 & c' & J3 & J4).
    repeat split; auto. exists c'. split; auto. rewrite J4, I4. reflexivity.
Qed.

(** When the result is not negative the borrow is gone. *)
Lemma sub_hlp_exact (cnt : nat) (sl d : list Z) :
  lok sl -> lok d -> (cnt <= length d)%nat -> mg (firstn cnt sl) <= mg d ->
  let d' := sgx_mpi_sub_hlp ciL cnt sl d in
  lok d' /\ length d' = length d /\ mg d' = mg d - mg (firstn cnt sl).
Proof.
  intros Hs Hd Hc Hle. 
  destruct (sub_hlp_spec cnt sl d Hs Hd Hc) as (H1 & H2 & c & H3 & H4).
  cbv zeta. repeat split; auto.
  pose proof (mag_bound ciL _ H1) as Hb. rewrite H2 in Hb.
  pose proof (base_pow ciL (length d)).
  assert (c = 0) by nia. subst c. lia.
Qed.

End AddSub.

(** ** Signed addition and subtraction *)

Section AddSubMpi.

Variables ciL MAX_LIMBS : nat.
Hypothesis ciL_pos : (0 < ciL)%nat.

Local Abbreviation B := (base ciL).
Local Abbreviation Bp := (Bpow ciL).
Local Abbreviation mg := (mag ciL).
Local Abbreviation lok := (limbs_ok ciL).
Local Abbreviation val := (value ciL).
Local Abbreviation grow := (sgx_mpi_grow MAX_LIMBS).
Local Abbreviation copy := (sgx_mpi_copy MAX_LIMBS).
Local Abbreviation add_abs := (sgx_mpi_add_abs ciL MAX_LIMBS).
Local Abbreviation sub_abs := (sgx_mpi_sub_abs ciL MAX_LIMBS).
Local Abbreviation add_mpi := (sgx_mpi_add_mpi ciL MAX_LIMBS).
Local Abbreviation sub_mpi := (sgx_mpi_sub_mpi ciL MAX_LIMBS).

(** A smaller magnitude has no more significant limbs. *)
Lemma eff_le_length (l1 l2 : list Z) :
  lok l1 -> lok l2 -> mg l1 <= mg l2 ->
  (top_scan l1 (length l1) <= length l2)%nat.
Proof.
  intros H1 H2 Hle.
  destruct (mag_eff ciL l1 H1) as (_ & _ & L & _). cbv zeta in L.
  pose proof (mag_bound ciL l2 H2) as Hb.
  destruct (Nat.le_gt_cases (top_scan l1 (length l1)) (length l2)) as [|Hgt]; auto.
  exfalso. specialize (L ltac:(lia)).
  pose proof (Bpow_mono ciL (length l2) (top_scan l1 (length l1) - 1) ltac:(lia)).
  lia.
Qed.

(** A possibly aliased copy keeps the magnitude. *)
Lemma copy_mag (X Y X' : mpi) (same : bool) :
  (same = true -> X = Y) -> copy X Y same = (X', None) ->
  mg (p X') = mg (p Y) /\ (lok (p Y) -> lok (p X')) /\
  (n X' <= Nat.max (n X) (n Y))%nat.
Proof.
  intros Hsame H. destruct same.
  - rewrite copy_same in H. inversion H; subst. rewrite (Hsame eq_refl).
    repeat split; auto; lia.
  - destruct (copy_inv ciL MAX_LIMBS X Y X' H) as (C1 & C2 & C3 & C4).
    repeat split; auto.
    destruct (p Y) as [|y l] eqn:E.
    + rewrite (C4 eq_refl). cbn. lia.
    + destruct C3 as (_ & C5 & _); [congruence|]. rewrite C5.
      assert (0 < n Y)%nat by (unfold n; rewrite E; simpl; lia).
      pose proof (copy_len_le Y H0). lia.
Qed.

Lemma sub_abs_inv (X A Bm X' : mpi) (xa xb : bool) :
  lok (p A) -> lok (p Bm) -> (xa = true -> X = A) -> (xb = true -> X = Bm) ->
  sub_abs X A Bm xa xb = (X', None) ->
  mg (p Bm) <= mg (p A) /\ lok (p X') /\ mg (p X') = mg (p A) - mg (p Bm) /\
  s X' = 1 /\ (n X' <= Nat.max (n X) (n A))%nat.
Proof.
  intros HA HB Hxa Hxb. unfold sgx_mpi_sub_abs.
  rewrite (cmp_abs_spec ciL) by assumption.
  destruct (Z.ltb_spec (Z.sgn (mg (p A) - mg (p Bm))) 0) as [Hs|Hs];
    [intros F; discriminate|].
  assert (Hle : mg (p Bm) <= mg (p A)).
  { destruct (Z.le_gt_cases (mg (p Bm)) (mg (p A))); auto.
    rewrite (proj2 (Z.sgn_neg_iff _)) in Hs; lia. }
  (* the subtrahend, staged through TB when it is X *)
  assert (HB1 : forall B1 r, (if xb then copy sgx_mpi_init Bm false else (Bm, None)) = (B1, r) ->
                r = None -> mg (p B1) = mg (p Bm) /\ lok (p B1)).
  { intros B1 r E Hr. subst r. destruct xb.
    - destruct (copy_inv ciL MAX_LIMBS _ _ _ E) as (C1 & C2 & _). auto.
    - inversion E; subst. auto. }
  destruct (if xb then copy sgx_mpi_init Bm false else (Bm, None)) as [B1 [e|]] eqn:EB;
    [intros F; discriminate|].
  destruct (HB1 B1 None eq_refl eq_refl) as [M1 L1].
  assert (HX1 : forall X1, (if negb xa then copy X A false else (X, None)) = (X1, None) ->
                mg (p X1) = mg (p A) /\ lok (p X1) /\ (n X1 <= Nat.max (n X) (n A))%nat).
  { intros X1 E. destruct xa; cbn [negb] in E.
    - inversion E; subst. rewrite (Hxa eq_refl). repeat split; auto; lia.
    - destruct (copy_mag X A X1 false ltac:(discriminate) E) as (C1 & C2 & C3). auto. }
  destruct (if negb xa then copy X A false else (X, None)) as [X1 [e|]] eqn:EX;
    cbn [and_then]; [intros F; discriminate|].
  destruct (HX1 X1 eq_refl) as (M2 & L2 & N2).
  intros H. inversion H; subst X'. cbn [s p].
  set (k := top_scan (p B1) (n B1)).
  assert (Hk : (k <= length (p X1))%nat).
  { unfold k, n. apply eff_le_length; auto. lia. }
  assert (Ek : mg (firstn k (p B1)) = mg (p B1)) by (apply mag_top_scan).
  destruct (sub_hlp_exact ciL ciL_pos k (p B1) (p X1) L1 L2 Hk ltac:(lia))
    as (S1 & S2 & S3).
  repeat split; auto.
  - rewrite S3. lia.
  - unfold n at 1. cbn [p]. rewrite S2. exact N2.
Qed.

Lemma sub_abs_ok (X A Bm : mpi) (xa xb : bool) :
  lok (p A) -> lok (p Bm) -> mg (p Bm) <= mg (p A) ->
  (n A <= MAX_LIMBS)%nat -> (n Bm <= MAX_LIMBS)%nat ->
  exists X', sub_abs X A Bm xa xb = (X', None).
Proof.
  intros HA HB Hle NA NB. unfold sgx_mpi_sub_abs.
  rewrite (cmp_abs_spec ciL) by assumption.
  destruct (Z.ltb_spec (Z.sgn (mg (p A) - mg (p Bm))) 0) as [Hs|Hs].
  { apply Z.sgn_neg_iff in Hs. lia. }
  assert (EB : exists B1, (if xb then copy sgx_mpi_init Bm false else (Bm, None))
                          = (B1, None)).
  { destruct xb; [apply (copy_ok MAX_LIMBS); auto | eauto]. }
  destruct EB as [B1 ->].
  assert (EX : exists X1, (if negb xa then copy X A false else (X, None)) = (X1, None)).
  { destruct xa; cbn [negb]; [eauto | apply (copy_ok MAX_LIMBS); auto]. }
  destruct EX as [X1 ->]. cbn [and_then]. eauto.
Qed.

Lemma add_abs_inv (X A Bm X' : mpi) (xa xb : bool) :
  lok (p A) -> lok (p Bm) -> (xa = true -> X = A) -> (xb = true -> X = Bm) ->
  xa && xb = false ->
  add_abs X A Bm xa xb = (X', None) ->
  lok (p X') /\ mg (p X') = mg (p A) + mg (p Bm) /\ s X' = 1.
Proof.
  intros HA HB Hxa Hxb Hab. unfold sgx_mpi_add_abs.
  (* after the exchange, [A1] is the operand X may hold and [B1] is apart *)
  set (A1 := if xb then X else A). set (B1 := if xb then A else Bm).
  set (xa1 := if xb then true else xa).
  assert (Hxb1 : (if xb then xa else false) = false).
  { destruct xb, xa; auto; try discriminate. }
  rewrite Hxb1.
  assert (HA1 : lok (p A1) /\ lok (p B1) /\ mg (p A1) + mg (p B1) = mg (p A) + mg (p Bm)
                /\ (xa1 = true -> X = A1)).
  { unfold A1, B1, xa1. destruct xb.
    - rewrite (Hxb eq_refl). repeat split; auto; lia.
    - repeat split; auto. }
  destruct HA1 as (LA & LB & EM & Hxa1).
  clearbody A1 B1 xa1.
  assert (HX1 : forall X1, (if negb xa1 then copy X A1 false else (X, None)) = (X1, None) ->
                mg (p X1) = mg (p A1) /\ lok (p X1)).
  { intros X1 E. destruct xa1; cbn [negb] in E.
    - inversion E; subst. rewrite (Hxa1 eq_refl). auto.
    - destruct (copy_mag X A1 X1 false ltac:(discriminate) E) as (C1 & C2 & C3). auto. }
  destruct (if negb xa1 then copy X A1 false else (X, None)) as [X1 [e|]] eqn:EX;
    cbn [and_then]; [intros F; discriminate|].
  destruct (HX1 X1 eq_refl) as (M1 & L1).
  set (j := top_scan (p B1) (length (p B1))).
  destruct (grow _ j) as [X3 [e|]] eqn:G; cbn [and_then]; [intros F; discriminate|].
  destruct (grow_inv ciL MAX_LIMBS _ _ _ _ G) as (G1 & G2 & G3 & G4 & G5).
  cbn [s p] in *. destruct (G5 eq_refl) as [G6 _].
  pose proof (add_abs_loop ciL ciL_pos (p B1) (p X3) j LB (G3 L1) G6) as HL.
  cbv zeta in HL.
  destruct (for_up j 0 (add_abs_step ciL false (p B1)) (p X3, 0)) as [l c].
  cbn [fst snd] in HL. destruct HL as (K1 & K2 & K3 & K4).
  intros H.
  apply (add_abs_carry_spec ciL MAX_LIMBS ciL_pos) in H; cbn [s p]; auto.
  - destruct H as (H1 & H2 & H3 & H4). destruct (H4 eq_refl) as [H5 H6].
    cbn [s p] in *. repeat split; auto; try lia.
    assert (Ej : mg (firstn j (p B1)) = mg (p B1)) by apply mag_top_scan.
    rewrite H6, K4, G2, M1, Ej. exact EM.
  - unfold n in *. cbn [p] in *. lia.
  - unfold n in *. cbn [p] in *. lia.
Qed.

(** Signed addition and subtraction, on the dispatch of the code. *)
Lemma add_mpi_inv (X A Bm X' : mpi) (xa xb : bool) :
  wf ciL A -> wf ciL Bm -> (xa = true -> X = A) -> (xb = true -> X = Bm) ->
  xa && xb = false ->
  add_mpi X A Bm xa xb = (X', None) ->
  wf ciL X' /\ val X' = val A + val Bm.
Proof.
  intros [SA LA] [SB LB] Hxa Hxb Hab. unfold sgx_mpi_add_mpi, value.
  rewrite (cmp_abs_spec ciL) by assumption.
  pose proof (mag_bound ciL _ LA). pose proof (mag_bound ciL _ LB).
  destruct (Z.ltb_spec (s A * s Bm) 0) as [Hs|Hs].
  - destruct (Z.geb_spec (Z.sgn (mg (p A) - mg (p Bm))) 0) as [Hc|Hc].
    + destruct (sub_abs X A Bm xa xb) as [X1 [e|]] eqn:E; cbn [and_then];
        intros Hrun; inversion Hrun; subst.
      destruct (sub_abs_inv _ _ _ _ _ _ LA LB Hxa Hxb E) as (I1 & I2 & I3 & I4 & _).
      unfold wf, set_sign. cbn [s p]. rewrite I3. repeat split; auto.
      destruct SA as [EA|EA]; destruct SB as [EB|EB]; rewrite EA, EB in *; lia.
    + destruct (sub_abs X Bm A xb xa) as [X1 [e|]] eqn:E; cbn [and_then];
        intros Hrun; inversion Hrun; subst.
      destruct (sub_abs_inv _ _ _ _ _ _ LB LA Hxb Hxa E) as (I1 & I2 & I3 & I4 & _).
      unfold wf, set_sign. cbn [s p]. rewrite I3. repeat split; auto.
      * destruct SA as [-> | ->]; auto.
      * destruct SA as [EA|EA]; destruct SB as [EB|EB]; rewrite EA, EB in *; lia.
  - destruct (add_abs X A Bm xa xb) as [X1 [e|]] eqn:E; cbn [and_then];
      intros Hrun; inversion Hrun; subst.
    destruct (add_abs_inv _ _ _ _ _ _ LA LB Hxa Hxb Hab E) as (I1 & I2 & I3).
    unfold wf, set_sign. cbn [s p]. rewrite I2. repeat split; auto.
    destruct SA as [EA|EA]; destruct SB as [EB|EB]; rewrite EA, EB in *; lia.
Qed.

Lemma sub_mpi_inv (X A Bm X' : mpi) (xa xb : bool) :
  wf ciL A -> wf ciL Bm -> (xa = true -> X = A) -> (xb = true -> X = Bm) ->
  xa && xb = false ->
  sub_mpi X A Bm xa xb = (X', None) ->
  wf ciL X' /\ val X' = val A - val Bm.
Proof.
  intros [SA LA] [SB LB] Hxa Hxb Hab. unfold sgx_mpi_sub_mpi, value.
  rewrite (cmp_abs_spec ciL) by assumption.
  pose proof (mag_bound ciL _ LA). pose proof (mag_bound ciL _ LB).
  destruct (Z.gtb_spec (s A * s Bm) 0) as [Hs|Hs].
  - destruct (Z.geb_spec (Z.sgn (mg (p A) - mg (p Bm))) 0) as [Hc|Hc].
    + destruct (sub_abs X A Bm xa xb) as [X1 [e|]] eqn:E; cbn [and_then];
        intros Hrun; inversion Hrun; subst.
      destruct (sub_abs_inv _ _ _ _ _ _ LA LB Hxa Hxb E) as (I1 & I2 & I3 & I4 & _).
      unfold wf, set_sign. cbn [s p]. rewrite I3. repeat split; auto.
      destruct SA as [EA|EA]; destruct SB as [EB|EB]; rewrite EA, EB in *; lia.
    + destruct (sub_abs X Bm A xb xa) as [X1 [e|]] eqn:E; cbn [and_then];
        intros Hrun; inversion Hrun; subst.
      destruct (sub_abs_inv _ _ _ _ _ _ LB LA Hxb Hxa E) as (I1 & I2 & I3 & I4 & _).
      unfold wf, set_sign. cbn [s p]. rewrite I3. repeat split; auto.
      * destruct SA as [-> | ->]; auto.
      * destruct SA as [EA|EA]; destruct SB as [EB|EB]; rewrite EA, EB in *; lia.
  - destruct (add_abs X A Bm xa xb) as [X1 [e|]] eqn:E; cbn [and_then];
      intros Hrun; inversion Hrun; subst.
    destruct (add_abs_inv _ _ _ _ _ _ LA LB Hxa Hxb Hab E) as (I1 & I2 & I3).
    unfold wf, set_sign. cbn [s p]. rewrite I2. repeat split; auto.
    destruct SA as [EA|EA]; destruct SB as [EB|EB]; rewrite EA, EB in *; lia.
Qed.

End AddSubMpi.

(** ** The stored sign of a zero result *)

Section ZeroSign.

Variables ciL MAX_LIMBS : nat.
Hypothesis ciL_pos : (0 < ciL)%nat.

Local Abbreviation mg := (mag ciL).
Local Abbreviation lok := (limbs_ok ciL).
Local Abbreviation add_mpi := (sgx_mpi_add_mpi ciL MAX_LIMBS).
Local Abbreviation sub_mpi := (sgx_mpi_sub_mpi ciL MAX_LIMBS).
Local Abbreviation sub_abs := (sgx_mpi_sub_abs ciL MAX_LIMBS).

(** The branch that flips the sign runs only for [|A| < |B|], where the
    difference cannot vanish. *)
Lemma flipped_nonzero (X A Bm X1 : mpi) (xa xb : bool) :
  lok (p A) -> lok (p Bm) -> (xa = true -> X = A) -> (xb = true -> X = Bm) ->
  Z.sgn (mg (p A) - mg (p Bm)) < 0 ->
  sub_abs X Bm A xb xa = (X1, None) -> mg (p X1) <> 0.
Proof.
  intros LA LB Hxa Hxb Hc E.
  destruct (sub_abs_inv ciL MAX_LIMBS ciL_pos _ _ _ _ _ _ LB LA Hxb Hxa E)
    as (_ & _ & I3 & _).
  rewrite I3. pose proof (Z.sgn_nonneg (mg (p A) - mg (p Bm))). lia.
Qed.

Lemma add_mpi_zero_sign (X A Bm X' : mpi) (xa xb : bool) :
  wf ciL A -> wf ciL Bm -> (xa = true -> X = A) -> (xb = true -> X = Bm) ->
  add_mpi X A Bm xa xb = (X', None) -> value ciL X' = 0 -> s X' = s A.
Proof.
  intros [SA LA] [SB LB] Hxa Hxb. unfold sgx_mpi_add_mpi, value.
  rewrite (cmp_abs_spec ciL) by assumption.
  destruct (s A * s Bm <? 0).
  - destruct (Z.geb_spec (Z.sgn (mg (p A) - mg (p Bm))) 0) as [Hc|Hc].
    + destruct (sub_abs X A Bm xa xb) as [X1 [e|]]; cbn [and_then];
        intros Hrun; inversion Hrun; subst; reflexivity.
    + destruct (sub_abs X Bm A xb xa) as [X1 [e|]] eqn:E; cbn [and_then];
        intros Hrun; inversion Hrun; subst.
      pose proof (flipped_nonzero _ _ _ _ _ _ LA LB Hxa Hxb Hc E) as NZ.
      unfold set_sign. cbn [s p]. intros Hz. exfalso.
      destruct SA as [EA|EA]; rewrite EA in Hz; lia.
  - destruct (sgx_mpi_add_abs ciL MAX_LIMBS X A Bm xa xb) as [X1 [e|]];
      cbn [and_then]; intros Hrun; inversion Hrun; subst; reflexivity.
Qed.

Lemma sub_mpi_zero_sign (X A Bm X' : mpi) (xa xb : bool) :
  wf ciL A -> wf ciL Bm -> (xa = true -> X = A) -> (xb = true -> X = Bm) ->
  sub_mpi X A Bm xa xb = (X', None) -> value ciL X' = 0 -> s X' = s A.
Proof.
  intros [SA LA] [SB LB] Hxa Hxb. unfold sgx_mpi_sub_mpi, value.
  rewrite (cmp_abs_spec ciL) by assumption.
  destruct (s A * s Bm >? 0).
  - destruct (Z.geb_spec (Z.sgn (mg (p A) - mg (p Bm))) 0) as [Hc|Hc].
    + destruct (sub_abs X A Bm xa xb) as [X1 [e|]]; cbn [and_then];
        intros Hrun; inversion Hrun; subst; reflexivity.
    + destruct (sub_abs X Bm A xb xa) as [X1 [e|]] eqn:E; cbn [and_then];
        intros Hrun; inversion Hrun; subst.
      pose proof (flipped_nonzero _ _ _ _ _ _ LA LB Hxa Hxb Hc E) as NZ.
      unfold set_sign. cbn [s p]. intros Hz. exfalso.
      destruct SA as [EA|EA]; rewrite EA in Hz; lia.
  - destruct (sgx_mpi_add_abs ciL MAX_LIMBS X A Bm xa xb) as [X1 [e|]];
      cbn [and_then]; intros Hrun; inversion Hrun; subst; reflexivity.
Qed.

End ZeroSign.

Lemma store_alias (st : store) (x a : nat) :
  (x =? a)%nat = true -> st x = st a.
Proof. intros H. apply Nat.eqb_eq in H. congruence. Qed.

Lemma upd_same (st : store) (x : nat) (v : mpi) : upd st x v x = v.
Proof. unfold upd. rewrite Nat.eqb_refl. reflexivity. Qed.




(** ** Division: the half-limb estimate on a divisor limb below [base / 2] *)

(** The quotient digit estimated by the [__udiv_qrnnd_c] block for the limbs
    [0x40008000 0xFFFF0000] and the divisor limb [0x4000FFFF]: the first half
    digit is [0x10002], [m = q1 * d0] wraps around, and [q1 << biH] drops the
    top bit. *)
Example udiv_qrnnd_wraps :
  udiv_qrnnd 4 100 0x40008000 0xFFFF0000 0x4000FFFF = Ok 0x20000 /\
  (0x40008000 * 2 ^ 32 + 0xFFFF0000) / 0x4000FFFF = 0xFFFE000F.
Proof. vm_compute. split; reflexivity. Qed.

(** C2 (the code departs from its contract): [sgx_mpi_div_mpi] on
    [A = 0x40008000FFFF0000] and [B = 0x4000FFFF] with 32-bit limbs (and on
    the analogous input with 64-bit limbs) succeeds with [A = Q * B + R] but
    with a remainder [R] that is not below [|B|]: [Q] is [0x20000] where the
    quotient is [0xFFFE000F]. *)
Theorem div_mpi_remainder_not_reduced :
  (let A := mk_mpi 1 [0xFFFF0000; 0x40008000] in
   let B := mk_mpi 1 [0x4000FFFF] in
   exists Q R,
     sgx_mpi_div_mpi 4 100 100 sgx_mpi_init sgx_mpi_init A B false false false
       = Ok (Q, R) /\
     value 4 A = value 4 Q * value 4 B + value 4 R /\
     value 4 Q = 0x20000 /\ value 4 A / value 4 B = 0xFFFE000F /\
     Z.abs (value 4 B) <= value 4 R) /\
  (let A := mk_mpi 1 [0xFFFFFFFF00000000; 0x4000000080000000] in
   let B := mk_mpi 1 [0x40000000FFFFFFFF] in
   exists Q R,
     sgx_mpi_div_mpi 8 100 100 sgx_mpi_init sgx_mpi_init A B false false false
       = Ok (Q, R) /\
     value 8 A = value 8 Q * value 8 B + value 8 R /\
     Z.abs (value 8 B) <= value 8 R).
Proof.
  split.
  - eexists; eexists. split; [vm_compute; reflexivity|].
    vm_compute. repeat split; congruence.
  - eexists; eexists. split; [vm_compute; reflexivity|].
    vm_compute. repeat split; congruence.
Qed.

(** On operands the estimate handles, the remainder takes the sign of [A]:
    [-7 = (-3) * 2 + (-1)]. *)
Example div_mpi_negative_dividend :
  exists Q R,
    sgx_mpi_div_mpi 4 100 100 sgx_mpi_init sgx_mpi_init
      (mk_mpi (-1) [7]) (mk_mpi 1 [2]) false false false = Ok (Q, R) /\
    value 4 Q = -3 /\ value 4 R = -1.
Proof.
  eexists; eexists. split; [vm_compute; reflexivity|].
  vm_compute. split; reflexivity.
Qed.

(** ** Addition and subtraction within a limb budget *)

Section AddSubFit.

Variables ciL MAX_LIMBS : nat.
Hypothesis ciL_pos : (0 < ciL)%nat.

Local Abbreviation B := (base ciL).
Local Abbreviation Bp := (Bpow ciL).
Local Abbreviation mg := (mag ciL).
Local Abbreviation lok := (limbs_ok ciL).
Local Abbreviation val := (value ciL).
Local Abbreviation grow := (sgx_mpi_grow MAX_LIMBS).
Local Abbreviation copy := (sgx_mpi_copy MAX_LIMBS).
Local Abbreviation add_abs := (sgx_mpi_add_abs ciL MAX_LIMBS).
Local Abbreviation sub_abs := (sgx_mpi_sub_abs ciL MAX_LIMBS).
Local Abbreviation add_mpi := (sgx_mpi_add_mpi ciL MAX_LIMBS).
Local Abbreviation sub_mpi := (sgx_mpi_sub_mpi ciL MAX_LIMBS).

(** [Bpow] reflects the order of its exponents. *)
Lemma Bpow_lt_inv (j k : nat) : Bp j < Bp k -> (j < k)%nat.
Proof.
  intros H. destruct (Nat.le_gt_cases k j) as [Hle|]; auto.
  pose proof (Bpow_mono ciL k j Hle). lia.
Qed.

(** A sum that fits the buffer leaves no carry to allocate for. *)
Lemma add_abs_carry_fit (k : nat) :
  forall (X : mpi) (i : nat) (c : Z) (X' : mpi) (r : status),
    lok (p X) -> (i <= n X)%nat -> 0 <= c <= 1 -> (n X - i < k)%nat ->
    mg (p X) + c * Bp i < Bp (n X) ->
    add_abs_carry ciL MAX_LIMBS k X i c = (X', r) ->
    r = None /\ n X' = n X.
Proof.
  pose proof (base_gt_1 ciL ciL_pos) as HB1.
  induction k as [|k IH]; intros X i c X' r Hl Hi Hc Hk Hfit; [lia|].
  cbn [add_abs_carry]. destruct (Z.eqb_spec c 0) as [->|Hc0].
  { intros H. inversion H; subst. auto. }
  assert (c = 1) by lia. subst c.
  pose proof (mag_bound ciL _ Hl) as Hb.
  destruct (Nat.leb_spec (n X) i) as [Hle|Hlt].
  - assert (i = n X) by lia. subst i. lia.
  - cbn [and_then].
    pose proof (limbs_ok_limb ciL (p X) i Hl) as Hli.
    destruct (trunc_cases ciL ciL_pos (limb (p X) i + 1) ltac:(lia))
      as [[? E]|[[? E]|[? E]]]; [lia| |]; rewrite E.
    + destruct (Z.ltb_spec (limb (p X) i + 1) 1); [lia|].
      rewrite add_abs_carry_0. intros Hrun. inversion Hrun; subst.
      split; auto. unfold n. cbn [p]. apply length_set_nth.
    + destruct (Z.ltb_spec (limb (p X) i + 1 - B) 1); [|lia].
      assert (En : n {| s := s X; p := set_nth i (limb (p X) i + 1 - B) (p X) |}
                   = n X).
      { unfold n. cbn [p]. apply length_set_nth. }
      intros Hrun. rewrite <- En.
      eapply IH; [ | | | | | exact Hrun]; rewrite ?En; cbn [s p]; try lia.
      * apply limbs_ok_set_nth; auto; lia.
      * rewrite mag_set_nth by (unfold n in *; lia). rewrite Bpow_S.
        replace (mg (p X) + (limb (p X) i + 1 - B - limb (p X) i) * Bp i
                 + 1 * (B * Bp i)) with (mg (p X) + 1 * Bp i) by ring.
        exact Hfit.
Qed.

(** [sgx_mpi_add_abs] succeeds within [L] limbs when the operands and the
    sum fit [L] limbs. *)
Lemma add_abs_fit (L : nat) (X A Bm : mpi) (xa xb : bool) :
  lok (p A) -> lok (p Bm) -> (xa = true -> X = A) -> (xb = true -> X = Bm) ->
  xa && xb = false ->
  (n X <= L)%nat -> (n A <= L)%nat -> (n Bm <= L)%nat -> (L <= MAX_LIMBS)%nat ->
  mg (p A) + mg (p Bm) < Bp L ->
  exists X', add_abs X A Bm xa xb = (X', None) /\ (n X' <= L)%nat /\
             lok (p X') /\ mg (p X') = mg (p A) + mg (p Bm) /\ s X' = 1.
Proof.
  intros HA HB Hxa Hxb Hab NX NA NB HL Hsum.
  assert (Hinv := add_abs_inv ciL MAX_LIMBS ciL_pos X A Bm).
  cut (exists X', add_abs X A Bm xa xb = (X', None) /\ (n X' <= L)%nat).
  { intros (X' & E & N'). exists X'. split; auto. split; auto.
    apply (Hinv X' xa xb); auto. }
  clear Hinv. unfold sgx_mpi_add_abs.
  set (A1 := if xb then X else A). set (B1 := if xb then A else Bm).
  set (xa1 := if xb then true else xa).
  assert (Hxb1 : (if xb then xa else false) = false).
  { destruct xb, xa; auto; try discriminate. }
  rewrite Hxb1.
  assert (HA1 : lok (p A1) /\ lok (p B1) /\ mg (p A1) + mg (p B1) = mg (p A) + mg (p Bm)
                /\ (xa1 = true -> X = A1) /\ (n A1 <= L)%nat /\ (n B1 <= L)%nat).
  { unfold A1, B1, xa1. destruct xb.
    - rewrite (Hxb eq_refl). repeat split; auto; lia.
    - repeat split; auto. }
  destruct HA1 as (LA & LB & EM & Hxa1 & NA1 & NB1).
  clearbody A1 B1 xa1.
  assert (HX1 : exists X1, (if negb xa1 then copy X A1 false else (X, None)) = (X1, None) /\
                mg (p X1) = mg (p A1) /\ lok (p X1) /\ (n X1 <= L)%nat).
  { destruct xa1; cbn [negb].
    - exists X. rewrite (Hxa1 eq_refl) in *. auto.
    - destruct (copy_ok MAX_LIMBS X A1 ltac:(lia)) as [X1 E]. exists X1.
      destruct (copy_mag ciL MAX_LIMBS ciL_pos X A1 X1 false ltac:(discriminate) E)
        as (C1 & C2 & C3).
      repeat split; auto. lia. }
  destruct HX1 as (X1 & -> & M1 & L1 & N1). cbn [and_then].
  set (j := top_scan (p B1) (length (p B1))).
  assert (Hj : (j <= L)%nat).
  { unfold j. pose proof (top_scan_le (p B1) (length (p B1))). unfold n in NB1. lia. }
  rewrite (grow_ok MAX_LIMBS) by lia. cbn [and_then s p].
  set (l3 := p X1 ++ repeat 0 (j - n {| s := 1; p := p X1 |})).
  assert (L3 : lok l3) by (apply limbs_ok_app; auto; apply limbs_ok_repeat0).
  assert (N3 : length l3 = Nat.max (n X1) j).
  { unfold l3, n. cbn [p]. rewrite length_app, repeat_length. lia. }
  assert (M3 : mg l3 = mg (p X1)).
  { unfold l3. rewrite mag_app, mag_repeat0. lia. }
  pose proof (add_abs_loop ciL ciL_pos (p B1) l3 j LB L3 ltac:(lia)) as HLp.
  cbv zeta in HLp.
  destruct (for_up j 0 (add_abs_step ciL false (p B1)) (l3, 0)) as [l c].
  cbn [fst snd] in HLp. destruct HLp as (K1 & K2 & K3 & K4).
  assert (Ej : mg (firstn j (p B1)) = mg (p B1)) by apply mag_top_scan.
  destruct (add_abs_carry ciL MAX_LIMBS (S (length l)) {| s := 1; p := l |} j c)
    as [X' r] eqn:E.
  assert (Hn : n {| s := 1; p := l |} = length l) by reflexivity.
  assert (Hj1 : (j <= n {| s := 1; p := l |})%nat) by (rewrite Hn; lia).
  assert (Hj2 : (n {| s := 1; p := l |} - j < S (length l))%nat) by (rewrite Hn; lia).
  destruct (Z.lt_ge_cases (mg l + c * Bp j) (Bp (length l))) as [Hfit|Hbig].
  - destruct (add_abs_carry_fit _ {| s := 1; p := l |} j c X' r K1
                Hj1 K3 Hj2 Hfit E) as [-> En].
    exists X'. split; auto. rewrite En, Hn. lia.
  - assert (length l < L)%nat.
    { apply Bpow_lt_inv. lia. }
    destruct (add_abs_carry_spec ciL MAX_LIMBS ciL_pos _ {| s := 1; p := l |}
                j c X' r K1 Hj1 K3 Hj2 E)
      as (_ & S2 & S3 & _).
    rewrite Hn in *. rewrite S3 by lia. exists X'. split; auto. lia.
Qed.

(** [sgx_mpi_sub_abs] of the smaller from the larger never allocates beyond
    the minuend. *)
Lemma sub_abs_fit (L : nat) (X A Bm : mpi) (xa xb : bool) :
  lok (p A) -> lok (p Bm) -> (xa = true -> X = A) -> (xb = true -> X = Bm) ->
  (n X <= L)%nat -> (n A <= L)%nat -> (n Bm <= L)%nat -> (L <= MAX_LIMBS)%nat ->
  mg (p Bm) <= mg (p A) ->
  exists X', sub_abs X A Bm xa xb = (X', None) /\ (n X' <= L)%nat /\
             lok (p X') /\ mg (p X') = mg (p A) - mg (p Bm) /\ s X' = 1.
Proof.
  intros HA HB Hxa Hxb NX NA NB HL Hle.
  destruct (sub_abs_ok ciL MAX_LIMBS ciL_pos X A Bm xa xb HA HB Hle
              ltac:(lia) ltac:(lia)) as [X' E].
  destruct (sub_abs_inv ciL MAX_LIMBS ciL_pos _ _ _ _ _ _ HA HB Hxa Hxb E)
    as (_ & I2 & I3 & I4 & I5).
  exists X'. repeat split; auto. lia.
Qed.

Lemma add_mpi_fit (L : nat) (X A Bm : mpi) (xa xb : bool) :
  wf ciL A -> wf ciL Bm -> (xa = true -> X = A) -> (xb = true -> X = Bm) ->
  xa && xb = false ->
  (n X <= L)%nat -> (n A <= L)%nat -> (n Bm <= L)%nat -> (L <= MAX_LIMBS)%nat ->
  mg (p A) + mg (p Bm) < Bp L ->
  exists X', add_mpi X A Bm xa xb = (X', None) /\ (n X' <= L)%nat /\
             wf ciL X' /\ val X' = val A + val Bm.
Proof.
  intros WA WB Hxa Hxb Hab NX NA NB HL Hsum.
  assert (Hinv := add_mpi_inv ciL MAX_LIMBS ciL_pos X A Bm).
  cut (exists X', add_mpi X A Bm xa xb = (X', None) /\ (n X' <= L)%nat).
  { intros (X' & E & N'). exists X'. split; auto. split; auto.
    apply (Hinv X' xa xb); auto. }
  clear Hinv. destruct WA as [SA LA]. destruct WB as [SB LB].
  unfold sgx_mpi_add_mpi. rewrite (cmp_abs_spec ciL) by assumption.
  pose proof (mag_bound ciL _ LA). pose proof (mag_bound ciL _ LB).
  destruct (s A * s Bm <? 0).
  - destruct (Z.geb_spec (Z.sgn (mg (p A) - mg (p Bm))) 0) as [Hc|Hc].
    + assert (mg (p Bm) <= mg (p A)).
      { pose proof (Z.sgn_nonneg (mg (p A) - mg (p Bm))). lia. }
      destruct (sub_abs_fit L X A Bm xa xb) as (X1 & E & N1 & _); auto.
      rewrite E. cbn [and_then]. eexists. split; [reflexivity|exact N1].
    + assert (mg (p A) <= mg (p Bm)).
      { pose proof (Z.sgn_nonneg (mg (p A) - mg (p Bm))). lia. }
      destruct (sub_abs_fit L X Bm A xb xa) as (X1 & E & N1 & _); auto.
      rewrite E. cbn [and_then]. eexists. split; [reflexivity|exact N1].
  - destruct (add_abs_fit L X A Bm xa xb) as (X1 & E & N1 & _); auto.
    rewrite E. cbn [and_then]. eexists. split; [reflexivity|exact N1].
Qed.

Lemma sub_mpi_fit (L : nat) (X A Bm : mpi) (xa xb : bool) :
  wf ciL A -> wf ciL Bm -> (xa = true -> X = A) -> (xb = true -> X = Bm) ->
  xa && xb = false ->
  (n X <= L)%nat -> (n A <= L)%nat -> (n Bm <= L)%nat -> (L <= MAX_LIMBS)%nat ->
  mg (p A) + mg (p Bm) < Bp L ->
  exists X', sub_mpi X A Bm xa xb = (X', None) /\ (n X' <= L)%nat /\
             wf ciL X' /\ val X' = val A - val Bm.
Proof.
  intros WA WB Hxa Hxb Hab NX NA NB HL Hsum.
  assert (Hinv := sub_mpi_inv ciL MAX_LIMBS ciL_pos X A Bm).
  cut (exists X', sub_mpi X A Bm xa xb = (X', None) /\ (n X' <= L)%nat).
  { intros (X' & E & N'). exists X'. split; auto. split; auto.
    apply (Hinv X' xa xb); auto. }
  clear Hinv. destruct WA as [SA LA]. destruct WB as [SB LB].
  unfold sgx_mpi_sub_mpi. rewrite (cmp_abs_spec ciL) by assumption.
  pose proof (mag_bound ciL _ LA). pose proof (mag_bound ciL _ LB).
  destruct (s A * s Bm >? 0).
  - destruct (Z.geb_spec (Z.sgn (mg (p A) - mg (p Bm))) 0) as [Hc|Hc].
    + assert (mg (p Bm) <= mg (p A)).
      { pose proof (Z.sgn_nonneg (mg (p A) - mg (p Bm))). lia. }
      destruct (sub_abs_fit L X A Bm xa xb) as (X1 & E & N1 & _); auto.
      rewrite E. cbn [and_then]. eexists. split; [reflexivity|exact N1].
    + assert (mg (p A) <= mg (p Bm)).
      { pose proof (Z.sgn_nonneg (mg (p A) - mg (p Bm))). lia. }
      destruct (sub_abs_fit L X Bm A xb xa) as (X1 & E & N1 & _); auto.
      rewrite E. cbn [and_then]. eexists. split; [reflexivity|exact N1].
  - destruct (add_abs_fit L X A Bm xa xb) as (X1 & E & N1 & _); auto.
    rewrite E. cbn [and_then]. eexists. split; [reflexivity|exact N1].
Qed.

End AddSubFit.

(** ** Shifts *)

(** [count & (biL - 1)] is [count % biL] for a limb width that is a power of
    two. *)
Lemma land_mask (c e : nat) : Nat.land c (2 ^ e - 1) = (c mod 2 ^ e)%nat.
Proof.
  rewrite <- Nat.land_ones. f_equal. rewrite Nat.ones_equiv. lia.
Qed.

Lemma mag_skipn_S (ciL : nat) (l : list Z) (i : nat) :
  mag ciL (skipn i l) = limb l i + base ciL * mag ciL (skipn (S i) l).
Proof.
  revert i. induction l as [|h t IH]; intros i.
  - rewrite !skipn_nil. unfold limb. destruct i; cbn; lia.
  - destruct i as [|i].
    + cbn [skipn mag]. unfold limb. cbn [nth]. reflexivity.
    + cbn [skipn]. rewrite IH. unfold limb. cbn [nth skipn]. reflexivity.
Qed.

(** The limbs moved up by [v0] places, as the two loops of
    [sgx_mpi_shift_l] leave them. *)
Lemma shift_l_limbs (l : list Z) (v0 : nat) :
  (v0 <= length l)%nat ->
  for_down v0 0 (fun i l => set_nth (i - 1) 0 l)
    (for_down (length l - v0) v0
       (fun i l => set_nth (i - 1) (limb l (i - v0 - 1)) l) l)
  = repeat 0 v0 ++ firstn (length l - v0) l.
Proof.
  intros Hv.
  set (P := fun (i : nat) (l' : list Z) =>
    length l' = length l /\
    forall j, (j < length l)%nat ->
      limb l' j = if (i <=? j)%nat then limb l (j - v0) else limb l j).
  assert (H1 : P v0 (for_down (length l - v0) v0
                  (fun i l => set_nth (i - 1) (limb l (i - v0 - 1)) l) l)).
  { apply (for_down_inv P).
    - split; auto. intros j Hj.
      destruct (Nat.leb_spec (v0 + (length l - v0)) j); [lia|reflexivity].
    - intros i l' Hi [Hlen Hl]. split; [rewrite length_set_nth; exact Hlen|].
      intros j Hj. destruct (Nat.eq_dec j (i - 1)) as [->|Hne].
      + rewrite limb_set_nth_eq by lia.
        destruct (Nat.leb_spec (i - 1) (i - 1)); [|lia].
        destruct (Nat.eq_dec v0 0) as [->|Hv0].
        * rewrite Hl by lia. destruct (Nat.leb_spec i (i - 0 - 1)); [lia|].
          f_equal; lia.
        * rewrite Hl by lia. destruct (Nat.leb_spec i (i - v0 - 1)); [lia|].
          f_equal; lia.
      + rewrite limb_set_nth_neq by lia. rewrite Hl by exact Hj.
        destruct (Nat.leb_spec i j); destruct (Nat.leb_spec (i - 1) j);
          try reflexivity; lia. }
  set (Q := fun (i : nat) (l' : list Z) =>
    length l' = length l /\
    forall j, (j < length l)%nat ->
      limb l' j = if (j <? v0)%nat
                  then (if (i <=? j)%nat then 0 else limb l j)
                  else limb l (j - v0)).
  assert (H2 : Q 0%nat (for_down v0 0 (fun i l => set_nth (i - 1) 0 l)
                  (for_down (length l - v0) v0
                     (fun i l => set_nth (i - 1) (limb l (i - v0 - 1)) l) l))).
  { apply (for_down_inv Q).
    - destruct H1 as [Hlen Hl]. split; auto. intros j Hj. rewrite Hl by exact Hj.
      cbn [Nat.add].
      destruct (Nat.ltb_spec j v0); destruct (Nat.leb_spec v0 j);
        try reflexivity; lia.
    - intros i l' Hi [Hlen Hl]. split; [rewrite length_set_nth; exact Hlen|].
      intros j Hj. destruct (Nat.eq_dec j (i - 1)) as [->|Hne].
      + rewrite limb_set_nth_eq by lia.
        destruct (Nat.ltb_spec (i - 1) v0); [|lia].
        destruct (Nat.leb_spec (i - 1) (i - 1)); [reflexivity|lia].
      + rewrite limb_set_nth_neq by lia. rewrite Hl by exact Hj.
        destruct (Nat.ltb_spec j v0); auto.
        destruct (Nat.leb_spec i j); destruct (Nat.leb_spec (i - 1) j);
          try reflexivity; lia. }
  destruct H2 as [Hlen Hl]. apply list_eq_limb.
  - rewrite Hlen, length_app, repeat_length, length_firstn. lia.
  - intros j Hj. rewrite Hlen in Hj. rewrite Hl by exact Hj.
    destruct (Nat.ltb_spec j v0).
    + rewrite limb_app_l by (rewrite repeat_length; lia).
      rewrite limb_repeat0. reflexivity.
    + rewrite limb_app_r by (rewrite repeat_length; lia).
      rewrite repeat_length. rewrite limb_firstn by lia. reflexivity.
Qed.

(** The limbs moved down by [v0] places, as the two loops of
    [sgx_mpi_shift_r] leave them. *)
Lemma shift_r_limbs (l : list Z) (v0 : nat) :
  (v0 <= length l)%nat ->
  for_up v0 (length l - v0) (fun i l => set_nth i 0 l)
    (for_up (length l - v0) 0 (fun i l => set_nth i (limb l (i + v0)) l) l)
  = skipn v0 l ++ repeat 0 v0.
Proof.
  intros Hv.
  set (P := fun (i : nat) (l' : list Z) =>
    length l' = length l /\
    forall j, (j < length l)%nat ->
      limb l' j = if (j <? i)%nat then limb l (j + v0) else limb l j).
  assert (H1 : P (0 + (length l - v0))%nat
                 (for_up (length l - v0) 0
                    (fun i l => set_nth i (limb l (i + v0)) l) l)).
  { apply (for_up_inv P).
    - split; auto.
    - intros i l' Hi [Hlen Hl]. split; [rewrite length_set_nth; exact Hlen|].
      intros j Hj. destruct (Nat.eq_dec j i) as [->|Hne].
      + rewrite limb_set_nth_eq by lia.
        destruct (Nat.ltb_spec i (S i)); [|lia].
        destruct (Nat.eq_dec v0 0) as [->|Hv0].
        * rewrite Hl by lia. destruct (Nat.ltb_spec (i + 0) i); [lia|reflexivity].
        * rewrite Hl by lia. destruct (Nat.ltb_spec (i + v0) i); [lia|reflexivity].
      + rewrite limb_set_nth_neq by lia. rewrite Hl by exact Hj.
        destruct (Nat.ltb_spec j i); destruct (Nat.ltb_spec j (S i));
          try reflexivity; lia. }
  set (Q := fun (i : nat) (l' : list Z) =>
    length l' = length l /\
    forall j, (j < length l)%nat ->
      limb l' j = if (j <? length l - v0)%nat then limb l (j + v0)
                  else if (j <? i)%nat then 0 else limb l j).
  assert (H2 : Q (length l - v0 + v0)%nat
                 (for_up v0 (length l - v0) (fun i l => set_nth i 0 l)
                    (for_up (length l - v0) 0
                       (fun i l => set_nth i (limb l (i + v0)) l) l))).
  { apply (for_up_inv Q).
    - destruct H1 as [Hlen Hl]. split; auto. intros j Hj. rewrite Hl by exact Hj.
      rewrite ?Nat.add_0_l.
      destruct (Nat.ltb_spec j (length l - v0)); reflexivity.
    - intros i l' Hi [Hlen Hl]. split; [rewrite length_set_nth; exact Hlen|].
      intros j Hj. destruct (Nat.eq_dec j i) as [->|Hne].
      + rewrite limb_set_nth_eq by lia.
        destruct (Nat.ltb_spec i (length l - v0)); [lia|].
        destruct (Nat.ltb_spec i (S i)); [reflexivity|lia].
      + rewrite limb_set_nth_neq by lia. rewrite Hl by exact Hj.
        destruct (Nat.ltb_spec j (length l - v0)); auto.
        destruct (Nat.ltb_spec j i); destruct (Nat.ltb_spec j (S i));
          try reflexivity; lia. }
  destruct H2 as [Hlen Hl]. apply list_eq_limb.
  - rewrite Hlen, length_app, repeat_length, length_skipn. lia.
  - intros j Hj. rewrite Hlen in Hj. rewrite Hl by exact Hj.
    destruct (Nat.ltb_spec j (length l - v0)).
    + rewrite limb_app_l by (rewrite length_skipn; lia).
      rewrite limb_skipn. f_equal; lia.
    + rewrite limb_app_r by (rewrite length_skipn; lia).
      rewrite limb_repeat0.
      destruct (Nat.ltb_spec j (length l - v0 + v0)); [reflexivity|lia].
Qed.
Section ShiftBits.

Variable ciL : nat.
Hypothesis ciL_pos : (0 < ciL)%nat.

Local Abbreviation B := (base ciL).
Local Abbreviation Bp := (Bpow ciL).
Local Abbreviation mg := (mag ciL).
Local Abbreviation lok := (limbs_ok ciL).
Local Abbreviation W := (biL ciL).

(** A limb shifted left by [t] bits: what stays and what leaves. *)
Lemma shl_split (x : Z) (t : nat) :
  0 <= x < B -> (t <= W)%nat ->
  shl ciL x t = (x mod pow2 (W - t)) * pow2 t /\
  x * pow2 t = shl ciL x t + B * (x / pow2 (W - t)) /\
  0 <= x / pow2 (W - t) < pow2 t.
Proof.
  intros Hx Ht. rewrite shl_spec. unfold trunc.
  assert (EB : B = pow2 (W - t) * pow2 t).
  { rewrite base_is_pow2, <- pow2_add. f_equal. lia. }
  pose proof (pow2_pos (W - t)) as Hd. pose proof (pow2_pos t) as HT.
  pose proof (Z.div_mod x (pow2 (W - t)) ltac:(lia)) as E.
  pose proof (Z.mod_pos_bound x (pow2 (W - t)) Hd) as Hm.
  assert (E1 : x * pow2 t
               = x mod pow2 (W - t) * pow2 t + (x / pow2 (W - t)) * B).
  { rewrite EB. rewrite E at 1. ring. }
  assert (Hlo : 0 <= x mod pow2 (W - t) * pow2 t < B).
  { rewrite EB. nia. }
  assert (E2 : (x * pow2 t) mod B = x mod pow2 (W - t) * pow2 t).
  { rewrite E1, Z_mod_plus_full. apply Z.mod_small. exact Hlo. }
  rewrite E2. split; [reflexivity|]. split; [lia|].
  split; [apply Z.div_pos; lia|].
  apply Z.div_lt_upper_bound; [lia|]. rewrite <- EB. lia.
Qed.

(** The bit loop of [sgx_mpi_shift_l] multiplies by [2 ^ t1]; what leaves
    the top limb is in [r]. *)
Lemma shift_l_bits (l : list Z) (v0 t1 : nat) :
  lok l -> (0 < t1 < W)%nat -> (v0 <= length l)%nat ->
  (forall j, (j < v0)%nat -> limb l j = 0) ->
  let r := for_up (length l - v0) v0
             (fun i '(l, r0) =>
                let r1 := shr (limb l i) (W - t1) in
                (set_nth i (Z.lor (shl ciL (limb l i) t1) r0) l, r1))
             (l, 0) in
  lok (fst r) /\ length (fst r) = length l /\ 0 <= snd r /\
  mg (fst r) + snd r * Bp (length l) = mg l * pow2 t1.
Proof.
  intros Hl Ht Hv Hz.
  pose proof (pow2_pos t1) as HT.
  set (P := fun (i : nat) (st : list Z * Z) =>
    lok (fst st) /\ length (fst st) = length l /\ 0 <= snd st < pow2 t1 /\
    (forall j, (i <= j)%nat -> limb (fst st) j = limb l j) /\
    mg (fst st) + snd st * Bp i
      = mg (firstn i l) * pow2 t1 + Bp i * mg (skipn i l)).
  intros r. assert (H : P (v0 + (length l - v0))%nat r).
  { subst r. apply (for_up_inv P).
    - unfold P. cbn [fst snd]. repeat split; auto; try lia.
      assert (E0 : mg (firstn v0 l) = 0).
      { apply mag_all_zero. intros j Hj. rewrite length_firstn in Hj.
        rewrite limb_firstn by lia. apply Hz. lia. }
      rewrite E0. rewrite (mag_firstn_skipn ciL l v0), E0.
      replace (Nat.min v0 (length l)) with v0 by lia. lia.
    - intros i [l' r0] Hi (I1 & I2 & I3 & I4 & I5). cbn [fst snd] in *.
      unfold P. cbv beta iota zeta. cbn [fst snd].
      pose proof (limbs_ok_limb ciL l i Hl) as Hx.
      rewrite (I4 i) by lia.
      destruct (shl_split (limb l i) t1 Hx ltac:(lia)) as (S1 & S2 & S3).
      rewrite shr_spec.
      assert (Hlor : Z.lor (shl ciL (limb l i) t1) r0 = shl ciL (limb l i) t1 + r0).
      { rewrite S1, Z.lor_comm. rewrite lor_disjoint by lia. lia. }
      rewrite Hlor.
      assert (Hv' : 0 <= shl ciL (limb l i) t1 + r0 < B).
      { rewrite S1.
        assert (EB : B = pow2 (W - t1) * pow2 t1).
        { rewrite base_is_pow2, <- pow2_add. f_equal. lia. }
        pose proof (Z.mod_pos_bound (limb l i) (pow2 (W - t1)) (pow2_pos _)).
        rewrite EB. nia. }
      split; [apply limbs_ok_set_nth; auto|].
      split; [rewrite length_set_nth; exact I2|].
      split; [exact S3|].
      split.
      + intros j Hj. rewrite limb_set_nth_neq by lia. apply I4. lia.
      + rewrite mag_set_nth by lia. rewrite (I4 i) by lia.
        rewrite mag_firstn_S, Bpow_S.
        rewrite (mag_skipn_S ciL l i) in I5.
        set (x := limb l i) in *. set (q := x / pow2 (W - t1)) in *.
        set (v := shl ciL x t1) in *.
        set (Pi := Bp i) in *. set (F := mg (firstn i l)) in *.
        set (S' := mg (skipn (S i) l)) in *. set (T := pow2 t1) in *.
        assert (K : Pi * (x * T) = Pi * (v + B * q)) by (rewrite S2; reflexivity).
        clearbody x q v Pi F S' T. lia. }
  clearbody r. destruct H as (I1 & I2 & I3 & I4 & I5).
  replace (v0 + (length l - v0))%nat with (length l) in I5 by lia.
  rewrite firstn_all, skipn_all in I5. cbn [mag] in I5.
  repeat split; auto; try lia.
Qed.

(** The bit loop of [sgx_mpi_shift_r] divides by [2 ^ v1]. *)
Lemma shift_r_bits (l : list Z) (v1 : nat) :
  lok l -> (0 < v1 < W)%nat ->
  let r := for_down (length l) 0
             (fun i '(l, r0) =>
                let r1 := shl ciL (limb l (i - 1)) (W - v1) in
                (set_nth (i - 1) (Z.lor (shr (limb l (i - 1)) v1) r0) l, r1))
             (l, 0) in
  lok (fst r) /\ length (fst r) = length l /\ mg (fst r) = mg l / pow2 v1.
Proof.
  intros Hl Hv.
  pose proof (pow2_pos v1) as HT. pose proof (pow2_pos (W - v1)) as HD.
  assert (EB : B = pow2 (W - v1) * pow2 v1).
  { rewrite base_is_pow2, <- pow2_add. f_equal. lia. }
  set (P := fun (i : nat) (st : list Z * Z) =>
    lok (fst st) /\ length (fst st) = length l /\
    (forall j, (j < i)%nat -> limb (fst st) j = limb l j) /\
    snd st = (mg (skipn i l) mod pow2 v1) * pow2 (W - v1) /\
    mg (fst st) = mg (firstn i l) + Bp i * (mg (skipn i l) / pow2 v1)).
  intros r. assert (H : P 0%nat r).
  { subst r. apply (for_down_inv P).
    - unfold P. cbn [fst snd Nat.add]. rewrite firstn_all, skipn_all. cbn [mag].
      rewrite Z.mod_0_l, Z.div_0_l by lia. repeat split; auto; lia.
    - intros i [l' r0] Hi (I1 & I2 & I3 & I4 & I5). cbn [fst snd] in *.
      destruct i as [|i]; [lia|]. replace (S i - 1)%nat with i by lia.
      unfold P. cbv beta iota zeta. cbn [fst snd].
      pose proof (limbs_ok_limb ciL l i Hl) as Hx.
      rewrite (I3 i) by lia.
      destruct (shl_split (limb l i) (W - v1) Hx ltac:(lia)) as (S1 & S2 & S3).
      replace (W - (W - v1))%nat with v1 in * by lia.
      rewrite shr_spec.
      set (x := limb l i) in *.
      set (T' := mg (skipn (S i) l)) in *.
      pose proof (Z.div_mod T' (pow2 v1) ltac:(lia)) as ET.
      pose proof (Z.mod_pos_bound T' (pow2 v1) HT) as HmT.
      pose proof (Z.div_mod x (pow2 v1) ltac:(lia)) as EX.
      pose proof (Z.mod_pos_bound x (pow2 v1) HT) as HmX.
      assert (Hq : 0 <= x / pow2 v1 < pow2 (W - v1)).
      { split; [apply Z.div_pos; lia|].
        apply Z.div_lt_upper_bound; [lia|]. rewrite Z.mul_comm, <- EB. lia. }
      assert (Hlor : Z.lor (x / pow2 v1) r0 = x / pow2 v1 + r0).
      { rewrite I4. apply lor_disjoint. exact Hq. }
      rewrite Hlor.
      assert (Hv' : 0 <= x / pow2 v1 + r0 < B).
      { rewrite I4, EB. nia. }
      assert (Esk : mg (skipn i l) = x + B * T') by apply mag_skipn_S.
      assert (Ediv : mg (skipn i l) / pow2 v1 = x / pow2 v1 + pow2 (W - v1) * T').
      { rewrite Esk, EB.
        replace (x + pow2 (W - v1) * pow2 v1 * T')
          with (x + (pow2 (W - v1) * T') * pow2 v1) by ring.
        rewrite Z.div_add by lia. reflexivity. }
      assert (Emod : mg (skipn i l) mod pow2 v1 = x mod pow2 v1).
      { rewrite Esk, EB.
        replace (x + pow2 (W - v1) * pow2 v1 * T')
          with (x + (pow2 (W - v1) * T') * pow2 v1) by ring.
        apply Z_mod_plus_full. }
      split; [apply limbs_ok_set_nth; auto|].
      split; [rewrite length_set_nth; exact I2|].
      split; [intros j Hj; rewrite limb_set_nth_neq by lia; apply I3; lia|].
      split; [rewrite Emod; exact S1|].
      rewrite mag_set_nth by lia. rewrite (I3 i) by lia. fold x.
      rewrite I5, Ediv, I4. rewrite mag_firstn_S, Bpow_S. fold x.
      set (Pi := Bp i) in *. set (F := mg (firstn i l)) in *.
      set (D := pow2 (W - v1)) in *. set (T := pow2 v1) in *.
      set (qT := T' / T) in *. set (mT := T' mod T) in *.
      set (qx := x / T) in *.
      assert (K : Pi * (D * T') = Pi * (B * qT + D * mT)).
      { f_equal. rewrite ET at 1. rewrite EB. ring. }
      clearbody Pi F D T qT mT qx x T'. lia. }
  clearbody r. destruct H as (I1 & I2 & I3 & I4 & I5).
  cbn [firstn skipn mag] in I5. rewrite Bpow_0 in I5.
  repeat split; auto. lia.
Qed.

End ShiftBits.
Section Shifts.

Variables ciL MAX_LIMBS e : nat.
Hypothesis ciL_pos : (0 < ciL)%nat.
Hypothesis W_pow : biL ciL = (2 ^ e)%nat.

Local Abbreviation B := (base ciL).
Local Abbreviation Bp := (Bpow ciL).
Local Abbreviation mg := (mag ciL).
Local Abbreviation lok := (limbs_ok ciL).
Local Abbreviation val := (value ciL).
Local Abbreviation W := (biL ciL).
Local Abbreviation msb := (sgx_mpi_msb ciL).
Local Abbreviation shift_l := (sgx_mpi_shift_l ciL MAX_LIMBS).
Local Abbreviation shift_r := (sgx_mpi_shift_r ciL MAX_LIMBS).

Lemma W_pos : (0 < W)%nat.
Proof.
  clear e W_pow. unfold biL. lia. Qed.

Lemma count_split (count : nat) :
  count = (count / W * W + Nat.land count (W - 1))%nat /\
  (Nat.land count (W - 1) < W)%nat.
Proof.
  pose proof W_pos.
  assert (E : Nat.land count (W - 1) = (count mod W)%nat).
  { rewrite W_pow. apply land_mask. }
  rewrite E. split; [|apply Nat.mod_upper_bound; lia].
  rewrite (Nat.div_mod_eq count W) at 1. lia.
Qed.

Lemma BITS_TO_LIMBS_spec (i : nat) :
  (i <= BITS_TO_LIMBS ciL i * W)%nat /\
  (forall k, i <= k * W -> BITS_TO_LIMBS ciL i <= k)%nat.
Proof.
  clear e W_pow.
  pose proof W_pos. unfold BITS_TO_LIMBS. split.
  - pose proof (Nat.div_mod_eq (i + W - 1) W).
    pose proof (Nat.mod_upper_bound (i + W - 1) W ltac:(lia)). nia.
  - intros k Hk.
    assert ((i + W - 1) / W < S k)%nat; [|lia].
    apply Nat.Div0.div_lt_upper_bound. nia.
Qed.

(** The low limbs carry the whole magnitude when it is small enough. *)
Lemma mag_firstn_small (l : list Z) (k : nat) :
  lok l -> mg l < Bp k -> mg (firstn k l) = mg l.
Proof.
  clear e W_pow.
  intros Hl Hk. destruct (Nat.le_gt_cases (length l) k) as [Hle|Hgt].
  - rewrite firstn_all2 by exact Hle. reflexivity.
  - pose proof (mag_firstn_skipn ciL l k) as E.
    replace (Nat.min k (length l)) with k in E by lia.
    pose proof (mag_bound ciL _ (limbs_ok_skipn ciL l k Hl)).
    pose proof (mag_firstn_bound ciL l k Hl). pose proof (base_pow ciL k).
    assert (mg (skipn k l) = 0) by nia. nia.
Qed.

Lemma mag_skipn_div (l : list Z) (k : nat) :
  lok l -> mg (skipn k l) = mg l / Bp k.
Proof.
  clear e W_pow.
  intros Hl. pose proof (base_pow ciL k).
  destruct (Nat.le_gt_cases (length l) k) as [Hle|Hgt].
  - rewrite skipn_all2 by exact Hle. cbn [mag].
    pose proof (mag_bound ciL l Hl). pose proof (Bpow_mono ciL _ _ Hle).
    rewrite Z.div_small; lia.
  - pose proof (mag_firstn_skipn ciL l k) as E.
    replace (Nat.min k (length l)) with k in E by lia.
    pose proof (mag_firstn_bound ciL l k Hl).
    rewrite E. rewrite Z.mul_comm, Z.div_add by lia.
    rewrite Z.div_small; lia.
Qed.

Lemma shift_l_spec (X X' : mpi) (count : nat) :
  lok (p X) -> shift_l X count = (X', None) ->
  lok (p X') /\ mg (p X') = mg (p X) * pow2 count /\ s X' = s X /\
  n X' = Nat.max (n X) (BITS_TO_LIMBS ciL (msb X + count)).
Proof.
  intros HX. unfold sgx_mpi_shift_l.
  pose proof W_pos as HW.
  destruct (count_split count) as [Ec Ht].
  set (v0 := (count / W)%nat) in *. set (t1 := Nat.land count (W - 1)) in *.
  destruct (BITS_TO_LIMBS_spec (msb X + count)) as [Bl Bu].
  destruct (msb_spec ciL X HX) as (M1 & M2 & M3).
  (* the buffer after the optional growth *)
  assert (H1 : forall X1,
    (if (n X * W <? msb X + count)%nat
     then sgx_mpi_grow MAX_LIMBS X (BITS_TO_LIMBS ciL (msb X + count))
     else (X, None)) = (X1, None) ->
    s X1 = s X /\ mg (p X1) = mg (p X) /\ lok (p X1) /\
    n X1 = Nat.max (n X) (BITS_TO_LIMBS ciL (msb X + count)) /\
    (msb X + count <= n X1 * W)%nat).
  { intros X1. destruct (Nat.ltb_spec (n X * W) (msb X + count)) as [Hg|Hg].
    - intros G. destruct (grow_inv ciL MAX_LIMBS _ _ _ _ G) as (G1 & G2 & G3 & G4 & G5).
      destruct (G5 eq_refl) as [G6 G7]. repeat split; auto. nia.
    - intros G. inversion G; subst X1. repeat split; auto.
      specialize (Bu (n X) Hg). lia. }
  destruct (if (n X * W <? msb X + count)%nat
            then sgx_mpi_grow MAX_LIMBS X (BITS_TO_LIMBS ciL (msb X + count))
            else (X, None)) as [X1 [err|]] eqn:EX; cbn [and_then];
    [intros F; discriminate|].
  destruct (H1 X1 eq_refl) as (S1 & E1 & L1 & N1 & F1). clear H1.
  assert (Hv : (v0 <= n X1)%nat) by nia.
  (* the limb shift *)
  set (p1 := if (0 <? v0)%nat then _ else p X1).
  assert (Ep1 : p1 = repeat 0 v0 ++ firstn (n X1 - v0) (p X1)).
  { unfold p1. destruct (Nat.ltb_spec 0 v0) as [Hv0|Hv0].
    - replace (Nat.min v0 (n X1)) with v0 by lia.
      apply (shift_l_limbs (p X1) v0 Hv).
    - replace v0 with 0%nat by lia. cbn [repeat app]. rewrite Nat.sub_0_r.
      unfold n. rewrite firstn_all. reflexivity. }
  clearbody p1.
  assert (Hsmall : mg (p X1) < Bp (n X1 - v0)).
  { rewrite E1, Bpow_pow2. eapply Z.lt_le_trans; [exact M1|].
    apply pow2_mono. nia. }
  assert (Lp1 : lok p1).
  { rewrite Ep1. apply limbs_ok_app; [apply limbs_ok_repeat0|].
    apply limbs_ok_firstn; exact L1. }
  assert (Np1 : length p1 = n X1).
  { rewrite Ep1, length_app, repeat_length, length_firstn. unfold n in *. lia. }
  assert (Mp1 : mg p1 = mg (p X) * pow2 (v0 * W)).
  { rewrite Ep1, mag_app, mag_repeat0, repeat_length.
    rewrite (mag_firstn_small _ _ L1 Hsmall), E1, Bpow_pow2. ring. }
  assert (Zp1 : forall j, (j < v0)%nat -> limb p1 j = 0).
  { intros j Hj. rewrite Ep1, limb_app_l by (rewrite repeat_length; lia).
    apply limb_repeat0. }
  assert (Ecount : pow2 count = pow2 (v0 * W) * pow2 t1).
  { rewrite <- pow2_add. f_equal. exact Ec. }
  assert (Hfit : mg (p X) * pow2 count < Bp (n X1)).
  { rewrite Bpow_pow2. apply Z.lt_le_trans with (pow2 (msb X + count)).
    - rewrite pow2_add. pose proof (pow2_pos count). nia.
    - apply pow2_mono. exact F1. }
  destruct (Nat.ltb_spec 0 t1) as [Ht1|Ht1].
  - pose proof (shift_l_bits ciL ciL_pos p1 v0 t1 Lp1 ltac:(lia) ltac:(lia) Zp1) as Hb.
    cbv zeta in Hb. rewrite Np1 in Hb.
    match type of Hb with context [for_up ?k ?lo ?f ?st] =>
      destruct (for_up k lo f st) as [l2 r2] eqn:E2 end.
    cbn [fst snd] in Hb. destruct Hb as (K1 & K2 & K3 & K4).
    intros H. inversion H; subst X'. cbn [s p]. unfold n at 1. cbn [p].
    pose proof (mag_bound ciL l2 K1) as Hb2. pose proof (base_pow ciL (n X1)).
    assert (r2 = 0) by nia. subst r2.
    split; [exact K1|]. split; [|split; [exact S1|lia]].
    rewrite Ecount. lia.
  - intros H. inversion H; subst X'. cbn [s p]. unfold n at 1. cbn [p].
    split; [exact Lp1|]. split; [|split; [exact S1|lia]].
    rewrite Ecount. replace t1 with 0%nat by lia. rewrite pow2_0. lia.
Qed.

Lemma shift_l_ok (X : mpi) (count : nat) :
  (BITS_TO_LIMBS ciL (msb X + count) <= MAX_LIMBS)%nat ->
  exists X', shift_l X count = (X', None).
Proof.
  intros H. unfold sgx_mpi_shift_l.
  destruct (n X * W <? msb X + count)%nat.
  - rewrite (grow_ok MAX_LIMBS) by exact H. cbn [and_then]. eauto.
  - cbn [and_then]. eauto.
Qed.

Lemma shift_r_spec (X : mpi) (count : nat) :
  lok (p X) -> (1 <= MAX_LIMBS)%nat ->
  exists X', shift_r X count = (X', None) /\
  lok (p X') /\ mg (p X') = mg (p X) / pow2 count /\
  val X' = s X * (mg (p X) / pow2 count) /\
  (s X' = 1 \/ s X' = s X) /\ (n X' <= Nat.max 1 (n X))%nat.
Proof.
  intros HX HM. unfold sgx_mpi_shift_r.
  pose proof W_pos as HW.
  destruct (count_split count) as [Ec Ht].
  set (v0 := (count / W)%nat) in *. set (v1 := Nat.land count (W - 1)) in *.
  pose proof (mag_bound ciL _ HX) as Hb. fold (n X) in Hb.
  assert (Ecount : pow2 count = pow2 (v0 * W) * pow2 v1).
  { rewrite <- pow2_add. f_equal. exact Ec. }
  destruct ((n X <? v0)%nat || ((v0 =? n X)%nat && (0 <? v1)%nat)) eqn:Hc.
  - (* everything is shifted out *)
    assert (Hbig : (n X * W <= count)%nat).
    { apply orb_true_iff in Hc. destruct Hc as [Hc|Hc].
      - apply Nat.ltb_lt in Hc. nia.
      - apply andb_true_iff in Hc. destruct Hc as [Hc1 Hc2].
        apply Nat.eqb_eq in Hc1. nia. }
    assert (E0 : mg (p X) / pow2 count = 0).
    { apply Z.div_small. split; [lia|].
      eapply Z.lt_le_trans; [apply Hb|]. rewrite Bpow_pow2. apply pow2_mono. exact Hbig. }
    rewrite (lset_ok ciL MAX_LIMBS) by exact HM.
    eexists. split; [reflexivity|]. cbn [s p]. unfold value. cbn [s p].
    rewrite abs_limb_0. change (sign_of 0) with 1.
    assert (M0 : mg (0 :: repeat 0 (Nat.max 1 (n X) - 1)) = 0).
    { cbn [mag]. rewrite mag_repeat0. lia. }
    rewrite M0, E0. split.
    + constructor; [pose proof (base_pos ciL); lia|apply limbs_ok_repeat0].
    + repeat split; auto; try lia.
      unfold n at 1. cbn [p length]. rewrite repeat_length. lia.
  - assert (Hv : (v0 <= n X)%nat).
    { apply orb_false_iff in Hc. destruct Hc as [Hc _].
      apply Nat.ltb_ge in Hc. exact Hc. }
    set (p1 := if (0 <? v0)%nat then _ else p X).
    assert (Ep1 : p1 = skipn v0 (p X) ++ repeat 0 v0).
    { unfold p1. destruct (Nat.ltb_spec 0 v0) as [Hv0|Hv0].
      - apply (shift_r_limbs (p X) v0 Hv).
      - replace v0 with 0%nat by lia. cbn [repeat skipn]. rewrite app_nil_r.
        reflexivity. }
    clearbody p1.
    assert (Lp1 : lok p1).
    { rewrite Ep1. apply limbs_ok_app; [|apply limbs_ok_repeat0].
      apply limbs_ok_skipn; exact HX. }
    assert (Np1 : length p1 = n X).
    { rewrite Ep1, length_app, repeat_length, length_skipn. unfold n in *. lia. }
    assert (Mp1 : mg p1 = mg (p X) / pow2 (v0 * W)).
    { rewrite Ep1, mag_app, mag_repeat0, (mag_skipn_div _ _ HX), Bpow_pow2. lia. }
    destruct (Nat.ltb_spec 0 v1) as [Hv1|Hv1].
    + pose proof (shift_r_bits ciL ciL_pos p1 v1 Lp1 ltac:(lia)) as Hs.
      hnf in Hs. rewrite Np1 in Hs. cbv iota.
      match type of Hs with context [for_down ?k ?lo ?f ?st] =>
        destruct (for_down k lo f st) as [l2 r2] eqn:E2 end.
      cbn [fst snd] in Hs. destruct Hs as (K1 & K2 & K3).
      eexists. split; [reflexivity|]. unfold value. cbn [s p fst].
      assert (E : mg l2 = mg (p X) / pow2 count).
      { rewrite K3, Mp1, div_pow2_pow2. do 2 f_equal. lia. }
      rewrite E. repeat split; auto. unfold n at 1. cbn [p]. lia.
    + eexists. split; [reflexivity|]. unfold value. cbn [s p].
      assert (E : mg p1 = mg (p X) / pow2 count).
      { rewrite Mp1, Ecount. replace v1 with 0%nat by lia. rewrite pow2_0.
        rewrite Z.mul_1_r. reflexivity. }
      rewrite E. repeat split; auto. unfold n at 1. cbn [p]. lia.
Qed.

End Shifts.

(** ** Multiplication by a limb *)

Section Mul.

Variables ciL MAX_LIMBS : nat.
Hypothesis ciL_pos : (0 < ciL)%nat.

Local Abbreviation B := (base ciL).
Local Abbreviation Bp := (Bpow ciL).
Local Abbreviation mg := (mag ciL).
Local Abbreviation lok := (limbs_ok ciL).
Local Abbreviation val := (value ciL).

(** A magnitude below [B ^ k] has at most [k] significant limbs. *)
Lemma top_scan_small (l : list Z) (k : nat) :
  lok l -> mg l < Bp k -> (top_scan l (length l) <= k)%nat.
Proof.
  intros Hl Hk. destruct (mag_eff ciL l Hl) as (_ & _ & L & _). cbv zeta in L.
  destruct (Nat.le_gt_cases (top_scan l (length l)) k) as [|Hgt]; auto.
  exfalso. specialize (L ltac:(lia)).
  pose proof (Bpow_mono ciL k (top_scan l (length l) - 1) ltac:(lia)). lia.
Qed.

(** The multiply-accumulate loop of [sgx_mpi_mul_hlp]. *)
Lemma MULADDC_loop (b : Z) (sl d : list Z) (off i : nat) :
  lok sl -> lok d -> 0 <= b < B -> (off + i <= length d)%nat ->
  let r := for_up i 0 (MULADDC_CORE ciL b sl off) (d, 0) in
  lok (fst r) /\ length (fst r) = length d /\ 0 <= snd r < B /\
  mg (fst r) + snd r * Bp (off + i) = mg d + mg (firstn i sl) * b * Bp off.
Proof.
  intros Hs Hd Hb Hi. pose proof (base_gt_1 ciL ciL_pos) as HB.
  set (P := fun (k : nat) (st : list Z * Z) =>
    lok (fst st) /\ length (fst st) = length d /\ 0 <= snd st < B /\
    (forall j, (off + k <= j)%nat -> limb (fst st) j = limb d j) /\
    mg (fst st) + snd st * Bp (off + k) = mg d + mg (firstn k sl) * b * Bp off).
  intros r. assert (H : P (0 + i)%nat r).
  { subst r. apply (for_up_inv P).
    - unfold P. cbn [fst snd firstn mag]. repeat split; auto; lia.
    - intros k [d' c] Hk (I1 & I2 & I3 & I4 & I5). cbn [fst snd] in *.
      unfold P, MULADDC_CORE. cbn [fst snd].
      pose proof (limbs_ok_limb ciL sl k Hs) as Hx.
      pose proof (limbs_ok_limb ciL d (off + k) Hd) as Hy.
      rewrite (I4 (off + k)%nat) by lia.
      set (tmp := limb sl k * b + limb d (off + k) + c).
      assert (Ht : 0 <= tmp < B * B) by (unfold tmp; nia).
      pose proof (Z.div_mod tmp B ltac:(lia)) as Et.
      pose proof (Z.mod_pos_bound tmp B ltac:(lia)) as Hm.
      assert (Hq : 0 <= tmp / B < B).
      { split; [apply Z.div_pos; lia|apply Z.div_lt_upper_bound; lia]. }
      split; [apply limbs_ok_set_nth; auto|].
      split; [rewrite length_set_nth; exact I2|].
      split; [exact Hq|]. split.
      + intros j Hj. rewrite limb_set_nth_neq by lia. apply I4. lia.
      + rewrite mag_set_nth by lia. rewrite (I4 (off + k)%nat) by lia.
        rewrite mag_firstn_S.
        replace (off + S k)%nat with (S (off + k)) by lia.
        rewrite Bpow_S. rewrite Bpow_add in *.
        set (x := limb sl k) in *. set (y := limb d (off + k)) in *.
        set (Po := Bp off) in *. set (Pk := Bp k) in *.
        set (F := mg (firstn k sl)) in *.
        set (q := tmp / B) in *. set (m := tmp mod B) in *.
        assert (K : Po * Pk * (B * q + m) = Po * Pk * (x * b + y + c)).
        { f_equal. rewrite <- Et. reflexivity. }
        clearbody x y Po Pk F q m tmp. lia. }
  clearbody r. destruct H as (I1 & I2 & I3 & I4 & I5).
  rewrite Nat.add_0_l in I5. auto.
Qed.

(** The carry of [sgx_mpi_mul_hlp] runs up the buffer. *)
Lemma mul_hlp_carry_spec (k : nat) :
  forall (d : list Z) (i : nat) (c : Z),
    lok d -> 0 <= c < B -> (i + k = length d)%nat ->
    mg d + c * Bp i < Bp (length d) ->
    let d' := mul_hlp_carry ciL k d i c in
    lok d' /\ length d' = length d /\ mg d' = mg d + c * Bp i.
Proof.
  pose proof (base_gt_1 ciL ciL_pos) as HB.
  induction k as [|k IH]; intros d i c Hd Hc Hi Hfit; cbn [mul_hlp_carry].
  - cbv zeta. replace i with (length d) in * by lia.
    pose proof (mag_bound ciL d Hd). pose proof (base_pow ciL (length d)).
    assert (c = 0) by nia. subst c. repeat split; auto; lia.
  - cbv zeta. pose proof (limbs_ok_limb ciL d i Hd) as Hx.
    destruct (trunc_cases ciL ciL_pos (limb d i + c) ltac:(lia))
      as [[? E]|[[? E]|[? E]]]; [lia| |]; rewrite E.
    + destruct (Z.ltb_spec (limb d i + c) c); [lia|].
      cbn [Z.eqb]. split; [apply limbs_ok_set_nth; auto|].
      split; [apply length_set_nth|].
      rewrite mag_set_nth by lia. ring.
    + destruct (Z.ltb_spec (limb d i + c - B) c); [|lia].
      cbn [Z.eqb].
      assert (Hd' : lok (set_nth i (limb d i + c - B) d)).
      { apply limbs_ok_set_nth; auto. lia. }
      assert (Hm : mg (set_nth i (limb d i + c - B) d) + 1 * Bp (S i)
                   = mg d + c * Bp i).
      { rewrite mag_set_nth by lia. rewrite Bpow_S. ring. }
      destruct (IH (set_nth i (limb d i + c - B) d) (S i) 1 Hd' ltac:(lia))
        as (J1 & J2 & J3).
      * rewrite length_set_nth. lia.
      * rewrite length_set_nth, Hm. exact Hfit.
      * rewrite length_set_nth in J2. repeat split; auto. lia.
Qed.

Lemma mul_hlp_spec (i : nat) (sl d : list Z) (off : nat) (b : Z) :
  lok sl -> lok d -> 0 <= b < B -> (off + i <= length d)%nat ->
  mg d + mg (firstn i sl) * b * Bp off < Bp (length d) ->
  let d' := sgx_mpi_mul_hlp ciL i sl d off b in
  lok d' /\ length d' = length d /\
  mg d' = mg d + mg (firstn i sl) * b * Bp off.
Proof.
  intros Hs Hd Hb Hi Hfit. unfold sgx_mpi_mul_hlp.
  pose proof (MULADDC_loop b sl d off i Hs Hd Hb Hi) as HL. hnf in HL.
  destruct (for_up i 0 (MULADDC_CORE ciL b sl off) (d, 0)) as [d1 c].
  cbn [fst snd] in HL. destruct HL as (K1 & K2 & K3 & K4).
  destruct (mul_hlp_carry_spec (length d1 - (off + i)) d1 (off + i) c K1 K3
              ltac:(lia) ltac:(rewrite K2; lia)) as (J1 & J2 & J3).
  cbv zeta. repeat split; auto; lia.
Qed.

(** [copy] into a fresh or unrelated MPI, within a limb budget. *)
Lemma copy_fit (L : nat) (X Y : mpi) :
  lok (p Y) -> (n X <= L)%nat -> (n Y <= L)%nat -> (L <= MAX_LIMBS)%nat ->
  exists X', sgx_mpi_copy MAX_LIMBS X Y false = (X', None) /\
    lok (p X') /\ mg (p X') = mg (p Y) /\ (n X' <= L)%nat /\
    (p Y <> [] -> s X' = s Y /\ (n X <= n X')%nat /\ (copy_len Y <= n X')%nat) /\
    (p Y = [] -> X' = sgx_mpi_init).
Proof.
  intros HY NX NY HL.
  destruct (copy_ok MAX_LIMBS X Y ltac:(lia)) as [X' E]. exists X'.
  destruct (copy_inv ciL MAX_LIMBS X Y X' E) as (C1 & C2 & C3 & C4).
  destruct (copy_mag ciL MAX_LIMBS ciL_pos X Y X' false ltac:(discriminate) E)
    as (_ & _ & C5).
  repeat split; auto; try lia; destruct (C3 H) as (C6 & C7 & C8); auto; lia.
Qed.

(** [sgx_mpi_mul_int] within a limb budget: [m] bounds the significant limbs
    of [A]. *)
Lemma mul_int_fit (L m : nat) (X A : mpi) (b : Z) (xa : bool) :
  lok (p A) -> 0 <= b < B -> (n X <= L)%nat -> (n A <= L)%nat ->
  mg (p A) < Bp m -> (m + 1 <= L)%nat -> (L <= MAX_LIMBS)%nat ->
  exists X', sgx_mpi_mul_int ciL MAX_LIMBS X A b xa = (X', None) /\
    lok (p X') /\ mg (p X') = mg (p A) * b /\
    (p A <> [] -> s X' = s A) /\ (s X' = s A \/ s X' = 1) /\
    (n X <= n X' <= L)%nat.
Proof.
  intros HA Hb NX NA Hm HmL HL. pose proof (base_gt_1 ciL ciL_pos) as HB.
  unfold sgx_mpi_mul_int, sgx_mpi_mul_mpi.
  assert (H1 : exists A1,
    (if xa then sgx_mpi_copy MAX_LIMBS sgx_mpi_init A false else (A, None))
      = (A1, None) /\ lok (p A1) /\ mg (p A1) = mg (p A) /\
    (p A <> [] -> s A1 = s A) /\ (s A1 = s A \/ s A1 = 1)).
  { destruct xa.
    - destruct (copy_fit L sgx_mpi_init A HA ltac:(cbn; lia) NA HL)
        as (A1 & E & C1 & C2 & C3 & C4 & C5).
      exists A1. repeat split; auto.
      + intros Hne. apply C4. exact Hne.
      + destruct (p A) as [|a l] eqn:EA.
        * right. rewrite (C5 eq_refl). reflexivity.
        * left. apply C4. discriminate.
    - exists A. repeat split; auto. }
  destruct H1 as (A1 & -> & L1 & M1 & S1 & S1'). cbv iota.
  set (i := top_scan (p A1) (n A1)).
  assert (Hi : (i <= m)%nat).
  { apply top_scan_small; auto. rewrite M1. exact Hm. }
  rewrite (trunc_small ciL b Hb).
  set (j := top_scan (p {| s := 1; p := [b] |}) (n {| s := 1; p := [b] |})).
  assert (Hj : j = if b =? 0 then 0%nat else 1%nat).
  { unfold j, n. cbn [p length top_scan]. unfold limb. cbn [nth].
    destruct (b =? 0); reflexivity. }
  assert (Hj1 : (j <= 1)%nat) by (rewrite Hj; destruct (b =? 0); lia).
  rewrite (grow_ok MAX_LIMBS) by lia. cbn [and_then].
  rewrite (lset_ok ciL MAX_LIMBS) by lia. cbn [and_then s p].
  rewrite abs_limb_0.
  set (len := n {| s := s X; p := p X ++ repeat 0 (i + j - n X) |}).
  assert (Hlen : len = Nat.max (n X) (i + j)).
  { unfold len, n. cbn [p]. rewrite length_app, repeat_length. lia. }
  set (z := 0 :: repeat 0 (Nat.max 1 len - 1)).
  assert (Lz : lok z).
  { unfold z. constructor; [lia|apply limbs_ok_repeat0]. }
  assert (Mz : mg z = 0).
  { unfold z. cbn [mag]. rewrite mag_repeat0. lia. }
  assert (Nz : length z = Nat.max 1 len).
  { unfold z. cbn [length]. rewrite repeat_length. lia. }
  eexists. split; [reflexivity|]. cbn [s p].
  assert (Hs1 : p A <> [] -> s A1 * 1 = s A) by (intros Hne; rewrite (S1 Hne); lia).
  assert (Hs2 : s A1 * 1 = s A \/ s A1 * 1 = 1) by lia.
  unfold n in *. cbn [p] in *.
  destruct (Z.eqb_spec b 0) as [Hb0|Hb0].
  - rewrite Hj. cbn [for_down]. rewrite Hb0, Mz.
    split; [exact Lz|]. split; [lia|]. split; [exact Hs1|].
    split; [exact Hs2|lia].
  - rewrite Hj. cbn [for_down Nat.add Nat.sub]. change (limb [b] 0) with b.
    assert (Ei : mg (firstn i (p A1)) = mg (p A1)) by apply mag_top_scan.
    assert (Hfit : mg z + mg (firstn i (p A1)) * b * Bp 0 < Bp (length z)).
    { rewrite Mz, Ei, Bpow_0.
      destruct (mag_eff ciL (p A1) L1) as (_ & Hlt & _). cbv zeta in Hlt.
      fold i in Hlt. pose proof (mag_bound ciL _ L1).
      apply Z.lt_le_trans with (Bp (S i)).
      - rewrite Bpow_S. nia.
      - apply Bpow_mono. lia. }
    destruct (mul_hlp_spec i (p A1) z 0 b L1 Lz Hb ltac:(lia) Hfit)
      as (K1 & K2 & K3).
    rewrite K2. split; [exact K1|]. split.
    + rewrite K3, Mz, Ei, M1, Bpow_0. ring.
    + split; [exact Hs1|]. split; [exact Hs2|lia].
Qed.

End Mul.

(** ** Division: the estimate of a quotient digit *)

Lemma lor_bound (a b : Z) (k : nat) :
  0 <= a < pow2 k -> 0 <= b < pow2 k -> 0 <= Z.lor a b < pow2 k.
Proof.
  intros Ha Hb. assert (Hn : 0 <= Z.lor a b) by (apply Z.lor_nonneg; lia).
  split; [exact Hn|].
  destruct (Z.eq_dec (Z.lor a b) 0) as [->|Hne]; [lia|].
  unfold pow2 in *. apply Z.log2_lt_pow2; [lia|].
  rewrite Z.log2_lor by lia.
  assert (Hl : forall x, 0 <= x < 2 ^ Z.of_nat k -> x <> 0 -> Z.log2 x < Z.of_nat k).
  { intros x Hx Hx0. apply Z.log2_lt_pow2; lia. }
  destruct (Z.eq_dec a 0) as [->|Ha0]; destruct (Z.eq_dec b 0) as [->|Hb0].
  - cbn in Hne. lia.
  - specialize (Hl b Hb Hb0). change (Z.log2 0) with 0. pose proof (Z.log2_nonneg b). lia.
  - specialize (Hl a Ha Ha0). change (Z.log2 0) with 0. pose proof (Z.log2_nonneg a). lia.
  - pose proof (Hl a Ha Ha0). pose proof (Hl b Hb Hb0). lia.
Qed.

Section Estimate.

Variable ciL : nat.
Hypothesis ciL_pos : (0 < ciL)%nat.

Local Abbreviation B := (base ciL).
Local Abbreviation tr := (trunc ciL).

Lemma qrnnd_fix_eq (fuel : nat) (d m q r : Z) :
  qrnnd_fix ciL fuel d m q r =
  if (r >=? d) && (r <? m) then
    match fuel with
    | O => OutOfFuel
    | S f => qrnnd_fix ciL f d m (tr (q - 1)) (tr (r + d))
    end
  else Ok (q, r).
Proof. destruct fuel; reflexivity. Qed.

(** The correction loop leaves as soon as [r + d] wraps around, hence within
    [B - r] rounds. *)
Lemma qrnnd_fix_total (fuel : nat) :
  forall d m q r,
    0 < d -> 0 <= q < B -> 0 <= r < B -> B - r < Z.of_nat fuel ->
    exists q' r', qrnnd_fix ciL fuel d m q r = Ok (q', r') /\
                  0 <= q' < B /\ 0 <= r' < B.
Proof.
  induction fuel as [|f IH]; intros d m q r Hd Hq Hr Hf; [lia|].
  rewrite qrnnd_fix_eq.
  destruct ((r >=? d) && (r <? m)) eqn:Hc; [|eauto].
  apply andb_true_iff in Hc. destruct Hc as [Hc1 Hc2].
  apply Z.geb_le in Hc1.
  pose proof (trunc_range ciL (q - 1)) as Hq'.
  destruct (trunc_cases ciL ciL_pos (r + d)) as [[? E]|[[? E]|[? E]]]; try lia.
  - rewrite E. apply IH; auto; lia.
  - rewrite E. rewrite qrnnd_fix_eq.
    destruct (Z.geb_spec (r + d - B) d); [lia|]. cbn [andb].
    exists (tr (q - 1)), (r + d - B). repeat split; auto; lia.
Qed.

Lemma shr_range (x : Z) (k : nat) : 0 <= x < B -> 0 <= shr x k < B.
Proof.
  intros Hx. rewrite shr_spec. pose proof (pow2_pos k).
  split; [apply Z.div_pos; lia|].
  apply Z.le_lt_trans with x; [|lia].
  apply Z.div_le_upper_bound; nia.
Qed.

Lemma shl_range (x : Z) (k : nat) : 0 <= shl ciL x k < B.
Proof. unfold shl. apply trunc_range. Qed.

Lemma qrnnd_half_total (fuel : nat) (d d0 d1 num lo : Z) :
  0 < d -> 0 <= d1 -> 0 <= num < B -> 0 <= lo < B -> B < Z.of_nat fuel ->
  exists q r, qrnnd_half ciL fuel d d0 d1 num lo = Ok (q, r) /\
              0 <= q < B /\ 0 <= r < B.
Proof.
  intros Hd Hd1 Hnum Hlo Hf. unfold qrnnd_half.
  set (q := num / d1).
  assert (Hq : 0 <= q < B).
  { unfold q. destruct (Z.eq_dec d1 0) as [->|Hne].
    - rewrite Z.div_0_r. lia.
    - split; [apply Z.div_pos; lia|].
      apply Z.le_lt_trans with num; [|lia]. apply Z.div_le_upper_bound; nia. }
  set (r := Z.lor (shl ciL (tr (num - tr (d1 * q))) (biH ciL)) lo).
  assert (Hr : 0 <= r < B).
  { unfold r. rewrite base_is_pow2. apply lor_bound; rewrite <- base_is_pow2;
      [apply shl_range|exact Hlo]. }
  set (m := tr (q * d0)).
  destruct (r <? m).
  - destruct (qrnnd_fix_total fuel d m (tr (q - 1)) (tr (r + d)) Hd
                (trunc_range ciL _) (trunc_range ciL _))
      as (q' & r' & E & Hq' & Hr').
    { pose proof (trunc_range ciL (r + d)). lia. }
    rewrite E. cbn [bind]. exists q', (tr (r' - m)).
    repeat split; try lia; apply trunc_range.
  - cbn [bind]. exists q, (tr (r - m)). repeat split; try lia; apply trunc_range.
Qed.

(** The estimate is a limb, whatever its accuracy. *)
Lemma udiv_qrnnd_total (fuel : nat) (x1 x0 d : Z) :
  0 < d < B -> 0 <= x1 < B -> 0 <= x0 < B -> B < Z.of_nat fuel ->
  exists q, udiv_qrnnd ciL fuel x1 x0 d = Ok q /\ 0 <= q < B.
Proof.
  intros Hd Hx1 Hx0 Hf. unfold udiv_qrnnd.
  assert (Hd1 : 0 <= shr d (biH ciL)) by (apply shr_range; lia).
  destruct (qrnnd_half_total fuel d (shr (shl ciL d (biH ciL)) (biH ciL))
              (shr d (biH ciL)) x1 (shr x0 (biH ciL)))
    as (q1 & r1 & E1 & Hq1 & Hr1); auto; try lia.
  { apply shr_range; exact Hx0. }
  rewrite E1. cbn [bind].
  destruct (qrnnd_half_total fuel d (shr (shl ciL d (biH ciL)) (biH ciL))
              (shr d (biH ciL)) r1 (shr (shl ciL x0 (biH ciL)) (biH ciL)))
    as (q0 & r0 & E0 & Hq0 & Hr0); auto; try lia.
  { apply shr_range. apply shl_range. }
  rewrite E0. cbn [bind]. eexists. split; [reflexivity|].
  rewrite base_is_pow2. apply lor_bound; rewrite <- base_is_pow2;
    [apply shl_range|exact Hq0].
Qed.

End Estimate.

(** ** Division: the digit loop *)

Lemma for_down_res_inv {St : Type} (P : nat -> St -> Prop)
    (body : nat -> St -> res St) (k lo : nat) (st : St) :
  P (lo + k)%nat st ->
  (forall i st0, (lo < i <= lo + k)%nat -> P i st0 ->
     exists st1, body i st0 = Ok st1 /\ P (i - 1)%nat st1) ->
  exists st', for_down_res k lo body st = Ok st' /\ P lo st'.
Proof.
  revert st. induction k as [|k IH]; intros st H0 Hstep; cbn [for_down_res].
  - rewrite Nat.add_0_r in H0. eauto.
  - destruct (Hstep (lo + S k)%nat st ltac:(lia) H0) as (st1 & E & H1).
    rewrite E. cbn [bind]. apply IH.
    + replace (lo + k)%nat with (lo + S k - 1)%nat by lia. exact H1.
    + intros i st0 Hi. apply Hstep. lia.
Qed.

Section DigitLoop.

Variables ciL MAX_LIMBS : nat.
Hypothesis ciL_pos : (0 < ciL)%nat.

Local Abbreviation B := (base ciL).
Local Abbreviation Bp := (Bpow ciL).
Local Abbreviation mg := (mag ciL).
Local Abbreviation lok := (limbs_ok ciL).
Local Abbreviation val := (value ciL).
Local Abbreviation tr := (trunc ciL).

Lemma limb_repeat_cons (m j : nat) : limb (0 :: repeat 0 m) j = 0.
Proof. apply (limb_repeat0 (S m) j). Qed.

(** [lset( T, 0 )] followed by stores into the low limbs. *)
Lemma lset_two (T : mpi) (a b : Z) :
  (2 <= n T)%nat -> (1 <= MAX_LIMBS)%nat -> 0 <= a < B -> 0 <= b < B ->
  exists T', sgx_mpi_lset ciL MAX_LIMBS T 0 = (T', None) /\
    let T2 := set_limb (set_limb T' 0 a) 1 b in
    lok (p T2) /\ s T2 = 1 /\ mg (p T2) = a + B * b /\ n T2 = n T.
Proof.
  intros Hn HM Ha Hb. rewrite (lset_ok ciL MAX_LIMBS) by exact HM.
  eexists. split; [reflexivity|]. cbv zeta. unfold set_limb. cbn [s p].
  rewrite abs_limb_0.
  set (z := 0 :: repeat 0 (Nat.max 1 (n T) - 1)).
  assert (Lz : lok z) by apply (limbs_ok_repeat0 ciL (S _)).
  assert (Nz : length z = n T).
  { unfold z. cbn [length]. rewrite repeat_length. lia. }
  assert (Mz : mg z = 0) by apply (mag_repeat0 ciL (S _)).
  split; [repeat apply limbs_ok_set_nth; auto|].
  split; [reflexivity|]. split.
  - rewrite !mag_set_nth by (rewrite ?length_set_nth; lia).
    rewrite limb_set_nth_neq by lia. unfold z. rewrite !limb_repeat_cons.
    fold z. rewrite Mz, Bpow_0, Bpow_1. ring.
  - unfold n at 1. cbn [p]. rewrite !length_set_nth. exact Nz.
Qed.

Lemma lset_three (T : mpi) (a b c : Z) :
  (3 <= n T)%nat -> (1 <= MAX_LIMBS)%nat ->
  0 <= a < B -> 0 <= b < B -> 0 <= c < B ->
  exists T', sgx_mpi_lset ciL MAX_LIMBS T 0 = (T', None) /\
    let T2 := set_limb (set_limb (set_limb T' 0 a) 1 b) 2 c in
    lok (p T2) /\ s T2 = 1 /\ mg (p T2) = a + B * b + B * B * c /\ n T2 = n T.
Proof.
  intros Hn HM Ha Hb Hc. rewrite (lset_ok ciL MAX_LIMBS) by exact HM.
  eexists. split; [reflexivity|]. cbv zeta. unfold set_limb. cbn [s p].
  rewrite abs_limb_0.
  set (z := 0 :: repeat 0 (Nat.max 1 (n T) - 1)).
  assert (Lz : lok z) by apply (limbs_ok_repeat0 ciL (S _)).
  assert (Nz : length z = n T).
  { unfold z. cbn [length]. rewrite repeat_length. lia. }
  assert (Mz : mg z = 0) by apply (mag_repeat0 ciL (S _)).
  split; [repeat apply limbs_ok_set_nth; auto|].
  split; [reflexivity|]. split.
  - rewrite !mag_set_nth by (rewrite ?length_set_nth; lia).
    rewrite !limb_set_nth_neq by lia. unfold z. rewrite !limb_repeat_cons.
    fold z. rewrite Mz, Bpow_0, Bpow_1.
    change 2%nat with (S 1). rewrite Bpow_S, Bpow_1. ring.
  - unfold n at 1. cbn [p]. rewrite !length_set_nth. exact Nz.
Qed.

Lemma trunc_pred (q : Z) : 0 < q < B -> tr (q - 1) = q - 1.
Proof. intros H. apply trunc_small. lia. Qed.

Lemma set_limb_twice (Z0 : mpi) (k : nat) (v w : Z) :
  set_limb (set_limb Z0 k w) k v = set_limb Z0 k v.
Proof. unfold set_limb. cbn [s p]. rewrite set_nth_twice. reflexivity. Qed.

Lemma limb_set_limb (Z0 : mpi) (k : nat) (v : Z) :
  (k < n Z0)%nat -> limb (p (set_limb Z0 k v)) k = v.
Proof. intros H. unfold set_limb. cbn [p]. apply limb_set_nth_eq. exact H. Qed.

(** The [do ... while] that corrects the estimate [q]: it stops at the first
    [q' <= q] whose product with the two top limbs of [Y] does not exceed the
    three limbs of [X]. *)
Lemma div_correct_spec (L : nat) (X Y : mpi) (t i k : nat) (fuel : nat) :
  forall (Z0 T1 T2 : mpi) (q : Z),
    lok (p X) -> lok (p Y) -> (k < n Z0)%nat ->
    tr (limb (p Z0) k - 1) = q -> 0 <= q < B -> q < Z.of_nat fuel ->
    (2 <= n T1 <= L)%nat -> (3 <= n T2 <= L)%nat -> (3 <= L <= MAX_LIMBS)%nat ->
    let top2 := (if (t <? 1)%nat then 0 else limb (p Y) (t - 1))
                + B * limb (p Y) t in
    let top3 := (if (i <? 2)%nat then 0 else limb (p X) (i - 2))
                + B * (if (i <? 1)%nat then 0 else limb (p X) (i - 1))
                + B * B * limb (p X) i in
    exists q' T1' T2',
      div_correct ciL MAX_LIMBS fuel X Y t i k Z0 T1 T2
        = Ok (set_limb Z0 k q', T1', T2') /\
      0 <= q' <= q /\ q' * top2 <= top3 /\
      (2 <= n T1' <= L)%nat /\ (3 <= n T2' <= L)%nat.
Proof.
  pose proof (base_gt_1 ciL ciL_pos) as HB.
  induction fuel as [|f IH]; intros Z0 T1 T2 q HX HY Hk Hq Hq1 Hf N1 N2 HL top2 top3;
    [lia|].
  cbn [div_correct]. rewrite Hq.
  set (a := if (t <? 1)%nat then 0 else limb (p Y) (t - 1)).
  set (x0 := if (i <? 2)%nat then 0 else limb (p X) (i - 2)).
  set (x1 := if (i <? 1)%nat then 0 else limb (p X) (i - 1)).
  assert (Ha : 0 <= a < B).
  { unfold a. destruct (t <? 1)%nat; [lia|apply limbs_ok_limb; exact HY]. }
  assert (Hx0 : 0 <= x0 < B).
  { unfold x0. destruct (i <? 2)%nat; [lia|apply limbs_ok_limb; exact HX]. }
  assert (Hx1 : 0 <= x1 < B).
  { unfold x1. destruct (i <? 1)%nat; [lia|apply limbs_ok_limb; exact HX]. }
  pose proof (limbs_ok_limb ciL (p Y) t HY) as Hb.
  pose proof (limbs_ok_limb ciL (p X) i HX) as Hx2.
  destruct (lset_two T1 a (limb (p Y) t) ltac:(lia) ltac:(lia) Ha Hb)
    as (T1a & E1 & K1 & K2 & K3 & K4). cbv zeta in K1, K2, K3, K4.
  rewrite E1. cbn [MPI_CHK bind].
  set (T1c := set_limb (set_limb T1a 0 a) 1 (limb (p Y) t)) in *.
  rewrite limb_set_limb by exact Hk.
  destruct (mul_int_fit ciL MAX_LIMBS ciL_pos L 2 T1c T1c q true K1 Hq1
              ltac:(lia) ltac:(lia))
    as (T1d & E2 & M1 & M2 & M3 & _ & M5); try lia.
  { rewrite K3. change 2%nat with (S 1). rewrite Bpow_S, Bpow_1. nia. }
  rewrite E2. cbn [MPI_CHK bind].
  destruct (lset_three T2 x0 x1 (limb (p X) i) ltac:(lia) ltac:(lia) Hx0 Hx1 Hx2)
    as (T2a & E3 & J1 & J2 & J3 & J4). cbv zeta in J1, J2, J3, J4.
  rewrite E3. cbn [MPI_CHK bind].
  set (T2d := set_limb (set_limb (set_limb T2a 0 x0) 1 x1) 2 (limb (p X) i)) in *.
  assert (W1 : wf ciL T1d).
  { split; [|exact M1]. left. rewrite M3; [exact K2|].
    unfold T1c, set_limb. cbn [p]. intros F.
    apply (f_equal (@length Z)) in F. rewrite !length_set_nth in F.
    fold (n T1a) in F. unfold T1c, set_limb, n in K4. cbn [p] in K4.
    rewrite !length_set_nth in K4. cbn [length] in F. unfold n in *. lia. }
  assert (W2 : wf ciL T2d) by (split; [left; exact J2|exact J1]).
  rewrite (cmp_mpi_spec ciL T1d T2d W1 W2).
  assert (V1 : val T1d = q * top2).
  { unfold value. rewrite M2, K3. destruct W1 as [[S1|S1] _].
    - rewrite S1. unfold top2. fold a. ring.
    - rewrite M3 in S1; [rewrite K2 in S1; lia|].
      intros F. unfold T1c, set_limb in F. cbn [p] in F.
      apply (f_equal (@length Z)) in F. rewrite !length_set_nth in F.
      unfold T1c, set_limb, n in K4. cbn [p] in K4.
      rewrite !length_set_nth in K4. cbn [length] in F. unfold n in *. lia. }
  assert (V2 : val T2d = top3).
  { unfold value. rewrite J2, J3. unfold top3. fold x0 x1. ring. }
  rewrite V1, V2.
  destruct (Z.gtb_spec (Z.sgn (q * top2 - top3)) 0) as [Hgt|Hle].
  - (* the estimate is too large: once more with q - 1 *)
    assert (Hpos : top3 < q * top2).
    { apply Z.sgn_pos_iff in Hgt. lia. }
    assert (Ht3 : 0 <= top3) by (unfold top3; fold x0 x1; nia).
    assert (Hq0 : 0 < q) by nia.
    destruct (IH (set_limb Z0 k q) T1d T2d (q - 1) HX HY) as (q' & T1' & T2' & E & R1 & R2 & R3 & R4).
    + unfold set_limb, n. cbn [p]. rewrite length_set_nth. exact Hk.
    + rewrite limb_set_limb by exact Hk. apply trunc_pred. lia.
    + lia.
    + lia.
    + lia.
    + rewrite J4. lia.
    + lia.
    + rewrite set_limb_twice in E.
      exists q', T1', T2'. repeat split; auto; lia.
  - exists q, T1d, T2d. split; [reflexivity|].
    assert (q * top2 <= top3).
    { destruct (Z.le_gt_cases (q * top2) top3); auto.
      assert (0 < Z.sgn (q * top2 - top3)) by (apply Z.sgn_pos_iff; lia). lia. }
    repeat split; auto; lia.
Qed.

End DigitLoop.

Section DigitStep.

Variables ciL MAX_LIMBS e : nat.
Hypothesis ciL_pos : (0 < ciL)%nat.
Hypothesis W_pow : biL ciL = (2 ^ e)%nat.

Local Abbreviation B := (base ciL).
Local Abbreviation Bp := (Bpow ciL).
Local Abbreviation mg := (mag ciL).
Local Abbreviation lok := (limbs_ok ciL).
Local Abbreviation val := (value ciL).
Local Abbreviation tr := (trunc ciL).
Local Abbreviation W := (biL ciL).
Local Abbreviation msb := (sgx_mpi_msb ciL).

Lemma mag_firstn_le (l : list Z) (k : nat) : lok l -> mg (firstn k l) <= mg l.
Proof.
  clear e W_pow.
  intros Hl. pose proof (mag_firstn_skipn ciL l k) as E.
  pose proof (mag_bound ciL _ (limbs_ok_skipn ciL l k Hl)).
  pose proof (base_pow ciL (Nat.min k (length l))). nia.
Qed.

(** Three consecutive limbs, scaled to their place, are below the whole. *)
Lemma window3 (l : list Z) (i : nat) :
  lok l ->
  (limb l i + B * limb l (S i) + B * B * limb l (S (S i))) * Bp i <= mg l.
Proof.
  clear e W_pow.
  intros Hl. pose proof (mag_firstn_le l (S (S (S i))) Hl) as H.
  rewrite !mag_firstn_S, !Bpow_S in H.
  pose proof (mag_firstn_bound ciL l i Hl).
  set (a := limb l i) in *. set (b := limb l (S i)) in *.
  set (c := limb l (S (S i))) in *. set (P := Bp i) in *.
  clearbody a b c P. lia.
Qed.

Lemma window2 (l : list Z) :
  lok l -> limb l 0 + B * limb l 1 <= mg l.
Proof.
  clear e W_pow.
  intros Hl. pose proof (mag_firstn_le l 2 Hl) as H.
  rewrite !mag_firstn_S, Bpow_1, Bpow_0 in H. cbn [firstn mag] in H. lia.
Qed.

(** The top limb of a magnitude in [[B ^ t, B ^ (t + 1))]. *)
Lemma top_limb (l : list Z) (t : nat) :
  lok l -> Bp t <= mg l < Bp (S t) ->
  1 <= limb l t < B /\ mg l = mg (firstn t l) + Bp t * limb l t.
Proof.
  clear e W_pow.
  intros Hl Hv. pose proof (mag_firstn_small ciL ciL_pos l (S t) Hl ltac:(lia)) as E.
  rewrite mag_firstn_S in E. pose proof (mag_firstn_bound ciL l t Hl).
  pose proof (limbs_ok_limb ciL l t Hl). pose proof (base_pow ciL t).
  split; [|lia]. split; [|lia]. nia.
Qed.

(** The corrected estimate overshoots by one at most: after the
    subtraction, adding the divisor back once is enough. *)
Lemma addback_enough (xl yl : list Z) (t i : nat) (q : Z) :
  lok xl -> lok yl -> Bp t <= mg yl < Bp (S t) -> (t < i)%nat ->
  0 <= q < B ->
  q * ((if (t <? 1)%nat then 0 else limb yl (t - 1)) + B * limb yl t)
    <= (if (i <? 2)%nat then 0 else limb xl (i - 2))
       + B * (if (i <? 1)%nat then 0 else limb xl (i - 1))
       + B * B * limb xl i ->
  q * mg yl * Bp (i - t - 1) <= mg xl + mg yl * Bp (i - t - 1).
Proof.
  clear e W_pow.
  intros Hx Hy Hv Hi Hq Hc. pose proof (base_gt_1 ciL ciL_pos) as HB.
  destruct (top_limb yl t Hy Hv) as [Hyt Ey].
  pose proof (mag_bound ciL _ Hx) as Hxb.
  destruct t as [|t].
  - (* a one-limb divisor *)
    cbn [Nat.ltb Nat.leb] in Hc. cbn [firstn mag] in Ey. rewrite Bpow_0 in Ey.
    replace (mg yl) with (limb yl 0) by lia.
    destruct i as [|[|i]]; [lia| |].
    + cbn [Nat.ltb Nat.leb Nat.sub] in Hc |- *. rewrite Bpow_0.
      pose proof (window2 xl Hx). nia.
    + cbn [Nat.ltb Nat.leb] in Hc.
      replace (S (S i) - 2)%nat with i in Hc by lia.
      replace (S (S i) - 1)%nat with (S i) in Hc by lia.
      replace (S (S i) - 0 - 1)%nat with (S i) by lia. rewrite Bpow_S.
      pose proof (window3 xl i Hx). pose proof (base_pow ciL i).
      set (P := Bp i) in *. set (y := limb yl 0) in *.
      set (top3 := limb xl i + B * limb xl (S i) + B * B * limb xl (S (S i))) in *.
      assert (q * (B * y) * P <= top3 * P) by nia.
      clearbody P y top3. nia.
  - destruct i as [|[|i]]; [lia|lia|].
    cbn [Nat.ltb Nat.leb] in Hc.
    replace (S t - 1)%nat with t in Hc by lia.
    replace (S (S i) - 2)%nat with i in Hc by lia.
    replace (S (S i) - 1)%nat with (S i) in Hc by lia.
    replace (S (S i) - S t - 1)%nat with (i - t)%nat by lia.
    pose proof (window3 xl i Hx) as Hw.
    rewrite mag_firstn_S in Ey. rewrite Bpow_S in Ey.
    pose proof (mag_firstn_bound ciL yl t Hy) as Hlow.
    pose proof (limbs_ok_limb ciL yl t Hy) as Hy1.
    assert (EP : Bp i = Bp t * Bp (i - t)).
    { rewrite <- Bpow_add. f_equal. lia. }
    pose proof (base_pow ciL t). pose proof (base_pow ciL (i - t)).
    set (top2 := limb yl t + B * limb yl (S t)) in *.
    set (top3 := limb xl i + B * limb xl (S i) + B * B * limb xl (S (S i))) in *.
    set (Pt := Bp t) in *. set (Pk := Bp (i - t)) in *.
    set (V := mg yl) in *. set (X := mg xl) in *.
    assert (HV : V < (top2 + 1) * Pt) by (unfold top2; lia).
    assert (Htop : B <= top2) by (unfold top2; nia).
    destruct (Z.eq_dec q 0) as [->|Hq0]; [nia|].
    assert (H1 : (q - 1) * V <= (q - 1) * ((top2 + 1) * Pt)) by nia.
    assert (H2 : (q - 1) * (top2 + 1) <= top3) by nia.
    assert (H3 : (q - 1) * (top2 + 1) * (Pt * Pk) <= top3 * (Pt * Pk)) by nia.
    assert (H4 : (q - 1) * V * Pk <= (q - 1) * ((top2 + 1) * Pt) * Pk) by nia.
    rewrite EP in Hw. clearbody top2 top3 Pt Pk V X. nia.
Qed.

Lemma pow2_lt_inv (a b : nat) : pow2 a < pow2 b -> (a < b)%nat.
Proof.
  clear. intros H. destruct (Nat.le_gt_cases b a) as [Hle|]; auto.
  pose proof (pow2_mono b a Hle). lia.
Qed.

Lemma msb_le (X : mpi) (m : nat) :
  lok (p X) -> mg (p X) < Bp m -> (msb X <= m * W)%nat.
Proof.
  clear e W_pow.
  intros HX Hm. destruct (msb_spec ciL X HX) as (_ & M2 & _).
  destruct (Nat.eq_dec (msb X) 0) as [->|Hne]; [lia|].
  specialize (M2 ltac:(lia)). rewrite Bpow_pow2 in Hm.
  assert (msb X - 1 < m * W)%nat by (apply pow2_lt_inv; lia). lia.
Qed.

(** A non-negative value is its magnitude. *)
Lemma mag_of_nonneg (X : mpi) : wf ciL X -> 0 <= val X -> mg (p X) = val X.
Proof.
  clear e W_pow.
  intros [[S1|S1] HX] Hv; unfold value in *; rewrite S1 in *; [lia|].
  pose proof (mag_bound ciL _ HX). lia.
Qed.

Lemma mag_abs (X : mpi) : wf ciL X -> mg (p X) = Z.abs (val X).
Proof.
  clear e W_pow.
  intros [[S1|S1] HX]; unfold value; rewrite S1;
    pose proof (mag_bound ciL _ HX); lia.
Qed.

Lemma trunc_succ_pred (q : Z) : 0 <= q < B -> tr (tr (q + 1) - 1) = q.
Proof.
  clear e W_pow.
  intros Hq. pose proof (base_gt_1 ciL ciL_pos).
  destruct (trunc_cases ciL ciL_pos (q + 1) ltac:(lia)) as [[? E]|[[? E]|[? E]]];
    [lia| |]; rewrite E.
  - replace (q + 1 - 1) with q by lia. apply trunc_small. exact Hq.
  - replace (q + 1 - B - 1) with (-1) by lia.
    destruct (trunc_cases ciL ciL_pos (-1) ltac:(lia)) as [[? E1]|[[? E1]|[? E1]]];
      lia.
Qed.

(** [sgx_mpi_shift_l] within a limb budget. *)
Lemma shift_l_fit (L : nat) (X : mpi) (count : nat) :
  lok (p X) -> (n X <= L)%nat -> (msb X + count <= L * W)%nat ->
  (L <= MAX_LIMBS)%nat ->
  exists X', sgx_mpi_shift_l ciL MAX_LIMBS X count = (X', None) /\
    lok (p X') /\ mg (p X') = mg (p X) * pow2 count /\ s X' = s X /\
    (n X <= n X' <= L)%nat /\
    n X' = Nat.max (n X) (BITS_TO_LIMBS ciL (msb X + count)).
Proof.
  intros HX NX Hm HL.
  destruct (BITS_TO_LIMBS_spec ciL ciL_pos (msb X + count)) as [_ Bu].
  specialize (Bu L Hm).
  destruct (shift_l_ok ciL MAX_LIMBS X count ltac:(lia)) as [X' E].
  destruct (shift_l_spec ciL MAX_LIMBS e ciL_pos W_pow X X' count HX E)
    as (S1 & S2 & S3 & S4).
  exists X'. repeat split; auto; lia.
Qed.

(** A shift by whole limbs. *)
Lemma shift_limbs_fit (L m : nat) (X : mpi) (k : nat) :
  lok (p X) -> mg (p X) < Bp m -> (n X <= L)%nat -> (m + k <= L)%nat ->
  (L <= MAX_LIMBS)%nat ->
  exists X', sgx_mpi_shift_l ciL MAX_LIMBS X (W * k) = (X', None) /\
    lok (p X') /\ mg (p X') = mg (p X) * Bp k /\ s X' = s X /\
    (n X <= n X' <= L)%nat.
Proof.
  intros HX Hm NX Hk HL. pose proof (msb_le X m HX Hm).
  destruct (shift_l_fit L X (W * k) HX NX ltac:(nia) HL)
    as (X' & E & S1 & S2 & S3 & S4 & _).
  exists X'. repeat split; auto; try lia.
  rewrite S2, Bpow_pow2. do 2 f_equal. lia.
Qed.

(** One round of the digit loop keeps [A' = X + Z * Y] with [X >= 0]. *)
Lemma div_step_spec (L nn t nZ : nat) (Y : mpi) (Aq : Z) (fuel i : nat)
    (st : mpi * mpi * mpi * mpi) :
  lok (p Y) -> s Y = 1 -> (n Y <= L)%nat -> Bp t <= mg (p Y) < Bp (S t) ->
  Aq < Bp (S nn) -> (nn + 2 <= L)%nat -> (3 <= L <= MAX_LIMBS)%nat ->
  (nn - t < nZ)%nat -> B < Z.of_nat fuel -> (t < i <= nn)%nat ->
  div_inv ciL L t nZ (mg (p Y)) Aq i st ->
  exists st', div_step ciL MAX_LIMBS fuel Y t i st = Ok st' /\
              div_inv ciL L t nZ (mg (p Y)) Aq (i - 1) st'.
Proof.
  intros HY SY NY HV HA HL1 HL2 HnZ Hf Hi Hinv.
  pose proof (base_gt_1 ciL ciL_pos) as HB.
  destruct st as [[[X Zq] T1] T2].
  destruct Hinv as (WX & X0 & NX & LZ & NZ & ZZ & ID & N1 & N2).
  unfold div_step.
  set (k := (i - t - 1)%nat).
  set (V := mg (p Y)) in *.
  destruct (top_limb (p Y) t HY HV) as [Hd _].
  assert (LX : lok (p X)) by apply WX.
  pose proof (limbs_ok_limb ciL (p X) i LX) as Hxi.
  pose proof (limbs_ok_limb ciL (p X) (i - 1) LX) as Hxi1.
  pose proof (mag_bound ciL _ LZ) as HZb.
  pose proof (base_pow ciL k) as HPk.
  assert (WY : wf ciL Y) by (split; [left; exact SY|exact HY]).
  assert (PY : p Y <> []).
  { intros F. unfold V in HV. rewrite F in HV. cbn [mag] in HV.
    pose proof (base_pow ciL t). lia. }
  assert (EX : mg (p X) = val X) by (apply mag_of_nonneg; auto).
  assert (HV0 : 0 < V) by (pose proof (base_pow ciL t); lia).
  assert (HXA : val X <= Aq) by nia.
  (* the estimate *)
  assert (Hest : exists q0,
    (if limb (p X) i >=? limb (p Y) t then Ok (tr (Z.lnot 0))
     else udiv_qrnnd ciL fuel (limb (p X) i) (limb (p X) (i - 1)) (limb (p Y) t))
    = Ok q0 /\ 0 <= q0 < B).
  { destruct (limb (p X) i >=? limb (p Y) t).
    - eexists; split; [reflexivity|apply trunc_range].
    - apply udiv_qrnnd_total; auto; lia. }
  destruct Hest as (q0 & -> & Hq0). cbn [bind].
  assert (Hk : (k < n Zq)%nat) by (unfold k; lia).
  rewrite limb_set_limb by exact Hk. rewrite set_limb_twice.
  destruct (div_correct_spec ciL MAX_LIMBS ciL_pos L X Y t i k fuel
              (set_limb Zq k (tr (q0 + 1))) T1 T2 q0 LX HY)
    as (q' & T1' & T2' & E & Q1 & Q2 & Q3 & Q4); auto; try lia.
  { unfold set_limb, n. cbn [p]. rewrite length_set_nth. exact Hk. }
  { rewrite limb_set_limb by exact Hk. apply trunc_succ_pred. exact Hq0. }
  rewrite E. cbn [bind]. rewrite set_limb_twice.
  rewrite limb_set_limb by exact Hk.
  (* T1 = Y * q' * B^k *)
  destruct (mul_int_fit ciL MAX_LIMBS ciL_pos L (S t) T1' Y q' false HY
              ltac:(lia) ltac:(lia) NY ltac:(apply HV) ltac:(lia) ltac:(lia))
    as (T1b & E1 & M1 & M2 & M3 & _ & M5).
  rewrite E1. cbn [MPI_CHK bind]. fold V in M2.
  assert (Hb1 : mg (p T1b) < Bp (S (S t))).
  { rewrite M2, Bpow_S. clear - HV HV0 Q1 Hq0. clearbody V. nia. }
  destruct (shift_limbs_fit L (S (S t)) T1b k M1 Hb1 ltac:(lia)
              ltac:(unfold k; lia) ltac:(lia))
    as (T1c & E2 & S1 & S2 & S3 & S4).
  rewrite E2. cbn [MPI_CHK bind].
  assert (WT : wf ciL T1c).
  { split; [|exact S1]. left. rewrite S3, (M3 PY). exact SY. }
  assert (VT : val T1c = V * q' * Bp k).
  { unfold value. rewrite S3, (M3 PY), SY, S2, M2. ring. }
  assert (Hb2 : mg (p T1c) < Bp (S nn)).
  { rewrite S2. apply Z.lt_le_trans with (Bp (S (S t)) * Bp k).
    - apply Z.mul_lt_mono_pos_r; [exact HPk|exact Hb1].
    - rewrite <- Bpow_add. apply Bpow_mono. unfold k. clear - Hi. lia. }
  assert (Hsum : forall a, 0 <= a < Bp (S nn) -> forall b, 0 <= b < Bp (S nn) ->
                 a + b < Bp L).
  { intros a Ha b Hb. apply Z.lt_le_trans with (Bp (S (S nn))).
    - rewrite (Bpow_S ciL (S nn)). clear - Ha Hb HB. nia.
    - apply Bpow_mono. clear - HL1. lia. }
  pose proof (mag_bound ciL _ S1) as HT1c.
  destruct (sub_mpi_fit ciL MAX_LIMBS ciL_pos L X X T1c true false WX WT
              ltac:(auto) ltac:(discriminate) eq_refl NX NX ltac:(lia) ltac:(lia))
    as (X1 & E3 & NX1 & WX1 & VX1).
  { apply Hsum; lia. }
  rewrite E3. cbn [MPI_CHK bind].
  rewrite (cmp_int_0 ciL X1 WX1).
  (* the digit before a possible add-back *)
  assert (Hzk : limb (p Zq) k = 0) by (apply ZZ; unfold k; lia).
  assert (MZ : forall v, mg (p (set_limb Zq k v)) = mg (p Zq) + v * Bp k).
  { intros v. unfold set_limb. cbn [p]. rewrite mag_set_nth by exact Hk.
    rewrite Hzk. ring. }
  assert (ZZ' : forall v j, (j < i - 1 - t)%nat -> limb (p (set_limb Zq k v)) j = 0).
  { intros v j Hj. unfold set_limb. cbn [p].
    rewrite limb_set_nth_neq by (unfold k; lia). apply ZZ. lia. }
  assert (LZ' : forall v, 0 <= v < B -> lok (p (set_limb Zq k v))).
  { intros v Hv. unfold set_limb. cbn [p]. apply limbs_ok_set_nth; auto. }
  assert (NZ' : forall v, n (set_limb Zq k v) = nZ).
  { intros v. unfold set_limb, n. cbn [p]. rewrite length_set_nth. exact NZ. }
  destruct (Z.ltb_spec (Z.sgn (val X1)) 0) as [Hneg|Hpos].
  - (* one divisor too many: add it back *)
    assert (HX1 : val X1 < 0).
    { destruct (Z.lt_ge_cases (val X1) 0); auto.
      pose proof (Z.sgn_nonneg (val X1)). lia. }
    destruct (copy_fit ciL MAX_LIMBS ciL_pos L T1c Y HY ltac:(lia) NY ltac:(lia))
      as (T1d & E4 & C1 & C2 & C3 & C4 & _).
    destruct (C4 PY) as (C5 & C6 & _). fold V in C2.
    rewrite E4. cbn [MPI_CHK bind].
    destruct (shift_limbs_fit L (S t) T1d k C1 ltac:(rewrite C2; apply HV)
                C3 ltac:(unfold k; lia) ltac:(lia))
      as (T1e & E5 & U1 & U2 & U3 & U4).
    rewrite E5. cbn [MPI_CHK bind].
    assert (WT' : wf ciL T1e).
    { split; [|exact U1]. left. rewrite U3, C5. exact SY. }
    assert (VT' : val T1e = V * Bp k).
    { unfold value. rewrite U3, C5, SY, U2, C2. ring. }
    assert (Hb3 : mg (p T1e) < Bp (S nn)).
    { rewrite U2, C2. apply Z.lt_le_trans with (Bp (S t) * Bp k).
      - apply Z.mul_lt_mono_pos_r; [exact HPk|apply HV].
      - rewrite <- Bpow_add. apply Bpow_mono. unfold k. clear - Hi. lia. }
    pose proof (mag_bound ciL _ U1) as HT1e.
    assert (HX1m : mg (p X1) < Bp (S nn)).
    { rewrite (mag_abs X1 WX1). rewrite VX1, VT in *.
      rewrite <- EX in *. rewrite S2, M2 in Hb2. lia. }
    pose proof (mag_bound ciL _ (proj2 WX1)) as HX1b.
    destruct (add_mpi_fit ciL MAX_LIMBS ciL_pos L X1 X1 T1e true false WX1 WT'
                ltac:(auto) ltac:(discriminate) eq_refl NX1 NX1 ltac:(lia) ltac:(lia))
      as (X2 & E6 & NX2 & WX2 & VX2).
    { apply Hsum; lia. }
    rewrite E6. cbn [MPI_CHK bind].
    eexists. split; [reflexivity|].
    assert (Hq' : 0 < q').
    { destruct (Z.eq_dec q' 0) as [F|]; [|lia]. rewrite F in *. lia. }
    rewrite (trunc_pred ciL ciL_pos q') by lia. rewrite set_limb_twice.
    pose proof (addback_enough (p X) (p Y) t i q' LX HY HV ltac:(lia)
                  ltac:(lia) Q2) as Hab.
    fold k in Hab. fold V in Hab. rewrite EX in Hab.
    unfold div_inv.
    split; [exact WX2|]. split; [rewrite VX2, VX1, VT, VT'; nia|].
    split; [exact NX2|]. split; [apply LZ'; lia|]. split; [apply NZ'|].
    split; [apply ZZ'|]. split; [|lia].
    rewrite MZ, VX2, VX1, VT, VT'. rewrite <- ID. ring.
  - eexists. split; [reflexivity|]. unfold div_inv.
    assert (0 <= val X1).
    { destruct (Z.le_gt_cases 0 (val X1)); auto.
      assert (Z.sgn (val X1) < 0) by (apply Z.sgn_neg_iff; lia). lia. }
    split; [exact WX1|]. split; [assumption|].
    split; [exact NX1|]. split; [apply LZ'; lia|]. split; [apply NZ'|].
    split; [apply ZZ'|]. split; [|lia].
    rewrite MZ, VX1, VT. rewrite <- ID. ring.
Qed.

End DigitStep.

Section DivMpi.

Variables ciL MAX_LIMBS e : nat.
Hypothesis ciL_pos : (0 < ciL)%nat.
Hypothesis W_pow : biL ciL = (2 ^ e)%nat.

Local Abbreviation B := (base ciL).
Local Abbreviation Bp := (Bpow ciL).
Local Abbreviation mg := (mag ciL).
Local Abbreviation lok := (limbs_ok ciL).
Local Abbreviation val := (value ciL).
Local Abbreviation tr := (trunc ciL).
Local Abbreviation W := (biL ciL).
Local Abbreviation msb := (sgx_mpi_msb ciL).

Lemma div_first_eq (fuel : nat) (Y : mpi) (k : nat) (X Zq : mpi) :
  div_first ciL MAX_LIMBS fuel Y k X Zq =
  if sgx_mpi_cmp_mpi X Y >=? 0 then
    match fuel with
    | O => OutOfFuel
    | S f =>
        X1 <- MPI_CHK (sgx_mpi_sub_mpi ciL MAX_LIMBS X X Y true false) ;;
        div_first ciL MAX_LIMBS f Y k X1
          (set_limb Zq k (tr (limb (p Zq) k + 1)))
    end
  else Ok (X, Zq).
Proof. destruct fuel; reflexivity. Qed.

Lemma limb_le_mag (l : list Z) (k : nat) : lok l -> limb l k * Bp k <= mg l.
Proof.
  clear e W_pow.
  intros Hl. pose proof (mag_firstn_le ciL ciL_pos l (S k) Hl) as H.
  rewrite mag_firstn_S in H. pose proof (mag_firstn_bound ciL l k Hl). lia.
Qed.

(** The first loop subtracts [Y * B ^ (nn - t)] while it fits and counts in
    the top digit of [Z]. *)
Lemma div_first_spec (L nn t nZ : nat) (Y' : mpi) (V Aq : Z) (fuel : nat) :
  forall (X Zq : mpi),
    wf ciL Y' -> s Y' = 1 -> mg (p Y') = V * Bp (nn - t) -> (n Y' <= L)%nat ->
    Bp t <= V < Bp (S t) -> (t <= nn)%nat -> Aq < Bp (S nn) ->
    (nn + 2 <= L)%nat -> (L <= MAX_LIMBS)%nat -> (nn - t < nZ)%nat ->
    wf ciL X -> 0 <= val X -> (n X <= L)%nat ->
    lok (p Zq) -> n Zq = nZ ->
    (forall j, (j < nn - t)%nat -> limb (p Zq) j = 0) ->
    val X + mg (p Zq) * V = Aq ->
    val X < Z.of_nat fuel * (V * Bp (nn - t)) ->
    exists X' Zq',
      div_first ciL MAX_LIMBS fuel Y' (nn - t) X Zq = Ok (X', Zq') /\
      wf ciL X' /\ 0 <= val X' /\ (n X' <= L)%nat /\
      lok (p Zq') /\ n Zq' = nZ /\
      (forall j, (j < nn - t)%nat -> limb (p Zq') j = 0) /\
      val X' + mg (p Zq') * V = Aq.
Proof.
  pose proof (base_gt_1 ciL ciL_pos) as HB.
  induction fuel as [|f IH];
    intros X Zq WY SY MY NY HV Ht HA HL1 HL2 HnZ WX X0 NX LZ NZ ZZ ID Hf.
  { pose proof (base_pow ciL t). pose proof (base_pow ciL (nn - t)). nia. }
  rewrite div_first_eq. rewrite (cmp_mpi_spec ciL X Y' WX WY).
  assert (VY : val Y' = V * Bp (nn - t)) by (unfold value; rewrite SY, MY; ring).
  rewrite VY.
  pose proof (base_pow ciL t) as HPt. pose proof (base_pow ciL (nn - t)) as HPk.
  destruct (Z.geb_spec (Z.sgn (val X - V * Bp (nn - t))) 0) as [Hge|Hlt].
  - assert (Hxy : V * Bp (nn - t) <= val X).
    { pose proof (Z.sgn_nonneg (val X - V * Bp (nn - t))). lia. }
    assert (EX : mg (p X) = val X) by (apply (mag_of_nonneg ciL); auto).
    pose proof (mag_bound ciL _ LZ) as HZb.
    assert (EP : Bp (S nn) = B * Bp t * Bp (nn - t)).
    { rewrite Bpow_S. replace nn with (t + (nn - t))%nat at 1 by lia.
      rewrite Bpow_add. ring. }
    assert (HYb : mg (p Y') < Bp (S nn)).
    { rewrite MY, EP. rewrite Bpow_S in HV. nia. }
    assert (HXA : val X <= Aq) by nia.
    destruct (sub_mpi_fit ciL MAX_LIMBS ciL_pos L X X Y' true false WX WY
                ltac:(auto) ltac:(discriminate) eq_refl NX NX NY HL2)
      as (X1 & E & NX1 & WX1 & VX1).
    { apply Z.lt_le_trans with (Bp (S (S nn))).
      - rewrite (Bpow_S ciL (S nn)). pose proof (mag_bound ciL _ (proj2 WY)). nia.
      - apply Bpow_mono. lia. }
    rewrite E. cbn [MPI_CHK bind].
    pose proof (limbs_ok_limb ciL (p Zq) (nn - t) LZ) as Hc.
    pose proof (limb_le_mag (p Zq) (nn - t) LZ) as Hcm.
    assert (Hc1 : limb (p Zq) (nn - t) + 1 < B).
    { set (c := limb (p Zq) (nn - t)) in *. set (Pk := Bp (nn - t)) in *.
      set (Pt := Bp t) in *. set (MZ := mg (p Zq)) in *. set (xv := val X) in *.
      clear - Hc Hcm ID Hxy HA EP HV HPt HPk X0 HZb HB.
      clearbody c Pk Pt MZ xv.
      assert ((c + 1) * Pk * V <= Aq) by nia.
      assert ((c + 1) * Pk * V < B * Pt * Pk) by lia.
      assert ((c + 1) * (Pk * V) < B * (Pk * V)) by nia.
      assert (0 < Pk * V) by nia. nia. }
    rewrite (trunc_small ciL (limb (p Zq) (nn - t) + 1)) by lia.
    destruct (IH X1 (set_limb Zq (nn - t) (limb (p Zq) (nn - t) + 1)))
      as (X' & Zq' & E' & R); auto.
    + rewrite VX1, VY. lia.
    + unfold set_limb. cbn [p]. apply limbs_ok_set_nth; auto. lia.
    + unfold set_limb, n. cbn [p]. rewrite length_set_nth. exact NZ.
    + intros j Hj. unfold set_limb. cbn [p].
      rewrite limb_set_nth_neq by lia. apply ZZ. exact Hj.
    + unfold set_limb. cbn [p].
      rewrite mag_set_nth by (unfold n in *; lia).
      rewrite VX1, VY. rewrite <- ID. ring.
    + rewrite VX1, VY. lia.
    + exists X', Zq'. split; auto.
  - exists X, Zq. repeat split; auto; try apply WX.
Qed.

(** A left shift keeps the top limb of a non-zero MPI occupied. *)
Lemma shift_l_top (X X' : mpi) (count : nat) :
  lok (p X) -> Bp (n X - 1) <= mg (p X) ->
  sgx_mpi_shift_l ciL MAX_LIMBS X count = (X', None) ->
  Bp (n X' - 1) <= mg (p X').
Proof.
  intros HX Htop E.
  destruct (shift_l_spec ciL MAX_LIMBS e ciL_pos W_pow X X' count HX E)
    as (S1 & S2 & S3 & S4).
  pose proof (W_pos ciL ciL_pos) as HW.
  pose proof (pow2_pos count) as Hc. pose proof (base_pow ciL (n X - 1)).
  assert (Hc1 : 1 <= pow2 count) by lia.
  destruct (Nat.le_gt_cases (BITS_TO_LIMBS ciL (msb X + count)) (n X)) as [Hle|Hgt].
  - replace (n X') with (n X) by lia. rewrite S2. nia.
  - replace (n X') with (BITS_TO_LIMBS ciL (msb X + count)) by lia.
    destruct (msb_spec ciL X HX) as (_ & M2 & _).
    assert (Hm : (0 < msb X)%nat).
    { destruct (Nat.eq_dec (msb X) 0) as [Hz|]; [|lia]. exfalso.
      destruct (msb_spec ciL X HX) as (M1 & _). rewrite Hz in M1.
      rewrite pow2_0 in M1. lia. }
    specialize (M2 Hm).
    assert (Hb : ((BITS_TO_LIMBS ciL (msb X + count) - 1) * W
                  <= msb X - 1 + count)%nat).
    { unfold BITS_TO_LIMBS in *.
      pose proof (Nat.div_mod_eq (msb X + count + W - 1) W).
      pose proof (Nat.mod_upper_bound (msb X + count + W - 1) W ltac:(lia)).
      nia. }
    rewrite S2, Bpow_pow2.
    apply Z.le_trans with (pow2 (msb X - 1 + count)); [apply pow2_mono; exact Hb|].
    rewrite pow2_add. nia.
Qed.

Lemma sign_sq (x : Z) : x = 1 \/ x = -1 -> x * x = 1.
Proof. clear. intros [->| ->]; reflexivity. Qed.

(** The normalisation of [sgx_mpi_div_mpi]: a shift by less than a limb. *)
Lemma normalise_fit (nA : nat) (X : mpi) (k : nat) :
  lok (p X) -> (n X <= nA)%nat -> (k < W)%nat -> (nA + 1 <= MAX_LIMBS)%nat ->
  exists X', sgx_mpi_shift_l ciL MAX_LIMBS X k = (X', None) /\
    lok (p X') /\ mg (p X') = mg (p X) * pow2 k /\ s X' = s X /\
    (n X <= n X' <= nA + 1)%nat.
Proof.
  intros HX NX Hk HM. destruct (msb_spec ciL X HX) as (_ & _ & M3).
  destruct (shift_l_fit ciL MAX_LIMBS e ciL_pos W_pow (nA + 1) X k HX
              ltac:(lia) ltac:(nia) HM) as (X' & E & S1 & S2 & S3 & S4 & _).
  exists X'. repeat split; auto; lia.
Qed.

(** [sgx_mpi_div_mpi] returns, and its outputs satisfy [A = Q * B + R]. *)
Lemma div_mpi_total (L fuel : nat) (Q R A Bm : mpi) (qnull ra : bool) :
  wf ciL A -> wf ciL Bm -> val Bm <> 0 ->
  (n A + 2 <= L)%nat -> (n Bm <= L)%nat -> (n R <= L)%nat -> (n Q <= L)%nat ->
  (3 <= L <= MAX_LIMBS)%nat -> (ra = true -> R = A) -> B < Z.of_nat fuel ->
  exists Q' R' q,
    sgx_mpi_div_mpi ciL MAX_LIMBS fuel Q R A Bm qnull false ra = Ok (Q', R') /\
    wf ciL R' /\ (n R' <= L)%nat /\ val A = q * val Bm + val R' /\
    Z.abs (val R') <= Z.abs (val A) /\ 0 <= val A * val R' /\
    (qnull = false -> wf ciL Q' /\ val Q' = q /\ (n Q' <= L)%nat).
Proof.
  intros WA WB HB0 NA NB NR NQ HL Hra Hf.
  pose proof (base_gt_1 ciL ciL_pos) as HB. pose proof (W_pos ciL ciL_pos) as HW.
  assert (LA : lok (p A)) by apply WA. assert (LB : lok (p Bm)) by apply WB.
  pose proof (mag_bound ciL _ LA) as HAb. pose proof (mag_bound ciL _ LB) as HBb.
  assert (SA : s A * s A = 1) by (apply sign_sq; apply WA).
  assert (SB : s Bm * s Bm = 1) by (apply sign_sq; apply WB).
  assert (HmB : 0 < mg (p Bm)).
  { rewrite (mag_abs ciL ciL_pos Bm WB). lia. }
  unfold sgx_mpi_div_mpi.
  rewrite (cmp_int_0 ciL Bm WB).
  destruct (Z.eqb_spec (Z.sgn (val Bm)) 0) as [F|_].
  { destruct (Z.sgn_null_iff (val Bm)) as [H1 _]. exfalso. apply HB0, H1, F. }
  rewrite (cmp_abs_spec ciL A Bm LA LB).
  destruct (Z.ltb_spec (Z.sgn (mg (p A) - mg (p Bm))) 0) as [Hlt|Hge].
  - (* |A| < |B|: Q = 0, R = A *)
    assert (HQ : exists Q1,
      (if qnull then Ok Q else MPI_CHK (sgx_mpi_lset ciL MAX_LIMBS Q 0)) = Ok Q1 /\
      (qnull = false -> wf ciL Q1 /\ val Q1 = 0 /\ (n Q1 <= L)%nat)).
    { destruct qnull.
      - exists Q. split; [reflexivity|discriminate].
      - assert (E' := lset_ok ciL MAX_LIMBS Q 0 ltac:(lia)).
        destruct (lset_value ciL MAX_LIMBS Q _ 0 E' ltac:(lia)) as (V1 & V2 & V3).
        rewrite E'. cbn [MPI_CHK]. eexists. split; [reflexivity|]. intros _.
        split; [exact V2|]. split; [exact V1|]. rewrite V3. lia. }
    destruct HQ as (Q1 & -> & HQ1). cbn [bind].
    assert (HR : exists R1,
      MPI_CHK (sgx_mpi_copy MAX_LIMBS R A ra) = Ok R1 /\
      wf ciL R1 /\ val R1 = val A /\ (n R1 <= L)%nat).
    { destruct ra.
      - rewrite copy_same. cbn [MPI_CHK]. exists R. rewrite (Hra eq_refl).
        repeat split; auto; try apply WA. lia.
      - destruct (copy_fit ciL MAX_LIMBS ciL_pos L R A LA NR ltac:(lia) ltac:(lia))
          as (R1 & E & C1 & C2 & C3 & C4 & C5).
        rewrite E. cbn [MPI_CHK]. exists R1. split; [reflexivity|].
        destruct (p A) as [|a l] eqn:EA.
        + rewrite (C5 eq_refl). split; [split; [left; reflexivity|constructor]|].
          split; [unfold value; rewrite EA; cbn [sgx_mpi_init s p mag]; lia|].
          unfold n. cbn. lia.
        + destruct (C4 ltac:(discriminate)) as (C6 & _).
          split; [split; [rewrite C6; apply WA|exact C1]|].
          split; [unfold value; rewrite C6, C2, EA; reflexivity|exact C3]. }
    destruct HR as (R1 & -> & WR1 & VR1 & NR1). cbn [bind].
    exists Q1, R1, 0. split; [reflexivity|]. split; [exact WR1|].
    split; [exact NR1|]. split; [lia|]. rewrite VR1.
    split; [lia|]. split; [apply Z.square_nonneg|exact HQ1].
  - (* the long division *)
    assert (Hle : mg (p Bm) <= mg (p A)).
    { pose proof (Z.sgn_nonneg (mg (p A) - mg (p Bm))). lia. }
    assert (PA : p A <> []).
    { intros F. rewrite F in Hle. cbn [mag] in Hle. lia. }
    assert (PB : p Bm <> []).
    { intros F. rewrite F in HmB. cbn [mag] in HmB. lia. }
    assert (NA0 : (0 < n A)%nat).
    { unfold n. destruct (p A); [contradiction|cbn; lia]. }
    assert (NB0 : (0 < n Bm)%nat).
    { unfold n. destruct (p Bm); [contradiction|cbn; lia]. }
    (* X = |A|, Y = |B| *)
    destruct (copy_ok MAX_LIMBS sgx_mpi_init A ltac:(lia)) as [X0 EX0].
    destruct (copy_inv ciL MAX_LIMBS _ _ _ EX0) as (CX1 & CX2 & CX3 & _).
    destruct (CX3 PA) as (_ & CX4 & _). change (n sgx_mpi_init) with 0%nat in CX4.
    rewrite EX0. cbn [MPI_CHK bind].
    destruct (copy_ok MAX_LIMBS sgx_mpi_init Bm ltac:(lia)) as [Y0 EY0].
    destruct (copy_inv ciL MAX_LIMBS _ _ _ EY0) as (CY1 & CY2 & CY3 & _).
    destruct (CY3 PB) as (_ & CY4 & _). change (n sgx_mpi_init) with 0%nat in CY4.
    rewrite EY0. cbn [MPI_CHK bind].
    pose proof (copy_len_le A NA0) as HcA. pose proof (copy_len_le Bm NB0) as HcB.
    assert (NX0 : n X0 = copy_len A) by lia.
    assert (NY0 : n Y0 = copy_len Bm) by lia.
    assert (TY0 : Bp (n Y0 - 1) <= mg (p Y0)).
    { rewrite CY1, NY0. unfold copy_len.
      destruct (mag_eff ciL (p Bm) LB) as (_ & _ & T3 & T4). cbv zeta in T3, T4.
      fold (n Bm) in T3, T4.
      destruct (Nat.eq_dec (top_scan (p Bm) (n Bm)) 0) as [Hz|Hnz].
      - specialize (T4 Hz). lia.
      - replace (Nat.max 1 (top_scan (p Bm) (n Bm))) with (top_scan (p Bm) (n Bm))
          by lia. apply T3. lia. }
    assert (NYX : (n Y0 <= n X0)%nat).
    { pose proof (mag_bound ciL _ (CX2 LA)) as Hb. fold (n X0) in Hb.
      assert (n Y0 - 1 < n X0)%nat by (apply (Bpow_lt_inv ciL ciL_pos); lia).
      unfold copy_len in NX0. lia. }
    (* Z, T1, T2 *)
    rewrite (grow_ok MAX_LIMBS) by lia. cbn [MPI_CHK bind].
    rewrite (lset_ok ciL MAX_LIMBS) by lia. cbn [MPI_CHK bind].
    rewrite (grow_ok MAX_LIMBS) by lia. cbn [MPI_CHK bind].
    rewrite (grow_ok MAX_LIMBS) by lia. cbn [MPI_CHK bind].
    cbn [sgx_mpi_init s p app]. change (n {| s := 1; p := [] |}) with 0%nat.
    rewrite !Nat.sub_0_r. rewrite abs_limb_0. change (sign_of 0) with 1.
    set (Zq := {| s := 1; p := 0 :: repeat 0 (Nat.max 1 (n _) - 1) |}).
    assert (LZ : lok (p Zq)) by apply (limbs_ok_repeat0 ciL (S _)).
    assert (MZ : mg (p Zq) = 0) by apply (mag_repeat0 ciL (S _)).
    assert (NZ : n Zq = (n A + 2)%nat).
    { unfold Zq, n. cbn [p length]. rewrite !repeat_length. lia. }
    assert (ZZ : forall j, limb (p Zq) j = 0).
    { intros j. apply (limb_repeat0 (S _) j). }
    clearbody Zq.
    set (T1 := {| s := 1; p := repeat 0 2 |}).
    set (T2 := {| s := 1; p := repeat 0 3 |}).
    set (Xs := set_sign 1 X0). set (Ys := set_sign 1 Y0).
    clear CX3 CX4 CY3 CY4 Hge EX0 EY0.
    (* the normalisation *)
    match goal with |- context [bind (if ?c then ?a else ?b) _] =>
      assert (Hnorm : exists k' Xn Yn, (if c then a else b) = Ok (k', Xn, Yn) /\
        (k' < W)%nat /\
        lok (p Xn) /\ mg (p Xn) = mg (p A) * pow2 k' /\ s Xn = 1 /\
        (1 <= n Xn <= n A + 1)%nat /\
        lok (p Yn) /\ mg (p Yn) = mg (p Bm) * pow2 k' /\ s Yn = 1 /\
        (1 <= n Yn <= n A + 1)%nat /\ Bp (n Yn - 1) <= mg (p Yn))
    end.
    { unfold copy_len in *.
      destruct (Nat.ltb_spec (msb Ys mod W) (W - 1)) as [Hk|Hk].
      - destruct (normalise_fit (n A) Xs (W - 1 - msb Ys mod W) (CX2 LA)
                    ltac:(unfold Xs, set_sign, n in *; cbn [p]; lia)
                    ltac:(lia) ltac:(lia)) as (Xn & E1 & S1 & S2 & S3 & S4).
        destruct (normalise_fit (n A) Ys (W - 1 - msb Ys mod W) (CY2 LB)
                    ltac:(unfold Ys, set_sign, n in *; cbn [p]; lia)
                    ltac:(lia) ltac:(lia)) as (Yn & E2 & U1 & U2 & U3 & U4).
        rewrite E1. cbn [MPI_CHK bind]. rewrite E2. cbn [MPI_CHK bind].
        exists (W - 1 - msb Ys mod W)%nat, Xn, Yn.
        pose proof (shift_l_top Ys Yn _ (CY2 LB) TY0 E2) as Ht.
        unfold Xs, Ys, set_sign, n in *. cbn [s p] in *.
        repeat split; auto; try lia.
      - exists 0%nat, Xs, Ys. rewrite pow2_0.
        unfold Xs, Ys, set_sign, n in *. cbn [s p] in *.
        repeat split; auto; try lia. }
    destruct Hnorm as (k' & Xn & Yn & -> & Hk' & LXn & MXn & SXn & NXn
                       & LYn & MYn & SYn & NYn & TYn).
    cbn [bind].
    clearbody Xs Ys. clear Xs Ys.
    clear CX1 CX2 CY1 CY2 HcA HcB NX0 NY0 TY0 NYX.
    set (nn := (n Xn - 1)%nat). set (t := (n Yn - 1)%nat).
    set (V := mg (p Yn)) in *. set (Aq := mg (p Xn)) in *.
    pose proof (pow2_pos k') as HP.
    pose proof (mag_bound ciL _ LXn) as HXb. fold (n Xn) in HXb. fold Aq in HXb.
    pose proof (mag_bound ciL _ LYn) as HYb. fold (n Yn) in HYb. fold V in HYb.
    assert (HV : Bp t <= V < Bp (S t)).
    { unfold t. replace (S (n Yn - 1)) with (n Yn) by lia. lia. }
    assert (HA : Aq < Bp (S nn)).
    { unfold nn. replace (S (n Xn - 1)) with (n Xn) by lia. lia. }
    assert (HVA : V <= Aq).
    { rewrite MXn, MYn. apply Z.mul_le_mono_nonneg_r; [lia|exact Hle]. }
    assert (Htn : (t <= nn)%nat).
    { assert (t < S nn)%nat by (apply (Bpow_lt_inv ciL ciL_pos); lia). lia. }
    assert (HnL : (nn + 2 <= L)%nat) by (unfold nn; lia).
    (* Y * B^(nn - t) and the first loop *)
    destruct (shift_limbs_fit ciL MAX_LIMBS e ciL_pos W_pow L (S t) Yn (nn - t)
                LYn ltac:(apply HV) ltac:(lia) ltac:(lia) ltac:(lia))
      as (Y' & EY' & P1 & P2 & P3 & P4).
    rewrite EY'. cbn [MPI_CHK bind].
    assert (WXn : wf ciL Xn) by (split; [left; exact SXn|exact LXn]).
    assert (VXn : val Xn = Aq) by (unfold value; rewrite SXn; unfold Aq; ring).
    pose proof (base_pow ciL t) as HPt. pose proof (base_pow ciL (nn - t)) as HPk.
    assert (WY' : wf ciL Y') by (split; [left; rewrite P3; exact SYn|exact P1]).
    assert (Hfuel : val Xn < Z.of_nat fuel * (V * Bp (nn - t))).
    { rewrite VXn.
      assert (EP : Bp (S nn) = B * Bp t * Bp (nn - t)).
      { rewrite Bpow_S. replace nn with (t + (nn - t))%nat at 1 by lia.
        rewrite Bpow_add. ring. }
      assert (H1 : Bp t * Bp (nn - t) <= V * Bp (nn - t))
        by (apply Z.mul_le_mono_nonneg_r; lia).
      assert (H2 : B * (Bp t * Bp (nn - t)) <= Z.of_nat fuel * (V * Bp (nn - t))).
      { apply Z.mul_le_mono_nonneg; lia. }
      lia. }
    destruct (div_first_spec L nn t (n A + 2) Y' V Aq fuel Xn Zq WY'
                ltac:(rewrite P3; exact SYn) P2 ltac:(lia) HV Htn HA HnL
                ltac:(lia) ltac:(lia) WXn ltac:(lia) ltac:(lia) LZ NZ
                ltac:(intros; apply ZZ) ltac:(rewrite VXn, MZ; ring) Hfuel)
      as (X1 & Z1 & E1 & WX1 & X1p & NX1 & LZ1 & NZ1 & ZZ1 & ID1).
    rewrite E1. cbn [bind].
    (* back to Y and the digit loop *)
    destruct (shift_r_spec ciL MAX_LIMBS e ciL_pos W_pow Y' (W * (nn - t)) P1
                ltac:(lia)) as (Y2 & EY2 & R1 & R2 & _ & R4 & R5).
    rewrite EY2. cbn [MPI_CHK bind].
    assert (MY2 : mg (p Y2) = V).
    { rewrite R2, P2. replace (pow2 (W * (nn - t))) with (Bp (nn - t)).
      - apply Z.div_mul. lia.
      - rewrite Bpow_pow2. f_equal. lia. }
    assert (SY2 : s Y2 = 1) by (rewrite P3, SYn in R4; lia).
    destruct (for_down_res_inv (div_inv ciL L t (n A + 2) V Aq)
                (div_step ciL MAX_LIMBS fuel Y2 t) (nn - t) t (X1, Z1, T1, T2))
      as (st & Est & Hst).
    { unfold div_inv. replace (t + (nn - t))%nat with nn by lia.
      repeat split; auto; try apply WX1; unfold T1, T2, n; cbn; lia. }
    { intros i st0 Hi Hinv. rewrite <- MY2 in Hinv |- *.
      apply (div_step_spec ciL MAX_LIMBS e ciL_pos W_pow L nn t (n A + 2) Y2 Aq fuel i st0);
        auto; lia. }
    rewrite Est. cbn [bind].
    destruct st as [[[X2 Z2] T1'] T2'].
    destruct Hst as (WX2 & X2p & NX2 & LZ2 & NZ2 & _ & ID2 & _ & _).
    (* the outputs *)
    assert (HQ : exists Q1,
      (if qnull then Ok Q
       else Q1 <- MPI_CHK (sgx_mpi_copy MAX_LIMBS Q Z2 false) ;;
            Ok (set_sign (s A * s Bm) Q1)) = Ok Q1 /\
      (qnull = false -> wf ciL Q1 /\ val Q1 = s A * s Bm * mg (p Z2) /\
                        (n Q1 <= L)%nat)).
    { destruct qnull.
      - exists Q. split; [reflexivity|discriminate].
      - destruct (copy_fit ciL MAX_LIMBS ciL_pos L Q Z2 LZ2 NQ ltac:(lia) ltac:(lia))
          as (Q1 & E & C1 & C2 & C3 & _).
        rewrite E. cbn [MPI_CHK bind]. eexists. split; [reflexivity|]. intros _.
        unfold wf, value, set_sign. cbn [s p]. rewrite C2.
        repeat split; auto.
        destruct WA as [[->| ->] _]; destruct WB as [[->| ->] _]; lia. }
    destruct HQ as (Q1 & -> & HQ1). cbn [bind].
    destruct (shift_r_spec ciL MAX_LIMBS e ciL_pos W_pow X2 k' (proj2 WX2)
                ltac:(lia)) as (Xr & EXr & G1 & G2 & _ & _ & G5).
    rewrite EXr. cbn [MPI_CHK bind].
    assert (NXr : (n (set_sign (s A) Xr) <= L)%nat).
    { unfold set_sign, n in *. cbn [p]. lia. }
    destruct (copy_fit ciL MAX_LIMBS ciL_pos L R (set_sign (s A) Xr) G1 NR NXr
                ltac:(lia)) as (R1' & ER & D1 & D2 & D3 & D4 & D5).
    rewrite ER. cbn [MPI_CHK bind].
    assert (Hrem : mg (p Xr) = mg (p A) - mg (p Z2) * mg (p Bm)).
    { rewrite G2, (mag_of_nonneg ciL ciL_pos X2 WX2 X2p).
      replace (val X2) with ((mg (p A) - mg (p Z2) * mg (p Bm)) * pow2 k').
      - apply Z.div_mul. lia.
      - subst Aq V. rewrite MXn, MYn in ID2. lia. }
    assert (WR1 : wf ciL R1' /\ val R1' = s A * mg (p Xr)).
    { cbn [set_sign s p] in *. destruct (p Xr) as [|x l] eqn:EXp.
      - rewrite (D5 eq_refl). split; [split; [left; reflexivity|constructor]|].
        unfold value. cbn [sgx_mpi_init s p mag]. ring.
      - destruct (D4 ltac:(discriminate)) as (D6 & _).
        split; [split; [rewrite D6; apply WA|exact D1]|].
        unfold value. rewrite D6, D2. reflexivity. }
    destruct WR1 as [WR1 VR1].
    eexists. eexists. exists (s A * s Bm * mg (p Z2)).
    split; [reflexivity|].
    assert (Hfin : forall Rf, wf ciL Rf -> val Rf = val R1' -> (n Rf <= L)%nat ->
      wf ciL Rf /\ (n Rf <= L)%nat /\
      val A = s A * s Bm * mg (p Z2) * val Bm + val Rf /\
      Z.abs (val Rf) <= Z.abs (val A) /\ 0 <= val A * val Rf /\
      (qnull = false -> wf ciL Q1 /\ val Q1 = s A * s Bm * mg (p Z2) /\
                        (n Q1 <= L)%nat)).
    { intros Rf W2 V2 N2'. split; [exact W2|]. split; [exact N2'|].
      pose proof (mag_bound ciL _ G1) as HXr. pose proof (mag_bound ciL _ LZ2) as HZ2.
      assert (HZB : 0 <= mg (p Z2) * mg (p Bm)) by (apply Z.mul_nonneg_nonneg; lia).
      assert (HrA : 0 <= mg (p Xr) <= mg (p A)) by lia.
      rewrite V2, VR1. unfold value at 1 3 4.
      split; [|split; [|split; [|exact HQ1]]].
      - rewrite Hrem. unfold value.
        set (a := s A) in *. set (b := s Bm) in *.
        set (MA := mg (p A)) in *. set (MB := mg (p Bm)) in *.
        set (MZ2 := mg (p Z2)) in *.
        replace (a * b * MZ2 * (b * MB)) with (a * MZ2 * MB * (b * b)) by ring.
        rewrite SB. ring.
      - clear - WA HrA. destruct WA as [[->| ->] _]; lia.
      - replace (s A * mg (p A) * (s A * mg (p Xr)))
          with (s A * s A * (mg (p A) * mg (p Xr))) by ring.
        rewrite SA. assert (0 <= mg (p A) * mg (p Xr)) by (apply Z.mul_nonneg_nonneg; lia).
        lia. }
    destruct (sgx_mpi_cmp_int ciL R1' 0 =? 0) eqn:Ec.
    + apply Hfin.
      * split; [left; reflexivity|apply WR1].
      * apply Z.eqb_eq in Ec. rewrite (cmp_int_0 ciL R1' WR1) in Ec.
        destruct (Z.sgn_null_iff (val R1')) as [H1 _]. apply H1 in Ec.
        pose proof (mag_abs ciL ciL_pos R1' WR1) as Hm. rewrite Ec in Hm.
        unfold value at 1. unfold set_sign. cbn [s p]. rewrite Hm, Ec. reflexivity.
      * exact D3.
    + apply Hfin; auto.
Qed.

End DivMpi.

(** ** Modular reduction *)

Lemma sgn_neg_inv (x : Z) : Z.sgn x < 0 -> x < 0.
Proof. destruct x; cbn; lia. Qed.

Section ModMpi.

Variables ciL MAX_LIMBS e : nat.
Hypothesis ciL_pos : (0 < ciL)%nat.
Hypothesis W_pow : biL ciL = (2 ^ e)%nat.

Local Abbreviation B := (base ciL).
Local Abbreviation Bp := (Bpow ciL).
Local Abbreviation mg := (mag ciL).
Local Abbreviation lok := (limbs_ok ciL).
Local Abbreviation val := (value ciL).

(** Operands of opposite signs are added by a subtraction of magnitudes,
    which needs no room beyond the operands'. *)
Lemma add_mpi_opp_fit (L : nat) (X A Bm : mpi) (xa xb : bool) :
  wf ciL A -> wf ciL Bm -> (xa = true -> X = A) -> (xb = true -> X = Bm) ->
  xa && xb = false ->
  (n X <= L)%nat -> (n A <= L)%nat -> (n Bm <= L)%nat -> (L <= MAX_LIMBS)%nat ->
  s A * s Bm < 0 ->
  exists X', sgx_mpi_add_mpi ciL MAX_LIMBS X A Bm xa xb = (X', None) /\
             (n X' <= L)%nat /\ wf ciL X' /\ val X' = val A + val Bm.
Proof.
  clear e W_pow.
  intros WA WB Hxa Hxb Hab NX NA NB HL Hs.
  assert (Hinv := add_mpi_inv ciL MAX_LIMBS ciL_pos X A Bm).
  cut (exists X', sgx_mpi_add_mpi ciL MAX_LIMBS X A Bm xa xb = (X', None)
                  /\ (n X' <= L)%nat).
  { intros (X' & E & N'). exists X'. split; auto. split; auto.
    apply (Hinv X' xa xb); auto. }
  clear Hinv. destruct WA as [SA LA]. destruct WB as [SB LB].
  unfold sgx_mpi_add_mpi. rewrite (cmp_abs_spec ciL) by assumption.
  destruct (Z.ltb_spec (s A * s Bm) 0) as [_|F]; [|lia].
  destruct (Z.geb_spec (Z.sgn (mg (p A) - mg (p Bm))) 0) as [Hc|Hc].
  - assert (mg (p Bm) <= mg (p A)).
    { pose proof (Z.sgn_nonneg (mg (p A) - mg (p Bm))). lia. }
    destruct (sub_abs_fit ciL MAX_LIMBS ciL_pos L X A Bm xa xb)
      as (X1 & E & N1 & _); auto.
    rewrite E. cbn [and_then]. eexists. split; [reflexivity|exact N1].
  - assert (mg (p A) <= mg (p Bm)).
    { pose proof (Z.sgn_nonneg (mg (p A) - mg (p Bm))). lia. }
    destruct (sub_abs_fit ciL MAX_LIMBS ciL_pos L X Bm A xb xa)
      as (X1 & E & N1 & _); auto.
    rewrite E. cbn [and_then]. eexists. split; [reflexivity|exact N1].
Qed.

Lemma sub_mpi_same_fit (L : nat) (X A Bm : mpi) (xa xb : bool) :
  wf ciL A -> wf ciL Bm -> (xa = true -> X = A) -> (xb = true -> X = Bm) ->
  xa && xb = false ->
  (n X <= L)%nat -> (n A <= L)%nat -> (n Bm <= L)%nat -> (L <= MAX_LIMBS)%nat ->
  0 < s A * s Bm ->
  exists X', sgx_mpi_sub_mpi ciL MAX_LIMBS X A Bm xa xb = (X', None) /\
             (n X' <= L)%nat /\ wf ciL X' /\ val X' = val A - val Bm.
Proof.
  clear e W_pow.
  intros WA WB Hxa Hxb Hab NX NA NB HL Hs.
  assert (Hinv := sub_mpi_inv ciL MAX_LIMBS ciL_pos X A Bm).
  cut (exists X', sgx_mpi_sub_mpi ciL MAX_LIMBS X A Bm xa xb = (X', None)
                  /\ (n X' <= L)%nat).
  { intros (X' & E & N'). exists X'. split; auto. split; auto.
    apply (Hinv X' xa xb); auto. }
  clear Hinv. destruct WA as [SA LA]. destruct WB as [SB LB].
  unfold sgx_mpi_sub_mpi. rewrite (cmp_abs_spec ciL) by assumption.
  destruct (Z.gtb_spec (s A * s Bm) 0) as [_|F]; [|lia].
  destruct (Z.geb_spec (Z.sgn (mg (p A) - mg (p Bm))) 0) as [Hc|Hc].
  - assert (mg (p Bm) <= mg (p A)).
    { pose proof (Z.sgn_nonneg (mg (p A) - mg (p Bm))). lia. }
    destruct (sub_abs_fit ciL MAX_LIMBS ciL_pos L X A Bm xa xb)
      as (X1 & E & N1 & _); auto.
    rewrite E. cbn [and_then]. eexists. split; [reflexivity|exact N1].
  - assert (mg (p A) <= mg (p Bm)).
    { pose proof (Z.sgn_nonneg (mg (p A) - mg (p Bm))). lia. }
    destruct (sub_abs_fit ciL MAX_LIMBS ciL_pos L X Bm A xb xa)
      as (X1 & E & N1 & _); auto.
    rewrite E. cbn [and_then]. eexists. split; [reflexivity|exact N1].
Qed.

(** The sign of a non-zero value is the stored sign. *)
Lemma sign_of_value (X : mpi) :
  wf ciL X -> (val X < 0 -> s X = -1) /\ (0 < val X -> s X = 1).
Proof.
  clear e W_pow.
  intros [[S1|S1] HX]; unfold value; rewrite S1;
    pose proof (mag_bound ciL _ HX); split; intros; lia.
Qed.

Lemma mod_add_back_eq (fuel : nat) (Bm R : mpi) :
  mod_add_back ciL MAX_LIMBS fuel Bm R =
  if sgx_mpi_cmp_int ciL R 0 <? 0 then
    match fuel with
    | O => OutOfFuel
    | S f => R1 <- MPI_CHK (sgx_mpi_add_mpi ciL MAX_LIMBS R R Bm true false) ;;
             mod_add_back ciL MAX_LIMBS f Bm R1
    end
  else Ok R.
Proof. destruct fuel; reflexivity. Qed.

Lemma mod_sub_down_eq (fuel : nat) (Bm R : mpi) :
  mod_sub_down ciL MAX_LIMBS fuel Bm R =
  if sgx_mpi_cmp_mpi R Bm >=? 0 then
    match fuel with
    | O => OutOfFuel
    | S f => R1 <- MPI_CHK (sgx_mpi_sub_mpi ciL MAX_LIMBS R R Bm true false) ;;
             mod_sub_down ciL MAX_LIMBS f Bm R1
    end
  else Ok R.
Proof. destruct fuel; reflexivity. Qed.

(** [while( R < 0 ) R += B] ends on the first non-negative [R + j * B]. *)
Lemma mod_add_back_spec (L : nat) (Bm : mpi) (fuel : nat) :
  forall R : mpi,
    wf ciL Bm -> 0 < val Bm -> (n Bm <= L)%nat -> (L <= MAX_LIMBS)%nat ->
    wf ciL R -> (n R <= L)%nat -> - val R < Z.of_nat fuel ->
    exists R' j,
      mod_add_back ciL MAX_LIMBS fuel Bm R = Ok R' /\
      wf ciL R' /\ (n R' <= L)%nat /\ 0 <= j /\ val R' = val R + j * val Bm /\
      0 <= val R' /\ (val R' <= val R \/ val R' < val Bm).
Proof.
  clear e W_pow.
  induction fuel as [|f IH]; intros R WB HB NB HL WR NR Hf;
    rewrite mod_add_back_eq, (cmp_int_0 ciL R WR).
  - destruct (Z.ltb_spec (Z.sgn (val R)) 0) as [Hneg|Hpos].
    + apply sgn_neg_inv in Hneg. lia.
    + pose proof (Z.sgn_nonneg (val R)).
      exists R, 0. repeat split; auto; try apply WR; lia.
  - destruct (Z.ltb_spec (Z.sgn (val R)) 0) as [Hneg|Hpos].
    + apply sgn_neg_inv in Hneg.
      destruct (sign_of_value R WR) as [SR _]. specialize (SR Hneg).
      destruct (sign_of_value Bm WB) as [_ SB]. specialize (SB HB).
      destruct (add_mpi_opp_fit L R R Bm true false WR WB ltac:(auto)
                  ltac:(discriminate) eq_refl NR NR NB HL ltac:(rewrite SR, SB; lia))
        as (R1 & E & N1 & W1 & V1).
      rewrite E. cbn [MPI_CHK bind].
      destruct (IH R1 WB HB NB HL W1 N1 ltac:(lia))
        as (R' & j & E' & W' & N' & Hj & V' & P' & Q').
      exists R', (j + 1). rewrite E'. repeat split; auto; try apply W'; try lia.
    + pose proof (Z.sgn_nonneg (val R)).
      exists R, 0. repeat split; auto; try apply WR; lia.
Qed.

(** [while( R >= B ) R -= B] ends below [B]. *)
Lemma mod_sub_down_spec (L : nat) (Bm : mpi) (fuel : nat) :
  forall R : mpi,
    wf ciL Bm -> 0 < val Bm -> (n Bm <= L)%nat -> (L <= MAX_LIMBS)%nat ->
    wf ciL R -> (n R <= L)%nat -> 0 <= val R -> val R < Z.of_nat fuel ->
    exists R' j,
      mod_sub_down ciL MAX_LIMBS fuel Bm R = Ok R' /\
      wf ciL R' /\ (n R' <= L)%nat /\ 0 <= j /\ val R' = val R - j * val Bm /\
      0 <= val R' < val Bm.
Proof.
  clear e W_pow.
  induction fuel as [|f IH]; intros R WB HB NB HL WR NR HR Hf; [lia|].
  rewrite mod_sub_down_eq, (cmp_mpi_spec ciL R Bm WR WB).
  destruct (Z.geb_spec (Z.sgn (val R - val Bm)) 0) as [Hge|Hlt].
  - assert (val Bm <= val R).
    { pose proof (Z.sgn_nonneg (val R - val Bm)). lia. }
    destruct (sign_of_value R WR) as [_ SR]. specialize (SR ltac:(lia)).
    destruct (sign_of_value Bm WB) as [_ SB]. specialize (SB HB).
    destruct (sub_mpi_same_fit L R R Bm true false WR WB ltac:(auto)
                ltac:(discriminate) eq_refl NR NR NB HL ltac:(rewrite SR, SB; lia))
      as (R1 & E & N1 & W1 & V1).
    rewrite E. cbn [MPI_CHK bind].
    destruct (IH R1 WB HB NB HL W1 N1 ltac:(lia) ltac:(lia))
      as (R' & j & E' & W' & N' & Hj & V' & P').
    exists R', (j + 1). rewrite E'. repeat split; auto; try apply W'; lia.
  - assert (val R < val Bm).
    { destruct (Z.lt_ge_cases (val R) (val Bm)); auto.
      pose proof (Z.sgn_nonneg (val R - val Bm)). lia. }
    exists R, 0. repeat split; auto; try apply WR; lia.
Qed.

(** [sgx_mpi_mod_mpi] returns the residue of [A] in [[0, B)]. *)
Lemma mod_mpi_total (L fuel : nat) (R A Bm : mpi) (ra : bool) :
  wf ciL A -> wf ciL Bm -> 0 < val Bm ->
  (n A + 2 <= L)%nat -> (n Bm <= L)%nat -> (n R <= L)%nat ->
  (3 <= L <= MAX_LIMBS)%nat -> (ra = true -> R = A) ->
  B + Z.abs (val A) + val Bm < Z.of_nat fuel ->
  exists R',
    sgx_mpi_mod_mpi ciL MAX_LIMBS fuel R A Bm ra = Ok R' /\
    wf ciL R' /\ (n R' <= L)%nat /\ val R' = val A mod val Bm.
Proof.
  intros WA WB HB NA NB NR HL Hra Hf.
  pose proof (base_pos ciL) as HB0.
  unfold sgx_mpi_mod_mpi. rewrite (cmp_int_0 ciL Bm WB).
  destruct (Z.ltb_spec (Z.sgn (val Bm)) 0) as [F|_].
  { apply sgn_neg_inv in F. lia. }
  destruct (div_mpi_total ciL MAX_LIMBS e ciL_pos W_pow L fuel sgx_mpi_init R A Bm
              true ra WA WB ltac:(lia) NA NB NR ltac:(cbn; lia) HL Hra ltac:(lia))
    as (Q' & R1 & q & E & W1 & N1 & V1 & A1 & _).
  rewrite E. cbn [bind].
  destruct (mod_add_back_spec L Bm fuel R1 WB HB NB ltac:(lia) W1 N1 ltac:(lia))
    as (R2 & j & E2 & W2 & N2 & Hj & V2 & P2 & Q2).
  rewrite E2. cbn [bind].
  destruct (mod_sub_down_spec L Bm fuel R2 WB HB NB ltac:(lia) W2 N2 P2 ltac:(lia))
    as (R3 & j' & E3 & W3 & N3 & Hj' & V3 & P3).
  rewrite E3. exists R3. repeat split; auto; try apply W3.
  apply (Z.mod_unique_pos _ _ (q - j + j')); [exact P3|]. rewrite V3, V2, V1. ring.
Qed.

End ModMpi.

(** * Further properties of the library *)

(** Closed instances of well-formedness are settled by computation. *)
Ltac concrete_wf :=
  split; [first [left; reflexivity | right; reflexivity]
         | repeat constructor; vm_compute; congruence].

(** ** Allocation and assignment *)

(** X1: [sgx_mpi_grow] refuses a request above [MAX_LIMBS] with
    [MALLOC_FAILED] and leaves [X] as it was; a request within the bound
    keeps the sign and every limb of [X], appends zero limbs up to the
    requested count, never shrinks, and so keeps the value. *)
Theorem grow_extends_with_zeros (ciL MAX_LIMBS : nat) (X : mpi) (k : nat) :
  ((MAX_LIMBS < k)%nat /\ sgx_mpi_grow MAX_LIMBS X k = (X, Some MALLOC_FAILED)) \/
  ((k <= MAX_LIMBS)%nat /\
   exists X', sgx_mpi_grow MAX_LIMBS X k = (X', None) /\
              s X' = s X /\ n X' = Nat.max (n X) k /\
              p X' = p X ++ repeat 0 (k - n X) /\
              value ciL X' = value ciL X).
Proof.
  destruct (Nat.le_gt_cases k MAX_LIMBS) as [Hle|Hgt].
  - right. split; [exact Hle|]. rewrite (grow_ok MAX_LIMBS X k Hle).
    eexists. split; [reflexivity|]. cbn [s p]. unfold n, value. cbn [s p].
    rewrite length_app, repeat_length, mag_app, mag_repeat0.
    repeat split; lia.
  - left. split; [exact Hgt|]. apply grow_fail. exact Hgt.
Qed.

(** X2: a successful [sgx_mpi_copy] into a distinct [X] gives [X] the value
    of [Y]: the significant limbs of [Y] (one at least) are copied, the rest
    of [X] is cleared and [X] is never shrunk; a [Y] without limbs resets
    [X]; copying an MPI onto itself changes nothing. *)
Theorem copy_takes_value (ciL MAX_LIMBS : nat) (X Y X' : mpi) :
  sgx_mpi_copy MAX_LIMBS X Y false = (X', None) ->
  value ciL X' = value ciL Y /\
  (limbs_ok ciL (p Y) -> limbs_ok ciL (p X')) /\
  (p Y <> [] ->
     s X' = s Y /\ n X' = Nat.max (n X) (copy_len Y) /\
     p X' = firstn (copy_len Y) (p Y) ++ repeat 0 (n X' - copy_len Y)) /\
  (p Y = [] -> X' = sgx_mpi_init) /\
  sgx_mpi_copy MAX_LIMBS Y Y true = (Y, None).
Proof.
  intros E. destruct (copy_inv ciL MAX_LIMBS X Y X' E) as (C1 & C2 & C3 & C4).
  split; [|split; [exact C2|split; [|split; [exact C4|apply copy_same]]]].
  - unfold value. rewrite C1. destruct (p Y) as [|y l] eqn:EY.
    + rewrite (C4 eq_refl). cbn [mag]. cbn. lia.
    + destruct (C3 ltac:(discriminate)) as (-> & _). reflexivity.
  - intros Hne. destruct (C3 Hne) as (D1 & D2 & D3).
    repeat split; auto. rewrite D2. exact D3.
Qed.

Lemma copy_takes_value_witness :
  value 4 (fst (sgx_mpi_copy 100 (mk_mpi 1 [1; 2; 3]) (mk_mpi (-1) [7; 0]) false))
  = -7.
Proof.
  apply (copy_takes_value 4 100 (mk_mpi 1 [1; 2; 3]) (mk_mpi (-1) [7; 0])).
  vm_compute. reflexivity.
Defined.

(** X3: a successful [sgx_mpi_lset( X, z )] with [2 |z|] below the limb base
    leaves a well-formed [X] of value [z] with the limb count it had (one at
    least). *)
Theorem lset_sets_value (ciL MAX_LIMBS : nat) (X X' : mpi) (z : Z) :
  sgx_mpi_lset ciL MAX_LIMBS X z = (X', None) -> - base ciL < 2 * z < base ciL ->
  value ciL X' = z /\ wf ciL X' /\ n X' = Nat.max 1 (n X) /\
  s X' = (if z <? 0 then -1 else 1).
Proof.
  intros E Hz. pose proof (base_pos ciL) as HB.
  destruct (lset_value ciL MAX_LIMBS X X' z E ltac:(lia)) as (V1 & V2 & V3).
  repeat split; auto; try apply V2.
  rewrite (lset_inv ciL MAX_LIMBS X X' z E). reflexivity.
Qed.

Lemma lset_sets_value_witness :
  value 4 (fst (sgx_mpi_lset 4 100 (mk_mpi 1 [9; 9]) (-5))) = -5.
Proof.
  apply (lset_sets_value 4 100 (mk_mpi 1 [9; 9])).
  - vm_compute. reflexivity.
  - vm_compute. split; reflexivity.
Defined.

(** ** Comparison *)

(** X4: on well-formed operands [sgx_mpi_cmp_mpi] returns the sign of
    [X - Y] as [-1], [0] or [1]; in particular a zero compares equal to a
    zero whatever their stored signs and limb counts. *)
Theorem cmp_mpi_is_sign_of_difference (ciL : nat) (X Y : mpi) :
  wf ciL X -> wf ciL Y ->
  sgx_mpi_cmp_mpi X Y = Z.sgn (value ciL X - value ciL Y) /\
  (sgx_mpi_cmp_mpi X Y = 0 <-> value ciL X = value ciL Y) /\
  (sgx_mpi_cmp_mpi X Y < 0 <-> value ciL X < value ciL Y).
Proof.
  intros HX HY. rewrite (cmp_mpi_spec ciL X Y HX HY).
  split; [reflexivity|]. split.
  - destruct (value ciL X - value ciL Y) eqn:E; cbn; lia.
  - destruct (value ciL X - value ciL Y) eqn:E; cbn; lia.
Qed.

Lemma cmp_mpi_is_sign_of_difference_witness :
  sgx_mpi_cmp_mpi (mk_mpi (-1) [0; 0]) (mk_mpi 1 []) = 0.
Proof.
  apply (cmp_mpi_is_sign_of_difference 4 (mk_mpi (-1) [0; 0]) (mk_mpi 1 []));
    [concrete_wf | concrete_wf | reflexivity].
Defined.

(** X5: [sgx_mpi_cmp_abs] returns the sign of [|X| - |Y|] and ignores the
    stored signs. *)
Theorem cmp_abs_is_sign_of_difference (ciL : nat) (X Y : mpi) :
  wf ciL X -> wf ciL Y ->
  sgx_mpi_cmp_abs X Y = Z.sgn (Z.abs (value ciL X) - Z.abs (value ciL Y)) /\
  sgx_mpi_cmp_abs (mk_mpi (- s X) (p X)) Y = sgx_mpi_cmp_abs X Y.
Proof.
  intros HX HY. split; [|reflexivity].
  rewrite (cmp_abs_spec ciL X Y (proj2 HX) (proj2 HY)).
  pose proof (mag_bound ciL _ (proj2 HX)). pose proof (mag_bound ciL _ (proj2 HY)).
  unfold value. destruct HX as [[->| ->] _]; destruct HY as [[->| ->] _];
    f_equal; lia.
Qed.

Lemma cmp_abs_is_sign_of_difference_witness :
  sgx_mpi_cmp_abs (mk_mpi (-1) [9]) (mk_mpi 1 [3; 0]) = 1.
Proof.
  apply (cmp_abs_is_sign_of_difference 4 (mk_mpi (-1) [9]) (mk_mpi 1 [3; 0]));
    concrete_wf.
Defined.

(** X6: [sgx_mpi_cmp_int( X, z )] returns the sign of [X - z]. *)
Theorem cmp_int_is_sign_of_difference (ciL : nat) (X : mpi) (z : Z) :
  wf ciL X -> - base ciL < 2 * z < base ciL ->
  sgx_mpi_cmp_int ciL X z = Z.sgn (value ciL X - z).
Proof.
  intros HX Hz. pose proof (base_pos ciL). apply cmp_int_spec; [exact HX|lia].
Qed.

Lemma cmp_int_is_sign_of_difference_witness :
  sgx_mpi_cmp_int 4 (mk_mpi (-1) [3; 0]) (-2) = -1.
Proof.
  apply (cmp_int_is_sign_of_difference 4 (mk_mpi (-1) [3; 0]) (-2));
    [concrete_wf | vm_compute; split; reflexivity].
Defined.

(** ** Bit length *)

(** X7: on an allocated MPI [sgx_mpi_msb] is the bit length of the
    magnitude: [|X| < 2 ^ msb], [2 ^ (msb - 1) <= |X|] unless [msb] is [0],
    which happens exactly for a zero magnitude; [sgx_mpi_size] is the length
    in bytes, [ceil( msb / 8 )]. *)
Theorem msb_is_bit_length (ciL : nat) (X : mpi) :
  limbs_ok ciL (p X) -> (0 < n X)%nat ->
  mag ciL (p X) < pow2 (sgx_mpi_msb ciL X) /\
  ((0 < sgx_mpi_msb ciL X)%nat -> pow2 (sgx_mpi_msb ciL X - 1) <= mag ciL (p X)) /\
  (sgx_mpi_msb ciL X = 0%nat <-> mag ciL (p X) = 0) /\
  (sgx_mpi_msb ciL X <= n X * biL ciL)%nat /\
  (sgx_mpi_msb ciL X <= 8 * sgx_mpi_size ciL X < sgx_mpi_msb ciL X + 8)%nat.
Proof.
  intros HX Hn. destruct (msb_spec ciL X HX) as (M1 & M2 & M3).
  pose proof (mag_bound ciL _ HX) as Hb.
  split; [exact M1|]. split; [exact M2|]. split; [|split; [exact M3|]].
  - split.
    + intros E. rewrite E, pow2_0 in M1. lia.
    + intros E. destruct (Nat.eq_dec (sgx_mpi_msb ciL X) 0) as [|Hne]; auto.
      specialize (M2 ltac:(lia)). pose proof (pow2_pos (sgx_mpi_msb ciL X - 1)). lia.
  - unfold sgx_mpi_size. rewrite Nat.shiftr_div_pow2. change (2 ^ 3)%nat with 8%nat.
    pose proof (Nat.div_mod_eq (sgx_mpi_msb ciL X + 7) 8).
    pose proof (Nat.mod_upper_bound (sgx_mpi_msb ciL X + 7) 8 ltac:(lia)). lia.
Qed.

Lemma msb_is_bit_length_witness : mag 4 [5; 1] < pow2 33.
Proof.
  apply (msb_is_bit_length 4 (mk_mpi 1 [5; 1])).
  - repeat constructor; vm_compute; congruence.
  - vm_compute. lia.
Defined.

(** ** Shifts *)



(** X9: [sgx_mpi_shift_r( X, count )] divides the magnitude by [2 ^ count],
    dropping the bits shifted out, so the value is rounded toward zero; it
    allocates only when every limb is shifted out, where [X] is set to [+0],
    and it never adds limbs to an allocated [X]. *)
Theorem shift_r_divides (ciL MAX_LIMBS e : nat) (X : mpi) (count : nat) :
  (0 < ciL)%nat -> biL ciL = (2 ^ e)%nat -> wf ciL X -> (1 <= MAX_LIMBS)%nat ->
  exists X', sgx_mpi_shift_r ciL MAX_LIMBS X count = (X', None) /\
    wf ciL X' /\ value ciL X' = Z.quot (value ciL X) (2 ^ Z.of_nat count) /\
    (n X' <= Nat.max 1 (n X))%nat.
Proof.
  intros Hc Hw [SX LX] HM.
  destruct (shift_r_spec ciL MAX_LIMBS e Hc Hw X count LX HM)
    as (X' & E & R1 & R2 & R3 & R4 & R5).
  exists X'. split; [exact E|].
  split; [split; [destruct R4 as [->| ->]; auto|exact R1]|].
  split; [|exact R5]. rewrite R3. unfold value.
  pose proof (mag_bound ciL _ LX) as Hb. pose proof (pow2_pos count) as Hp.
  fold (pow2 count).
  destruct SX as [->| ->].
  - rewrite !Z.mul_1_l. symmetry. apply Z.quot_div_nonneg; lia.
  - replace (-1 * mag ciL (p X)) with (- mag ciL (p X)) by ring.
    rewrite Z.quot_opp_l by lia. rewrite Z.quot_div_nonneg by lia. ring.
Qed.

Lemma shift_r_divides_witness :
  exists X', sgx_mpi_shift_r 1 100 (mk_mpi (-1) [7; 1]) 2 = (X', None) /\
    wf 1 X' /\ value 1 X' = Z.quot (value 1 (mk_mpi (-1) [7; 1])) (2 ^ Z.of_nat 2) /\
    (n X' <= Nat.max 1 2)%nat.
Proof.
  apply (shift_r_divides 1 100 3 (mk_mpi (-1) [7; 1]) 2);
    [lia | reflexivity | concrete_wf | lia].
Defined.



(** ** Addition and subtraction *)

Lemma grow_err (MAX_LIMBS : nat) (X : mpi) (k : nat) (er : mpi_err) :
  snd (sgx_mpi_grow MAX_LIMBS X k) = Some er -> er = MALLOC_FAILED.
Proof.
  unfold sgx_mpi_grow.
  repeat match goal with |- context [if ?c then _ else _] => destruct c end;
    cbn [snd]; congruence.
Qed.

Lemma copy_err (MAX_LIMBS : nat) (X Y : mpi) (same : bool) (er : mpi_err) :
  snd (sgx_mpi_copy MAX_LIMBS X Y same) = Some er -> er = MALLOC_FAILED.
Proof.
  unfold sgx_mpi_copy. destruct same; [cbn; congruence|].
  destruct (p Y); [cbn; congruence|].
  match goal with |- context [sgx_mpi_grow ?M ?a ?b] =>
    pose proof (grow_err M a b er) as G; destruct (sgx_mpi_grow M a b) as [X2 [e0|]] end;
    cbn [snd] in *; auto; congruence.
Qed.

Lemma and_then_err (r : mpi * status) (k : mpi -> mpi * status) (er : mpi_err) :
  snd (and_then r k) = Some er ->
  snd r = Some er \/ exists X1, r = (X1, None) /\ snd (k X1) = Some er.
Proof.
  destruct r as [X1 [e0|]]; cbn [and_then snd]; intros H; [left; exact H|].
  right. exists X1. auto.
Qed.

Lemma sub_abs_err (ciL MAX_LIMBS : nat) (X A Bm : mpi) (xa xb : bool) (er : mpi_err) :
  limbs_ok ciL (p A) -> limbs_ok ciL (p Bm) ->
  snd (sgx_mpi_sub_abs ciL MAX_LIMBS X A Bm xa xb) = Some er ->
  (er = NEGATIVE_VALUE /\ mag ciL (p A) < mag ciL (p Bm)) \/
  (er = MALLOC_FAILED /\ mag ciL (p Bm) <= mag ciL (p A)).
Proof.
  intros HA HB. unfold sgx_mpi_sub_abs.
  rewrite (cmp_abs_spec ciL) by assumption.
  destruct (Z.ltb_spec (Z.sgn (mag ciL (p A) - mag ciL (p Bm))) 0) as [Hs|Hs].
  - cbn [snd]. intros E. left. split; [congruence|].
    pose proof (Z.sgn_nonneg (mag ciL (p A) - mag ciL (p Bm))). lia.
  - assert (Hle : mag ciL (p Bm) <= mag ciL (p A)).
    { destruct (Z.le_gt_cases (mag ciL (p Bm)) (mag ciL (p A))); auto.
      rewrite (proj2 (Z.sgn_neg_iff _)) in Hs; lia. }
    intros E. right. split; [|exact Hle]. revert E.
    destruct xb.
    + pose proof (copy_err MAX_LIMBS sgx_mpi_init Bm false er) as G.
      destruct (sgx_mpi_copy MAX_LIMBS sgx_mpi_init Bm false) as [B1 [e0|]];
        cbn [snd] in *; auto.
      intros E. apply and_then_err in E. destruct E as [E|(X1 & _ & E)].
      * destruct xa; cbn [negb snd] in E; [discriminate|].
        eapply copy_err; eauto.
      * cbn in E. discriminate.
    + intros E. apply and_then_err in E. destruct E as [E|(X1 & _ & E)].
      * destruct xa; cbn [negb snd] in E; [discriminate|].
        eapply copy_err; eauto.
      * cbn in E. discriminate.
Qed.

Lemma add_abs_carry_err (ciL MAX_LIMBS : nat) (er : mpi_err) (k : nat) :
  forall (X : mpi) (i : nat) (c : Z),
    snd (add_abs_carry ciL MAX_LIMBS k X i c) = Some er -> er = MALLOC_FAILED.
Proof.
  induction k as [|k IH]; intros X i c; cbn [add_abs_carry];
    destruct (c =? 0); cbn [snd]; try congruence.
  intros E. apply and_then_err in E. destruct E as [E|(X1 & _ & E)].
  - destruct (n X <=? i)%nat; [eapply grow_err; eauto | cbn in E; discriminate].
  - eapply IH; eauto.
Qed.

Lemma add_abs_err (ciL MAX_LIMBS : nat) (X A Bm : mpi) (xa xb : bool) (er : mpi_err) :
  snd (sgx_mpi_add_abs ciL MAX_LIMBS X A Bm xa xb) = Some er -> er = MALLOC_FAILED.
Proof.
  unfold sgx_mpi_add_abs. intros E.
  apply and_then_err in E. destruct E as [E|(X1 & _ & E)].
  { destruct (negb _); [eapply copy_err; eauto | cbn in E; discriminate]. }
  apply and_then_err in E. destruct E as [E|(X3 & _ & E)].
  { eapply grow_err; eauto. }
  destruct (for_up _ _ _ _) as [l c]. eapply add_abs_carry_err; eauto.
Qed.

Lemma add_mpi_err (ciL MAX_LIMBS : nat) (X A Bm : mpi) (xa xb : bool) (er : mpi_err) :
  limbs_ok ciL (p A) -> limbs_ok ciL (p Bm) ->
  snd (sgx_mpi_add_mpi ciL MAX_LIMBS X A Bm xa xb) = Some er -> er = MALLOC_FAILED.
Proof.
  intros LA LB. unfold sgx_mpi_add_mpi.
  rewrite (cmp_abs_spec ciL) by assumption.
  destruct (s A * s Bm <? 0).
  - destruct (Z.geb_spec (Z.sgn (mag ciL (p A) - mag ciL (p Bm))) 0) as [Hc|Hc];
      intros E; apply and_then_err in E; destruct E as [E|(X1 & _ & E)];
      try (cbn in E; discriminate);
      apply sub_abs_err in E; auto; destruct E as [[_ E]|[E _]]; auto.
    + pose proof (Z.sgn_neg_iff (mag ciL (p A) - mag ciL (p Bm))) as [_ F]. lia.
    + pose proof (Z.sgn_nonneg (mag ciL (p A) - mag ciL (p Bm))). lia.
  - intros E; apply and_then_err in E; destruct E as [E|(X1 & _ & E)];
      [eapply add_abs_err; eauto | cbn in E; discriminate].
Qed.

Lemma sub_mpi_err (ciL MAX_LIMBS : nat) (X A Bm : mpi) (xa xb : bool) (er : mpi_err) :
  limbs_ok ciL (p A) -> limbs_ok ciL (p Bm) ->
  snd (sgx_mpi_sub_mpi ciL MAX_LIMBS X A Bm xa xb) = Some er -> er = MALLOC_FAILED.
Proof.
  intros LA LB. unfold sgx_mpi_sub_mpi.
  rewrite (cmp_abs_spec ciL) by assumption.
  destruct (s A * s Bm >? 0).
  - destruct (Z.geb_spec (Z.sgn (mag ciL (p A) - mag ciL (p Bm))) 0) as [Hc|Hc];
      intros E; apply and_then_err in E; destruct E as [E|(X1 & _ & E)];
      try (cbn in E; discriminate);
      apply sub_abs_err in E; auto; destruct E as [[_ E]|[E _]]; auto.
    + pose proof (Z.sgn_neg_iff (mag ciL (p A) - mag ciL (p Bm))) as [_ F]. lia.
    + pose proof (Z.sgn_nonneg (mag ciL (p A) - mag ciL (p Bm))). lia.
  - intros E; apply and_then_err in E; destruct E as [E|(X1 & _ & E)];
      [eapply add_abs_err; eauto | cbn in E; discriminate].
Qed.

(** X11: [sgx_mpi_sub_abs] computes [X = |A| - |B|].  It returns
    [NEGATIVE_VALUE] exactly when [|A| < |B|]; any other failure is an
    allocation failure; and on success [X] is well formed, non-negative in
    sign, worth [|A| - |B|], and no longer than the longer of the old [X]
    and [A].  [X] may be [A] or [B] or both. *)
Theorem sub_abs_is_difference_of_magnitudes
    (ciL MAX_LIMBS : nat) (X A Bm : mpi) (xa xb : bool) :
  (0 < ciL)%nat -> wf ciL A -> wf ciL Bm ->
  (xa = true -> X = A) -> (xb = true -> X = Bm) ->
  let r := sgx_mpi_sub_abs ciL MAX_LIMBS X A Bm xa xb in
  (snd r = Some NEGATIVE_VALUE <-> Z.abs (value ciL A) < Z.abs (value ciL Bm)) /\
  (forall er, snd r = Some er -> er = NEGATIVE_VALUE \/ er = MALLOC_FAILED) /\
  (snd r = None ->
     wf ciL (fst r) /\ s (fst r) = 1 /\
     value ciL (fst r) = Z.abs (value ciL A) - Z.abs (value ciL Bm) /\
     (n (fst r) <= Nat.max (n X) (n A))%nat).
Proof.
  intros Hc HA HB Hxa Hxb r.
  rewrite <- (mag_abs ciL Hc A HA), <- (mag_abs ciL Hc Bm HB).
  destruct HA as [SA LA], HB as [SB LB].
  split; [split|split].
  - intros E. apply (sub_abs_err ciL MAX_LIMBS) in E; auto.
    destruct E as [[_ E]|[E _]]; [exact E|discriminate].
  - intros Hlt. subst r. unfold sgx_mpi_sub_abs.
    rewrite (cmp_abs_spec ciL) by assumption.
    destruct (Z.ltb_spec (Z.sgn (mag ciL (p A) - mag ciL (p Bm))) 0) as [Hs|Hs];
      [reflexivity|].
    rewrite (proj2 (Z.sgn_neg_iff _)) in Hs; lia.
  - intros er E. apply (sub_abs_err ciL MAX_LIMBS) in E; auto.
    destruct E as [[E _]|[E _]]; auto.
  - intros E. destruct r as [X' st] eqn:Er. cbn [snd fst] in *. subst st.
    destruct (sub_abs_inv ciL MAX_LIMBS Hc X A Bm X' xa xb LA LB Hxa Hxb Er)
      as (I0 & I1 & I2 & I3 & I4).
    split; [split; auto|]. split; [exact I3|]. split; [|exact I4].
    unfold value. rewrite I3, I2. ring.
Qed.

Lemma sub_abs_is_difference_of_magnitudes_witness :
  let A := mk_mpi (-1) [5; 2] in
  let Bm := mk_mpi 1 [7; 1] in
  let r := sgx_mpi_sub_abs 1 100 A A Bm true false in
  (snd r = Some NEGATIVE_VALUE <-> Z.abs (value 1 A) < Z.abs (value 1 Bm)) /\
  (forall er, snd r = Some er -> er = NEGATIVE_VALUE \/ er = MALLOC_FAILED) /\
  (snd r = None ->
     wf 1 (fst r) /\ s (fst r) = 1 /\
     value 1 (fst r) = Z.abs (value 1 A) - Z.abs (value 1 Bm) /\
     (n (fst r) <= Nat.max (n A) (n A))%nat).
Proof.
  intros A Bm.
  apply (sub_abs_is_difference_of_magnitudes 1 100 A A Bm true false);
    [lia | concrete_wf | concrete_wf | reflexivity | discriminate].
Defined.

(** X12: [sgx_mpi_add_abs] computes [X = |A| + |B|]: it can fail only on
    allocation, and on success [X] is well formed, non-negative in sign and
    worth [|A| + |B|].  [X] may be [A] or [B], but not both. *)
Theorem add_abs_is_sum_of_magnitudes
    (ciL MAX_LIMBS : nat) (X A Bm : mpi) (xa xb : bool) :
  (0 < ciL)%nat -> wf ciL A -> wf ciL Bm ->
  (xa = true -> X = A) -> (xb = true -> X = Bm) -> xa && xb = false ->
  let r := sgx_mpi_add_abs ciL MAX_LIMBS X A Bm xa xb in
  (forall er, snd r = Some er -> er = MALLOC_FAILED) /\
  (snd r = None ->
     wf ciL (fst r) /\ s (fst r) = 1 /\
     value ciL (fst r) = Z.abs (value ciL A) + Z.abs (value ciL Bm)).
Proof.
  intros Hc HA HB Hxa Hxb Hab r.
  rewrite <- (mag_abs ciL Hc A HA), <- (mag_abs ciL Hc Bm HB).
  destruct HA as [SA LA], HB as [SB LB]. split.
  - intros er E. exact (add_abs_err ciL MAX_LIMBS X A Bm xa xb er E).
  - intros E. destruct r as [X' st] eqn:Er. cbn [snd fst] in *. subst st.
    destruct (add_abs_inv ciL MAX_LIMBS Hc X A Bm X' xa xb LA LB Hxa Hxb Hab Er)
      as (I1 & I2 & I3).
    split; [split; auto|]. split; [exact I3|].
    unfold value. rewrite I3, I2. ring.
Qed.

Lemma add_abs_is_sum_of_magnitudes_witness :
  let A := mk_mpi (-1) [255; 255] in
  let Bm := mk_mpi 1 [7; 1] in
  let r := sgx_mpi_add_abs 1 100 Bm A Bm false true in
  (forall er, snd r = Some er -> er = MALLOC_FAILED) /\
  (snd r = None ->
     wf 1 (fst r) /\ s (fst r) = 1 /\
     value 1 (fst r) = Z.abs (value 1 A) + Z.abs (value 1 Bm)).
Proof.
  intros A Bm.
  apply (add_abs_is_sum_of_magnitudes 1 100 Bm A Bm false true);
    [lia | concrete_wf | concrete_wf | discriminate | reflexivity | reflexivity].
Defined.

(** X13: [sgx_mpi_add_mpi] computes the signed sum [X = A + B]: it can fail
    only on allocation (never with [NEGATIVE_VALUE], although it calls
    [sgx_mpi_sub_abs]), and on success [X] is well formed and worth
    [A + B].  [X] may be [A] or [B], but not both. *)
Theorem add_mpi_is_sum
    (ciL MAX_LIMBS : nat) (X A Bm : mpi) (xa xb : bool) :
  (0 < ciL)%nat -> wf ciL A -> wf ciL Bm ->
  (xa = true -> X = A) -> (xb = true -> X = Bm) -> xa && xb = false ->
  let r := sgx_mpi_add_mpi ciL MAX_LIMBS X A Bm xa xb in
  (forall er, snd r = Some er -> er = MALLOC_FAILED) /\
  (snd r = None ->
     wf ciL (fst r) /\ value ciL (fst r) = value ciL A + value ciL Bm).
Proof.
  intros Hc HA HB Hxa Hxb Hab r. split.
  - intros er E. destruct HA as [_ LA], HB as [_ LB].
    exact (add_mpi_err ciL MAX_LIMBS X A Bm xa xb er LA LB E).
  - intros E. destruct r as [X' st] eqn:Er. cbn [snd fst] in *. subst st.
    exact (add_mpi_inv ciL MAX_LIMBS Hc X A Bm X' xa xb HA HB Hxa Hxb Hab Er).
Qed.

Lemma add_mpi_is_sum_witness :
  let A := mk_mpi (-1) [255; 255] in
  let Bm := mk_mpi 1 [7; 1] in
  let r := sgx_mpi_add_mpi 1 100 A A Bm true false in
  (forall er, snd r = Some er -> er = MALLOC_FAILED) /\
  (snd r = None ->
     wf 1 (fst r) /\ value 1 (fst r) = value 1 A + value 1 Bm).
Proof.
  intros A Bm.
  apply (add_mpi_is_sum 1 100 A A Bm true false);
    [lia | concrete_wf | concrete_wf | reflexivity | discriminate | reflexivity].
Defined.

(** X14: [sgx_mpi_sub_mpi] computes the signed difference [X = A - B]: it
    can fail only on allocation, and on success [X] is well formed and
    worth [A - B].  [X] may be [A] or [B], but not both. *)
Theorem sub_mpi_is_difference
    (ciL MAX_LIMBS : nat) (X A Bm : mpi) (xa xb : bool) :
  (0 < ciL)%nat -> wf ciL A -> wf ciL Bm ->
  (xa = true -> X = A) -> (xb = true -> X = Bm) -> xa && xb = false ->
  let r := sgx_mpi_sub_mpi ciL MAX_LIMBS X A Bm xa xb in
  (forall er, snd r = Some er -> er = MALLOC_FAILED) /\
  (snd r = None ->
     wf ciL (fst r) /\ value ciL (fst r) = value ciL A - value ciL Bm).
Proof.
  intros Hc HA HB Hxa Hxb Hab r. split.
  - intros er E. destruct HA as [_ LA], HB as [_ LB].
    exact (sub_mpi_err ciL MAX_LIMBS X A Bm xa xb er LA LB E).
  - intros E. destruct r as [X' st] eqn:Er. cbn [snd fst] in *. subst st.
    exact (sub_mpi_inv ciL MAX_LIMBS Hc X A Bm X' xa xb HA HB Hxa Hxb Hab Er).
Qed.

Lemma sub_mpi_is_difference_witness :
  let A := mk_mpi (-1) [255; 255] in
  let Bm := mk_mpi 1 [7; 1] in
  let r := sgx_mpi_sub_mpi 1 100 Bm A Bm false true in
  (forall er, snd r = Some er -> er = MALLOC_FAILED) /\
  (snd r = None ->
     wf 1 (fst r) /\ value 1 (fst r) = value 1 A - value 1 Bm).
Proof.
  intros A Bm.
  apply (sub_mpi_is_difference 1 100 Bm A Bm false true);
    [lia | concrete_wf | concrete_wf | discriminate | reflexivity | reflexivity].
Defined.

(** X15: [sgx_mpi_add_int] and [sgx_mpi_sub_int] add and subtract a signed
    machine integer [b] (any value of the signed limb type but its
    minimum): they can fail only on allocation, and on success [X] is well
    formed and worth [A + b], respectively [A - b].  [X] may be [A]. *)
Theorem add_int_sub_int_value
    (ciL MAX_LIMBS : nat) (X A : mpi) (b : Z) (xa : bool) :
  (0 < ciL)%nat -> wf ciL A -> (xa = true -> X = A) ->
  - base ciL < 2 * b < base ciL ->
  let r := sgx_mpi_add_int ciL MAX_LIMBS X A b xa in
  let r' := sgx_mpi_sub_int ciL MAX_LIMBS X A b xa in
  (forall er, snd r = Some er \/ snd r' = Some er -> er = MALLOC_FAILED) /\
  (snd r = None -> wf ciL (fst r) /\ value ciL (fst r) = value ciL A + b) /\
  (snd r' = None -> wf ciL (fst r') /\ value ciL (fst r') = value ciL A - b).
Proof.
  intros Hc HA Hxa Hb r r'.
  pose proof (base_pos ciL) as HB.
  pose proof (int_view_wf ciL b) as HV.
  pose proof (int_view_value ciL b ltac:(lia)) as EV.
  assert (Hxb : false = true -> X = int_view ciL b) by discriminate.
  assert (Hab : xa && false = false) by (destruct xa; reflexivity).
  split; [|split].
  - intros er [E|E]; destruct HA as [_ LA], HV as [_ LV].
    + exact (add_mpi_err ciL MAX_LIMBS X A _ xa false er LA LV E).
    + exact (sub_mpi_err ciL MAX_LIMBS X A _ xa false er LA LV E).
  - intros E. destruct r as [X' st] eqn:Er. cbn [snd fst] in *. subst st.
    destruct (add_mpi_inv ciL MAX_LIMBS Hc X A _ X' xa false HA HV Hxa Hxb Hab Er)
      as [W V].
    split; [exact W | rewrite V, EV; reflexivity].
  - intros E. destruct r' as [X' st] eqn:Er. cbn [snd fst] in *. subst st.
    destruct (sub_mpi_inv ciL MAX_LIMBS Hc X A _ X' xa false HA HV Hxa Hxb Hab Er)
      as [W V].
    split; [exact W | rewrite V, EV; reflexivity].
Qed.

Lemma add_int_sub_int_value_witness :
  let A := mk_mpi 1 [3; 1] in
  let r := sgx_mpi_add_int 1 100 A A (-5) true in
  let r' := sgx_mpi_sub_int 1 100 A A (-5) true in
  (forall er, snd r = Some er \/ snd r' = Some er -> er = MALLOC_FAILED) /\
  (snd r = None -> wf 1 (fst r) /\ value 1 (fst r) = value 1 A + (-5)) /\
  (snd r' = None -> wf 1 (fst r') /\ value 1 (fst r') = value 1 A - (-5)).
Proof.
  intros A.
  apply (add_int_sub_int_value 1 100 A A (-5) true);
    [lia | concrete_wf | reflexivity | vm_compute; split; reflexivity].
Defined.

(** ** Multiplication *)

Section MulMpi.

Variables ciL MAX_LIMBS : nat.
Hypothesis ciL_pos : (0 < ciL)%nat.

Local Abbreviation B := (base ciL).
Local Abbreviation Bp := (Bpow ciL).
Local Abbreviation mg := (mag ciL).
Local Abbreviation lok := (limbs_ok ciL).
Local Abbreviation val := (value ciL).

(** The schoolbook loop of [sgx_mpi_mul_mpi], over a zeroed buffer. *)
Lemma mul_mpi_loop (al bl z : list Z) (i j : nat) :
  lok al -> lok bl -> lok z -> mg z = 0 -> (i + j <= length z)%nat ->
  let l := for_down j 0
             (fun j d => sgx_mpi_mul_hlp ciL i al d (j - 1) (limb bl (j - 1))) z in
  lok l /\ length l = length z /\ mg l = mg (firstn i al) * mg (firstn j bl).
Proof.
  intros Ha Hb Hz Mz Hij.
  pose proof (mag_firstn_bound ciL al i Ha) as Fa.
  pose proof (mag_firstn_bound ciL bl j Hb) as Fb.
  set (P := fun (k : nat) (d : list Z) =>
    lok d /\ length d = length z /\
    mg d + mg (firstn i al) * mg (firstn k bl)
      = mg (firstn i al) * mg (firstn j bl)).
  intros l. assert (H : P 0%nat l).
  { subst l. apply (for_down_inv P).
    - unfold P. rewrite Nat.add_0_l, Mz. repeat split; auto.
    - intros k d Hk (I1 & I2 & I3). unfold P.
      pose proof (limbs_ok_limb ciL bl (k - 1) Hb) as Hx.
      pose proof (mag_firstn_bound ciL bl (k - 1) Hb) as Fk.
      pose proof (mag_firstn_S ciL bl (k - 1)) as Ek.
      replace (S (k - 1)) with k in Ek by lia.
      set (Fa' := mg (firstn i al)) in *. set (Fj := mg (firstn j bl)) in *.
      set (Fk' := mg (firstn (k - 1) bl)) in *.
      set (b := limb bl (k - 1)) in *. set (Pk := Bp (k - 1)) in *.
      assert (Hfit : mg d + Fa' * b * Pk < Bp (length d)).
      { rewrite I2. apply Z.lt_le_trans with (Bp (i + j)).
        - rewrite Bpow_add.
          assert (Fa' * Fj < Bp i * Bp j)
            by (apply Z.mul_lt_mono_nonneg; lia).
          assert (0 <= Fa' * Fk') by (apply Z.mul_nonneg_nonneg; lia).
          assert (E : mg d + Fa' * b * Pk = Fa' * Fj - Fa' * Fk').
          { rewrite Ek in I3. clearbody Fa' Fj Fk' b Pk. lia. }
          lia.
        - apply Bpow_mono. exact Hij. }
      destruct (mul_hlp_spec ciL ciL_pos i al d (k - 1) b Ha I1 Hx
                  ltac:(lia) Hfit) as (K1 & K2 & K3).
      split; [exact K1|]. split; [lia|].
      rewrite K3. fold Fa' Pk. rewrite Ek in I3. clearbody Fa' Fj Fk' b Pk. lia. }
  clearbody l. destruct H as (I1 & I2 & I3).
  cbn [firstn mag] in I3. repeat split; auto. lia.
Qed.

(** The staging copy of an operand that is also the destination. *)
Lemma mul_mpi_stage (A A1 : mpi) (xa : bool) :
  wf ciL A ->
  (if xa then sgx_mpi_copy MAX_LIMBS sgx_mpi_init A false else (A, None)) = (A1, None) ->
  wf ciL A1 /\ val A1 = val A.
Proof.
  intros [SA LA]. destruct xa; [|intros E; inversion E; subst; split; [split|]; auto].
  intros E. destruct (copy_inv ciL MAX_LIMBS _ _ _ E) as (C1 & C2 & C3 & C4).
  destruct (p A) as [|a l] eqn:EA.
  - rewrite (C4 eq_refl). split; [split; [left; reflexivity|constructor]|].
    unfold value. rewrite EA. cbn. lia.
  - destruct (C3 ltac:(discriminate)) as (C5 & _).
    split; [split; [rewrite C5; exact SA|auto]|].
    unfold value. rewrite C5, C1, EA. reflexivity.
Qed.

Lemma mul_mpi_inv (X A Bm X' : mpi) (xa xb : bool) :
  wf ciL A -> wf ciL Bm ->
  sgx_mpi_mul_mpi ciL MAX_LIMBS X A Bm xa xb = (X', None) ->
  wf ciL X' /\ val X' = val A * val Bm /\
  (n X' <= Nat.max (Nat.max 1 (n X)) (n A + n Bm))%nat.
Proof.
  intros HA HB. unfold sgx_mpi_mul_mpi.
  destruct (if xa then sgx_mpi_copy MAX_LIMBS sgx_mpi_init A false else (A, None))
    as [A1 [e0|]] eqn:EA; [intros F; discriminate|].
  destruct (if xb then sgx_mpi_copy MAX_LIMBS sgx_mpi_init Bm false else (Bm, None))
    as [B1 [e0|]] eqn:EB; [intros F; discriminate|].
  assert (NA : (top_scan (p A1) (n A1) <= n A)%nat).
  { destruct xa; [|inversion EA; subst; apply top_scan_le].
    destruct HA as [_ LA].
    destruct (copy_mag ciL MAX_LIMBS ciL_pos _ _ _ false ltac:(discriminate) EA)
      as (_ & _ & C). pose proof (top_scan_le (p A1) (n A1)).
    unfold n in *. cbn [sgx_mpi_init p length] in C. lia. }
  assert (NB : (top_scan (p B1) (n B1) <= n Bm)%nat).
  { destruct xb; [|inversion EB; subst; apply top_scan_le].
    destruct (copy_mag ciL MAX_LIMBS ciL_pos _ _ _ false ltac:(discriminate) EB)
      as (_ & _ & C). pose proof (top_scan_le (p B1) (n B1)).
    unfold n in *. cbn [sgx_mpi_init p length] in C. lia. }
  destruct (mul_mpi_stage A A1 xa HA EA) as ([SA LA] & VA).
  destruct (mul_mpi_stage Bm B1 xb HB EB) as ([SB LB] & VB).
  rewrite <- VA, <- VB. clear EA EB VA VB HA HB.
  set (i := top_scan (p A1) (n A1)) in *. set (j := top_scan (p B1) (n B1)) in *.
  destruct (sgx_mpi_grow MAX_LIMBS X (i + j)) as [X1 [e0|]] eqn:EG;
    cbn [and_then]; [intros F; discriminate|].
  destruct (grow_inv ciL MAX_LIMBS _ _ _ _ EG) as (_ & _ & _ & _ & G).
  destruct (G eq_refl) as [G1 G2].
  destruct (sgx_mpi_lset ciL MAX_LIMBS X1 0) as [X2 [e0|]] eqn:EL;
    cbn [and_then]; [intros F; discriminate|].
  apply lset_inv in EL. rewrite abs_limb_0 in EL.
  intros E. inversion E; subst X' X2; clear E. cbn [p].
  set (z := 0 :: repeat 0 (Nat.max 1 (n X1) - 1)).
  assert (Lz : lok z).
  { unfold z. constructor; [pose proof (base_pos ciL); lia|apply limbs_ok_repeat0]. }
  assert (Mz : mg z = 0).
  { unfold z. cbn [mag]. rewrite mag_repeat0. lia. }
  assert (Nz : length z = Nat.max 1 (n X1)).
  { unfold z. cbn [length]. rewrite repeat_length. lia. }
  destruct (mul_mpi_loop (p A1) (p B1) z i j LA LB Lz Mz ltac:(lia))
    as (K1 & K2 & K3).
  unfold wf, value, n. cbn [s p].
  split; [split; [|exact K1]|split].
  - destruct SA as [EA|EA], SB as [EB|EB]; rewrite EA, EB; auto.
  - rewrite K3. unfold i, j, n. rewrite !mag_top_scan. ring.
  - rewrite K2, Nz. unfold n in *. lia.
Qed.

Lemma mul_mpi_err (X A Bm : mpi) (xa xb : bool) (er : mpi_err) :
  snd (sgx_mpi_mul_mpi ciL MAX_LIMBS X A Bm xa xb) = Some er -> er = MALLOC_FAILED.
Proof.
  unfold sgx_mpi_mul_mpi.
  assert (HC : forall Y (x : bool) Y1 e0,
    (if x then sgx_mpi_copy MAX_LIMBS sgx_mpi_init Y false else (Y, None))
      = (Y1, Some e0) -> e0 = MALLOC_FAILED).
  { intros Y x Y1 e0 E. destruct x; [|discriminate].
    apply (copy_err MAX_LIMBS sgx_mpi_init Y false). rewrite E. reflexivity. }
  destruct (if xa then sgx_mpi_copy MAX_LIMBS sgx_mpi_init A false else (A, None))
    as [A1 [e0|]] eqn:EA.
  { cbn [snd]. intros E. inversion E; subst. eapply HC; eauto. }
  destruct (if xb then sgx_mpi_copy MAX_LIMBS sgx_mpi_init Bm false else (Bm, None))
    as [B1 [e0|]] eqn:EB.
  { cbn [snd]. intros E. inversion E; subst. eapply HC; eauto. }
  intros E. apply and_then_err in E. destruct E as [E|(X1 & _ & E)].
  { eapply grow_err; eauto. }
  apply and_then_err in E. destruct E as [E|(X2 & _ & E)]; [|discriminate].
  unfold sgx_mpi_lset in E.
  match type of E with context [sgx_mpi_grow ?M ?a ?b] =>
    pose proof (grow_err M a b er) as G; destruct (sgx_mpi_grow M a b) as [Y [e1|]] end;
    cbn [snd] in *; auto; discriminate.
Qed.

Lemma mul_mpi_ok (X A Bm : mpi) (xa xb : bool) :
  (1 <= MAX_LIMBS)%nat -> (n A + n Bm <= MAX_LIMBS)%nat ->
  snd (sgx_mpi_mul_mpi ciL MAX_LIMBS X A Bm xa xb) = None.
Proof.
  intros HM HN. unfold sgx_mpi_mul_mpi.
  assert (HC : forall Y (x : bool), (n Y <= MAX_LIMBS)%nat -> exists Y1,
    (if x then sgx_mpi_copy MAX_LIMBS sgx_mpi_init Y false else (Y, None))
      = (Y1, None) /\ (top_scan (p Y1) (n Y1) <= n Y)%nat).
  { intros Y x HY. destruct x; [|exists Y; split; [reflexivity|apply top_scan_le]].
    destruct (copy_ok MAX_LIMBS sgx_mpi_init Y HY) as [Y1 E]. exists Y1.
    split; [exact E|].
    destruct (copy_mag ciL MAX_LIMBS ciL_pos _ _ _ false ltac:(discriminate) E)
      as (_ & _ & C). pose proof (top_scan_le (p Y1) (n Y1)).
    unfold n in *. cbn [sgx_mpi_init p length] in C. lia. }
  destruct (HC A xa ltac:(lia)) as (A1 & -> & IA).
  destruct (HC Bm xb ltac:(lia)) as (B1 & -> & IB).
  rewrite (grow_ok MAX_LIMBS) by lia. cbn [and_then].
  rewrite (lset_ok ciL MAX_LIMBS) by lia. reflexivity.
Qed.

End MulMpi.

(** X16: [sgx_mpi_mul_mpi] computes the signed product [X = A * B], with
    [X] allowed to be [A] or [B] or both.  It can fail only on allocation;
    it succeeds whenever the limb counts of [A] and [B] together are within
    the limb bound; and on success [X] is well formed, worth [A * B], and
    no longer than the larger of the old [X] and the two limb counts
    added. *)
Theorem mul_mpi_is_product
    (ciL MAX_LIMBS : nat) (X A Bm : mpi) (xa xb : bool) :
  (0 < ciL)%nat -> wf ciL A -> wf ciL Bm ->
  let r := sgx_mpi_mul_mpi ciL MAX_LIMBS X A Bm xa xb in
  (forall er, snd r = Some er -> er = MALLOC_FAILED) /\
  ((1 <= MAX_LIMBS)%nat -> (n A + n Bm <= MAX_LIMBS)%nat -> snd r = None) /\
  (snd r = None ->
     wf ciL (fst r) /\ value ciL (fst r) = value ciL A * value ciL Bm /\
     (n (fst r) <= Nat.max (Nat.max 1 (n X)) (n A + n Bm))%nat).
Proof.
  intros Hc HA HB r. split; [|split].
  - intros er E. exact (mul_mpi_err ciL MAX_LIMBS X A Bm xa xb er E).
  - intros HM HN. exact (mul_mpi_ok ciL MAX_LIMBS Hc X A Bm xa xb HM HN).
  - intros E. destruct r as [X' st] eqn:Er. cbn [snd fst] in *. subst st.
    exact (mul_mpi_inv ciL MAX_LIMBS Hc X A Bm X' xa xb HA HB Er).
Qed.

Lemma mul_mpi_is_product_witness :
  let A := mk_mpi (-1) [255; 255; 0] in
  let Bm := mk_mpi 1 [7; 1] in
  let r := sgx_mpi_mul_mpi 1 100 A A Bm true false in
  (forall er, snd r = Some er -> er = MALLOC_FAILED) /\
  ((1 <= 100)%nat -> (n A + n Bm <= 100)%nat -> snd r = None) /\
  (snd r = None ->
     wf 1 (fst r) /\ value 1 (fst r) = value 1 A * value 1 Bm /\
     (n (fst r) <= Nat.max (Nat.max 1 (n A)) (n A + n Bm))%nat).
Proof.
  intros A Bm.
  apply (mul_mpi_is_product 1 100 A A Bm true false);
    [lia | concrete_wf | concrete_wf].
Defined.

(** X17: [sgx_mpi_mul_int] multiplies by an unsigned limb-sized integer
    [b]: it can fail only on allocation, and on success [X] is well formed
    and worth [A * b].  A negative [b] is not negated but read as the
    unsigned limb of the same bits, so the product is [A * (b + base)]. *)
Theorem mul_int_is_product
    (ciL MAX_LIMBS : nat) (X A : mpi) (b : Z) (xa : bool) :
  (0 < ciL)%nat -> wf ciL A -> - base ciL <= 2 * b < base ciL ->
  let r := sgx_mpi_mul_int ciL MAX_LIMBS X A b xa in
  (forall er, snd r = Some er -> er = MALLOC_FAILED) /\
  (snd r = None ->
     wf ciL (fst r) /\
     value ciL (fst r) = value ciL A * (if b <? 0 then b + base ciL else b)).
Proof.
  intros Hc HA Hb r. pose proof (base_pos ciL) as HB.
  assert (Eb : trunc ciL b = if b <? 0 then b + base ciL else b).
  { unfold trunc. destruct (Z.ltb_spec b 0).
    - symmetry. apply Z.mod_unique with (-1); lia.
    - apply Z.mod_small. lia. }
  assert (HV : wf ciL (mk_mpi 1 [trunc ciL b])).
  { split; [left; reflexivity|]. constructor; [apply trunc_range|constructor]. }
  assert (EV : value ciL (mk_mpi 1 [trunc ciL b]) = trunc ciL b).
  { unfold value. cbn [s p mag]. lia. }
  split.
  - intros er E. exact (mul_mpi_err ciL MAX_LIMBS X A _ xa false er E).
  - intros E. destruct r as [X' st] eqn:Er. cbn [snd fst] in *. subst st.
    destruct (mul_mpi_inv ciL MAX_LIMBS Hc X A _ X' xa false HA HV Er)
      as (W & V & _).
    split; [exact W|]. rewrite V, EV, Eb. reflexivity.
Qed.

Lemma mul_int_is_product_witness :
  let A := mk_mpi (-1) [255; 255; 0] in
  let r := sgx_mpi_mul_int 1 100 A A (-3) true in
  (forall er, snd r = Some er -> er = MALLOC_FAILED) /\
  (snd r = None ->
     wf 1 (fst r) /\
     value 1 (fst r) = value 1 A * (if -3 <? 0 then -3 + base 1 else -3)).
Proof.
  intros A.
  apply (mul_int_is_product 1 100 A A (-3) true);
    [lia | concrete_wf | vm_compute; split; congruence].
Defined.

(** ** Division and reduction *)





(** X20: a zero divisor is refused before anything is computed:
    [sgx_mpi_div_mpi] and [sgx_mpi_mod_mpi] return [DIVISION_BY_ZERO] for
    every [B] of value 0 (whatever its stored sign and limb count), and so
    do [sgx_mpi_div_int] and [sgx_mpi_mod_int] for [b = 0]. *)
Theorem division_by_zero_is_refused
    (ciL MAX_LIMBS fuel : nat) (Q R A Bm : mpi) (qnull rnull ra : bool) :
  wf ciL Bm -> value ciL Bm = 0 ->
  sgx_mpi_div_mpi ciL MAX_LIMBS fuel Q R A Bm qnull rnull ra = Err DIVISION_BY_ZERO /\
  sgx_mpi_mod_mpi ciL MAX_LIMBS fuel R A Bm ra = Err DIVISION_BY_ZERO /\
  sgx_mpi_div_int ciL MAX_LIMBS fuel Q R A 0 qnull rnull ra = Err DIVISION_BY_ZERO /\
  sgx_mpi_mod_int ciL A 0 = Err DIVISION_BY_ZERO.
Proof.
  intros HB HB0.
  assert (D : forall Q R qn rn,
    sgx_mpi_div_mpi ciL MAX_LIMBS fuel Q R A Bm qn rn ra = Err DIVISION_BY_ZERO).
  { intros Q0 R0 qn rn. unfold sgx_mpi_div_mpi.
    rewrite (cmp_int_0 ciL Bm HB), HB0. reflexivity. }
  split; [apply D|]. split; [|split; [|reflexivity]].
  - unfold sgx_mpi_mod_mpi. rewrite (cmp_int_0 ciL Bm HB), HB0.
    cbn [Z.sgn Z.ltb Z.compare]. rewrite D. reflexivity.
  - unfold sgx_mpi_div_int, sgx_mpi_div_mpi.
    rewrite (cmp_int_0 ciL _ (int_view_wf ciL 0)).
    rewrite (int_view_value ciL 0) by (pose proof (base_pos ciL); lia).
    reflexivity.
Qed.

Lemma division_by_zero_is_refused_witness :
  let Bm := mk_mpi (-1) [0; 0] in
  let A := mk_mpi 1 [5] in
  sgx_mpi_div_mpi 1 100 10 A A A Bm false false true = Err DIVISION_BY_ZERO /\
  sgx_mpi_mod_mpi 1 100 10 A A Bm true = Err DIVISION_BY_ZERO /\
  sgx_mpi_div_int 1 100 10 A A A 0 false false true = Err DIVISION_BY_ZERO /\
  sgx_mpi_mod_int 1 A 0 = Err DIVISION_BY_ZERO.
Proof.
  intros Bm A.
  apply (division_by_zero_is_refused 1 100 10 A A A Bm false false true);
    [concrete_wf | reflexivity].
Defined.



Section ModInt.

Variable ciL : nat.
Hypothesis ciL_pos : (0 < ciL)%nat.

Local Abbreviation B := (base ciL).
Local Abbreviation H := (pow2 (biH ciL)).
Local Abbreviation mg := (mag ciL).
Local Abbreviation lok := (limbs_ok ciL).

Lemma base_half_sq : B = H * H.
Proof.
  rewrite base_pow2, <- pow2_add. f_equal. unfold biL, biH. lia.
Qed.

(** One half-limb round of [sgx_mpi_mod_int]: shift the running residue up,
    bring in [h], reduce. *)
Lemma mod_int_half (b y h : Z) :
  0 < b <= H -> 0 <= y < b -> 0 <= h < H ->
  let y1 := Z.lor (shl ciL y (biH ciL)) h in
  trunc ciL (y1 - trunc ciL (y1 / b * b)) = (y * H + h) mod b.
Proof.
  intros Hb Hy Hh. pose proof base_half_sq as EB.
  assert (Es : shl ciL y (biH ciL) = y * H).
  { rewrite shl_spec. apply trunc_small. nia. }
  cbv zeta. rewrite Es, Z.lor_comm, lor_disjoint by exact Hh.
  set (y1 := h + y * H).
  assert (Hy1 : 0 <= y1 < B) by (unfold y1; nia).
  pose proof (Z.div_mod y1 b ltac:(lia)) as Ed.
  pose proof (Z.mod_pos_bound y1 b ltac:(lia)) as Hm.
  pose proof (Z.mod_le y1 b ltac:(lia) ltac:(lia)) as Hle.
  assert (Hz : 0 <= y1 / b * b <= y1) by lia.
  rewrite (trunc_small ciL (y1 / b * b)) by lia.
  replace (y1 - y1 / b * b) with (y1 mod b) by lia.
  rewrite trunc_small by lia. unfold y1. f_equal. ring.
Qed.

(** One round of the loop: a whole limb [x] is brought in. *)
Lemma mod_int_round (b y x : Z) :
  0 < b <= H -> 0 <= y < b -> 0 <= x < B ->
  let y1 := Z.lor (shl ciL y (biH ciL)) (shr x (biH ciL)) in
  let y2 := trunc ciL (y1 - trunc ciL (y1 / b * b)) in
  let x1 := shl ciL x (biH ciL) in
  let y3 := Z.lor (shl ciL y2 (biH ciL)) (shr x1 (biH ciL)) in
  trunc ciL (y3 - trunc ciL (y3 / b * b)) = (y * B + x) mod b.
Proof.
  intros Hb Hy Hx. pose proof base_half_sq as EB.
  pose proof (pow2_pos (biH ciL)) as HH.
  assert (Hh : 0 <= x / H < H).
  { split; [apply Z.div_pos; lia|apply Z.div_lt_upper_bound; lia]. }
  pose proof (Z.mod_pos_bound x H ltac:(lia)) as Hl.
  pose proof (Z.div_mod x H ltac:(lia)) as Ex.
  cbv zeta. rewrite (shr_spec x).
  rewrite (mod_int_half b y (x / H) Hb Hy Hh).
  assert (E1 : shr (shl ciL x (biH ciL)) (biH ciL) = x mod H).
  { rewrite shr_spec, shl_spec. unfold trunc. rewrite EB.
    rewrite Z.mul_mod_distr_r by lia. apply Z.div_mul. lia. }
  rewrite E1.
  rewrite (mod_int_half b _ (x mod H) Hb
             (Z.mod_pos_bound _ b ltac:(lia)) Hl).
  rewrite Z.add_mod, Z.mul_mod, Z.mod_mod by lia.
  rewrite <- Z.mul_mod, <- Z.add_mod by lia.
  f_equal. rewrite EB. rewrite Ex at 3. ring.
Qed.

Lemma mod_int_loop (l : list Z) (b : Z) :
  lok l -> 0 < b <= H ->
  for_down (length l) 0
    (fun i y =>
       let x := limb l (i - 1) in
       let y := Z.lor (shl ciL y (biH ciL)) (shr x (biH ciL)) in
       let z := y / b in
       let y := trunc ciL (y - trunc ciL (z * b)) in
       let x := shl ciL x (biH ciL) in
       let y := Z.lor (shl ciL y (biH ciL)) (shr x (biH ciL)) in
       let z := y / b in
       trunc ciL (y - trunc ciL (z * b))) 0
  = mg l mod b.
Proof.
  intros Hl Hb.
  set (P := fun (i : nat) (y : Z) => y = mg (skipn i l) mod b).
  apply (for_down_inv P).
  - unfold P. rewrite Nat.add_0_l, skipn_all. cbn [mag]. rewrite Z.mod_0_l; lia.
  - intros i y Hi Hy. unfold P in *.
    pose proof (limbs_ok_limb ciL l (i - 1) Hl) as Hx.
    rewrite (mod_int_round b y (limb l (i - 1)) Hb
               ltac:(rewrite Hy; apply Z.mod_pos_bound; lia) Hx).
    rewrite (mag_skipn_S ciL l (i - 1)).
    replace (S (i - 1)) with i by lia. rewrite Hy.
    rewrite Z.add_mod, Z.mul_mod, Z.mod_mod by lia.
    rewrite <- Z.mul_mod, <- Z.add_mod by lia. f_equal. ring.
Qed.

Lemma mag_parity (l : list Z) : lok l -> mg l mod 2 = limb l 0 mod 2.
Proof.
  intros _. pose proof (base_even ciL ciL_pos) as Ev.
  apply Z.even_spec in Ev. destruct Ev as [c Ec].
  destruct l as [|a t]; [reflexivity|].
  unfold limb. cbn [mag nth]. rewrite Ec.
  replace (a + 2 * c * mg t) with (a + c * mg t * 2) by ring.
  apply Z.mod_add. lia.
Qed.

Lemma mod_int_spec (A : mpi) (b : Z) :
  wf ciL A -> 0 < b <= H ->
  sgx_mpi_mod_int ciL A b = Ok (value ciL A mod b).
Proof.
  intros [SA LA] Hb. unfold sgx_mpi_mod_int, value.
  pose proof (mag_bound ciL _ LA) as HM. pose proof base_half_sq as EB.
  pose proof (pow2_pos (biH ciL)) as HH.
  destruct (Z.eqb_spec b 0) as [|_]; [lia|].
  destruct (Z.ltb_spec b 0) as [|_]; [lia|].
  destruct (Z.eqb_spec b 1) as [E1|N1].
  { rewrite E1, Z.mod_1_r. reflexivity. }
  destruct (Z.eqb_spec b 2) as [E2|N2].
  { rewrite E2, land_1, <- (mag_parity _ LA). f_equal.
    destruct SA as [-> | ->]; [f_equal; lia|].
    replace (-1 * mg (p A)) with (- mg (p A)) by ring.
    pose proof (Z.mod_pos_bound (mg (p A)) 2 ltac:(lia)).
    pose proof (Z.mod_pos_bound (- mg (p A)) 2 ltac:(lia)).
    pose proof (Z.div_mod (mg (p A)) 2 ltac:(lia)).
    pose proof (Z.div_mod (- mg (p A)) 2 ltac:(lia)). lia. }
  pose proof (mod_int_loop (p A) b LA Hb) as EL. cbv zeta in EL.
  unfold n. rewrite EL. f_equal.
  pose proof (Z.mod_pos_bound (mg (p A)) b ltac:(lia)) as Hm.
  destruct SA as [-> | ->].
  - cbn [Z.ltb Z.compare andb]. f_equal. lia.
  - cbn [Z.ltb Z.compare andb].
    replace (-1 * mg (p A)) with (- mg (p A)) by ring.
    destruct (Z.eqb_spec (mg (p A) mod b) 0) as [E0|N0]; cbn [negb].
    + rewrite Z.mod_opp_l_z by lia. exact E0.
    + rewrite Z.mod_opp_l_nz by lia. apply trunc_small. nia.
Qed.

End ModInt.

(** X22: [sgx_mpi_mod_int] returns in [r] the residue of [A] modulo [b] in
    [[0, b)], also for a negative [A], for every [b] from 1 up to half a
    limb wide ([b <= 2^biH]; for [b = 2] the limb buffer of [A] is read, so
    [A] must be allocated); a negative [b] is refused with
    [NEGATIVE_VALUE]. *)
Theorem mod_int_is_residue (ciL : nat) (A : mpi) (b : Z) :
  (0 < ciL)%nat -> wf ciL A -> (b = 2 -> (0 < n A)%nat) ->
  (b < 0 -> sgx_mpi_mod_int ciL A b = Err NEGATIVE_VALUE) /\
  (0 < b <= pow2 (biH ciL) ->
   sgx_mpi_mod_int ciL A b = Ok (value ciL A mod b) /\
   0 <= value ciL A mod b < b).
Proof.
  intros Hc HA _. split.
  - intros Hb. unfold sgx_mpi_mod_int.
    destruct (Z.eqb_spec b 0); [lia|].
    destruct (Z.ltb_spec b 0); [reflexivity|lia].
  - intros Hb. split; [apply mod_int_spec; assumption|].
    apply Z.mod_pos_bound. lia.
Qed.

Lemma mod_int_is_residue_witness :
  let A := mk_mpi (-1) [57; 48; 1] in
  (13 < 0 -> sgx_mpi_mod_int 1 A 13 = Err NEGATIVE_VALUE) /\
  (0 < 13 <= pow2 (biH 1) ->
   sgx_mpi_mod_int 1 A 13 = Ok (value 1 A mod 13) /\
   0 <= value 1 A mod 13 < 13).
Proof.
  intros A.
  apply (mod_int_is_residue 1 A 13); [lia | concrete_wf | discriminate].
Defined.

(** ** Greatest common divisor *)

Lemma odd_cases (q : Z) : q mod 2 = 0 \/ q mod 2 = 1.
Proof. pose proof (Z.mod_pos_bound q 2 ltac:(lia)). lia. Qed.

Lemma gcd_double_odd (a b : Z) : b mod 2 = 1 -> Z.gcd (2 * a) b = Z.gcd a b.
Proof.
  intros Hb. apply Z.gcd_unique.
  - apply Z.gcd_nonneg.
  - apply Z.divide_mul_r. apply Z.gcd_divide_l.
  - apply Z.gcd_divide_r.
  - intros q H1 H2. apply Z.gcd_greatest; [|exact H2].
    apply Z.gauss with 2; [exact H1|].
    (* q divides the odd b, so it is coprime to 2 *)
    apply Z.gcd_unique; try lia.
    + apply Z.divide_1_l.
    + apply Z.divide_1_l.
    + intros d D1 D2. destruct H2 as [c Hc]. destruct D1 as [u Hu].
      destruct D2 as [v Hv].
      assert (Hd : (d | 1)).
      { assert (E : b = (c * u) * d) by (rewrite Hc, Hu; ring).
        pose proof (Z.divide_pos_le d 2 ltac:(lia)) as Hle.
        destruct (Z.eq_dec d 2) as [E2|N2].
        - rewrite E2 in E. rewrite E, Z.mod_mul in Hb; lia.
        - destruct (Z.eq_dec d (-2)) as [E3|N3].
          + rewrite E3 in E.
            replace (c * u * -2) with ((- (c * u)) * 2) in E by ring.
            rewrite E, Z.mod_mul in Hb; lia.
          + assert (Hab : Z.abs d <= 2).
            { apply Z.divide_pos_le; [lia|]. apply Z.divide_abs_l. exists v. exact Hv. }
            assert (d <> 0) by (intros ->; lia).
            assert (Z.abs d = 1) by lia.
            apply Z.divide_abs_l. replace (Z.abs d) with 1. apply Z.divide_refl. }
      exact Hd.
Qed.

Lemma gcd_pow2_odd (t : nat) (a b : Z) :
  b mod 2 = 1 -> Z.gcd (pow2 t * a) b = Z.gcd a b.
Proof.
  intros Hb. induction t as [|t IH].
  - rewrite pow2_0, Z.mul_1_l. reflexivity.
  - rewrite pow2_S. rewrite <- Z.mul_assoc, gcd_double_odd by exact Hb. exact IH.
Qed.

Lemma gcd_sub_half (a b : Z) :
  a mod 2 = 1 -> b mod 2 = 1 -> Z.gcd ((a - b) / 2) b = Z.gcd a b.
Proof.
  intros Ha Hb.
  pose proof (Z.div_mod a 2 ltac:(lia)) as Ea.
  pose proof (Z.div_mod b 2 ltac:(lia)) as Eb.
  assert (E : a - b = 2 * (a / 2 - b / 2)) by lia.
  rewrite E, Z.mul_comm, Z.div_mul by lia.
  rewrite <- (gcd_double_odd (a / 2 - b / 2) b Hb), <- E.
  rewrite Z.gcd_comm, Z.gcd_sub_diag_r, Z.gcd_comm.
  reflexivity.
Qed.
Section Lsb.

Variable ciL : nat.

Local Abbreviation B := (base ciL).
Local Abbreviation W := (biL ciL).
Local Abbreviation mg := (mag ciL).
Local Abbreviation lok := (limbs_ok ciL).

(** The bit scan of [sgx_mpi_lsb] in one limb, entered at bit [W - k] with
    the bits below it clear. *)
Lemma lsb_limb_spec (k : nat) :
  forall (q : Z) (count : nat),
    (k <= W)%nat ->
    match lsb_limb ciL (pow2 (W - k) * q) k count with
    | Some c => exists (t : nat) (q' : Z),
        c = (count + t)%nat /\ (W - k + t < W)%nat /\
        pow2 (W - k) * q = pow2 (W - k + t) * q' /\ q' mod 2 = 1
    | None => exists q', pow2 (W - k) * q = pow2 W * q'
    end.
Proof.
  induction k as [|k IH]; intros q count Hk; cbn [lsb_limb].
  - exists q. rewrite Nat.sub_0_r. reflexivity.
  - pose proof (pow2_pos (W - S k)) as Hp.
    rewrite bit_spec, Z.mul_comm, Z.div_mul by lia.
    destruct (odd_cases q) as [E|E]; rewrite E; cbn [Z.eqb negb].
    + pose proof (Z.div_mod q 2 ltac:(lia)) as Eq.
      assert (Ex : q * pow2 (W - S k) = pow2 (W - k) * (q / 2)).
      { replace (W - k)%nat with (S (W - S k)) by lia. rewrite pow2_S.
        rewrite Eq at 1. rewrite E. ring. }
      rewrite Ex. specialize (IH (q / 2) (S count) ltac:(lia)).
      destruct (lsb_limb ciL (pow2 (W - k) * (q / 2)) k (S count)) as [c|].
      * destruct IH as (t & q' & I1 & I2 & I3 & I4).
        exists (S t), q'. split; [lia|]. split; [lia|]. split; [|exact I4].
        rewrite I3. f_equal. f_equal. lia.
      * exact IH.
    + exists 0%nat, q. rewrite !Nat.add_0_r. split; [reflexivity|].
      split; [lia|]. split; [ring|exact E].
Qed.

(** [sgx_mpi_lsb] counts the trailing zero bits of a non-zero magnitude. *)
Lemma lsb_limbs_spec (l : list Z) :
  lok l -> forall count : nat,
  (mg l = 0 -> lsb_limbs ciL l count = 0%nat) /\
  (mg l <> 0 -> exists (t : nat) (m : Z),
     lsb_limbs ciL l count = (count + t)%nat /\
     mg l = pow2 t * m /\ m mod 2 = 1).
Proof.
  intros Hl. induction Hl as [|x l Hx Hl IH]; intros count;
    cbn [lsb_limbs mag].
  - split; [reflexivity|congruence].
  - pose proof (mag_bound ciL l Hl) as Hm.
    pose proof (lsb_limb_spec W x count ltac:(lia)) as HS.
    rewrite Nat.sub_diag, pow2_0, Z.mul_1_l in HS.
    destruct (lsb_limb ciL x W count) as [c|].
    + destruct HS as (t & q' & S1 & S2 & S3 & S4).
      rewrite Nat.add_0_l in S2, S3.
      assert (EB : B = pow2 t * (2 * pow2 (W - S t))).
      { rewrite base_pow2, <- pow2_S, <- pow2_add. f_equal. lia. }
      assert (Em : x + B * mg l
                   = pow2 t * (q' + 2 * (pow2 (W - S t) * mg l))).
      { rewrite S3, EB. ring. }
      pose proof (pow2_pos t) as Hp.
      split.
      * intros E0. exfalso. rewrite Em in E0.
        assert (E1 : q' + 2 * (pow2 (W - S t) * mg l) = 0) by nia.
        rewrite <- (Z.mod_add q' (pow2 (W - S t) * mg l) 2) in S4 by lia.
        replace (q' + pow2 (W - S t) * mg l * 2)
          with (q' + 2 * (pow2 (W - S t) * mg l)) in S4 by ring.
        rewrite E1 in S4. cbn in S4. lia.
      * intros _. exists t, (q' + 2 * (pow2 (W - S t) * mg l)).
        split; [exact S1|]. split; [exact Em|].
        replace (q' + 2 * (pow2 (W - S t) * mg l))
          with (q' + pow2 (W - S t) * mg l * 2) by ring.
        rewrite Z.mod_add by lia. exact S4.
    + destruct HS as (q' & S3).
      assert (x = 0).
      { rewrite <- base_pow2 in S3. pose proof (base_pos ciL). cbv beta in Hx.
        assert (q' = 0) by nia. subst q'. lia. }
      clear S3. subst x. rewrite Z.add_0_l.
      destruct (IH (count + W)%nat) as [I0 I1]. split.
      * intros E0. apply I0. pose proof (base_pos ciL). nia.
      * intros N0. destruct I1 as (t & m & I2 & I3 & I4).
        { intros E0. apply N0. rewrite E0. ring. }
        exists (W + t)%nat, m. split; [lia|]. split; [|exact I4].
        rewrite pow2_add, <- base_pow2, I3. ring.
Qed.

Lemma lsb_zero (X : mpi) : lok (p X) -> mg (p X) = 0 -> sgx_mpi_lsb ciL X = 0%nat.
Proof.
  intros HX E. unfold sgx_mpi_lsb.
  destruct (lsb_limbs_spec (p X) HX 0) as [H0 _]. auto.
Qed.

Lemma lsb_nonzero (X : mpi) :
  lok (p X) -> mg (p X) <> 0 ->
  exists m, mg (p X) = pow2 (sgx_mpi_lsb ciL X) * m /\ m mod 2 = 1.
Proof.
  intros HX N. unfold sgx_mpi_lsb.
  destruct (lsb_limbs_spec (p X) HX 0) as [_ H1].
  destruct (H1 N) as (t & m & E1 & E2 & E3).
  exists m. rewrite E1, Nat.add_0_l. auto.
Qed.

End Lsb.
Section Gcd.

Variables ciL MAX_LIMBS e : nat.
Hypothesis ciL_pos : (0 < ciL)%nat.
Hypothesis W_pow : biL ciL = (2 ^ e)%nat.

Local Abbreviation B := (base ciL).
Local Abbreviation Bp := (Bpow ciL).
Local Abbreviation W := (biL ciL).
Local Abbreviation mg := (mag ciL).
Local Abbreviation lok := (limbs_ok ciL).
Local Abbreviation val := (value ciL).
Local Abbreviation shift_r := (sgx_mpi_shift_r ciL MAX_LIMBS).
Local Abbreviation lsb := (sgx_mpi_lsb ciL).

(** [shift_r( X, lsb( X ) )]: the odd part of a positive [X]. *)
Lemma shift_r_lsb (L : nat) (X : mpi) :
  lok (p X) -> s X = 1 -> (n X <= L)%nat -> (1 <= L <= MAX_LIMBS)%nat ->
  exists X', shift_r X (lsb X) = (X', None) /\
    lok (p X') /\ s X' = 1 /\ (n X' <= L)%nat /\ mg (p X') <= mg (p X) /\
    ((mg (p X) = 0 /\ mg (p X') = 0) \/
     (mg (p X') mod 2 = 1 /\ exists t, mg (p X) = pow2 t * mg (p X'))).
Proof.
  intros HX SX NX HL.
  destruct (shift_r_spec ciL MAX_LIMBS e ciL_pos W_pow X (lsb X) HX ltac:(lia))
    as (X' & E & R1 & R2 & _ & R4 & R5).
  exists X'. split; [exact E|]. split; [exact R1|].
  split; [destruct R4; congruence|]. split; [lia|].
  pose proof (mag_bound ciL _ HX) as Hm.
  destruct (Z.eq_dec (mg (p X)) 0) as [E0|N0].
  - rewrite R2, E0, Z.div_0_l by (pose proof (pow2_pos (lsb X)); lia).
    split; [lia|]. left. auto.
  - destruct (lsb_nonzero ciL X HX N0) as (m & E1 & E2).
    pose proof (pow2_pos (lsb X)) as Hp.
    assert (Em : mg (p X') = m).
    { rewrite R2, E1, Z.mul_comm, Z.div_mul by lia. reflexivity. }
    rewrite Em. split; [nia|]. right. split; [exact E2|].
    exists (lsb X). exact E1.
Qed.

Lemma shift_r_half (L : nat) (X : mpi) :
  lok (p X) -> s X = 1 -> (n X <= L)%nat -> (1 <= L <= MAX_LIMBS)%nat ->
  exists X', shift_r X 1 = (X', None) /\
    lok (p X') /\ s X' = 1 /\ (n X' <= L)%nat /\ mg (p X') = mg (p X) / 2.
Proof.
  intros HX SX NX HL.
  destruct (shift_r_spec ciL MAX_LIMBS e ciL_pos W_pow X 1 HX ltac:(lia))
    as (X' & E & R1 & R2 & _ & R4 & R5).
  exists X'. split; [exact E|]. split; [exact R1|].
  split; [destruct R4; congruence|]. split; [lia|exact R2].
Qed.

(** One round of the loop of [sgx_mpi_gcd], entered with [TA <> 0]. *)
Lemma gcd_step (L f : nat) (TA TB : mpi) :
  lok (p TA) -> lok (p TB) -> s TA = 1 -> s TB = 1 ->
  (n TA <= L)%nat -> (n TB <= L)%nat -> (1 <= L <= MAX_LIMBS)%nat ->
  mg (p TA) <> 0 ->
  exists (TA' TB' : mpi) (a2 b2 : Z),
    gcd_loop ciL MAX_LIMBS (S f) TA TB = gcd_loop ciL MAX_LIMBS f TA' TB' /\
    lok (p TA') /\ lok (p TB') /\ s TA' = 1 /\ s TB' = 1 /\
    (n TA' <= L)%nat /\ (n TB' <= L)%nat /\
    a2 mod 2 = 1 /\ 0 < a2 <= mg (p TA) /\ (exists t, mg (p TA) = pow2 t * a2) /\
    0 <= b2 <= mg (p TB) /\
    ((mg (p TB) = 0 /\ b2 = 0) \/
     (b2 mod 2 = 1 /\ exists t, mg (p TB) = pow2 t * b2)) /\
    ((b2 <= a2 /\ mg (p TA') = (a2 - b2) / 2 /\ mg (p TB') = b2) \/
     (a2 < b2 /\ mg (p TA') = a2 /\ mg (p TB') = (b2 - a2) / 2)).
Proof.
  intros HA HB SA SB NA NB HL N0.
  pose proof (mag_bound ciL _ HA) as MA. pose proof (mag_bound ciL _ HB) as MB.
  cbn [gcd_loop].
  rewrite (cmp_int_0 ciL TA) by (split; auto).
  unfold value. rewrite SA, Z.mul_1_l.
  destruct (Z.eqb_spec (Z.sgn (mg (p TA))) 0) as [E0|_].
  { destruct (Z.sgn_null_iff (mg (p TA))) as [H1 _]. specialize (H1 E0). lia. }
  cbn [negb].
  destruct (shift_r_lsb L TA HA SA NA HL) as (TA2 & EA & LA2 & SA2 & NA2 & MA2 & OA).
  destruct (shift_r_lsb L TB HB SB NB HL) as (TB2 & EB & LB2 & SB2 & NB2 & MB2 & OB).
  rewrite EA. cbn [MPI_CHK bind]. rewrite EB. cbn [MPI_CHK bind].
  pose proof (mag_bound ciL _ LA2) as MA2'. pose proof (mag_bound ciL _ LB2) as MB2'.
  destruct OA as [[OA _]|[OA TA_t]]; [lia|].
  rewrite (cmp_mpi_spec ciL TA2 TB2) by (split; auto).
  unfold value. rewrite SA2, SB2, !Z.mul_1_l.
  set (a2 := mg (p TA2)) in *. set (b2 := mg (p TB2)) in *.
  assert (Ha2 : 0 < a2) by (destruct (Z.eq_dec a2 0) as [Z0'|]; [rewrite Z0' in OA; cbn in OA|]; lia).
  destruct (Z.geb_spec (Z.sgn (a2 - b2)) 0) as [Hc|Hc].
  - assert (Hle : b2 <= a2).
    { destruct (Z.le_gt_cases b2 a2); auto.
      pose proof (Z.sgn_neg_iff (a2 - b2)) as [_ F]. lia. }
    destruct (sub_abs_fit ciL MAX_LIMBS ciL_pos L TA2 TA2 TB2 true false LA2 LB2
                ltac:(reflexivity) ltac:(discriminate) NA2 NA2 NB2 ltac:(lia) Hle)
      as (TA3 & E3 & N3 & L3 & M3 & S3).
    rewrite E3. cbn [MPI_CHK bind].
    destruct (shift_r_half L TA3 L3 S3 N3 HL) as (TA4 & E4 & L4 & S4 & N4 & M4).
    rewrite E4. cbn [MPI_CHK bind].
    exists TA4, TB2, a2, b2. split; [reflexivity|].
    repeat (split; [assumption|]).
    split; [lia|]. split; [exact TA_t|]. split; [lia|]. split; [exact OB|].
    left. split; [exact Hle|]. split; [rewrite M4, M3; reflexivity|reflexivity].
  - assert (Hlt : a2 < b2).
    { destruct (Z.lt_ge_cases a2 b2); auto.
      pose proof (Z.sgn_nonneg (a2 - b2)). lia. }
    destruct (sub_abs_fit ciL MAX_LIMBS ciL_pos L TB2 TB2 TA2 true false LB2 LA2
                ltac:(reflexivity) ltac:(discriminate) NB2 NB2 NA2 ltac:(lia)
                ltac:(fold a2 b2; lia))
      as (TB3 & E3 & N3 & L3 & M3 & S3).
    rewrite E3. cbn [MPI_CHK bind].
    destruct (shift_r_half L TB3 L3 S3 N3 HL) as (TB4 & E4 & L4 & S4 & N4 & M4).
    rewrite E4. cbn [MPI_CHK bind].
    exists TA2, TB4, a2, b2. split; [reflexivity|].
    repeat (split; [assumption|]).
    split; [lia|]. split; [exact TA_t|]. split; [lia|]. split; [exact OB|].
    right. split; [exact Hlt|]. split; [reflexivity|rewrite M4, M3; reflexivity].
Qed.

(** The loop with [TB <> 0]: it ends with [TB] the greatest common divisor. *)
Lemma gcd_loop_spec (L : nat) (fuel : nat) :
  forall TA TB : mpi,
    lok (p TA) -> lok (p TB) -> s TA = 1 -> s TB = 1 ->
    (n TA <= L)%nat -> (n TB <= L)%nat -> (1 <= L <= MAX_LIMBS)%nat ->
    0 < mg (p TB) ->
    mg (p TA) = 0 \/ mg (p TA) mod 2 = 1 \/ mg (p TB) mod 2 = 1 ->
    mg (p TA) + mg (p TB) < Z.of_nat fuel ->
    exists TA' TB', gcd_loop ciL MAX_LIMBS fuel TA TB = Ok (TA', TB') /\
      lok (p TB') /\ s TB' = 1 /\ (n TB' <= L)%nat /\
      mg (p TB') = Z.gcd (mg (p TA)) (mg (p TB)).
Proof.
  induction fuel as [|f IH]; intros TA TB HA HB SA SB NA NB HL PB Hodd Hf;
    pose proof (mag_bound ciL _ HA) as MA; pose proof (mag_bound ciL _ HB) as MB.
  { lia. }
  destruct (Z.eq_dec (mg (p TA)) 0) as [E0|N0].
  - exists TA, TB. cbn [gcd_loop].
    rewrite (cmp_int_0 ciL TA) by (split; auto).
    unfold value. rewrite SA, E0. cbn [Z.mul Z.sgn Z.eqb negb].
    repeat split; auto. cbn [Z.gcd]. lia.
  - destruct (gcd_step L f TA TB HA HB SA SB NA NB HL N0)
      as (TA' & TB' & a2 & b2 & E & LA' & LB' & SA' & SB' & NA' & NB'
          & Oa & Ba & [ta Ta] & Bb & Ob & Hcase).
    destruct Ob as [[Z0' _]|[Ob [tb Tb]]]; [lia|].
    rewrite E.
    assert (G0 : Z.gcd (mg (p TA)) (mg (p TB)) = Z.gcd a2 b2).
    { destruct Hodd as [H0|[H1|H1]]; [lia| |].
      - rewrite Tb, Z.gcd_comm, gcd_pow2_odd by exact H1.
        rewrite Ta, Z.gcd_comm, gcd_pow2_odd by exact Ob. reflexivity.
      - rewrite Ta, gcd_pow2_odd by exact H1.
        rewrite Tb, Z.gcd_comm, gcd_pow2_odd by exact Oa. apply Z.gcd_comm. }
    rewrite G0.
    pose proof (Z.div_mod (a2 - b2) 2 ltac:(lia)) as D1.
    pose proof (Z.mod_pos_bound (a2 - b2) 2 ltac:(lia)) as D2.
    pose proof (Z.div_mod (b2 - a2) 2 ltac:(lia)) as D3.
    pose proof (Z.mod_pos_bound (b2 - a2) 2 ltac:(lia)) as D4.
    assert (PB2 : 0 < b2).
    { destruct (Z.eq_dec b2 0) as [Zb|]; [rewrite Zb in Ob; cbn in Ob|]; lia. }
    destruct Hcase as [(Hle & M1 & M2)|(Hlt & M1 & M2)].
    + destruct (IH TA' TB' LA' LB' SA' SB' NA' NB' HL ltac:(lia)
                  ltac:(right; right; rewrite M2; exact Ob) ltac:(lia))
        as (TA'' & TB'' & E' & R1 & R2 & R3 & R4).
      exists TA'', TB''. split; [exact E'|]. repeat (split; [assumption|]).
      rewrite R4, M1, M2. apply gcd_sub_half; assumption.
    + assert (Ev : (b2 - a2) mod 2 = 0).
      { pose proof (Z.div_mod a2 2 ltac:(lia)). pose proof (Z.div_mod b2 2 ltac:(lia)).
        replace (b2 - a2) with (0 + (b2 / 2 - a2 / 2) * 2) by lia.
        rewrite Z.mod_add by lia. reflexivity. }
      destruct (IH TA' TB' LA' LB' SA' SB' NA' NB' HL ltac:(lia)
                  ltac:(right; left; rewrite M1; exact Oa) ltac:(lia))
        as (TA'' & TB'' & E' & R1 & R2 & R3 & R4).
      exists TA'', TB''. split; [exact E'|]. repeat (split; [assumption|]).
      rewrite R4, M1, M2, Z.gcd_comm, gcd_sub_half by assumption.
      apply Z.gcd_comm.
Qed.

(** The loop with [TB = 0]: [TA] is halved away and [TB] stays 0. *)
Lemma gcd_loop_zero (L : nat) (fuel : nat) :
  forall TA TB : mpi,
    lok (p TA) -> lok (p TB) -> s TA = 1 -> s TB = 1 ->
    (n TA <= L)%nat -> (n TB <= L)%nat -> (1 <= L <= MAX_LIMBS)%nat ->
    mg (p TB) = 0 -> mg (p TA) < Z.of_nat fuel ->
    exists TA' TB', gcd_loop ciL MAX_LIMBS fuel TA TB = Ok (TA', TB') /\
      lok (p TB') /\ s TB' = 1 /\ (n TB' <= L)%nat /\ mg (p TB') = 0.
Proof.
  induction fuel as [|f IH]; intros TA TB HA HB SA SB NA NB HL PB Hf;
    pose proof (mag_bound ciL _ HA) as MA.
  { lia. }
  destruct (Z.eq_dec (mg (p TA)) 0) as [E0|N0].
  - exists TA, TB. cbn [gcd_loop].
    rewrite (cmp_int_0 ciL TA) by (split; auto).
    unfold value. rewrite SA, E0. cbn [Z.mul Z.sgn Z.eqb negb].
    repeat split; auto.
  - destruct (gcd_step L f TA TB HA HB SA SB NA NB HL N0)
      as (TA' & TB' & a2 & b2 & E & LA' & LB' & SA' & SB' & NA' & NB'
          & Oa & Ba & _ & Bb & _ & Hcase).
    rewrite E. assert (b2 = 0) by lia. subst b2.
    destruct Hcase as [(Hle & M1 & M2)|(Hlt & M1 & M2)]; [|lia].
    rewrite Z.sub_0_r in M1.
    pose proof (Z.div_mod a2 2 ltac:(lia)) as D1.
    apply (IH TA' TB'); auto. lia.
Qed.

Lemma gcd_total (fuel : nat) (G A Bm : mpi) :
  wf ciL A -> wf ciL Bm ->
  (n A <= MAX_LIMBS)%nat -> (n Bm <= MAX_LIMBS)%nat -> (n G <= MAX_LIMBS)%nat ->
  (1 <= MAX_LIMBS)%nat ->
  mg (p A) + mg (p Bm) < Z.of_nat fuel ->
  exists G', sgx_mpi_gcd ciL MAX_LIMBS fuel G A Bm = Ok G' /\
    wf ciL G' /\ s G' = 1 /\
    val G' = if mg (p Bm) =? 0 then 0 else Z.gcd (mg (p A)) (mg (p Bm)).
Proof.
  intros [SA LA] [SB LB] NA NB NG HM Hf.
  pose proof (mag_bound ciL _ LA) as MA. pose proof (mag_bound ciL _ LB) as MB.
  unfold sgx_mpi_gcd.
  destruct (copy_fit ciL MAX_LIMBS ciL_pos MAX_LIMBS sgx_mpi_init A LA
              ltac:(cbn; lia) NA ltac:(lia))
    as (TA & EA & LTA & MTA & NTA & _).
  destruct (copy_fit ciL MAX_LIMBS ciL_pos MAX_LIMBS sgx_mpi_init Bm LB
              ltac:(cbn; lia) NB ltac:(lia))
    as (TB & EB & LTB & MTB & NTB & _).
  rewrite EA. cbn [MPI_CHK bind]. rewrite EB. cbn [MPI_CHK bind]. cbv zeta.
  set (lz := if (lsb TB <? lsb TA)%nat then lsb TB else lsb TA).
  (* both operands are exact multiples of [2 ^ lz] *)
  assert (HLZ : exists a1 b1,
    mg (p A) = pow2 lz * a1 /\ mg (p Bm) = pow2 lz * b1 /\
    (mg (p Bm) <> 0 -> a1 = 0 \/ a1 mod 2 = 1 \/ b1 mod 2 = 1) /\
    (mg (p Bm) = 0 -> lz = 0%nat)).
  { destruct (Z.eq_dec (mg (p Bm)) 0) as [B0|B0].
    - assert (Z1 : lsb TB = 0%nat) by (apply lsb_zero; [exact LTB|lia]).
      assert (Z2 : lz = 0%nat).
      { unfold lz. rewrite Z1. destruct (Nat.ltb_spec 0 (lsb TA)); lia. }
      exists (mg (p A)), 0. rewrite Z2, pow2_0. repeat split; try lia.
    - destruct (lsb_nonzero ciL TB LTB ltac:(lia)) as (b' & Eb & Ob).
      destruct (Z.eq_dec (mg (p A)) 0) as [A0|A0].
      + assert (Z1 : lsb TA = 0%nat) by (apply lsb_zero; [exact LTA|lia]).
        assert (Z2 : lz = 0%nat).
        { unfold lz. rewrite Z1. destruct (Nat.ltb_spec (lsb TB) 0); lia. }
        exists 0, (mg (p Bm)). rewrite Z2, pow2_0. repeat split; try lia.
      + destruct (lsb_nonzero ciL TA LTA ltac:(lia)) as (a' & Ea & Oa).
        rewrite MTA in Ea. rewrite MTB in Eb.
        unfold lz. destruct (Nat.ltb_spec (lsb TB) (lsb TA)) as [Hlt|Hge].
        * exists (pow2 (lsb TA - lsb TB) * a'), b'.
          split; [|split; [exact Eb|split; [auto|intros; lia]]].
          rewrite Z.mul_assoc, <- pow2_add.
          replace (lsb TB + (lsb TA - lsb TB))%nat with (lsb TA) by lia. exact Ea.
        * exists a', (pow2 (lsb TB - lsb TA) * b').
          split; [exact Ea|split; [|split; [auto|intros; lia]]].
          rewrite Z.mul_assoc, <- pow2_add.
          replace (lsb TA + (lsb TB - lsb TA))%nat with (lsb TB) by lia. exact Eb. }
  destruct HLZ as (a1 & b1 & Ea1 & Eb1 & Hodd & Hlz0).
  pose proof (pow2_pos lz) as Hp.
  assert (Ha1 : 0 <= a1 <= mg (p A)) by nia.
  assert (Hb1 : 0 <= b1 <= mg (p Bm)) by nia.
  clearbody lz.
  destruct (shift_r_spec ciL MAX_LIMBS e ciL_pos W_pow TA lz LTA HM)
    as (TA1 & EA1 & LA1 & MA1 & _ & _ & NA1).
  destruct (shift_r_spec ciL MAX_LIMBS e ciL_pos W_pow TB lz LTB HM)
    as (TB1 & EB1 & LB1 & MB1 & _ & _ & NB1).
  rewrite EA1. cbn [MPI_CHK bind]. rewrite EB1. cbn [MPI_CHK bind].
  rewrite MTA, Ea1, Z.mul_comm, Z.div_mul in MA1 by lia.
  rewrite MTB, Eb1, Z.mul_comm, Z.div_mul in MB1 by lia.
  assert (HLOOP : exists TA' TB',
    gcd_loop ciL MAX_LIMBS fuel (set_sign 1 TA1) (set_sign 1 TB1) = Ok (TA', TB') /\
    lok (p TB') /\ s TB' = 1 /\ (n TB' <= MAX_LIMBS)%nat /\
    mg (p TB') = (if mg (p Bm) =? 0 then 0 else Z.gcd a1 b1)).
  { destruct (Z.eqb_spec (mg (p Bm)) 0) as [B0|B0].
    - pose proof (gcd_loop_zero MAX_LIMBS fuel (set_sign 1 TA1) (set_sign 1 TB1))
        as HS.
      unfold set_sign, n in *. cbn [s p] in HS. rewrite MA1, MB1 in HS.
      apply HS; auto; lia.
    - pose proof (gcd_loop_spec MAX_LIMBS fuel (set_sign 1 TA1) (set_sign 1 TB1))
        as HS.
      unfold set_sign, n in *. cbn [s p] in HS. rewrite MA1, MB1 in HS.
      apply HS; auto; lia. }
  destruct HLOOP as (TA' & TB' & EL & LB' & SB' & NB' & MB').
  rewrite EL. cbn [bind].
  (* the result shifted back fits in the limbs of [B] *)
  assert (Hfit : (sgx_mpi_msb ciL TB' + lz <= MAX_LIMBS * W)%nat).
  { destruct (msb_spec ciL TB' LB') as (_ & K2 & K3).
    destruct (Z.eqb_spec (mg (p Bm)) 0) as [B0|B0].
    - rewrite (Hlz0 B0). clear - K3 NB'. unfold n in *. nia.
    - assert (Hb1' : 0 < b1) by (clear - Eb1 B0 Hp Hb1; nia).
      assert (Hg : mg (p TB') <= b1).
      { rewrite MB'. apply Z.divide_pos_le; [lia|apply Z.gcd_divide_r]. }
      assert (Hg0 : 0 < mg (p TB')).
      { rewrite MB'. pose proof (Z.gcd_nonneg a1 b1).
        destruct (Z.eq_dec (Z.gcd a1 b1) 0) as [G0|]; [|lia].
        apply Z.gcd_eq_0_r in G0. lia. }
      assert (Hm : (0 < sgx_mpi_msb ciL TB')%nat).
      { destruct (msb_spec ciL TB' LB') as (K1 & _ & _).
        destruct (sgx_mpi_msb ciL TB'); [rewrite pow2_0 in K1|]; lia. }
      specialize (K2 Hm).
      assert (Hlt : pow2 (sgx_mpi_msb ciL TB' - 1 + lz) < pow2 (n Bm * W)).
      { rewrite <- (Bpow_pow2 ciL), pow2_add. unfold n.
        apply Z.le_lt_trans with (mg (p Bm)); [|apply MB].
        rewrite Eb1. clear - K2 Hg Hp. nia. }
      apply pow2_lt_inv in Hlt. clear - Hlt NB Hm. nia. }
  destruct (shift_l_fit ciL MAX_LIMBS e ciL_pos W_pow MAX_LIMBS TB' lz LB' NB' Hfit
              ltac:(lia))
    as (TB2 & E2 & L2 & M2 & S2 & N2 & _).
  rewrite E2. cbn [MPI_CHK bind].
  destruct (copy_fit ciL MAX_LIMBS ciL_pos MAX_LIMBS G TB2 L2 NG ltac:(lia)
              ltac:(lia))
    as (G' & EG & LG & MG & NG' & SG1 & SG2).
  exists G'. rewrite EG. cbn [MPI_CHK]. split; [reflexivity|].
  assert (SG : s G' = 1).
  { destruct (p TB2) eqn:EP.
    - rewrite (SG2 eq_refl). reflexivity.
    - destruct (SG1 ltac:(discriminate)) as (-> & _). congruence. }
  split; [split; [left; exact SG|exact LG]|]. split; [exact SG|].
  unfold value. rewrite SG, Z.mul_1_l, MG, M2, MB'.
  destruct (Z.eqb_spec (mg (p Bm)) 0) as [B0|B0]; [lia|].
  rewrite Ea1, Eb1, Z.gcd_mul_mono_l_nonneg by lia. ring.
Qed.

End Gcd.

(** X23: [sgx_mpi_lsb] counts the trailing zero bits of the magnitude: for
    [X <> 0] the value is [2 ^ lsb] times an odd number, and for [X = 0]
    (also for an [X] without limbs) the result is 0. *)
Theorem lsb_counts_trailing_zeros (ciL : nat) (X : mpi) :
  wf ciL X ->
  (value ciL X = 0 -> sgx_mpi_lsb ciL X = 0%nat) /\
  (value ciL X <> 0 ->
   exists m, value ciL X = pow2 (sgx_mpi_lsb ciL X) * m /\ m mod 2 = 1).
Proof.
  intros [SX LX]. unfold value. split.
  - intros E. apply lsb_zero; [exact LX|]. destruct SX as [ES|ES]; rewrite ES in E; lia.
  - intros N.
    destruct (lsb_nonzero ciL X LX) as (m & E1 & E2).
    { intros E0. apply N. rewrite E0. ring. }
    destruct SX as [ES|ES]; rewrite ES.
    + exists m. split; [rewrite E1; ring|exact E2].
    + exists (- m). split; [rewrite E1; ring|].
      pose proof (Z.div_mod m 2 ltac:(lia)) as D.
      replace (- m) with (1 + (- (m / 2) - 1) * 2) by lia.
      rewrite Z.mod_add by lia. reflexivity.
Qed.

Lemma lsb_counts_trailing_zeros_witness :
  let X := mk_mpi (-1) [0; 40; 0] in
  (value 1 X = 0 -> sgx_mpi_lsb 1 X = 0%nat) /\
  (value 1 X <> 0 ->
   exists m, value 1 X = pow2 (sgx_mpi_lsb 1 X) * m /\ m mod 2 = 1).
Proof.
  intros X. apply (lsb_counts_trailing_zeros 1 X). concrete_wf.
Defined.

(** X24: with a limb width that is a power of two, [sgx_mpi_gcd] on
    well-formed operands within the limb bound ([B] allocated, the
    allocator not failing) returns 0 and sets [G], with sign [+1], to the
    greatest common divisor of [A] and [B] when [B <> 0], which is [|B|]
    for [A = 0]; but for [B = 0] it sets [G] to 0 whatever [A] is. *)
Theorem gcd_is_greatest_common_divisor
    (ciL MAX_LIMBS e fuel : nat) (G A Bm : mpi) :
  (0 < ciL)%nat -> biL ciL = (2 ^ e)%nat ->
  wf ciL A -> wf ciL Bm -> (0 < n Bm)%nat ->
  (n A <= MAX_LIMBS)%nat -> (n Bm <= MAX_LIMBS)%nat -> (n G <= MAX_LIMBS)%nat ->
  (1 <= MAX_LIMBS)%nat ->
  Z.abs (value ciL A) + Z.abs (value ciL Bm) < Z.of_nat fuel ->
  exists G', sgx_mpi_gcd ciL MAX_LIMBS fuel G A Bm = Ok G' /\
    wf ciL G' /\ s G' = 1 /\
    value ciL G' = if value ciL Bm =? 0 then 0
                   else Z.gcd (value ciL A) (value ciL Bm).
Proof.
  intros Hc Hw HA HB _ NA NB NG HM Hf.
  pose proof (mag_abs ciL Hc A HA) as EA.
  pose proof (mag_abs ciL Hc Bm HB) as EB.
  destruct (gcd_total ciL MAX_LIMBS e Hc Hw fuel G A Bm HA HB NA NB NG HM
              ltac:(rewrite EA, EB; exact Hf))
    as (G' & E & WG & SG & VG).
  exists G'. split; [exact E|]. split; [exact WG|]. split; [exact SG|].
  rewrite EA, EB, Z.gcd_abs_l, Z.gcd_abs_r in VG.
  rewrite VG. destruct (Z.eqb_spec (value ciL Bm) 0) as [B0|B0].
  - rewrite B0. reflexivity.
  - destruct (Z.eqb_spec (Z.abs (value ciL Bm)) 0); [lia|reflexivity].
Qed.

Lemma gcd_is_greatest_common_divisor_witness :
  let A := mk_mpi (-1) [84] in
  let Bm := mk_mpi 1 [120; 0] in
  exists G', sgx_mpi_gcd 1 100 300 sgx_mpi_init A Bm = Ok G' /\
    wf 1 G' /\ s G' = 1 /\
    value 1 G' = if value 1 Bm =? 0 then 0
                 else Z.gcd (value 1 A) (value 1 Bm).
Proof.
  intros A Bm.
  apply (gcd_is_greatest_common_divisor 1 100 3 300 sgx_mpi_init A Bm);
    [lia | reflexivity | concrete_wf | concrete_wf
    | vm_compute; lia | vm_compute; lia | vm_compute; lia | vm_compute; lia
    | lia | vm_compute; reflexivity].
Defined.

(** ** Binary import of arbitrary bytes *)

Lemma be_value_bound (l : list Z) :
  Forall (fun b => 0 <= b < 256) l -> 0 <= be_value l < pow2 (8 * length l).
Proof.
  induction 1 as [|b l Hb Hl IH]; cbn [be_value length].
  - change (pow2 (8 * 0)) with 1. lia.
  - replace (8 * S (length l))%nat with (8 * length l + 8)%nat by lia.
    rewrite pow2_add, pow2_8.
    assert (E : 256 ^ Z.of_nat (length l) = pow2 (8 * length l)).
    { unfold pow2. change 256 with (2 ^ 8). rewrite <- Z.pow_mul_r by lia.
      f_equal. lia. }
    rewrite E. nia.
Qed.

(** Bytes counted from the end are the base-256 digits of the value. *)
Lemma be_value_byte (l : list Z) :
  Forall (fun b => 0 <= b < 256) l ->
  forall j, (j < length l)%nat ->
    limb l (length l - 1 - j) = (be_value l / pow2 (8 * j)) mod 256.
Proof.
  induction 1 as [|b l Hb Hl IH]; intros j Hj; cbn [length] in *; [lia|].
  cbn [be_value].
  pose proof (be_value_bound l Hl) as Hv.
  assert (E : 256 ^ Z.of_nat (length l) = pow2 (8 * length l)).
  { unfold pow2. change 256 with (2 ^ 8). rewrite <- Z.pow_mul_r by lia.
    f_equal. lia. }
  rewrite E. pose proof (pow2_pos (8 * j)) as Pj.
  destruct (Nat.eq_dec j (length l)) as [->|Hne].
  - replace (S (length l) - 1 - length l)%nat with 0%nat by lia.
    unfold limb. cbn [nth].
    rewrite Z.div_add_l by lia. rewrite Z.div_small by lia.
    rewrite Z.add_0_r. symmetry. apply Z.mod_small. lia.
  - replace (S (length l) - 1 - j)%nat with (S (length l - 1 - j)) by lia.
    unfold limb. cbn [nth]. fold (limb l (length l - 1 - j)).
    rewrite IH by lia.
    assert (Es : pow2 (8 * length l)
                 = 256 * pow2 (8 * (length l - 1 - j)) * pow2 (8 * j)).
    { rewrite <- pow2_8, <- !pow2_add. f_equal. lia. }
    rewrite Es.
    replace (b * (256 * pow2 (8 * (length l - 1 - j)) * pow2 (8 * j)))
      with (b * 256 * pow2 (8 * (length l - 1 - j)) * pow2 (8 * j)) by ring.
    rewrite Z.div_add_l by lia.
    replace (b * 256 * pow2 (8 * (length l - 1 - j)))
      with (b * pow2 (8 * (length l - 1 - j)) * 256) by ring.
    rewrite Z.add_comm, Z.mod_add by lia. reflexivity.
Qed.

(** Leading zero bytes do not count. *)
Lemma be_value_lead (l : list Z) :
  Forall (fun b => 0 <= b < 256) l ->
  forall a, (a <= length l)%nat -> (forall j, (j < a)%nat -> limb l j = 0) ->
    be_value l < pow2 (8 * (length l - a)).
Proof.
  induction 1 as [|b l Hb Hl IH]; intros a Ha Hz; cbn [length] in *.
  - change (pow2 (8 * (0 - a))) with 1. cbn. lia.
  - destruct a as [|a].
    + rewrite Nat.sub_0_r.
      apply (be_value_bound (b :: l)). constructor; assumption.
    + cbn [be_value]. pose proof (Hz 0%nat ltac:(lia)) as H0.
      unfold limb in H0. cbn [nth] in H0. rewrite H0, Z.mul_0_l, Z.add_0_l.
      replace (S (length l) - S a)%nat with (length l - a)%nat by lia.
      apply IH; [lia|]. intros j Hj. apply (Hz (S j)). lia.
Qed.

Lemma skip_zeros_props (buf : list Z) (cnt : nat) :
  forall i, let r := skip_zeros buf cnt i in
    (i <= r <= i + cnt)%nat /\ (forall j, (i <= j < r)%nat -> limb buf j = 0).
Proof.
  induction cnt as [|cnt IH]; intros i; cbn [skip_zeros].
  - cbv zeta. split; [lia|intros; lia].
  - destruct (Z.eqb_spec (limb buf i) 0) as [E|N]; cbn [negb].
    + destruct (IH (S i)) as [I1 I2]. cbv zeta. split; [lia|].
      intros j Hj. destruct (Nat.eq_dec j i) as [->|]; [exact E|].
      apply I2. lia.
    + cbv zeta. split; [lia|intros; lia].
Qed.

Section ReadBinary.

Variables ciL MAX_LIMBS : nat.
Hypothesis ciL_pos : (0 < ciL)%nat.

Local Abbreviation mg := (mag ciL).
Local Abbreviation lok := (limbs_ok ciL).

Lemma read_binary_spec (X : mpi) (buf : list Z) (buflen : nat) :
  Forall (fun b => 0 <= b < 256) buf -> (buflen <= length buf)%nat ->
  (1 <= MAX_LIMBS)%nat -> (CHARS_TO_LIMBS ciL buflen <= MAX_LIMBS)%nat ->
  exists X', sgx_mpi_read_binary ciL MAX_LIMBS X buf buflen = (X', None) /\
    lok (p X') /\ s X' = 1 /\ mg (p X') = be_value (firstn buflen buf) /\
    (Nat.max 1 (n X) <= n X')%nat.
Proof.
  intros Hbuf Hlen HM HC.
  set (fb := firstn buflen buf).
  assert (Hfb : Forall (fun b => 0 <= b < 256) fb).
  { unfold fb. rewrite <- (firstn_skipn buflen buf) in Hbuf.
    apply Forall_app in Hbuf. apply Hbuf. }
  assert (Lfb : length fb = buflen) by (unfold fb; rewrite length_firstn; lia).
  destruct (skip_zeros_props buf buflen 0) as [R1 R2]. cbv zeta in R1, R2.
  unfold sgx_mpi_read_binary.
  set (a := skip_zeros buf buflen 0) in *. set (k := (buflen - a)%nat).
  assert (Hm : 0 <= be_value fb < pow2 (8 * k)).
  { split; [apply be_value_bound; exact Hfb|]. unfold k. rewrite <- Lfb.
    apply be_value_lead; [exact Hfb|lia|].
    intros j Hj. unfold fb. rewrite limb_firstn by lia. apply R2. lia. }
  assert (Hbytes : forall j, (j < k)%nat ->
            limb buf (a + k - 1 - j) = (be_value fb / pow2 (8 * j)) mod 256).
  { intros j Hj. rewrite <- (be_value_byte fb Hfb j) by lia.
    rewrite Lfb. unfold fb. rewrite limb_firstn by lia. f_equal. unfold k. lia. }
  assert (Hck : (k <= CHARS_TO_LIMBS ciL k * ciL)%nat).
  { unfold CHARS_TO_LIMBS.
    pose proof (Nat.div_mod_eq (k + ciL - 1) ciL).
    pose proof (Nat.mod_upper_bound (k + ciL - 1) ciL ltac:(lia)). lia. }
  assert (Hmono : (CHARS_TO_LIMBS ciL k <= CHARS_TO_LIMBS ciL buflen)%nat).
  { unfold CHARS_TO_LIMBS. apply Nat.Div0.div_le_mono. unfold k. lia. }
  rewrite (grow_ok MAX_LIMBS) by lia. cbn [and_then].
  rewrite (lset_ok ciL MAX_LIMBS) by lia. cbn [and_then s p].
  rewrite abs_limb_0.
  set (Y1 := {| s := s X; p := p X ++ repeat 0 (CHARS_TO_LIMBS ciL k - n X) |}).
  assert (HY1 : (CHARS_TO_LIMBS ciL k <= n Y1)%nat /\ (n X <= n Y1)%nat).
  { unfold Y1, n. cbn [p]. rewrite length_app, repeat_length. lia. }
  set (l0 := 0 :: repeat 0 (Nat.max 1 (n Y1) - 1)).
  assert (Hl0 : lok l0 /\ length l0 = Nat.max 1 (n Y1) /\ mg l0 = 0).
  { assert (E0 : l0 = repeat 0 (S (Nat.max 1 (n Y1) - 1))) by reflexivity.
    rewrite E0. repeat split.
    - apply limbs_ok_repeat0.
    - rewrite repeat_length. lia.
    - apply mag_repeat0. }
  destruct Hl0 as (L1 & L2 & L3).
  destruct (import_loop ciL ciL_pos (be_value fb) a k buf (Nat.max 1 (n Y1)) Hbytes
              ltac:(nia) k l0 ltac:(lia) L1 L2) as (I1 & I2 & I3).
  { rewrite Nat.sub_diag. change (pow2 (8 * 0)) with 1. rewrite Z.mod_1_r. exact L3. }
  cbv zeta in I1, I2, I3.
  replace (a + k)%nat with buflen in * by (unfold k; lia).
  eexists. split; [reflexivity|]. cbn [s p]. unfold n at 2. cbn [p].
  split; [exact I1|]. split; [reflexivity|].
  split; [rewrite I3; apply Z.mod_small; exact Hm|]. rewrite I2. lia.
Qed.

End ReadBinary.

(** X25: [sgx_mpi_read_binary] imports [buflen] bytes as an unsigned
    big-endian number: within the limb bound (the allocator not failing) it
    returns 0 and leaves [X] well formed, with sign [+1] and the value of
    the bytes (leading zero bytes do not count), and it never shrinks
    [X]. *)
Theorem read_binary_is_big_endian
    (ciL MAX_LIMBS : nat) (X : mpi) (buf : list Z) (buflen : nat) :
  (0 < ciL)%nat -> Forall (fun b => 0 <= b < 256) buf ->
  (buflen <= length buf)%nat ->
  (1 <= MAX_LIMBS)%nat -> (CHARS_TO_LIMBS ciL buflen <= MAX_LIMBS)%nat ->
  exists X', sgx_mpi_read_binary ciL MAX_LIMBS X buf buflen = (X', None) /\
    wf ciL X' /\ s X' = 1 /\
    value ciL X' = be_value (firstn buflen buf) /\
    (Nat.max 1 (n X) <= n X')%nat.
Proof.
  intros Hc Hbuf Hlen HM HC.
  destruct (read_binary_spec ciL MAX_LIMBS Hc X buf buflen Hbuf Hlen HM HC)
    as (X' & E & R1 & R2 & R3 & R4).
  exists X'. split; [exact E|]. split; [split; [left; exact R2|exact R1]|].
  split; [exact R2|]. split; [|exact R4].
  unfold value. rewrite R2, R3. ring.
Qed.

Lemma read_binary_is_big_endian_witness :
  let X := mk_mpi (-1) [7; 7; 7] in
  let buf := [0; 0; 1; 2; 3; 4; 5; 9; 9] in
  exists X', sgx_mpi_read_binary 2 100 X buf 7 = (X', None) /\
    wf 2 X' /\ s X' = 1 /\
    value 2 X' = be_value (firstn 7 buf) /\
    (Nat.max 1 (n X) <= n X')%nat.
Proof.
  intros X buf.
  apply (read_binary_is_big_endian 2 100 X buf 7);
    [lia | repeat constructor; vm_compute; congruence | vm_compute; lia | lia
    | vm_compute; lia].
Defined.

(** X28: [sgx_mpi_fill_random] refuses a size above [MAX_SIZE] with
    [BAD_INPUT_DATA] without calling the generator, hands on the
    generator's error code when it fails, and otherwise imports the [size]
    generated bytes as an unsigned big-endian number: [X] is left well
    formed, non-negative and worth those bytes. *)
Theorem fill_random_imports_generated_bytes
    (ciL MAX_LIMBS MAX_SIZE : nat) (rng_state : Type)
    (rng : rng_state -> nat -> rng_state * list Z * Z)
    (X : mpi) (size : nat) (g : rng_state) :
  (0 < ciL)%nat -> (1 <= MAX_LIMBS)%nat ->
  (CHARS_TO_LIMBS ciL MAX_SIZE <= MAX_LIMBS)%nat ->
  let r := sgx_mpi_fill_random ciL MAX_LIMBS MAX_SIZE rng_state rng X size g in
  let g1 := fst (fst (rng g size)) in
  let buf := snd (fst (rng g size)) in
  let rc := snd (rng g size) in
  ((MAX_SIZE < size)%nat -> r = Err BAD_INPUT_DATA) /\
  ((size <= MAX_SIZE)%nat -> rc <> 0 -> r = Err (RNG_FAILED rc)) /\
  ((size <= MAX_SIZE)%nat -> rc = 0 ->
   Forall (fun b => 0 <= b < 256) buf -> (size <= length buf)%nat ->
   exists X', r = Ok (X', g1) /\ wf ciL X' /\ s X' = 1 /\
              value ciL X' = be_value (firstn size buf)).
Proof.
  intros Hc HM HS r g1 buf rc. subst r g1 buf rc.
  unfold sgx_mpi_fill_random.
  destruct (rng g size) as [[g1 buf] rc]. cbn [fst snd].
  destruct (Nat.ltb_spec MAX_SIZE size) as [Hgt|Hle].
  { split; [reflexivity|]. split; intros; lia. }
  split; [intros; lia|].
  destruct (Z.eqb_spec rc 0) as [E0|N0]; cbn [negb].
  - split; [intros; contradiction|]. intros _ _ Hbuf Hlen.
    assert (HC : (CHARS_TO_LIMBS ciL size <= MAX_LIMBS)%nat).
    { apply Nat.le_trans with (CHARS_TO_LIMBS ciL MAX_SIZE); [|exact HS].
      unfold CHARS_TO_LIMBS. apply Nat.Div0.div_le_mono. lia. }
    destruct (read_binary_spec ciL MAX_LIMBS Hc X buf size Hbuf Hlen HM HC)
      as (X' & E & R1 & R2 & R3 & _).
    exists X'. rewrite E. cbn [MPI_CHK bind]. split; [reflexivity|].
    split; [split; [left; exact R2|exact R1]|]. split; [exact R2|].
    unfold value. rewrite R2, R3. ring.
  - split; [reflexivity|]. intros; contradiction.
Qed.

Lemma fill_random_imports_generated_bytes_witness :
  let rng := fun (g : nat) (k : nat) => (S g, repeat 171 k, 0) in
  let X := mk_mpi (-1) [5] in
  let r := sgx_mpi_fill_random 4 100 256 nat rng X 6 7%nat in
  let g1 := fst (fst (rng 7%nat 6%nat)) in
  let buf := snd (fst (rng 7%nat 6%nat)) in
  let rc := snd (rng 7%nat 6%nat) in
  ((256 < 6)%nat -> r = Err BAD_INPUT_DATA) /\
  ((6 <= 256)%nat -> rc <> 0 -> r = Err (RNG_FAILED rc)) /\
  ((6 <= 256)%nat -> rc = 0 ->
   Forall (fun b => 0 <= b < 256) buf -> (6 <= length buf)%nat ->
   exists X', r = Ok (X', g1) /\ wf 4 X' /\ s X' = 1 /\
              value 4 X' = be_value (firstn 6 buf)).
Proof.
  intros rng X.
  apply (fill_random_imports_generated_bytes 4 100 256 nat rng X 6 7%nat);
    [lia | lia | vm_compute; lia].
Defined.

(** ** Trial division *)

Section SmallFactors.

Variable ciL : nat.
Hypothesis ciL_ge : (3 <= ciL)%nat.

Local Abbreviation val := (value ciL).

Lemma half_limb_ge : 4096 <= pow2 (biH ciL).
Proof.
  change 4096 with (pow2 12). apply pow2_mono. unfold biH. lia.
Qed.

Lemma base_ge : 4096 * 4096 <= base ciL.
Proof.
  pose proof half_limb_ge. rewrite base_pow2. unfold biL, biH in *.
  replace (ciL * 8)%nat with (ciL * 4 + ciL * 4)%nat by lia. rewrite pow2_add. nia.
Qed.

(** The loop of [sgx_mpi_check_small_factors] over an increasing table of
    positive entries closed by a non-positive one. *)
Lemma small_factors_loop_spec (X : mpi) (stop : Z) (pl : list Z) :
  wf ciL X -> stop <= 0 ->
  ForallOrdPairs Z.lt pl -> Forall (fun q => 0 < q <= 4096) pl ->
  let r := small_factors_loop ciL X (pl ++ [stop]) in
  (r = Err NOT_ACCEPTABLE /\ exists q, In q pl /\ q < val X /\ val X mod q = 0) \/
  (r = Ok 1 /\ (exists q, In q pl /\ val X <= q) /\
   forall q, In q pl -> q < val X -> val X mod q <> 0) \/
  (r = Ok 0 /\ forall q, In q pl -> q < val X /\ val X mod q <> 0).
Proof.
  intros HX Hstop Hs Hr. pose proof half_limb_ge as HH. pose proof base_ge as HB.
  induction Hs as [|q pl Hq Hs IH]; cbn [app small_factors_loop].
  - destruct (Z.gtb_spec stop 0); [lia|]. right. right.
    split; [reflexivity|]. intros q [].
  - apply Forall_cons_iff in Hr. destruct Hr as [Rq Rl]. specialize (IH Rl).
    destruct (Z.gtb_spec q 0); [|lia].
    rewrite (cmp_int_spec ciL X q HX) by lia.
    destruct (Z.leb_spec (Z.sgn (val X - q)) 0) as [Hc|Hc].
    + assert (Hle : val X <= q).
      { destruct (Z.le_gt_cases (val X) q); auto.
        pose proof (Z.sgn_pos_iff (val X - q)) as [_ F]. lia. }
      right. left. split; [reflexivity|]. split.
      * exists q. split; [left; reflexivity|exact Hle].
      * intros q' [->|Hin] Hlt; [lia|].
        rewrite Forall_forall in Hq. specialize (Hq q' Hin). lia.
    + assert (Hlt : q < val X).
      { destruct (Z.lt_ge_cases q (val X)); auto.
        pose proof (Z.sgn_nonpos (val X - q)). lia. }
      rewrite (mod_int_spec ciL ltac:(lia) X q HX) by lia. cbn [bind].
      destruct (Z.eqb_spec (val X mod q) 0) as [E0|N0].
      * left. split; [reflexivity|]. exists q. split; [left; reflexivity|auto].
      * cbv zeta in IH. destruct IH as [(E & q' & I1 & I2)|[(E & (q' & I1 & I2) & I3)|(E & I1)]].
        -- left. split; [exact E|]. exists q'. split; [right; exact I1|exact I2].
        -- right. left. split; [exact E|]. split.
           ++ exists q'. split; [right; exact I1|exact I2].
           ++ intros q'' [->|Hin] Hq''; auto.
        -- right. right. split; [exact E|].
           intros q'' [->|Hin]; auto.
Qed.

End SmallFactors.

Lemma chain_sorted (l : list Z) :
  forallb (fun ab => fst ab <? snd ab) (combine l (tl l)) = true ->
  ForallOrdPairs Z.lt l.
Proof.
  induction l as [|a l IH]; [constructor|].
  destruct l as [|b l]; [intros _; repeat constructor|].
  cbn [tl combine forallb fst snd]. intros H.
  apply andb_true_iff in H. destruct H as [Hab Hl].
  apply Z.ltb_lt in Hab. specialize (IH Hl).
  constructor; [|exact IH].
  inversion IH as [|b' l' Hb Hl']; subst.
  constructor; [exact Hab|].
  eapply Forall_impl; [|exact Hb]. cbv beta. intros c Hc. lia.
Qed.

Lemma small_prime_table :
  small_prime = removelast small_prime ++ [-103] /\
  ForallOrdPairs Z.lt (removelast small_prime) /\
  Forall (fun q => 0 < q <= 4096) (removelast small_prime) /\
  Forall (fun q => q <= 997) (removelast small_prime) /\
  In 997 (removelast small_prime).
Proof.
  split; [reflexivity|]. split; [apply chain_sorted; vm_compute; reflexivity|].
  split; [|split].
  - apply Forall_forall. intros q Hq.
    assert (H : forallb (fun q => (0 <? q) && (q <=? 4096)) (removelast small_prime)
                = true) by (vm_compute; reflexivity).
    rewrite forallb_forall in H. specialize (H q Hq).
    apply andb_true_iff in H. lia.
  - apply Forall_forall. intros q Hq.
    assert (H : forallb (fun q => q <=? 997) (removelast small_prime) = true)
      by (vm_compute; reflexivity).
    rewrite forallb_forall in H. specialize (H q Hq). lia.
  - assert (H : existsb (fun q => q =? 997) (removelast small_prime) = true)
      by (vm_compute; reflexivity).
    apply existsb_exists in H. destruct H as (q & Hq & E).
    apply Z.eqb_eq in E. subst q. exact Hq.
Qed.

(** [sgx_mpi_check_small_factors] has three outcomes. *)
Lemma check_small_factors_cases (ciL : nat) (X : mpi) :
  (3 <= ciL)%nat -> wf ciL X -> (0 < n X)%nat -> 0 <= value ciL X ->
  let v := value ciL X in
  let r := sgx_mpi_check_small_factors ciL X in
  let hit := v mod 2 = 0 \/
             exists q, In q small_prime /\ 0 < q < v /\ v mod q = 0 in
  (r = Err NOT_ACCEPTABLE /\ hit) \/
  (r = Ok 1 /\ ~ hit /\ v <= 997) \/
  (r = Ok 0 /\ ~ hit /\ 997 < v).
Proof.
  intros Hc HX Hn Hv v r hit.
  destruct small_prime_table as (Et & Hs & Hr & Hm & H997).
  assert (Hin : forall q, In q (removelast small_prime) -> In q small_prime /\ 0 < q <= 997).
  { intros q Hq. split.
    - rewrite Et. apply in_or_app. left. exact Hq.
    - rewrite Forall_forall in Hr, Hm. specialize (Hr q Hq). specialize (Hm q Hq). lia. }
  assert (Hin' : forall q, In q small_prime -> 0 < q -> In q (removelast small_prime)).
  { intros q Hq Hpos. rewrite Et in Hq. apply in_app_or in Hq.
    destruct Hq as [Hq|[Hq|[]]]; [exact Hq|lia]. }
  assert (Ep : (Z.land (limb (p X) 0) 1 =? 0) = Z.even v).
  { apply (value_parity ciL ltac:(lia) X HX Hn). }
  assert (Ev : Z.even v = true <-> v mod 2 = 0).
  { rewrite Z.even_spec. split.
    - intros [c ->]. rewrite Z.mul_comm. apply Z.mod_mul. lia.
    - intros E. exists (v / 2). pose proof (Z.div_mod v 2 ltac:(lia)). lia. }
  pose proof (small_factors_loop_spec ciL Hc X (-103) (removelast small_prime) HX
                ltac:(lia) Hs Hr) as HL.
  cbv zeta in HL. rewrite <- Et in HL.
  subst r. unfold sgx_mpi_check_small_factors. rewrite Ep.
  destruct (Z.even v) eqn:Eev.
  { left. split; [reflexivity|]. left. apply Ev. reflexivity. }
  assert (Hodd : v mod 2 <> 0).
  { intros E. apply Ev in E. congruence. }
  fold v in HL.
  destruct HL as [(E & q & I1 & I2 & I3)|[(E & (q & I1 & I2) & I3)|(E & I1)]];
    rewrite E.
  - left. split; [reflexivity|].
    right. exists q. destruct (Hin q I1). repeat split; auto; lia.
  - right. left. split; [reflexivity|]. destruct (Hin q I1) as [_ Hq].
    split; [|lia].
    intros [Hh|(q' & J1 & J2 & J3)]; [contradiction|].
    apply (I3 q'); auto; try lia. apply Hin'; auto; lia.
  - right. right. split; [reflexivity|]. destruct (I1 997 H997) as [Hgt _].
    split; [|lia].
    intros [Hh|(q' & J1 & J2 & J3)]; [contradiction|].
    destruct (I1 q') as [_ F]; [apply Hin'; auto; lia|]. contradiction.
Qed.

(** X26: [sgx_mpi_check_small_factors] is trial division by 2 and by the
    odd primes below 1000 of its table, on limbs of at least 24 bits: for
    an allocated well-formed [X >= 0] it returns [NOT_ACCEPTABLE] exactly
    when [X] is even or a table prime smaller than [X] divides it;
    otherwise it returns 1 when [X <= 997] and 0 when [X > 997].  No other
    outcome occurs. *)
Theorem check_small_factors_is_trial_division (ciL : nat) (X : mpi) :
  (3 <= ciL)%nat -> wf ciL X -> (0 < n X)%nat -> 0 <= value ciL X ->
  let v := value ciL X in
  let r := sgx_mpi_check_small_factors ciL X in
  let hit := v mod 2 = 0 \/
             exists q, In q small_prime /\ 0 < q < v /\ v mod q = 0 in
  (r = Err NOT_ACCEPTABLE <-> hit) /\
  (r = Ok 1 <-> ~ hit /\ v <= 997) /\
  (r = Ok 0 <-> ~ hit /\ 997 < v) /\
  (r = Err NOT_ACCEPTABLE \/ r = Ok 1 \/ r = Ok 0).
Proof.
  intros Hc HX Hn Hv v r hit.
  pose proof (check_small_factors_cases ciL X Hc HX Hn Hv) as HC.
  cbv zeta in HC. fold v r hit in HC.
  destruct HC as [(E & Hh)|[(E & Hh & Hb)|(E & Hh & Hb)]]; rewrite E.
  - split; [tauto|]. split; [split; [discriminate|tauto]|].
    split; [split; [discriminate|tauto]|auto].
  - split; [split; [discriminate|tauto]|].
    split; [tauto|]. split; [|auto].
    split; [discriminate|]. intros [_ F]. lia.
  - split; [split; [discriminate|tauto]|].
    split; [|split; [tauto|auto]].
    split; [discriminate|]. intros [_ F]. lia.
Qed.

Lemma check_small_factors_is_trial_division_witness :
  let X := mk_mpi 1 [221] in
  let v := value 4 X in
  let r := sgx_mpi_check_small_factors 4 X in
  let hit := v mod 2 = 0 \/
             exists q, In q small_prime /\ 0 < q < v /\ v mod q = 0 in
  (r = Err NOT_ACCEPTABLE <-> hit) /\
  (r = Ok 1 <-> ~ hit /\ v <= 997) /\
  (r = Ok 0 <-> ~ hit /\ 997 < v) /\
  (r = Err NOT_ACCEPTABLE \/ r = Ok 1 \/ r = Ok 0).
Proof.
  intros X.
  apply (check_small_factors_is_trial_division 4 X);
    [lia | concrete_wf | vm_compute; lia | vm_compute; congruence].
Defined.

(** X27: the first stages of [sgx_mpi_is_prime], on limbs of at least 24
    bits and a well-formed [X]: [|X| <= 1] is refused with
    [NOT_ACCEPTABLE]; [|X| = 2] is accepted; [|X| > 2] that is even or
    divisible by a smaller prime of the table is refused with
    [NOT_ACCEPTABLE]; and every other [|X| <= 997] is accepted.  In all
    these cases the random generator is not called. *)
Theorem is_prime_small_cases
    (ciL MAX_LIMBS WINDOW_SIZE MAX_SIZE : nat) (rng_state : Type)
    (rng : rng_state -> nat -> rng_state * list Z * Z)
    (fuel : nat) (X : mpi) (g : rng_state) :
  (3 <= ciL)%nat -> wf ciL X ->
  let v := Z.abs (value ciL X) in
  let r := sgx_mpi_is_prime ciL MAX_LIMBS WINDOW_SIZE MAX_SIZE rng_state rng fuel X g in
  let hit := v mod 2 = 0 \/
             exists q, In q small_prime /\ 0 < q < v /\ v mod q = 0 in
  (v <= 1 -> r = Err NOT_ACCEPTABLE) /\
  (v = 2 -> r = Ok g) /\
  (2 < v -> hit -> r = Err NOT_ACCEPTABLE) /\
  (2 < v <= 997 -> ~ hit -> r = Ok g).
Proof.
  intros Hc HX v r hit. pose proof (base_ge ciL Hc) as HB.
  pose proof (mag_abs ciL ltac:(lia) X HX) as Ea. fold v in Ea.
  destruct HX as [SX LX].
  set (XX := mk_mpi 1 (p X)).
  assert (WX : wf ciL XX) by (split; [left; reflexivity|exact LX]).
  assert (VX : value ciL XX = v).
  { unfold value, XX. cbn [s p]. rewrite Ea. lia. }
  assert (Hv : 0 <= v) by apply Z.abs_nonneg.
  subst r. unfold sgx_mpi_is_prime. fold XX.
  rewrite !(cmp_int_spec ciL XX _ WX) by lia. rewrite VX.
  assert (C0 : (Z.sgn (v - 0) =? 0) = (v =? 0)).
  { destruct (Z.eqb_spec v 0) as [->|N]; [reflexivity|].
    apply Z.eqb_neq. intros F. apply Z.sgn_null_iff in F. lia. }
  assert (C1 : (Z.sgn (v - 1) =? 0) = (v =? 1)).
  { destruct (Z.eqb_spec v 1) as [->|N]; [reflexivity|].
    apply Z.eqb_neq. intros F. apply Z.sgn_null_iff in F. lia. }
  assert (C2 : (Z.sgn (v - 2) =? 0) = (v =? 2)).
  { destruct (Z.eqb_spec v 2) as [->|N]; [reflexivity|].
    apply Z.eqb_neq. intros F. apply Z.sgn_null_iff in F. lia. }
  rewrite C0, C1, C2.
  destruct (Z.eqb_spec v 0) as [E0|N0]; cbn [orb].
  { repeat split; intros; try lia; reflexivity. }
  destruct (Z.eqb_spec v 1) as [E1|N1].
  { repeat split; intros; try lia; reflexivity. }
  destruct (Z.eqb_spec v 2) as [E2|N2].
  { repeat split; intros; try lia; reflexivity. }
  assert (Hn : (0 < n XX)%nat).
  { unfold n, XX. cbn [p]. destruct (p X); [cbn in Ea; lia|cbn; lia]. }
  pose proof (check_small_factors_cases ciL XX Hc WX Hn ltac:(lia)) as HC.
  cbv zeta in HC. rewrite VX in HC. fold hit in HC.
  destruct HC as [(E & Hh)|[(E & Hh & Hb)|(E & Hh & Hb)]]; rewrite E; cbn [bind].
  - repeat split; intros; try lia; try reflexivity; contradiction.
  - cbn [Z.eqb negb]. repeat split; intros; try lia; try reflexivity; contradiction.
  - repeat split; intros; try lia; contradiction.
Qed.

Lemma is_prime_small_cases_witness :
  let X := mk_mpi (-1) [0x3DD; 0] in
  let v := Z.abs (value 4 X) in
  let r := sgx_mpi_is_prime 4 100 6 1024 unit (fun g k => (g, repeat 0 k, 0)) 50 X tt in
  let hit := v mod 2 = 0 \/
             exists q, In q small_prime /\ 0 < q < v /\ v mod q = 0 in
  (v <= 1 -> r = Err NOT_ACCEPTABLE) /\
  (v = 2 -> r = Ok tt) /\
  (2 < v -> hit -> r = Err NOT_ACCEPTABLE) /\
  (2 < v <= 997 -> ~ hit -> r = Ok tt).
Proof.
  intros X.
  apply (is_prime_small_cases 4 100 6 1024 unit (fun g k => (g, repeat 0 k, 0)) 50 X tt);
    [lia | concrete_wf].
Defined.

(** ** Modular inverse *)

(** The parity argument of the binary extended Euclid: when [a x + b y] is
    even, [x] or [y] is odd and [a] or [b] is odd, then [a + y] and
    [b - x] are both even. *)
Lemma inv_adjust_even (a b x y : Z) :
  Z.even (a * x + b * y) = true ->
  Z.even x = false \/ Z.even y = false ->
  Z.even a = false \/ Z.even b = false ->
  Z.even (a + y) = true /\ Z.even (b - x) = true.
Proof.
  rewrite Z.even_add, !Z.even_mul, Z.even_add, Z.even_sub.
  destruct (Z.even a), (Z.even b), (Z.even x), (Z.even y); cbn;
    intros H [H1|H1] [H2|H2]; try discriminate; auto.
Qed.

Lemma inv_both_even (a b x y : Z) :
  Z.even (a * x + b * y) = true ->
  Z.even a = true -> Z.even b = true ->
  (a / 2) * x + (b / 2) * y = (a * x + b * y) / 2.
Proof.
  intros _ Ha Hb. apply Z.even_spec in Ha, Hb.
  destruct Ha as [c ->], Hb as [d ->].
  rewrite !(Z.mul_comm 2), !Z.div_mul by lia.
  replace (c * 2 * x + d * 2 * y) with ((c * x + d * y) * 2) by ring.
  rewrite Z.div_mul by lia. reflexivity.
Qed.

Lemma half_divides (u : Z) : Z.even u = true -> (u / 2 | u).
Proof.
  intros H. apply Z.even_spec in H. destruct H as [c ->].
  rewrite (Z.mul_comm 2), Z.div_mul by lia. exists 2. ring.
Qed.

Section InvMod.

Variables ciL MAX_LIMBS e : nat.
Hypothesis ciL_pos : (0 < ciL)%nat.
Hypothesis W_pow : biL ciL = (2 ^ e)%nat.
Hypothesis MAX_pos : (1 <= MAX_LIMBS)%nat.

Local Abbreviation B := (base ciL).
Local Abbreviation mg := (mag ciL).
Local Abbreviation lok := (limbs_ok ciL).
Local Abbreviation val := (value ciL).

(** [( X.p[0] & 1 ) == 0] tests the parity of the value.  The MPIs the source
    reads this way ([TU], [U1], [U2], [TV], [V1], [V2]) are copies or set by
    [lset] and only go through [add_mpi], [sub_mpi] and [shift_r], so they
    hold at least one limb; limb 0 of an empty buffer reads as 0 here. *)
Lemma parity_test (X : mpi) :
  wf ciL X -> (Z.land (limb (p X) 0) 1 =? 0) = Z.even (val X).
Proof.
  clear e W_pow MAX_pos.
  intros HX. destruct (p X) as [|x l] eqn:EP.
  - unfold value. rewrite EP. cbn [mag limb nth]. rewrite Z.mul_0_r. reflexivity.
  - rewrite <- EP. apply (value_parity ciL ciL_pos X HX).
    unfold n. rewrite EP. cbn. lia.
Qed.

(** [shift_r( X, 1 )] halves an even value exactly, whatever its sign. *)
Lemma shift_r_exact (X : mpi) :
  wf ciL X -> Z.even (val X) = true ->
  exists X', sgx_mpi_shift_r ciL MAX_LIMBS X 1 = (X', None) /\
             wf ciL X' /\ val X' = val X / 2.
Proof.
  intros [SX LX] Hev.
  destruct (shift_r_spec ciL MAX_LIMBS e ciL_pos W_pow X 1 LX MAX_pos)
    as (X' & E & R1 & _ & R3 & R4 & _).
  exists X'. split; [exact E|]. split.
  - split; [|exact R1]. destruct R4 as [R4|R4]; [left; exact R4|rewrite R4; exact SX].
  - rewrite R3. change (pow2 1) with 2. unfold value in *.
    assert (Hm : Z.even (mg (p X)) = true).
    { clear - SX Hev. rewrite Z.even_mul in Hev.
      destruct SX as [ES|ES]; rewrite ES in Hev; exact Hev. }
    apply Z.even_spec in Hm. destruct Hm as [c Hc]. rewrite Hc.
    rewrite (Z.mul_comm 2 c), Z.div_mul by lia.
    replace (s X * (c * 2)) with (s X * c * 2) by ring.
    rewrite Z.div_mul by lia. reflexivity.
Qed.

Variables TA TB : mpi.
Hypothesis WTA : wf ciL TA.
Hypothesis WTB : wf ciL TB.
Hypothesis Hodd : Z.even (val TA) = false \/ Z.even (val TB) = false.

(** What the loops of [sgx_mpi_inv_mod] keep about a triple [(TU, U1, U2)]:
    [U1 * TA + U2 * TB = TU]. *)
Lemma inv_halve_inv (fuel : nat) :
  forall (TU U1 U2 TU' U1' U2' : mpi),
    wf ciL TU -> wf ciL U1 -> wf ciL U2 ->
    val U1 * val TA + val U2 * val TB = val TU -> 0 <= val TU ->
    inv_halve ciL MAX_LIMBS fuel TA TB (TU, U1, U2) = Ok (TU', U1', U2') ->
    wf ciL TU' /\ wf ciL U1' /\ wf ciL U2' /\
    val U1' * val TA + val U2' * val TB = val TU' /\
    0 <= val TU' /\ (val TU' | val TU).
Proof.
  assert (Hout : forall TU U1 U2 TU' U1' U2' : mpi,
    wf ciL TU -> wf ciL U1 -> wf ciL U2 ->
    val U1 * val TA + val U2 * val TB = val TU -> 0 <= val TU ->
    @Ok (mpi * mpi * mpi) (TU, U1, U2) = Ok (TU', U1', U2') ->
    wf ciL TU' /\ wf ciL U1' /\ wf ciL U2' /\
    val U1' * val TA + val U2' * val TB = val TU' /\
    0 <= val TU' /\ (val TU' | val TU)).
  { intros TU U1 U2 TU' U1' U2' WU W1 W2 Hrel Hpos E. inversion E; subst.
    split; [exact WU|]. split; [exact W1|]. split; [exact W2|].
    split; [exact Hrel|]. split; [exact Hpos|apply Z.divide_refl]. }
  induction fuel as [|f IH]; intros TU U1 U2 TU' U1' U2' WU W1 W2 Hrel Hpos;
    cbn [inv_halve]; rewrite (parity_test TU WU);
    destruct (Z.even (val TU)) eqn:Eu;
    [discriminate | apply Hout; assumption | | apply Hout; assumption].
  destruct (shift_r_exact TU WU Eu) as (TU1 & E1 & WU1 & VU1).
  rewrite E1. cbn [MPI_CHK bind].
  rewrite (parity_test U1 W1), (parity_test U2 W2).
  assert (Hstep : forall U1a U2a : mpi,
    wf ciL U1a -> wf ciL U2a ->
    val U1a * val TA + val U2a * val TB = val TU ->
    Z.even (val U1a) = true -> Z.even (val U2a) = true ->
    (U1 <- MPI_CHK (sgx_mpi_shift_r ciL MAX_LIMBS U1a 1) ;;
     U2 <- MPI_CHK (sgx_mpi_shift_r ciL MAX_LIMBS U2a 1) ;;
     inv_halve ciL MAX_LIMBS f TA TB (TU1, U1, U2)) = Ok (TU', U1', U2') ->
    wf ciL TU' /\ wf ciL U1' /\ wf ciL U2' /\
    val U1' * val TA + val U2' * val TB = val TU' /\
    0 <= val TU' /\ (val TU' | val TU)).
  { intros U1a U2a W1a W2a Hrela Ev1 Ev2.
    destruct (shift_r_exact U1a W1a Ev1) as (U1b & E2 & W1b & V1b).
    destruct (shift_r_exact U2a W2a Ev2) as (U2b & E3 & W2b & V2b).
    rewrite E2. cbn [MPI_CHK bind]. rewrite E3. cbn [MPI_CHK bind].
    intros E.
    assert (Hrelb : val U1b * val TA + val U2b * val TB = val TU1).
    { rewrite V1b, V2b, VU1, <- Hrela.
      apply inv_both_even; [rewrite Hrela; exact Eu|exact Ev1|exact Ev2]. }
    assert (Hpos1 : 0 <= val TU1).
    { rewrite VU1. apply Z.div_pos; lia. }
    destruct (IH TU1 U1b U2b TU' U1' U2' WU1 W1b W2b Hrelb Hpos1 E)
      as (R1 & R2 & R3 & R4 & R5 & R6).
    split; [exact R1|]. split; [exact R2|]. split; [exact R3|].
    split; [exact R4|]. split; [exact R5|].
    apply Z.divide_trans with (val TU1); [exact R6|].
    rewrite VU1. apply half_divides. exact Eu. }
  destruct (Z.even (val U1)) eqn:Ev1; destruct (Z.even (val U2)) eqn:Ev2;
    cbn [negb orb].
  4: {
    (* both odd (or one of them): adjust by TB and TA *)
    destruct (sgx_mpi_add_mpi ciL MAX_LIMBS U1 U1 TB true false)
      as [U1a [er|]] eqn:Ea; cbn [MPI_CHK bind]; [discriminate|].
    destruct (sgx_mpi_sub_mpi ciL MAX_LIMBS U2 U2 TA true false)
      as [U2a [er|]] eqn:Es; cbn [MPI_CHK bind]; [discriminate|].
    destruct (add_mpi_inv ciL MAX_LIMBS ciL_pos U1 U1 TB U1a true false W1 WTB
                ltac:(reflexivity) ltac:(discriminate) eq_refl Ea) as [W1a V1a].
    destruct (sub_mpi_inv ciL MAX_LIMBS ciL_pos U2 U2 TA U2a true false W2 WTA
                ltac:(reflexivity) ltac:(discriminate) eq_refl Es) as [W2a V2a].
    destruct (inv_adjust_even (val U1) (val U2) (val TA) (val TB)) as [A1 A2];
      [rewrite Hrel; exact Eu|exact Hodd|left; exact Ev1|].
    apply Hstep; auto; try (rewrite V1a; exact A1); try (rewrite V2a; exact A2).
    rewrite V1a, V2a, <- Hrel. ring. }
  - apply Hstep; auto.
  - destruct (sgx_mpi_add_mpi ciL MAX_LIMBS U1 U1 TB true false)
      as [U1a [er|]] eqn:Ea; cbn [MPI_CHK bind]; [discriminate|].
    destruct (sgx_mpi_sub_mpi ciL MAX_LIMBS U2 U2 TA true false)
      as [U2a [er|]] eqn:Es; cbn [MPI_CHK bind]; [discriminate|].
    destruct (add_mpi_inv ciL MAX_LIMBS ciL_pos U1 U1 TB U1a true false W1 WTB
                ltac:(reflexivity) ltac:(discriminate) eq_refl Ea) as [W1a V1a].
    destruct (sub_mpi_inv ciL MAX_LIMBS ciL_pos U2 U2 TA U2a true false W2 WTA
                ltac:(reflexivity) ltac:(discriminate) eq_refl Es) as [W2a V2a].
    destruct (inv_adjust_even (val U1) (val U2) (val TA) (val TB)) as [A1 A2];
      [rewrite Hrel; exact Eu|exact Hodd|right; exact Ev2|].
    apply Hstep; auto; try (rewrite V1a; exact A1); try (rewrite V2a; exact A2).
    rewrite V1a, V2a, <- Hrel. ring.
  - destruct (sgx_mpi_add_mpi ciL MAX_LIMBS U1 U1 TB true false)
      as [U1a [er|]] eqn:Ea; cbn [MPI_CHK bind]; [discriminate|].
    destruct (sgx_mpi_sub_mpi ciL MAX_LIMBS U2 U2 TA true false)
      as [U2a [er|]] eqn:Es; cbn [MPI_CHK bind]; [discriminate|].
    destruct (add_mpi_inv ciL MAX_LIMBS ciL_pos U1 U1 TB U1a true false W1 WTB
                ltac:(reflexivity) ltac:(discriminate) eq_refl Ea) as [W1a V1a].
    destruct (sub_mpi_inv ciL MAX_LIMBS ciL_pos U2 U2 TA U2a true false W2 WTA
                ltac:(reflexivity) ltac:(discriminate) eq_refl Es) as [W2a V2a].
    destruct (inv_adjust_even (val U1) (val U2) (val TA) (val TB)) as [A1 A2];
      [rewrite Hrel; exact Eu|exact Hodd|left; exact Ev1|].
    apply Hstep; auto; try (rewrite V1a; exact A1); try (rewrite V2a; exact A2).
    rewrite V1a, V2a, <- Hrel. ring.
Qed.

Lemma gcd_divisor_l (a' a b : Z) : (a' | a) -> Z.gcd a b = 1 -> Z.gcd a' b = 1.
Proof.
  clear. intros Hd Hg.
  assert (H : (Z.gcd a' b | 1)).
  { rewrite <- Hg. apply Z.gcd_greatest.
    - apply Z.divide_trans with a'; [apply Z.gcd_divide_l|exact Hd].
    - apply Z.gcd_divide_r. }
  apply Z.divide_1_r_nonneg in H; [exact H|apply Z.gcd_nonneg].
Qed.

Lemma divisor_pos (a' a : Z) : (a' | a) -> 0 <= a' -> 0 < a -> 0 < a'.
Proof.
  clear. intros [c Hc] H0 Ha. destruct (Z.eq_dec a' 0) as [E|]; [|lia].
  rewrite E, Z.mul_0_r in Hc. lia.
Qed.

(** The [do ... while( TU != 0 )] loop: when it ends, [V1 * TA + V2 * TB = 1]. *)
Lemma inv_loop_inv (fuel : nat) :
  forall (TU U1 U2 TV V1 V2 : mpi)
         (st' : (mpi * mpi * mpi) * (mpi * mpi * mpi)),
    wf ciL TU -> wf ciL U1 -> wf ciL U2 ->
    wf ciL TV -> wf ciL V1 -> wf ciL V2 ->
    val U1 * val TA + val U2 * val TB = val TU ->
    val V1 * val TA + val V2 * val TB = val TV ->
    0 <= val TU -> 0 < val TV -> Z.gcd (val TU) (val TV) = 1 ->
    inv_loop ciL MAX_LIMBS fuel TA TB ((TU, U1, U2), (TV, V1, V2)) = Ok st' ->
    let V1' := snd (fst (snd st')) in
    let V2' := snd (snd st') in
    wf ciL V1' /\ val V1' * val TA + val V2' * val TB = 1.
Proof.
  induction fuel as [|f IH];
    intros TU U1 U2 TV V1 V2 st' WU W1 W2 WV X1 X2 RU RV PU PV HG;
    cbn [inv_loop fst snd]; [discriminate|].
  intros E.
  apply bind_Ok in E. destruct E as ([[TU2 U1b] U2b] & EH1 & E).
  destruct (inv_halve_inv (S f) TU U1 U2 TU2 U1b U2b WU W1 W2 RU PU EH1)
    as (WU2 & W1b & W2b & RU2 & PU2 & DU).
  apply bind_Ok in E. destruct E as ([[TV2 V1b] V2b] & EH2 & E).
  destruct (inv_halve_inv (S f) TV V1 V2 TV2 V1b V2b WV X1 X2 RV ltac:(lia) EH2)
    as (WV2 & X1b & X2b & RV2 & PV2 & DV).
  assert (PV2' : 0 < val TV2) by (apply (divisor_pos _ _ DV PV2 PV)).
  assert (HG2 : Z.gcd (val TU2) (val TV2) = 1).
  { apply (gcd_divisor_l _ _ _ DU). rewrite Z.gcd_comm.
    apply (gcd_divisor_l _ _ _ DV). rewrite Z.gcd_comm. exact HG. }
  clear EH1 EH2 DU DV HG RU RV.
  apply bind_Ok in E. destruct E as (st1 & ES & E).
  assert (Hst : exists TU3 U1c U2c TV3 V1c V2c,
    st1 = ((TU3, U1c, U2c), (TV3, V1c, V2c)) /\
    wf ciL TU3 /\ wf ciL U1c /\ wf ciL U2c /\
    wf ciL TV3 /\ wf ciL V1c /\ wf ciL V2c /\
    val U1c * val TA + val U2c * val TB = val TU3 /\
    val V1c * val TA + val V2c * val TB = val TV3 /\
    0 <= val TU3 /\ 0 < val TV3 /\ Z.gcd (val TU3) (val TV3) = 1).
  { rewrite (cmp_mpi_spec ciL TU2 TV2 WU2 WV2) in ES.
    destruct (Z.geb_spec (Z.sgn (val TU2 - val TV2)) 0) as [Hc|Hc].
    - assert (Hge : val TV2 <= val TU2).
      { destruct (Z.le_gt_cases (val TV2) (val TU2)); auto.
        pose proof (Z.sgn_neg_iff (val TU2 - val TV2)) as [_ F]. lia. }
      apply bind_Ok in ES. destruct ES as (TU3 & E1 & ES).
      apply bind_Ok in ES. destruct ES as (U1c & E2 & ES).
      apply bind_Ok in ES. destruct ES as (U2c & E3 & ES).
      apply MPI_CHK_Ok in E1, E2, E3. inversion ES; subst st1; clear ES.
      destruct (sub_mpi_inv ciL MAX_LIMBS ciL_pos _ _ _ _ true false WU2 WV2
                  ltac:(reflexivity) ltac:(discriminate) eq_refl E1) as [A1 B1].
      destruct (sub_mpi_inv ciL MAX_LIMBS ciL_pos _ _ _ _ true false W1b X1b
                  ltac:(reflexivity) ltac:(discriminate) eq_refl E2) as [A2 B2].
      destruct (sub_mpi_inv ciL MAX_LIMBS ciL_pos _ _ _ _ true false W2b X2b
                  ltac:(reflexivity) ltac:(discriminate) eq_refl E3) as [A3 B3].
      exists TU3, U1c, U2c, TV2, V1b, V2b.
      split; [reflexivity|]. do 6 (split; [assumption|]).
      split; [rewrite B1, B2, B3, <- RU2, <- RV2; ring|].
      split; [exact RV2|]. split; [lia|]. split; [exact PV2'|].
      rewrite B1, Z.gcd_comm, Z.gcd_sub_diag_r, Z.gcd_comm. exact HG2.
    - assert (Hlt : val TU2 < val TV2).
      { destruct (Z.lt_ge_cases (val TU2) (val TV2)); auto.
        pose proof (Z.sgn_nonneg (val TU2 - val TV2)). lia. }
      apply bind_Ok in ES. destruct ES as (TV3 & E1 & ES).
      apply bind_Ok in ES. destruct ES as (V1c & E2 & ES).
      apply bind_Ok in ES. destruct ES as (V2c & E3 & ES).
      apply MPI_CHK_Ok in E1, E2, E3. inversion ES; subst st1; clear ES.
      destruct (sub_mpi_inv ciL MAX_LIMBS ciL_pos _ _ _ _ true false WV2 WU2
                  ltac:(reflexivity) ltac:(discriminate) eq_refl E1) as [A1 B1].
      destruct (sub_mpi_inv ciL MAX_LIMBS ciL_pos _ _ _ _ true false X1b W1b
                  ltac:(reflexivity) ltac:(discriminate) eq_refl E2) as [A2 B2].
      destruct (sub_mpi_inv ciL MAX_LIMBS ciL_pos _ _ _ _ true false X2b W2b
                  ltac:(reflexivity) ltac:(discriminate) eq_refl E3) as [A3 B3].
      exists TU2, U1b, U2b, TV3, V1c, V2c.
      split; [reflexivity|]. do 6 (split; [assumption|]).
      split; [exact RU2|].
      split; [rewrite B1, B2, B3, <- RU2, <- RV2; ring|].
      split; [exact PU2|]. split; [lia|].
      rewrite B1, Z.gcd_sub_diag_r. exact HG2. }
  destruct Hst as (TU3 & U1c & U2c & TV3 & V1c & V2c & -> & WU3 & W1c & W2c
                   & WV3 & X1c & X2c & RU3 & RV3 & PU3 & PV3 & HG3).
  cbn [fst snd] in E. rewrite (cmp_int_0 ciL TU3 WU3) in E.
  destruct (Z.eqb_spec (Z.sgn (val TU3)) 0) as [E0|N0]; cbn [negb] in E.
  - inversion E; subst st'; clear E. cbn [fst snd].
    split; [exact X1c|].
    destruct (Z.sgn_null_iff (val TU3)) as [H1 _]. specialize (H1 E0).
    rewrite H1 in HG3. cbn [Z.gcd] in HG3. rewrite RV3. lia.
  - apply (IH TU3 U1c U2c TV3 V1c V2c st'); assumption.
Qed.

End InvMod.

Section InvModMain.

Variables ciL MAX_LIMBS e : nat.
Hypothesis ciL_pos : (0 < ciL)%nat.
Hypothesis W_pow : biL ciL = (2 ^ e)%nat.

Local Abbreviation B := (base ciL).
Local Abbreviation mg := (mag ciL).
Local Abbreviation lok := (limbs_ok ciL).
Local Abbreviation val := (value ciL).

Lemma copy_wf_val (X Y X' : mpi) :
  wf ciL Y -> sgx_mpi_copy MAX_LIMBS X Y false = (X', None) ->
  wf ciL X' /\ val X' = val Y.
Proof.
  clear e W_pow.
  intros [SY LY] E. destruct (copy_inv ciL MAX_LIMBS _ _ _ E) as (C1 & C2 & C3 & C4).
  destruct (p Y) as [|a l] eqn:EY.
  - rewrite (C4 eq_refl). split; [split; [left; reflexivity|constructor]|].
    unfold value. rewrite EY. cbn. lia.
  - destruct (C3 ltac:(discriminate)) as (C5 & _).
    split; [split; [rewrite C5; exact SY|auto]|].
    unfold value. rewrite C5, C1, EY. reflexivity.
Qed.

(** [while( V1 < 0 ) V1 += N], when it ends. *)
Lemma mod_add_back_inv (Bm : mpi) (fuel : nat) :
  forall R R' : mpi,
    wf ciL Bm -> wf ciL R ->
    mod_add_back ciL MAX_LIMBS fuel Bm R = Ok R' ->
    wf ciL R' /\ 0 <= val R' /\ exists j, val R' = val R + j * val Bm.
Proof.
  clear e W_pow.
  induction fuel as [|f IH]; intros R R' WB WR; rewrite mod_add_back_eq;
    rewrite (cmp_int_0 ciL R WR);
    destruct (Z.ltb_spec (Z.sgn (val R)) 0) as [Hn|Hp]; try discriminate.
  - intros E. inversion E; subst. split; [exact WR|]. split.
    + destruct (Z.lt_ge_cases (val R') 0) as [F|]; [|assumption].
      pose proof (Z.sgn_neg_iff (val R')) as [_ G]. lia.
    + exists 0. ring.
  - intros E. apply bind_Ok in E. destruct E as (R1 & E1 & E).
    apply MPI_CHK_Ok in E1.
    destruct (add_mpi_inv ciL MAX_LIMBS ciL_pos _ _ _ _ true false WR WB
                ltac:(reflexivity) ltac:(discriminate) eq_refl E1) as [W1 V1].
    destruct (IH R1 R' WB W1 E) as (I1 & I2 & j & I3).
    split; [exact I1|]. split; [exact I2|]. exists (j + 1). rewrite I3, V1. ring.
  - intros E. inversion E; subst. split; [exact WR|]. split.
    + destruct (Z.lt_ge_cases (val R') 0) as [F|]; [|assumption].
      pose proof (Z.sgn_neg_iff (val R')) as [_ G]. lia.
    + exists 0. ring.
Qed.

(** [while( V1 >= N ) V1 -= N], when it ends. *)
Lemma mod_sub_down_inv (Bm : mpi) (fuel : nat) :
  forall R R' : mpi,
    wf ciL Bm -> wf ciL R -> 0 < val Bm -> 0 <= val R ->
    mod_sub_down ciL MAX_LIMBS fuel Bm R = Ok R' ->
    wf ciL R' /\ 0 <= val R' < val Bm /\ exists j, val R' = val R - j * val Bm.
Proof.
  clear e W_pow.
  induction fuel as [|f IH]; intros R R' WB WR PB PR; rewrite mod_sub_down_eq;
    rewrite (cmp_mpi_spec ciL R Bm WR WB);
    destruct (Z.geb_spec (Z.sgn (val R - val Bm)) 0) as [Hge|Hlt]; try discriminate.
  - intros E. inversion E; subst. split; [exact WR|]. split.
    + pose proof (Z.sgn_nonneg (val R' - val Bm)). lia.
    + exists 0. ring.
  - assert (Hle : val Bm <= val R).
    { destruct (Z.le_gt_cases (val Bm) (val R)); auto.
      pose proof (Z.sgn_neg_iff (val R - val Bm)) as [_ F]. lia. }
    intros E. apply bind_Ok in E. destruct E as (R1 & E1 & E).
    apply MPI_CHK_Ok in E1.
    destruct (sub_mpi_inv ciL MAX_LIMBS ciL_pos _ _ _ _ true false WR WB
                ltac:(reflexivity) ltac:(discriminate) eq_refl E1) as [W1 V1].
    destruct (IH R1 R' WB W1 PB ltac:(lia) E) as (I1 & I2 & j & I3).
    split; [exact I1|]. split; [exact I2|]. exists (j + 1). rewrite I3, V1. ring.
  - intros E. inversion E; subst. split; [exact WR|]. split.
    + pose proof (Z.sgn_nonneg (val R' - val Bm)). lia.
    + exists 0. ring.
Qed.

#[local] Hint Resolve None_benign Some_benign Ok_benign OutOfFuel_benign
  copy_benign lset_benign shift_r_benign add_mpi_benign sub_mpi_benign
  mod_mpi_benign mod_add_back_benign mod_sub_down_benign : benign.

Lemma inv_halve_benign (TA TB : mpi) (fuel : nat) :
  forall st, res_benign (inv_halve ciL MAX_LIMBS fuel TA TB st).
Proof.
  clear. induction fuel as [|f IH]; intros [[TU U1] U2]; cbn [inv_halve];
    benign_tac.
Qed.

Lemma inv_loop_benign (TA TB : mpi) (fuel : nat) :
  forall st, res_benign (inv_loop ciL MAX_LIMBS fuel TA TB st).
Proof.
  clear. pose proof (inv_halve_benign TA TB) as HH.
  induction fuel as [|f IH]; intros st; cbn [inv_loop]; benign_tac.
Qed.

Lemma gcd_one_not_both_even (x y : Z) :
  Z.gcd x y = 1 -> Z.even x = false \/ Z.even y = false.
Proof.
  clear. intros Hg. destruct (Z.even x) eqn:Ex; [|left; reflexivity].
  destruct (Z.even y) eqn:Ey; [|right; reflexivity]. exfalso.
  apply Z.even_spec in Ex, Ey.
  assert (H : (2 | Z.gcd x y)).
  { apply Z.gcd_greatest; [destruct Ex as [c ->]|destruct Ey as [c ->]];
      exists c; ring. }
  rewrite Hg in H. apply Z.divide_1_r_nonneg in H; lia.
Qed.

Lemma inv_mod_spec (fuel : nat) (X A N : mpi) :
  wf ciL A -> wf ciL N ->
  (3 <= MAX_LIMBS)%nat -> (n A + 2 <= MAX_LIMBS)%nat -> (n N <= MAX_LIMBS)%nat ->
  B + Z.abs (val A) + Z.abs (val N) < Z.of_nat fuel ->
  let r := sgx_mpi_inv_mod ciL MAX_LIMBS fuel X A N in
  (val N <= 0 -> r = Err BAD_INPUT_DATA) /\
  (0 < val N -> Z.gcd (val A) (val N) <> 1 -> r = Err NOT_ACCEPTABLE) /\
  (0 < val N -> Z.gcd (val A) (val N) = 1 ->
   r <> Err NOT_ACCEPTABLE /\
   forall X', r = Ok X' ->
     wf ciL X' /\ 0 <= val X' < val N /\
     (val A * val X') mod val N = 1 mod val N).
Proof.
  intros WA WN HM NA NN Hf r. subst r. unfold sgx_mpi_inv_mod.
  pose proof (base_gt_1 ciL ciL_pos) as HB.
  rewrite (cmp_int_0 ciL N WN).
  destruct (Z.leb_spec (Z.sgn (val N)) 0) as [Hs|Hs].
  { assert (val N <= 0).
    { destruct (Z.le_gt_cases (val N) 0); auto.
      pose proof (Z.sgn_pos_iff (val N)) as [_ F]. lia. }
    split; [reflexivity|]. split; intros; lia. }
  assert (PN : 0 < val N).
  { destruct (Z.lt_ge_cases 0 (val N)); auto.
    pose proof (Z.sgn_nonpos (val N)). lia. }
  split; [intros; lia|].
  pose proof (mag_abs ciL ciL_pos A WA) as EA.
  pose proof (mag_abs ciL ciL_pos N WN) as EN.
  destruct (gcd_total ciL MAX_LIMBS e ciL_pos W_pow fuel sgx_mpi_init A N WA WN
              ltac:(lia) NN ltac:(cbn; lia) ltac:(lia)
              ltac:(rewrite EA, EN; lia))
    as (G & EG & WG & _ & VG).
  rewrite EG. cbn [bind].
  rewrite EA, EN, Z.gcd_abs_l, Z.gcd_abs_r in VG.
  destruct (Z.eqb_spec (Z.abs (val N)) 0) as [F|_]; [lia|].
  rewrite (cmp_int_spec ciL G 1 WG) by lia. rewrite VG.
  destruct (Z.eqb_spec (Z.sgn (Z.gcd (val A) (val N) - 1)) 0) as [E1|N1];
    cbn [negb].
  2: { split; [reflexivity|]. intros _ F. exfalso. apply N1. rewrite F. reflexivity. }
  assert (HG : Z.gcd (val A) (val N) = 1).
  { destruct (Z.sgn_null_iff (Z.gcd (val A) (val N) - 1)) as [H1 _].
    specialize (H1 E1). lia. }
  split; [intros _ F; contradiction|]. intros _ _. split.
  { (* no later step returns NOT_ACCEPTABLE *)
    match goal with |- ?t <> _ => assert (Hb : res_benign t) end.
    { pose proof (inv_loop_benign) as HL. benign_tac. }
    intros F. specialize (Hb _ F).
    destruct Hb as [Hb|[Hb|Hb]]; discriminate. }
  intros X'.
  destruct (mod_mpi_total ciL MAX_LIMBS e ciL_pos W_pow MAX_LIMBS fuel
              sgx_mpi_init A N false WA WN PN NA NN ltac:(cbn; lia) ltac:(lia)
              ltac:(discriminate) ltac:(lia))
    as (TA & ETA & WTA & _ & VTA).
  rewrite ETA. cbn [bind]. intros E.
  apply bind_Ok in E. destruct E as (TU & E1' & E). apply MPI_CHK_Ok in E1'.
  apply bind_Ok in E. destruct E as (TB & E2 & E). apply MPI_CHK_Ok in E2.
  apply bind_Ok in E. destruct E as (TV & E3 & E). apply MPI_CHK_Ok in E3.
  apply bind_Ok in E. destruct E as (U1 & E4 & E). apply MPI_CHK_Ok in E4.
  apply bind_Ok in E. destruct E as (U2 & E5 & E). apply MPI_CHK_Ok in E5.
  apply bind_Ok in E. destruct E as (V1 & E6 & E). apply MPI_CHK_Ok in E6.
  apply bind_Ok in E. destruct E as (V2 & E7 & E). apply MPI_CHK_Ok in E7.
  destruct (copy_wf_val _ _ _ WTA E1') as [WTU VTU].
  destruct (copy_wf_val _ _ _ WN E2) as [WTB VTB].
  destruct (copy_wf_val _ _ _ WN E3) as [WTV VTV].
  destruct (lset_value ciL MAX_LIMBS _ _ _ E4 ltac:(lia)) as (VU1 & WU1 & _).
  destruct (lset_value ciL MAX_LIMBS _ _ _ E5 ltac:(lia)) as (VU2 & WU2 & _).
  destruct (lset_value ciL MAX_LIMBS _ _ _ E6 ltac:(lia)) as (VV1 & WV1 & _).
  destruct (lset_value ciL MAX_LIMBS _ _ _ E7 ltac:(lia)) as (VV2 & WV2 & _).
  apply bind_Ok in E. destruct E as (st' & EL & E).
  assert (HGx : Z.gcd (val TA) (val TB) = 1).
  { rewrite VTA, VTB, Z.gcd_mod by lia. rewrite Z.gcd_comm. exact HG. }
  assert (Hx : 0 <= val TA < val N).
  { rewrite VTA. apply Z.mod_pos_bound. exact PN. }
  destruct (inv_loop_inv ciL MAX_LIMBS e ciL_pos W_pow ltac:(lia) TA TB WTA WTB
              (gcd_one_not_both_even _ _ HGx) fuel TU U1 U2 TV V1 V2 st'
              WTU WU1 WU2 WTV WV1 WV2
              ltac:(rewrite VU1, VU2, VTU; ring)
              ltac:(rewrite VV1, VV2, VTV, VTB; ring)
              ltac:(rewrite VTU; lia) ltac:(rewrite VTV; exact PN)
              ltac:(rewrite VTU, VTV, <- VTB; exact HGx) EL)
    as [WV1' Hrel].
  destruct st' as [[[TU' U1'] U2'] [[TV' V1'] V2']]. cbn [fst snd] in *.
  apply bind_Ok in E. destruct E as (V1a & EA1 & E).
  apply bind_Ok in E. destruct E as (V1b & EB1 & E). apply MPI_CHK_Ok in E.
  destruct (mod_add_back_inv N fuel V1' V1a WN WV1' EA1) as (WA1 & PA1 & j1 & JA1).
  destruct (mod_sub_down_inv N fuel V1a V1b WN WA1 PN PA1 EB1)
    as (WB1 & PB1 & j2 & JB1).
  destruct (copy_wf_val _ _ _ WB1 E) as [WX VX].
  split; [exact WX|]. rewrite VX. split; [exact PB1|].
  rewrite JB1, JA1.
  pose proof (Z.div_mod (val A) (val N) ltac:(lia)) as DA.
  rewrite <- VTA in DA. rewrite VTB in Hrel.
  clear - DA Hrel PN.
  set (a := val A) in *. set (nv := val N) in *. set (x := val TA) in *.
  set (q := a / nv) in *. set (v1 := val V1') in *. set (v2 := val V2') in *.
  clearbody a nv x q v1 v2.
  replace (a * (v1 + j1 * nv - j2 * nv))
    with (1 + (q * (v1 + j1 * nv - j2 * nv) + x * (j1 - j2) - v2) * nv).
  - rewrite Z.mod_add by lia. reflexivity.
  - rewrite DA. rewrite <- Hrel at 1. ring.
Qed.

(** With [TU = 0] the halving loop never ends: [TU] stays even. *)
Lemma inv_halve_zero (TA TB : mpi) (fuel : nat) :
  (1 <= MAX_LIMBS)%nat ->
  forall (TU U1 U2 : mpi) (st' : mpi * mpi * mpi),
    wf ciL TU -> val TU = 0 ->
    inv_halve ciL MAX_LIMBS fuel TA TB (TU, U1, U2) <> Ok st'.
Proof.
  intros HM. induction fuel as [|f IH]; intros TU U1 U2 st' WU VU;
    cbn [inv_halve]; rewrite (parity_test ciL ciL_pos TU WU), VU;
    cbn [Z.even]; [discriminate|].
  destruct (shift_r_exact ciL MAX_LIMBS e ciL_pos W_pow HM TU WU
              ltac:(rewrite VU; reflexivity)) as (TU1 & E1 & WU1 & VU1).
  rewrite E1. cbn [MPI_CHK bind]. intros E.
  apply bind_Ok in E. destruct E as ([U1a U2a] & _ & E).
  apply bind_Ok in E. destruct E as (U1b & _ & E).
  apply bind_Ok in E. destruct E as (U2b & _ & E).
  apply (IH TU1 U1b U2b st' WU1); [|exact E].
  rewrite VU1, VU. reflexivity.
Qed.

(** So [sgx_mpi_inv_mod] never returns 0 for the modulus 1. *)
Lemma inv_mod_modulus_one (fuel : nat) (X A N X' : mpi) :
  wf ciL A -> wf ciL N ->
  (3 <= MAX_LIMBS)%nat -> (n A + 2 <= MAX_LIMBS)%nat -> (n N <= MAX_LIMBS)%nat ->
  B + Z.abs (val A) + Z.abs (val N) < Z.of_nat fuel ->
  val N = 1 ->
  sgx_mpi_inv_mod ciL MAX_LIMBS fuel X A N <> Ok X'.
Proof.
  intros WA WN HM NA NN Hf VN. unfold sgx_mpi_inv_mod.
  destruct (sgx_mpi_cmp_int ciL N 0 <=? 0); [discriminate|].
  intros E. apply bind_Ok in E. destruct E as (G & _ & E).
  destruct (negb (sgx_mpi_cmp_int ciL G 1 =? 0)); [discriminate|].
  destruct (mod_mpi_total ciL MAX_LIMBS e ciL_pos W_pow MAX_LIMBS fuel
              sgx_mpi_init A N false WA WN ltac:(lia) NA NN ltac:(cbn; lia)
              ltac:(lia) ltac:(discriminate) ltac:(lia))
    as (TA & ETA & WTA & _ & VTA).
  rewrite ETA in E. cbn [bind] in E.
  rewrite VN, Z.mod_1_r in VTA.
  apply bind_Ok in E. destruct E as (TU & E1 & E). apply MPI_CHK_Ok in E1.
  destruct (copy_wf_val _ _ _ WTA E1) as [WTU VTU].
  do 6 (apply bind_Ok in E; destruct E as (? & _ & E)).
  apply bind_Ok in E. destruct E as (st' & EL & _).
  destruct fuel as [|f]; [discriminate|]. cbn [inv_loop fst snd] in EL.
  apply bind_Ok in EL. destruct EL as (st1 & EH & _).
  revert EH. apply inv_halve_zero; [lia|exact WTU|]. rewrite VTU. exact VTA.
Qed.

End InvModMain.


